(** * Verification of the rsync-Phoenix delta engine and wire codec

    Shallow embedding of [rsync_phoenix_rebuilt.py]: the rolling checksum,
    the signature builder, the hash index, the delta matcher
    ([ChecksumEngine.generate_delta]), the reconstructor
    ([ChecksumEngine.apply_delta], [receive_data]), the integer codecs of
    [ProtocolIO] and the algorithm negotiation rule.

    Python integers are unbounded and are modelled by [Z]; a byte string is a
    list of byte values ([list Z], every element in [0, 256)); exceptions are
    modelled by the [result] type. *)

From Stdlib Require Import ZArith List Lia Bool QArith Sorted.
From stdpp Require Import base option list gmap strings.

Local Open Scope Z_scope.

(** ** Exceptions and the error monad *)

Inductive error : Type :=
| ValidationError
| ResourceLimitError
| ProtocolError
| EOFError
| IndexError
| StructError
| ValueError
| OutOfFuel.

Inductive result (A : Type) : Type :=
| Ok (a : A)
| Err (e : error).
Arguments Ok {A} a.
Arguments Err {A} e.

#[global] Instance result_ret : MRet result := fun A a => Ok a.
#[global] Instance result_bind : MBind result := fun A B f m =>
  match m with
  | Ok a => f a
  | Err e => Err e
  end.

Definition of_option {A} (e : error) (o : option A) : result A :=
  match o with
  | Some a => Ok a
  | None => Err e
  end.

(** ** Byte strings *)

Abbreviation bytes := (list Z).

Definition len {A} (l : list A) : Z := Z.of_nat (length l).

(** [data[i]] on a Python sequence: a negative index counts from the end,
    anything outside [-len, len) raises IndexError. *)
Definition getitem {A} (data : list A) (i : Z) : result A :=
  if (0 <=? i) && (i <? len data) then of_option IndexError (data !! Z.to_nat i)
  else if (- len data <=? i) && (i <? 0)
       then of_option IndexError (data !! Z.to_nat (len data + i))
       else Err IndexError.

(** Normalisation of one slice bound, as CPython's [PySlice_AdjustIndices]. *)
Definition slice_bound (n i : Z) : Z :=
  if i <? 0 then Z.max (i + n) 0 else Z.min i n.

(** [data[a:b]] with Python semantics: bounds are clamped, never raises. *)
Definition py_slice {A} (data : list A) (a b : Z) : list A :=
  let lo := slice_bound (len data) a in
  let hi := slice_bound (len data) b in
  take (Z.to_nat (hi - lo)) (drop (Z.to_nat lo) data).

(** ** Constants (rsync.h) *)

Definition PROTOCOL_VERSION : Z := 32.
Definition MAX_BLOCK_SIZE : Z := 131072.
Definition OLD_MAX_BLOCK_SIZE : Z := 8192.
Definition BLOCK_SIZE : Z := 700.
Definition CHUNK_SIZE : Z := 32 * 1024.
Definition BLOCKSUM_BIAS : Z := 10.
Definition SUM_LENGTH : Z := 16.
Definition MD4_DIGEST_LEN : Z := 16.
Definition MD5_DIGEST_LEN : Z := 16.
Definition SHA1_DIGEST_LEN : Z := 20.
Definition MAX_DIGEST_LEN : Z := 64.
Definition SHORT_SUM_LENGTH : Z := 2.
Definition CHAR_OFFSET : Z := 0.
Definition TRADITIONAL_TABLESIZE : Z := 65536.
Definition CHECKSUM_SEED : Z := 0.
Definition MIN_BLOCK_SIZE_LIMIT : Z := 16.
Definition MAX_BLOCK_SIZE_LIMIT : Z := MAX_BLOCK_SIZE * 10.
Definition MAX_FILE_SIZE_IN_MEMORY : Z := 1024 * 1024 * 100.

(** ** Checksum: the weak rolling checksum *)

Module Checksum.

(** One iteration of the byte loop of [rolling_checksum]. *)
Definition roll_step (s : Z * Z) (b : Z) : Z * Z :=
  let byte_val := b + CHAR_OFFSET in
  let s1 := Z.land (fst s + byte_val) 0xFFFF in
  let s2 := Z.land (snd s + s1) 0xFFFF in
  (s1, s2).

(** [for i in range(n): ... data[offset + i] ...] starting at index [i]. *)
Fixpoint rolling_loop (data : bytes) (offset i : Z) (n : nat) (s : Z * Z)
  : result (Z * Z) :=
  match n with
  | O => Ok s
  | S n' =>
      b ← getitem data (offset + i);
      rolling_loop data offset (i + 1) n' (roll_step s b)
  end.

Definition rolling_checksum (data : bytes) (offset : Z) (length : option Z)
  : result Z :=
  let length := match length with
                | Some l => l
                | None => len data - offset
                end in
  '(s1, s2) ← rolling_loop data offset 0 (Z.to_nat length) (0, 0);
  Ok (Z.lor (Z.land s1 0xFFFF) (Z.shiftl s2 16)).

(** The 4-bytes-at-a-time loop of [rolling_checksum_optimized]:
    [while i < length - 3]. *)
Fixpoint optimized_loop4 (fuel : nat) (data : bytes) (offset length i : Z)
         (s : Z * Z) : result (Z * (Z * Z)) :=
  match fuel with
  | O => Ok (i, s)
  | S fuel' =>
      if i <? length - 3 then
        b0 ← getitem data (offset + i);
        b1 ← getitem data (offset + i + 1);
        b2 ← getitem data (offset + i + 2);
        b3 ← getitem data (offset + i + 3);
        let b0 := b0 + CHAR_OFFSET in
        let b1 := b1 + CHAR_OFFSET in
        let b2 := b2 + CHAR_OFFSET in
        let b3 := b3 + CHAR_OFFSET in
        let s1 := fst s in
        let s2 := snd s in
        let s2' := Z.land (s2 + 4 * (s1 + b0) + 3 * b1 + 2 * b2 + b3) 0xFFFF in
        let s1' := Z.land (s1 + b0 + b1 + b2 + b3) 0xFFFF in
        optimized_loop4 fuel' data offset length (i + 4) (s1', s2')
      else Ok (i, s)
  end.

(** The tail loop [while i < length] of [rolling_checksum_optimized]. *)
Fixpoint optimized_loop1 (fuel : nat) (data : bytes) (offset length i : Z)
         (s : Z * Z) : result (Z * Z) :=
  match fuel with
  | O => Ok s
  | S fuel' =>
      if i <? length then
        b ← getitem data (offset + i);
        optimized_loop1 fuel' data offset length (i + 1) (roll_step s b)
      else Ok s
  end.

Definition rolling_checksum_optimized (data : bytes) (offset : Z)
           (length : option Z) : result Z :=
  let length := match length with
                | Some l => l
                | None => len data - offset
                end in
  '(i, s) ← optimized_loop4 (Z.to_nat length) data offset length 0 (0, 0);
  '(s1, s2) ← optimized_loop1 (Z.to_nat length) data offset length i s;
  Ok (Z.lor (Z.land s1 0xFFFF) (Z.shiftl s2 16)).

Definition rolling_update (old_byte new_byte old_s1 old_s2 length : Z)
  : Z * Z :=
  let old_val := old_byte + CHAR_OFFSET in
  let new_val := new_byte + CHAR_OFFSET in
  let new_s1 := Z.land (old_s1 - old_val + new_val) 0xFFFF in
  let new_s2 := Z.land (old_s2 - length * old_val + new_s1) 0xFFFF in
  (new_s1, new_s2).

(** The EOF branch of the matcher loop (generate_delta, "shrink window by
    1 byte"): the two assignments to [s1] and [s2]; the caller also does
    [k -= 1]. *)
Definition shrink_update (old_byte s1 s2 k : Z) : Z * Z :=
  let old_val := old_byte + CHAR_OFFSET in
  (Z.land (s1 - old_val) 0xFFFF, Z.land (s2 - k * old_val) 0xFFFF).

Definition combine_checksum (s1 s2 : Z) : Z :=
  Z.lor (Z.land s1 0xFFFF) (Z.shiftl (Z.land s2 0xFFFF) 16).

Definition checksum_components (checksum : Z) : Z * Z :=
  (Z.land checksum 0xFFFF, Z.land (Z.shiftr checksum 16) 0xFFFF).

End Checksum.

(** ** Configuration ([class Config]) *)

Record Config : Type := {
  HASH_TABLE_DYNAMIC : bool;
  CSUM_LENGTH : Z;
  PROPER_SEED_ORDER : bool;
  UPDATING_BASIS_FILE : bool;
  COMPUTE_SENDER_FILE_SUM : bool;
  VERIFY_SENDER_FILE_SUM_ON_WIRE : bool;
  COLLECT_STATS : bool;
  DEBUG_PARITY : bool
}.

Definition default_config : Config := {|
  HASH_TABLE_DYNAMIC := true;
  CSUM_LENGTH := SHORT_SUM_LENGTH;
  PROPER_SEED_ORDER := true;
  UPDATING_BASIS_FILE := false;
  COMPUTE_SENDER_FILE_SUM := true;
  VERIFY_SENDER_FILE_SUM_ON_WIRE := true;
  COLLECT_STATS := false;
  DEBUG_PARITY := false
|}.

(** ** Strong checksums ([ChecksumType], [ChecksumRegistry]) *)

Inductive ChecksumType : Type :=
| MD4 | MD5 | SHA1 | SHA256 | XXH64 | XXH3 | XXH128 | NONE.

#[global] Instance ChecksumType_eq_dec : EqDecision ChecksumType.
Proof. solve_decision. Defined.

Definition ChecksumType_value (t : ChecksumType) : string :=
  match t with
  | MD4 => "md4" | MD5 => "md5" | SHA1 => "sha1" | SHA256 => "sha256"
  | XXH64 => "xxh64" | XXH3 => "xxh3" | XXH128 => "xxh128" | NONE => "none"
  end.

(** [ChecksumType(name)]: [None] stands for the ValueError of the enum. *)
Definition ChecksumType_of_value (s : string) : option ChecksumType :=
  List.find (fun t => bool_decide (ChecksumType_value t = s))
            [MD4; MD5; SHA1; SHA256; XXH64; XXH3; XXH128; NONE].

(** The digest primitives the program takes from [hashlib] and [xxhash]
    (and its own [_md4_digest]); the development is parametric in them. *)
Record HashLib : Type := {
  md4_digest : bytes -> bytes;
  md5_digest : bytes -> bytes;
  sha1_digest : bytes -> bytes;
  sha256_digest : bytes -> bytes;
  xxh64_digest : bytes -> Z -> bytes;
  xxh3_64_digest : bytes -> Z -> bytes;
  xxh3_128_digest : bytes -> Z -> bytes
}.

(** Little-endian bytes of the low [8 * n] bits of [v]. *)
Fixpoint le_bytes (n : nat) (v : Z) : bytes :=
  match n with
  | O => []
  | S n' => Z.land v 0xFF :: le_bytes n' (Z.shiftr v 8)
  end.

(** [int.from_bytes(b, 'little')], unsigned. *)
Fixpoint le_value (b : bytes) : Z :=
  match b with
  | [] => 0
  | x :: b' => x + 256 * le_value b'
  end.

(** [struct.pack('<I', v)]: struct.error outside [0, 2^32). *)
Definition pack_u32 (v : Z) : result bytes :=
  if (0 <=? v) && (v <? 2 ^ 32) then Ok (le_bytes 4 v) else Err StructError.

Module ChecksumRegistry.

Definition get_checksum_function (lib : HashLib) (cfg : Config)
           (checksum_type : ChecksumType) (seed : Z)
  : result (bytes -> bytes) :=
  match checksum_type with
  | MD4 =>
      if seed =? 0 then Ok (md4_digest lib)
      else seed_bytes ← pack_u32 seed;
           Ok (fun data => md4_digest lib (data ++ seed_bytes))
  | MD5 =>
      if seed =? 0 then Ok (md5_digest lib)
      else seed_bytes ← pack_u32 seed;
           if PROPER_SEED_ORDER cfg
           then Ok (fun data => md5_digest lib (seed_bytes ++ data))
           else Ok (fun data => md5_digest lib (data ++ seed_bytes))
  | SHA1 =>
      if seed =? 0 then Ok (sha1_digest lib)
      else seed_bytes ← pack_u32 seed;
           Ok (fun data => sha1_digest lib (seed_bytes ++ data))
  | SHA256 =>
      if seed =? 0 then Ok (sha256_digest lib)
      else seed_bytes ← pack_u32 seed;
           Ok (fun data => sha256_digest lib (seed_bytes ++ data))
  | XXH64 => Ok (fun data => xxh64_digest lib data seed)
  | XXH3 => Ok (fun data => xxh3_64_digest lib data seed)
  | XXH128 => Ok (fun data => xxh3_128_digest lib data seed)
  | NONE => Ok (fun _ => [0])
  end.

Definition get_digest_length (checksum_type : ChecksumType) : Z :=
  match checksum_type with
  | NONE => 1
  | MD4 => MD4_DIGEST_LEN
  | MD5 => MD5_DIGEST_LEN
  | SHA1 => SHA1_DIGEST_LEN
  | SHA256 => 32
  | XXH64 => 8
  | XXH3 => 8
  | XXH128 => 16
  end.

End ChecksumRegistry.

(** ** Signatures and deltas (the dataclasses) *)

Module BlockChecksum.
Record t : Type := mk {
  weak_checksum : Z;
  strong_checksum : bytes;
  offset : Z;
  length : Z;
  chain : Z
}.
End BlockChecksum.
Abbreviation BlockChecksum := BlockChecksum.t.

Module ChecksumSignature.
Record t : Type := mk {
  block_size : Z;
  file_size : Z;
  num_blocks : Z;
  blocks : list BlockChecksum;
  checksum_type : string;
  protocol_version : Z;
  checksum_seed : Z
}.

Definition remainder (s : t) : Z :=
  if block_size s >? 0 then file_size s mod block_size s else 0.

Definition s2length (s : t) : Z :=
  match blocks s with
  | b :: _ => len (BlockChecksum.strong_checksum b)
  | [] => MD5_DIGEST_LEN
  end.
End ChecksumSignature.
Abbreviation ChecksumSignature := ChecksumSignature.t.

Module DeltaMatch.
Record t : Type := mk {
  block_index : Z;
  offset_in_new : Z;
  length : Z
}.
End DeltaMatch.
Abbreviation DeltaMatch := DeltaMatch.t.

Module DeltaLiteral.
Record t : Type := mk {
  offset : Z;
  data : bytes
}.
End DeltaLiteral.
Abbreviation DeltaLiteral := DeltaLiteral.t.

(** The second component of an instruction tuple:
    [Union[DeltaMatch, DeltaLiteral]]. *)
Inductive DeltaOp : Type :=
| IsMatch (m : DeltaMatch)
| IsLiteral (l : DeltaLiteral).

(** An instruction is the tuple [(cmd, instr)]; the tag is a free string. *)
Definition instruction : Type := string * DeltaOp.

Module SyncStats.
Record t : Type := mk {
  false_alarms : Z;
  hash_hits : Z;
  matches : Z;
  literal_data : Z;
  matched_data : Z
}.
End SyncStats.
Abbreviation SyncStats := SyncStats.t.

Definition sum_Z (l : list Z) : Z := fold_right Z.add 0 l.

(** [sum(instr.length for cmd, instr in ... if cmd == 'match' and
    isinstance(instr, DeltaMatch))] *)
Definition matched_bytes_of (ins : list instruction) : Z :=
  sum_Z (omap (fun ci : instruction =>
                 match ci with
                 | (cmd, IsMatch m) =>
                     if bool_decide (cmd = "match")
                     then Some (DeltaMatch.length m) else None
                 | _ => None
                 end) ins).

Definition literal_bytes_of (ins : list instruction) : Z :=
  sum_Z (omap (fun ci : instruction =>
                 match ci with
                 | (cmd, IsLiteral l) =>
                     if bool_decide (cmd = "literal")
                     then Some (len (DeltaLiteral.data l)) else None
                 | _ => None
                 end) ins).

Module DeltaInstructions.
Record t : Type := mk {
  original_file_size : Z;
  new_file_size : Z;
  block_size : Z;
  instructions : list instruction;
  (** [match_bytes / total_bytes] is a float in the program; the exact
      quotient is kept here (0.0 and 1.0 are exact in both). *)
  compression_ratio : Q;
  stats : option SyncStats;
  xfer_checksum_type : option string;
  xfer_checksum_seed : option Z;
  sender_file_sum : option bytes
}.
End DeltaInstructions.
Abbreviation DeltaInstructions := DeltaInstructions.t.

(** ** Validation *)

Definition validate_block_size (block_size protocol_version : Z) : result unit :=
  if block_size <=? 0 then Err ValidationError
  else if block_size <? MIN_BLOCK_SIZE_LIMIT then Err ValidationError
  else
    let max_blength :=
      if protocol_version <? 30 then OLD_MAX_BLOCK_SIZE else MAX_BLOCK_SIZE in
    if block_size >? max_blength then Err ValidationError
    else if block_size >? MAX_BLOCK_SIZE_LIMIT then Err ValidationError
    else Ok ().

(** [validate_data(data, max_size, min_size=0)]; the isinstance test is the
    type of [data] here. *)
Definition validate_data (data : bytes) (max_size : option Z) : result unit :=
  if len data <? 0 then Err ValidationError
  else match max_size with
       | Some m => if len data >? m then Err ResourceLimitError else Ok ()
       | None => Ok ()
       end.


(** ** Loops *)

(** [while cond(s): s = body(s)], cut off after [fuel] iterations. *)
Fixpoint while_loop {S : Type} (fuel : nat) (cond : S -> bool) (body : S -> S)
         (s : S) : result S :=
  match fuel with
  | O => if cond s then Err OutOfFuel else Ok s
  | S fuel' => if cond s then while_loop fuel' cond body (body s) else Ok s
  end.

(** [range(0, stop, step)]. *)
Definition range_step (stop step : Z) : result (list Z) :=
  if step =? 0 then Err ValueError
  else if step <? 0 then Ok []
  else Ok (map (fun i : nat => Z.of_nat i * step)
               (seq 0 (Z.to_nat ((stop + step - 1) / step)))).

(** [enumerate(l)] with Python integer indices. *)
Definition enumerate {A} (l : list A) : list (Z * A) :=
  imap (fun i a => (Z.of_nat i, a)) l.

(** A list comprehension [[x for x in l if p(x)]] whose test may raise. *)
Fixpoint filter_result {A} (p : A -> result bool) (l : list A) : result (list A) :=
  match l with
  | [] => Ok []
  | x :: l' =>
      b ← p x;
      r ← filter_result p l';
      Ok (if b : bool then x :: r else r)
  end.

(** Number of halvings that bring a positive integer to zero. *)
Definition bit_fuel (l : Z) : nat := Z.to_nat (Z.log2 l + 1).

(** ** [sum_sizes_sqroot] (generator.c) *)

Module SumSizes.
Record t : Type := mk {
  flength : Z;
  blength : Z;
  s2length : Z;
  remainder : Z;
  count : Z
}.
End SumSizes.

Definition sqroot_blength (file_length max_blength : Z) : result Z :=
  '(l, c, cnt) ← while_loop (bit_fuel file_length)
      (fun '(l, c, cnt) => l >? 0)
      (fun '(l, c, cnt) => (Z.shiftr l 2, Z.shiftl c 1, cnt + 1))
      (file_length, 1, 0);
  if (c <? 0) || (c >=? max_blength) then Ok max_blength
  else
    '(c, blength) ← while_loop (bit_fuel c)
        (fun '(c, blength) => c >=? 8)
        (fun '(c, blength) =>
           let blength := Z.lor blength c in
           let blength := if file_length <? blength * blength
                          then Z.land blength (Z.lnot c) else blength in
           (Z.shiftr c 1, blength))
        (c, 0);
    Ok (Z.max blength BLOCK_SIZE).

Definition sum_sizes_sqroot (file_length protocol_version fixed_block_size
                             csum_length xfer_sum_len : Z) : result SumSizes.t :=
  if file_length <? 0 then Ok (SumSizes.mk 0 0 0 0 (-1))
  else
    let max_blength :=
      if protocol_version <? 30 then OLD_MAX_BLOCK_SIZE else MAX_BLOCK_SIZE in
    blength ←
      (if fixed_block_size >? 0 then Ok fixed_block_size
       else if file_length <=? BLOCK_SIZE * BLOCK_SIZE then Ok BLOCK_SIZE
       else sqroot_blength file_length max_blength);
    s2length ←
      (if protocol_version <? 27 then Ok csum_length
       else if csum_length =? SUM_LENGTH then Ok SUM_LENGTH
       else
         '(l, b) ← while_loop (bit_fuel file_length)
             (fun '(l, b) => l >? 0)
             (fun '(l, b) => (Z.shiftr l 1, b + 2))
             (file_length, BLOCKSUM_BIAS);
         '(c, b) ← while_loop (bit_fuel blength)
             (fun '(c, b) => negb (Z.shiftr c 1 =? 0) && negb (b =? 0))
             (fun '(c, b) => (Z.shiftr c 1, b - 1))
             (blength, b);
         let s2length := (b + 1 - 32 + 7) / 8 in
         let s2length := Z.max s2length csum_length in
         Ok (Z.min s2length SUM_LENGTH));
    let s2length := if s2length <? 0 then 0 else s2length in
    let s2length := if (xfer_sum_len >? 0) && (s2length >? xfer_sum_len)
                    then xfer_sum_len else s2length in
    let remainder := if blength >? 0 then file_length mod blength else 0 in
    let count := if blength >? 0
                 then file_length / blength + (if remainder =? 0 then 0 else 1)
                 else 0 in
    Ok (SumSizes.mk file_length blength s2length remainder count).

(** ** The hash index ([class HashTable]) *)

Module HashTable.
Record t : Type := mk {
  blocks : list BlockChecksum;
  count : Z;
  tablesize : Z;
  _table : gmap Z (list Z)
}.

Definition _hash (tablesize weak_checksum : Z) : Z :=
  if tablesize =? TRADITIONAL_TABLESIZE then
    let s1 := Z.land weak_checksum 0xFFFF in
    let s2 := Z.land (Z.shiftr weak_checksum 16) 0xFFFF in
    Z.land (s1 + s2) 0xFFFF
  else weak_checksum mod tablesize.

Definition _build (tablesize : Z) (blocks : list BlockChecksum) : gmap Z (list Z) :=
  foldl (fun (table : gmap Z (list Z)) (ib : Z * BlockChecksum) =>
           let h := _hash tablesize (BlockChecksum.weak_checksum ib.2) in
           <[h := default [] (table !! h) ++ [ib.1]]> table)
        ∅ (enumerate blocks).

Definition init (cfg : Config) (blocks : list BlockChecksum) : t :=
  let count := len blocks in
  let tablesize :=
    if HASH_TABLE_DYNAMIC cfg && (count >? 0) then
      let ts := (count / 8) * 10 + 11 in
      if ts <? TRADITIONAL_TABLESIZE then TRADITIONAL_TABLESIZE else ts
    else TRADITIONAL_TABLESIZE in
  mk blocks count tablesize (_build tablesize blocks).

Definition lookup_indices (ht : t) (weak_checksum : Z) (length : option Z)
  : result (list Z) :=
  let h := _hash (tablesize ht) weak_checksum in
  let indices := default [] (_table ht !! h) in
  match indices with
  | [] => Ok []
  | _ =>
      filter_result
        (fun i =>
           blk ← getitem (blocks ht) i;
           Ok ((BlockChecksum.weak_checksum blk =? weak_checksum)
               && match length with
                  | Some l => BlockChecksum.length blk =? l
                  | None => true
                  end))
        indices
  end.
End HashTable.


(** ** The engine ([class ChecksumEngine]) *)

Module ChecksumEngine.

(** The attributes of the engine; [strong_checksum_func] is the callable the
    inner [Checksum] object obtained from the registry, [protocol_manager]
    is the manager's protocol version when a manager is given. *)
Record t : Type := mk {
  block_size : Z;
  checksum_type : ChecksumType;
  protocol_manager : option Z;
  checksum_seed : Z;
  strong_checksum_func : bytes -> bytes
}.

Definition init (lib : HashLib) (cfg : Config) (block_size : Z)
           (checksum_type : ChecksumType) (protocol_manager : option Z)
           (checksum_seed : Z) : result t :=
  let effective_proto := default PROTOCOL_VERSION protocol_manager in
  _ ← validate_block_size block_size effective_proto;
  f ← ChecksumRegistry.get_checksum_function lib cfg checksum_type checksum_seed;
  Ok (mk block_size checksum_type protocol_manager checksum_seed f).

(** [Checksum.strong_checksum] *)
Definition strong_checksum (self : t) (data : bytes) : bytes :=
  strong_checksum_func self data.

(** [Checksum.block_checksums] *)
Definition block_checksums (self : t) (data : bytes) : result (list (Z * bytes)) :=
  offsets ← range_step (len data) (block_size self);
  mapM (M := result)
       (fun offset =>
          let block := py_slice data offset (offset + block_size self) in
          weak ← Checksum.rolling_checksum block 0 None;
          Ok (weak, strong_checksum self block))
       offsets.

Definition generate_signature (self : t) (file_data : bytes) (csum_length : Z)
  : result ChecksumSignature :=
  _ ← validate_data file_data (Some MAX_FILE_SIZE_IN_MEMORY);
  let protocol_version := default PROTOCOL_VERSION (protocol_manager self) in
  let xfer_sum_len := ChecksumRegistry.get_digest_length (checksum_type self) in
  sizes ← sum_sizes_sqroot (len file_data) protocol_version (block_size self)
                            csum_length xfer_sum_len;
  let s2length := SumSizes.s2length sizes in
  blocks_raw ← block_checksums self file_data;
  let blocks_typed :=
    map (fun iws : Z * (Z * bytes) =>
           let '(i, (weak, strong)) := iws in
           BlockChecksum.mk weak (py_slice strong 0 s2length)
             (i * block_size self)
             (Z.min (block_size self) (len file_data - i * block_size self))
             (-1))
        (enumerate blocks_raw) in
  Ok (ChecksumSignature.mk (block_size self) (len file_data) (len blocks_typed)
        blocks_typed (ChecksumType_value (checksum_type self)) protocol_version
        (checksum_seed self)).

(** *** The matcher: local variables of [generate_delta] *)

Record mstate : Type := mkst {
  offset : Z;
  k : Z;
  s1 : Z;
  s2 : Z;
  lit_start : Z;
  want_i : Z;
  last_match : Z;
  aligned_offset : Z;
  aligned_i : Z;
  same_offset : gset Z;
  instructions : list instruction;
  local_false_alarms : Z;
  local_hash_hits : Z;
  local_matches : Z
}.

Definition literal (offset : Z) (data : bytes) : instruction :=
  ("literal"%string, IsLiteral (DeltaLiteral.mk offset data)).

Definition match_ (block_index offset_in_new length : Z) : instruction :=
  ("match"%string, IsMatch (DeltaMatch.mk block_index offset_in_new length)).

(** [strong[:s2length] == blk.strong_checksum[:s2length]] *)
Definition prefix_eq (s2length : Z) (strong : bytes) (blk : BlockChecksum) : bool :=
  bool_decide (py_slice strong 0 s2length
               = py_slice (BlockChecksum.strong_checksum blk) 0 s2length).

(** The candidate loop: the first candidate whose strong prefix agrees;
    every candidate passed over counts as a false alarm. *)
Fixpoint scan_candidates (blocks : list BlockChecksum) (s2length : Z)
         (strong : bytes) (candidate_indices : list Z) (false_alarms : Z)
  : result (option Z * Z) :=
  match candidate_indices with
  | [] => Ok (None, false_alarms)
  | idx :: rest =>
      blk ← getitem blocks idx;
      if prefix_eq s2length strong blk then Ok (Some idx, false_alarms)
      else scan_candidates blocks s2length strong rest (false_alarms + 1)
  end.

(** The bypass of entries that lie behind the window (updating_basis_file). *)
Definition bypass_filter (blocks : list BlockChecksum) (offset : Z)
           (same_offset : gset Z) (candidate_indices : list Z) : result (list Z) :=
  filter_result
    (fun i =>
       blk ← getitem blocks i;
       Ok ((BlockChecksum.offset blk >=? offset) || bool_decide (i ∈ same_offset)))
    candidate_indices.

(** Result of the search at one window position. *)
Record found : Type := mkfound {
  f_matched_index : Z;
  f_offset : Z;
  f_want_i : Z;
  f_aligned_offset : Z;
  f_aligned_i : Z;
  f_same_offset : gset Z
}.

(** The aligned-matching block of the loop body; runs only when a candidate
    was found and the basis is being updated in place. *)
Definition aligned_phase (self : t) (signature : ChecksumSignature) (mv : bytes)
           (weak : Z) (strong : bytes) (st : mstate) (matched_index : Z)
  : result (found * bytes) :=
  let blocks := ChecksumSignature.blocks signature in
  let blength := ChecksumSignature.block_size signature in
  let s2length := ChecksumSignature.s2length signature in
  let file_len := len mv in
  '(aligned_offset, aligned_i) ←
    while_loop (Z.to_nat (offset st - aligned_offset st))
      (fun '(ao, ai) => ao <? offset st)
      (fun '(ao, ai) => (ao + blength, ai + 1))
      (aligned_offset st, aligned_i st);
  let l := k st in
  let unchanged :=
    (mkfound matched_index (offset st) (want_i st) aligned_offset aligned_i
             (same_offset st), strong) in
  if ((offset st =? aligned_offset)
      || ((weak =? 0) && (l =? blength) && (aligned_offset + l <=? file_len)))
     && (aligned_i <? len blocks)
  then
    matched_index ←
      (if negb (matched_index =? aligned_i) then
         aligned_blk ← getitem blocks aligned_i;
         if (weak =? BlockChecksum.weak_checksum aligned_blk)
            && (l =? BlockChecksum.length aligned_blk)
            && prefix_eq s2length strong aligned_blk
         then Ok aligned_i else Ok matched_index
       else Ok matched_index);
    if matched_index =? aligned_i then
      '(offset', strong') ←
        (if negb (offset st =? aligned_offset) && (aligned_offset + l <=? file_len)
         then
           let aligned_window := py_slice mv aligned_offset (aligned_offset + l) in
           let aligned_strong := strong_checksum self aligned_window in
           blk ← getitem blocks matched_index;
           if prefix_eq s2length aligned_strong blk
           then Ok (aligned_offset, aligned_strong) else Ok (offset st, strong)
         else Ok (offset st, strong));
      Ok (mkfound matched_index offset' matched_index aligned_offset aligned_i
                  ({[matched_index]} ∪ same_offset st), strong')
    else
      Ok (mkfound matched_index (offset st) (want_i st) aligned_offset aligned_i
                  (same_offset st), strong)
  else Ok unchanged.

(** The want_i block of the loop body ("encourage adjacent matches"). *)
Definition want_phase (cfg : Config) (signature : ChecksumSignature)
           (weak : Z) (strong : bytes) (f : found) : result Z :=
  let blocks := ChecksumSignature.blocks signature in
  let s2length := ChecksumSignature.s2length signature in
  if negb (f_matched_index f =? f_want_i f) && (f_want_i f <? len blocks) then
    want_blk ← getitem blocks (f_want_i f);
    if (negb (UPDATING_BASIS_FILE cfg)
        || (BlockChecksum.offset want_blk >=? f_offset f)
        || bool_decide (f_want_i f ∈ f_same_offset f))
       && (weak =? BlockChecksum.weak_checksum want_blk)
       && prefix_eq s2length strong want_blk
    then Ok (f_want_i f) else Ok (f_matched_index f)
  else Ok (f_matched_index f).


(** The search part of one iteration: hash lookup, strong verification,
    aligned matching and the want_i preference.  Returns the counters
    [(hash_hits, false_alarms)] and the match, if any. *)
Definition find_match (cfg : Config) (self : t) (signature : ChecksumSignature)
           (hash_table : HashTable.t) (mv : bytes) (st : mstate)
  : result (Z * Z * option found) :=
  let blocks := ChecksumSignature.blocks signature in
  let s2length := ChecksumSignature.s2length signature in
  let weak := Checksum.combine_checksum (s1 st) (s2 st) in
  candidate_indices ← HashTable.lookup_indices hash_table weak (Some (k st));
  match candidate_indices with
  | [] => Ok (local_hash_hits st, local_false_alarms st, None)
  | _ =>
      let hits := local_hash_hits st + 1 in
      let window_bytes := py_slice mv (offset st) (offset st + k st) in
      let strong := strong_checksum self window_bytes in
      candidate_indices ←
        (if UPDATING_BASIS_FILE cfg
         then bypass_filter blocks (offset st) (same_offset st) candidate_indices
         else Ok candidate_indices);
      '(matched_index, alarms) ←
        scan_candidates blocks s2length strong candidate_indices
                        (local_false_alarms st);
      match matched_index with
      | None => Ok (hits, alarms, None)
      | Some mi =>
          '(f, strong) ←
            (if UPDATING_BASIS_FILE cfg
             then aligned_phase self signature mv weak strong st mi
             else Ok (mkfound mi (offset st) (want_i st) (aligned_offset st)
                              (aligned_i st) (same_offset st), strong));
          mi ← want_phase cfg signature weak strong f;
          Ok (hits, alarms,
              Some (mkfound mi (f_offset f) (f_want_i f) (f_aligned_offset f)
                            (f_aligned_i f) (f_same_offset f)))
      end
  end.

(** An accepted match: flush the pending literal, emit the MATCH, advance.
    The boolean is [false] when the loop is left by [break]. *)
Definition on_match (signature : ChecksumSignature) (mv : bytes) (st : mstate)
           (hits alarms : Z) (f : found) : result (bool * mstate) :=
  let blength := ChecksumSignature.block_size signature in
  let file_len := len mv in
  let offset := f_offset f in
  let ins := instructions st in
  let ins := if offset >? lit_start st
             then ins ++ [literal (lit_start st) (py_slice mv (lit_start st) offset)]
             else ins in
  let ins := ins ++ [match_ (f_matched_index f) offset (k st)] in
  let want_i := f_matched_index f + 1 in
  let last_match := offset + k st in
  let offset := offset + k st in
  let st' := mkst offset (k st) (s1 st) (s2 st) offset want_i last_match
                  (f_aligned_offset f) (f_aligned_i f) (f_same_offset f) ins
                  alarms hits (local_matches st + 1) in
  if offset >=? file_len then Ok (false, st')
  else
    let k := Z.min blength (file_len - offset) in
    if k <=? 0
    then Ok (false, mkst offset k (s1 st) (s2 st) offset want_i last_match
                         (f_aligned_offset f) (f_aligned_i f) (f_same_offset f)
                         ins alarms hits (local_matches st + 1))
    else
      weak0 ← Checksum.rolling_checksum_optimized mv offset (Some k);
      let '(s1, s2) := Checksum.checksum_components weak0 in
      Ok (true, mkst offset k s1 s2 offset want_i last_match
                     (f_aligned_offset f) (f_aligned_i f) (f_same_offset f)
                     ins alarms hits (local_matches st + 1)).

(** No match: advance one byte with the rolling update (or shrink the
    window at EOF), then the early flush of a long literal run. *)
Definition no_match (signature : ChecksumSignature) (mv : bytes) (end_ : Z)
           (st : mstate) (hits alarms : Z) : result (bool * mstate) :=
  let blength := ChecksumSignature.block_size signature in
  let file_len := len mv in
  let more := offset st + k st <? file_len in
  old_byte ← getitem mv (offset st);
  '(s1, s2, k) ←
    (if more then
       new_byte ← getitem mv (offset st + k st);
       let '(s1, s2) :=
         Checksum.rolling_update old_byte new_byte (s1 st) (s2 st) (k st) in
       Ok (s1, s2, k st)
     else
       let '(s1, s2) := Checksum.shrink_update old_byte (s1 st) (s2 st) (k st) in
       Ok (s1, s2, k st - 1));
  let backup := offset st - last_match st in
  let flush_end := offset st - blength in
  let '(ins, lit_start, last_match) :=
    if (backup >=? blength + CHUNK_SIZE) && (end_ - offset st >? CHUNK_SIZE)
       && (flush_end >? lit_start st)
    then (instructions st
            ++ [literal (lit_start st) (py_slice mv (lit_start st) flush_end)],
          flush_end, flush_end)
    else (instructions st, lit_start st, last_match st) in
  Ok (true, mkst (offset st + 1) k s1 s2 lit_start (want_i st) last_match
                 (aligned_offset st) (aligned_i st) (same_offset st) ins
                 alarms hits (local_matches st)).

(** The body of [while offset < end and k > 0]. *)
Definition loop_body (cfg : Config) (self : t) (signature : ChecksumSignature)
           (hash_table : HashTable.t) (mv : bytes) (end_ : Z) (st : mstate)
  : result (bool * mstate) :=
  '(hits, alarms, r) ← find_match cfg self signature hash_table mv st;
  match r with
  | Some f => on_match signature mv st hits alarms f
  | None => no_match signature mv end_ st hits alarms
  end.

Definition loop_cond (end_ : Z) (st : mstate) : bool :=
  (offset st <? end_) && (k st >? 0).

Fixpoint match_loop (fuel : nat) (cfg : Config) (self : t)
         (signature : ChecksumSignature) (hash_table : HashTable.t)
         (mv : bytes) (end_ : Z) (st : mstate) : result mstate :=
  if loop_cond end_ st then
    match fuel with
    | O => Err OutOfFuel
    | S fuel' =>
        '(continue, st') ← loop_body cfg self signature hash_table mv end_ st;
        if continue : bool
        then match_loop fuel' cfg self signature hash_table mv end_ st'
        else Ok st'
    end
  else Ok st.

(** [end = len + 1 - s->sums[s->count-1].len] *)
Definition end_bound (signature : ChecksumSignature) (file_len : Z) : Z :=
  let last_block_len :=
    match last (ChecksumSignature.blocks signature) with
    | Some b => BlockChecksum.length b
    | None => 0
    end in
  if last_block_len >? 0 then file_len + 1 - last_block_len else 0.

(** The instruction list built by [generate_delta] (everything up to and
    including "Flush remaining literals") together with the counters. *)
Definition match_instructions (cfg : Config) (self : t)
           (signature : ChecksumSignature) (new_file_data : bytes)
  : result mstate :=
  let hash_table := HashTable.init cfg (ChecksumSignature.blocks signature) in
  let mv := new_file_data in
  let file_len := len mv in
  let blength := ChecksumSignature.block_size signature in
  let end_ := end_bound signature file_len in
  let k0 := Z.min blength file_len in
  s12 ←
    (if k0 >? 0 then
       weak0 ← Checksum.rolling_checksum_optimized mv 0 (Some k0);
       Ok (Checksum.checksum_components weak0)
     else Ok (0, 0));
  st ← match_loop (Z.to_nat end_) cfg self signature hash_table mv end_
         (mkst 0 k0 s12.1 s12.2 0 0 0 0 0 ∅ [] 0 0 0);
  let ins := if lit_start st <? file_len
             then instructions st
                    ++ [literal (lit_start st) (py_slice mv (lit_start st) file_len)]
             else instructions st in
  Ok (mkst (offset st) (k st) (s1 st) (s2 st) (lit_start st) (want_i st)
           (last_match st) (aligned_offset st) (aligned_i st) (same_offset st)
           ins (local_false_alarms st) (local_hash_hits st) (local_matches st)).

(** The whole-file digest of the sender: [get_checksum_accumulator] packs a
    non-zero seed with [struct.pack('<I', seed)] whatever the type is; one
    [update] followed by [digest] then gives the digest of the one-shot
    function of the same type and seed. *)
Definition whole_file_sum (lib : HashLib) (cfg : Config)
           (csum_type : ChecksumType) (seed : Z) (data : bytes) : result bytes :=
  _ ← (if seed =? 0 then Ok [] else pack_u32 seed);
  f ← ChecksumRegistry.get_checksum_function lib cfg csum_type seed;
  Ok (f data).

Definition generate_delta (lib : HashLib) (cfg : Config) (self : t)
           (signature : ChecksumSignature) (new_file_data : bytes)
  : result DeltaInstructions :=
  _ ← validate_data new_file_data (Some MAX_FILE_SIZE_IN_MEMORY);
  let collect_stats := COLLECT_STATS cfg || DEBUG_PARITY cfg in
  st ← match_instructions cfg self signature new_file_data;
  let instructions := instructions st in
  let match_bytes := matched_bytes_of instructions in
  let literal_bytes := literal_bytes_of instructions in
  let total_bytes := match_bytes + literal_bytes in
  let compression_ratio :=
    if total_bytes >? 0 then Qmake match_bytes (Z.to_pos total_bytes) else 0%Q in
  let stats :=
    if collect_stats
    then Some (SyncStats.mk (local_false_alarms st) (local_hash_hits st)
                            (local_matches st) literal_bytes match_bytes)
    else None in
  '(sender_file_sum, xfer_checksum_type, xfer_checksum_seed) ←
    (if COMPUTE_SENDER_FILE_SUM cfg then
       let csum_type :=
         if bool_decide (ChecksumSignature.checksum_type signature = ""%string)
         then checksum_type self
         else default (checksum_type self)
                (ChecksumType_of_value (ChecksumSignature.checksum_type signature)) in
       let seed := ChecksumSignature.checksum_seed signature in
       sum ← whole_file_sum lib cfg csum_type seed new_file_data;
       Ok (Some sum, Some (ChecksumType_value csum_type), Some seed)
     else Ok (None, None, None));
  Ok (DeltaInstructions.mk (ChecksumSignature.file_size signature)
        (len new_file_data) (ChecksumSignature.block_size signature)
        instructions compression_ratio stats xfer_checksum_type
        xfer_checksum_seed sender_file_sum).

(** One instruction of [apply_delta]: the bytes appended to [result]. *)
Definition apply_instruction (original_data : bytes) (block_size : Z)
           (ci : instruction) : bytes :=
  match ci with
  | (cmd, IsMatch m) =>
      if bool_decide (cmd = "match"%string) then
        let start := DeltaMatch.block_index m * block_size in
        let end_ := start + DeltaMatch.length m in
        py_slice original_data start end_
      else []
  | (cmd, IsLiteral l) =>
      if bool_decide (cmd = "literal"%string) then DeltaLiteral.data l else []
  end.

Definition apply_delta (original_data : bytes) (delta : DeltaInstructions)
  : result bytes :=
  _ ← validate_data original_data (Some MAX_FILE_SIZE_IN_MEMORY);
  Ok (foldl (fun result ci =>
               result ++ apply_instruction original_data
                           (DeltaInstructions.block_size delta) ci)
            [] (DeltaInstructions.instructions delta)).

End ChecksumEngine.


(** ** The wire codec ([class ProtocolIO]) *)

Definition _INT_BYTE_EXTRA : list Z :=
  [ 0; 0; 0; 0; 0; 0; 0; 0; 0; 0; 0; 0; 0; 0; 0; 0;
    0; 0; 0; 0; 0; 0; 0; 0; 0; 0; 0; 0; 0; 0; 0; 0;
    1; 1; 1; 1; 1; 1; 1; 1; 1; 1; 1; 1; 1; 1; 1; 1;
    2; 2; 2; 2; 2; 2; 2; 2; 3; 3; 3; 3; 4; 4; 5; 6 ].

(** [int.from_bytes(b, 'little', signed=True)] *)
Definition le_signed (b : bytes) : Z :=
  let u := le_value b in
  if u <? 2 ^ (8 * len b - 1) then u else u - 2 ^ (8 * len b).

(** [struct.pack('<i', v)] and [struct.pack('<q', v)] *)
Definition pack_i32 (v : Z) : result bytes :=
  if (- 2 ^ 31 <=? v) && (v <? 2 ^ 31) then Ok (le_bytes 4 v) else Err StructError.

Definition pack_i64 (v : Z) : result bytes :=
  if (- 2 ^ 63 <=? v) && (v <? 2 ^ 63) then Ok (le_bytes 8 v) else Err StructError.

(** [buf[a:b] = data] on a bytearray, for [0 <= a <= b <= len(buf)]. *)
Definition slice_assign (buf : bytes) (a b : Z) (data : bytes) : bytes :=
  take (Z.to_nat a) buf ++ data ++ drop (Z.to_nat b) buf.

(** [buf[i] = x] and [buf[i]] on a buffer, for an index in range. *)
Definition set_byte (buf : bytes) (i x : Z) : bytes := <[Z.to_nat i := x]> buf.
Definition byte_at (buf : bytes) (i : Z) : Z := nth (Z.to_nat i) buf 0.

Module ProtocolIO.

(** A reader consumes a prefix of the bytes still to be read from the
    descriptor; a writer returns the bytes it appends to the stream. *)
Definition reader (A : Type) : Type := bytes -> result (A * bytes).

Definition IOBUFFER_SIZE : Z := 65536.

(** [read_bytes(size)] without multiplexing, on a descriptor: the request
    goes through the 64 KiB [IOBuffer], so a larger request can never be
    completed, and a short stream raises EOFError.  Callers pass
    [size >= 0]. *)
Definition read_bytes (size : Z) : reader bytes := fun inp =>
  if size <=? 0 then Ok ([], inp)
  else if size >? IOBUFFER_SIZE then Err EOFError
  else if size <=? len inp
       then Ok (take (Z.to_nat size) inp, drop (Z.to_nat size) inp)
       else Err EOFError.

Definition read_int : reader Z := fun inp =>
  '(data, inp) ← read_bytes 4 inp;
  Ok (le_signed data, inp).

Definition write_int (value : Z) : result bytes := pack_i32 value.

Definition read_byte : reader Z := fun inp =>
  '(data, inp) ← read_bytes 1 inp;
  b ← getitem data 0;
  Ok (b, inp).

Definition read_varint : reader Z := fun inp =>
  '(ch, inp) ← read_byte inp;
  let ch := Z.land ch 0xFF in
  let extra := byte_at _INT_BYTE_EXTRA (ch / 4) in
  if negb (extra =? 0) then
    if extra >=? 5 then Err ProtocolError
    else
      let bit := Z.shiftl 1 (8 - extra) in
      let buf := replicate 5 0 in
      '(data, inp) ← read_bytes extra inp;
      let buf := slice_assign buf 0 extra data in
      let buf := set_byte buf extra (Z.land ch (bit - 1)) in
      Ok (le_signed (py_slice buf 0 4), inp)
  else Ok (le_signed [ch; 0; 0; 0], inp).

(** The prefix-byte computation shared by [write_varint] ([min_bytes = 1],
    [cnt] starting at 4) and [write_varlong] ([cnt] starting at 8); [b] is
    the buffer with the packed value at [b[1:]]. *)
Definition encode_prefix (b : bytes) (start min_bytes : Z) : result bytes :=
  cnt ← while_loop (Z.to_nat start)
          (fun cnt => (cnt >? min_bytes) && (byte_at b cnt =? 0))
          (fun cnt => cnt - 1) start;
  let bit := Z.shiftl 1 (7 - cnt + min_bytes) in
  let '(cnt, b0) :=
    if byte_at b cnt >=? bit then (cnt + 1, Z.land (Z.lnot (bit - 1)) 0xFF)
    else if cnt >? min_bytes
         then (cnt, Z.land (Z.lor (byte_at b cnt)
                                  (Z.land (Z.lnot (bit * 2 - 1)) 0xFF)) 0xFF)
         else (cnt, byte_at b cnt) in
  Ok (py_slice (set_byte b 0 b0) 0 cnt).

Definition write_varint (value : Z) : result bytes :=
  packed ← pack_u32 (Z.land value 0xFFFFFFFF);
  let b := slice_assign (replicate 5 0) 1 5 packed in
  encode_prefix b 4 1.

Definition read_varlong (min_bytes : Z) : reader Z := fun inp =>
  if (min_bytes <? 1) || (min_bytes >? 8) then Err ProtocolError
  else
    '(b2, inp) ← read_bytes min_bytes inp;
    b20 ← getitem b2 0;
    let extra := byte_at _INT_BYTE_EXTRA (Z.land b20 0xFF / 4) in
    let buf := replicate 9 0 in
    let buf := if min_bytes >? 1
               then slice_assign buf 0 (min_bytes - 1) (py_slice b2 1 min_bytes)
               else buf in
    if negb (extra =? 0) then
      if min_bytes + extra >? len buf then Err ProtocolError
      else
        let bit := Z.shiftl 1 (8 - extra) in
        '(tail, inp) ← read_bytes extra inp;
        let buf := slice_assign buf (min_bytes - 1) (min_bytes - 1 + extra) tail in
        let buf := set_byte buf (min_bytes + extra - 1) (Z.land b20 (bit - 1)) in
        Ok (le_signed (py_slice buf 0 8), inp)
    else
      let buf := set_byte buf (min_bytes + extra - 1) b20 in
      Ok (le_signed (py_slice buf 0 8), inp).

Definition write_varlong (value min_bytes : Z) : result bytes :=
  if (min_bytes <? 1) || (min_bytes >? 8) then Err ProtocolError
  else
    packed ← pack_i64 value;
    let b := slice_assign (replicate 9 0) 1 9 packed in
    encode_prefix b 8 min_bytes.

(** *** Tokens (simple mode, token.c) *)

(** The chunk loop of [_send_token_simple]:
    [while sent < n: write_int(chunk_len); write_bytes(data[...])]. *)
Fixpoint send_chunks (fuel : nat) (data : bytes) (offset n sent : Z)
  : result bytes :=
  if sent <? n then
    match fuel with
    | O => Err OutOfFuel
    | S fuel' =>
        let chunk_len := Z.min CHUNK_SIZE (n - sent) in
        hd ← write_int chunk_len;
        let body := py_slice data (offset + sent) (offset + sent + chunk_len) in
        rest ← send_chunks fuel' data offset n (sent + chunk_len);
        Ok (hd ++ body ++ rest)
    end
  else Ok [].

Definition _send_token_simple (token : Z) (data : option bytes) (offset n : Z)
  : result bytes :=
  lit ← match data with
        | Some d => if n >? 0 then send_chunks (Z.to_nat n) d offset n 0 else Ok []
        | None => Ok []
        end;
  tok ← (if negb (token =? -2) then write_int (- (token + 1)) else Ok []);
  Ok (lit ++ tok).

Definition _recv_token_simple : reader (Z * option bytes) := fun inp =>
  '(i, inp) ← read_int inp;
  if i =? 0 then Ok ((0, None), inp)
  else if i >? 0 then
         '(data, inp) ← read_bytes i inp;
         Ok ((i, Some data), inp)
       else Ok ((i, None), inp).

(** *** The sum header *)

Module SumHead.
Record t : Type := mk {
  count : Z;
  blength : Z;
  s2length : Z;
  remainder : Z
}.
End SumHead.

Definition read_sum_head (cfg : Config) (protocol_version : Z)
  : reader SumHead.t := fun inp =>
  let max_blength :=
    if protocol_version <? 30 then OLD_MAX_BLOCK_SIZE else MAX_BLOCK_SIZE in
  '(count, inp) ← read_int inp;
  if count <? 0 then Err ProtocolError
  else
    '(blength, inp) ← read_int inp;
    if (blength <? 0) || (blength >? max_blength) then Err ProtocolError
    else
      '(s2length, inp) ←
        (if protocol_version >=? 27 then read_int inp
         else Ok (CSUM_LENGTH cfg, inp));
      if (s2length <? 0) || (s2length >? MAX_DIGEST_LEN) then Err ProtocolError
      else
        '(remainder, inp) ← read_int inp;
        if (remainder <? 0) || (remainder >? blength) then Err ProtocolError
        else Ok (SumHead.mk count blength s2length remainder, inp).

Definition write_sum_head (sum_struct : option SumHead.t) (protocol_version : Z)
  : result bytes :=
  let sum_struct := default (SumHead.mk 0 0 0 0) sum_struct in
  b1 ← write_int (SumHead.count sum_struct);
  b2 ← write_int (SumHead.blength sum_struct);
  b3 ← (if protocol_version >=? 27
        then write_int (SumHead.s2length sum_struct) else Ok []);
  b4 ← write_int (SumHead.remainder sum_struct);
  Ok (b1 ++ b2 ++ b3 ++ b4).

End ProtocolIO.

(** ** [receive_data] and [send_delta_over_wire] (simple token mode) *)

(** What one token does to the reconstruction in [receive_data]:
    the bytes it appends and the length it adds to [matched_data], or the
    ProtocolError. *)
Definition copy_block (basis_data : bytes) (sum_head : ProtocolIO.SumHead.t)
           (token : Z) : result (bytes * Z) :=
  let blength := ProtocolIO.SumHead.blength sum_head in
  let remainder := ProtocolIO.SumHead.remainder sum_head in
  let count := ProtocolIO.SumHead.count sum_head in
  let block_num := - (token + 1) in
  if (block_num <? 0) || (block_num >=? count) then Err ProtocolError
  else
    let offset := block_num * blength in
    let block_len :=
      if (block_num =? count - 1) && (remainder >? 0) then remainder else blength in
    if offset + block_len <=? len basis_data
    then Ok (py_slice basis_data offset (offset + block_len), block_len)
    else Err ProtocolError.

(** The [while True] loop of [receive_data]; [result] and the two counters
    of [stats] are threaded through. *)
Fixpoint receive_loop (fuel : nat) (basis_data : bytes)
         (sum_head : ProtocolIO.SumHead.t) (result_ : bytes)
         (literal_data matched_data : Z)
  : ProtocolIO.reader (bytes * SyncStats) := fun inp =>
  match fuel with
  | O => Err OutOfFuel
  | S fuel' =>
      '((token, data), inp) ← ProtocolIO._recv_token_simple inp;
      if token =? 0
      then Ok ((result_, SyncStats.mk 0 0 0 literal_data matched_data), inp)
      else if token >? 0 then
        match data with
        | Some ((_ :: _) as d) =>
            receive_loop fuel' basis_data sum_head (result_ ++ d)
                         (literal_data + len d) matched_data inp
        | _ =>
            receive_loop fuel' basis_data sum_head result_
                         literal_data matched_data inp
        end
      else
        '(block, block_len) ← copy_block basis_data sum_head token;
        receive_loop fuel' basis_data sum_head (result_ ++ block)
                     literal_data (matched_data + block_len) inp
  end.

(** Every token takes at least four bytes off the stream, so the length of
    the stream bounds the number of iterations. *)
Definition receive_data (basis_data : bytes) (sum_head : ProtocolIO.SumHead.t)
  : ProtocolIO.reader (bytes * SyncStats) := fun inp =>
  receive_loop (S (length inp)) basis_data sum_head [] 0 0 inp.

Definition _sum_head_from_signature (signature : ChecksumSignature)
  : ProtocolIO.SumHead.t :=
  let count := ChecksumSignature.num_blocks signature in
  let blength := ChecksumSignature.block_size signature in
  let remainder :=
    if count >? 0 then
      match last (ChecksumSignature.blocks signature) with
      | Some b => if BlockChecksum.length b =? blength then 0
                  else BlockChecksum.length b
      | None => 0
      end
    else 0 in
  let s2length :=
    match ChecksumSignature.blocks signature with
    | b :: _ => len (BlockChecksum.strong_checksum b)
    | [] => 0
    end in
  ProtocolIO.SumHead.mk count blength s2length remainder.

(** The token stream of [send_delta_over_wire]: the loop over the
    instructions (pending literals travel with the next match) and the final
    [send_token(-1, ...)]. *)
Fixpoint send_tokens (pending : bytes) (ins : list instruction) : result bytes :=
  match ins with
  | [] =>
      match pending with
      | [] => ProtocolIO._send_token_simple (-1) None 0 0
      | _ => ProtocolIO._send_token_simple (-1) (Some pending) 0 (len pending)
      end
  | (cmd, IsLiteral l) :: rest =>
      if bool_decide (cmd = "literal"%string)
      then send_tokens (pending ++ DeltaLiteral.data l) rest
      else Err ProtocolError
  | (cmd, IsMatch m) :: rest =>
      if bool_decide (cmd = "match"%string) then
        tok ← match pending with
              | [] => ProtocolIO._send_token_simple (DeltaMatch.block_index m) None 0 0
              | _ => ProtocolIO._send_token_simple (DeltaMatch.block_index m)
                       (Some pending) 0 (len pending)
              end;
        rest ← send_tokens [] rest;
        Ok (tok ++ rest)
      else Err ProtocolError
  end.

Definition send_delta_over_wire (signature : ChecksumSignature)
           (delta : DeltaInstructions) (protocol_version : Z) : result bytes :=
  let sum_head := _sum_head_from_signature signature in
  hd ← ProtocolIO.write_sum_head (Some sum_head) protocol_version;
  toks ← send_tokens [] (DeltaInstructions.instructions delta);
  Ok (hd ++ toks ++ default [] (DeltaInstructions.sender_file_sum delta)).

(** ** Negotiation of algorithm names ([_choose_from_remote_list]) *)

(** [{name: i for i, name in enumerate(local_pref)}]: a later occurrence of
    a name overwrites the rank of an earlier one. *)
Definition rank_of (local_pref : list string) : gmap string Z :=
  foldl (fun (m : gmap string Z) (ix : Z * string) => <[ix.2 := ix.1]> m)
        ∅ (enumerate local_pref).

(** The client's loop over the remote list, with its early [break]. *)
Fixpoint client_scan (local_set : gset string) (rank : gmap string Z)
         (remote_list : list string) (best_tok : option string) (best_rank : Z)
  : option string :=
  match remote_list with
  | [] => best_tok
  | tok :: rest =>
      if bool_decide (tok ∈ local_set) then
        let r := default best_rank (rank !! tok) in
        if r <? best_rank then
          if r =? 0 then Some tok
          else client_scan local_set rank rest (Some tok) r
        else client_scan local_set rank rest best_tok best_rank
      else client_scan local_set rank rest best_tok best_rank
  end.

Definition _choose_from_remote_list (am_server : bool)
           (local_pref remote_list : list string) : result string :=
  let local_set : gset string := list_to_set local_pref in
  if am_server then
    of_option ProtocolError
      (List.find (fun tok => bool_decide (tok ∈ local_set)) remote_list)
  else
    let best_rank := len local_pref + 1 in
    let rank := rank_of local_pref in
    of_option ProtocolError
      (client_scan local_set rank remote_list None best_rank).


(** * Vocabulary of the specification *)

(** [D[o..o+k]]: the window of length [k] starting at offset [o]. *)
Definition window (d : bytes) (o k : Z) : bytes :=
  take (Z.to_nat k) (drop (Z.to_nat o) d).

(** The two sums of section 4.1: [s1 = sum b[i]] and
    [s2 = sum (k - i) * b[i]], before reduction modulo 2^16. *)
Fixpoint sum_bytes (w : bytes) : Z :=
  match w with
  | [] => 0
  | b :: w' => b + sum_bytes w'
  end.

Fixpoint weighted_sum (w : bytes) : Z :=
  match w with
  | [] => 0
  | b :: w' => (len w' + 1) * b + weighted_sum w'
  end.

(** [weak(W) = (s1 & 0xFFFF) | (s2 << 16)] *)
Definition weak (w : bytes) : Z :=
  Z.lor (sum_bytes w mod 65536) (Z.shiftl (weighted_sum w mod 65536) 16).

(** The slide and shrink updates of section 4.1 applied to a combined weak
    checksum, as the matcher loop does on its [(s1, s2)] pair. *)
Definition slide (w old_b new_b k : Z) : Z :=
  let '(s1, s2) := Checksum.checksum_components w in
  let '(s1', s2') := Checksum.rolling_update old_b new_b s1 s2 k in
  Checksum.combine_checksum s1' s2'.

Definition shrink (w old_b k : Z) : Z :=
  let '(s1, s2) := Checksum.checksum_components w in
  let '(s1', s2') := Checksum.shrink_update old_b s1 s2 k in
  Checksum.combine_checksum s1' s2'.

(** A bounded universal quantifier that can be checked by evaluation. *)
Definition all_below (n : nat) (P : Z -> bool) : bool :=
  forallb P (map Z.of_nat (seq 0 n)).

(** A byte string proper: every element is a byte value. *)
Definition is_bytes (b : bytes) : Prop := Forall (fun x => 0 <= x < 256) b.

(** ** Section 4.8 in the words of the specification *)

(** [block_num = -token - 1], [offset = block_num * block_length],
    [length = remainder if block_num = count - 1 and remainder > 0 else
    block_length]. *)
Definition block_num_of (token : Z) : Z := - token - 1.

Definition block_offset (sh : ProtocolIO.SumHead.t) (block_num : Z) : Z :=
  block_num * ProtocolIO.SumHead.blength sh.

Definition block_length (sh : ProtocolIO.SumHead.t) (block_num : Z) : Z :=
  if bool_decide (block_num = ProtocolIO.SumHead.count sh - 1
                  /\ ProtocolIO.SumHead.remainder sh > 0)
  then ProtocolIO.SumHead.remainder sh
  else ProtocolIO.SumHead.blength sh.

(** A negative token is accepted when it names a block of the sum header
    whose range lies within the basis. *)
Definition token_accepted (basis : bytes) (sh : ProtocolIO.SumHead.t)
           (token : Z) : Prop :=
  0 <= block_num_of token < ProtocolIO.SumHead.count sh
  /\ block_offset sh (block_num_of token) + block_length sh (block_num_of token)
     <= len basis.

(** [reads basis sh inp acc inp' acc']: starting with the stream [inp] and the
    accumulated result [acc], a run of literal tokens and accepted match
    tokens leaves the stream [inp'] and the result [acc']. *)
Inductive reads (basis : bytes) (sh : ProtocolIO.SumHead.t)
  : bytes -> bytes -> bytes -> bytes -> Prop :=
| reads_done inp acc : reads basis sh inp acc inp acc
| reads_literal inp acc i inp1 d inp2 inp' acc' :
    ProtocolIO.read_int inp = Ok (i, inp1) ->
    i > 0 ->
    ProtocolIO.read_bytes i inp1 = Ok (d, inp2) ->
    reads basis sh inp2 (acc ++ d) inp' acc' ->
    reads basis sh inp acc inp' acc'
| reads_match inp acc i inp1 inp' acc' :
    ProtocolIO.read_int inp = Ok (i, inp1) ->
    i < 0 ->
    token_accepted basis sh i ->
    reads basis sh inp1
          (acc ++ py_slice basis (block_offset sh (block_num_of i))
                     (block_offset sh (block_num_of i)
                      + block_length sh (block_num_of i)))
          inp' acc' ->
    reads basis sh inp acc inp' acc'.

(** The validity conditions of a sum header for protocol [P]. *)
Definition max_block_length (P : Z) : Z :=
  if P <? 30 then OLD_MAX_BLOCK_SIZE else MAX_BLOCK_SIZE.

Definition valid_sum_head (P : Z) (h : ProtocolIO.SumHead.t) : Prop :=
  0 <= ProtocolIO.SumHead.count h
  /\ 0 <= ProtocolIO.SumHead.blength h <= max_block_length P
  /\ 0 <= ProtocolIO.SumHead.s2length h <= 64
  /\ 0 <= ProtocolIO.SumHead.remainder h <= ProtocolIO.SumHead.blength h.

(** ** Instruction lists *)

(** The instruction with its position fields ([offset_in_new] of a MATCH,
    [offset] of a LITERAL) blanked. *)
Definition forget_offsets (ci : instruction) : instruction :=
  match ci with
  | (cmd, IsMatch m) =>
      (cmd, IsMatch (DeltaMatch.mk (DeltaMatch.block_index m) 0 (DeltaMatch.length m)))
  | (cmd, IsLiteral l) => (cmd, IsLiteral (DeltaLiteral.mk 0 (DeltaLiteral.data l)))
  end.

(** The tag of the tuple names the class of its second component. *)
Definition well_tagged (ci : instruction) : bool :=
  match ci with
  | (cmd, IsMatch _) => bool_decide (cmd = "match"%string)
  | (cmd, IsLiteral _) => bool_decide (cmd = "literal"%string)
  end.

(** The delta [d] with another instruction list. *)
Definition with_instructions (d : DeltaInstructions) (ins : list instruction)
  : DeltaInstructions :=
  DeltaInstructions.mk (DeltaInstructions.original_file_size d)
    (DeltaInstructions.new_file_size d) (DeltaInstructions.block_size d) ins
    (DeltaInstructions.compression_ratio d) (DeltaInstructions.stats d)
    (DeltaInstructions.xfer_checksum_type d) (DeltaInstructions.xfer_checksum_seed d)
    (DeltaInstructions.sender_file_sum d).

(** Where an instruction places its bytes in the new file, and how many. *)
Definition instr_offset (ci : instruction) : Z :=
  match ci with
  | (_, IsMatch m) => DeltaMatch.offset_in_new m
  | (_, IsLiteral l) => DeltaLiteral.offset l
  end.

Definition instr_length (ci : instruction) : Z :=
  match ci with
  | (_, IsMatch m) => DeltaMatch.length m
  | (_, IsLiteral l) => len (DeltaLiteral.data l)
  end.

(** [covers ins pos n]: the ranges of [ins], in order, tile [[pos, n)]: each
    instruction is non-empty and starts where the previous one ended. *)
Fixpoint covers (ins : list instruction) (pos n : Z) : Prop :=
  match ins with
  | [] => pos = n
  | ci :: rest =>
      instr_offset ci = pos /\ 0 < instr_length ci
      /\ covers rest (pos + instr_length ci) n
  end.

(** Position [p] of the new file lies in the range of instruction [ci]. *)
Definition in_range (ci : instruction) (p : Z) : Prop :=
  instr_offset ci <= p < instr_offset ci + instr_length ci.

(** ** The matcher in the words of the specification *)

(** Number of blocks of a file of [n] bytes cut into blocks of [bs] bytes. *)
Definition block_count (n bs : Z) : Z := (n + bs - 1) / bs.

(** Length of the window the matcher examines at offset [o] of a file of
    [n] bytes: a full block, or what is left of the file. *)
Definition window_length (n bs o : Z) : Z := Z.min bs (n - o).

(** Block [i] of the signature of [X]: weak checksum, truncated strong
    checksum, offset and length of [X[i*bs .. i*bs + bs]]. *)
Definition sig_block (self : ChecksumEngine.t) (X : bytes) (s2length i : Z)
  : BlockChecksum :=
  let bs := ChecksumEngine.block_size self in
  let l := window_length (len X) bs (i * bs) in
  let w := window X (i * bs) l in
  BlockChecksum.mk (weak w)
    (py_slice (ChecksumEngine.strong_checksum self w) 0 s2length) (i * bs) l (-1).

(** The window the aligned fast path of the updating-basis mode may move
    to: a full-length window that starts where block [j] starts, for a full
    block [j] whose weak checksum is 0 (the fast path is entered from an
    earlier window with [weak == 0] that matched block [j]). *)
Definition aligned_window (cfg : Config) (S : ChecksumSignature)
           (blk : BlockChecksum) (j o k : Z) : bool :=
  UPDATING_BASIS_FILE cfg
  && (o =? j * ChecksumSignature.block_size S)
  && (k =? ChecksumSignature.block_size S)
  && (BlockChecksum.weak_checksum blk =? 0)
  && (BlockChecksum.length blk =? ChecksumSignature.block_size S).

(** The checks a window [X[o .. o+k]] passes against block [j] of the
    signature before a MATCH on [j] is emitted: the truncated strong
    checksums agree, and so do the weak checksums; the one window accepted
    on its strong checksum alone is the one the aligned fast path moved
    to. *)
Definition checks_agree (cfg : Config) (self : ChecksumEngine.t)
           (S : ChecksumSignature) (X : bytes) (j o k : Z) : bool :=
  match ChecksumSignature.blocks S !! Z.to_nat j with
  | Some blk =>
      ChecksumEngine.prefix_eq (ChecksumSignature.s2length S)
        (ChecksumEngine.strong_checksum self (window X o k)) blk
      && ((weak (window X o k) =? BlockChecksum.weak_checksum blk)
          || aligned_window cfg S blk j o k)
  | None => false
  end.

(** No collision between the new file and the basis: whenever the window at
    an offset of [X] passes the checks against block [j], it holds the bytes
    that a MATCH on [j] of the window's length copies from [B]. *)
Definition collision_free (cfg : Config) (self : ChecksumEngine.t)
           (S : ChecksumSignature) (B X : bytes) : bool :=
  let bs := ChecksumSignature.block_size S in
  all_below (length X) (fun o =>
    let k := window_length (len X) bs o in
    all_below (length (ChecksumSignature.blocks S)) (fun j =>
      implb (checks_agree cfg self S X j o k)
            (bool_decide (py_slice B (j * bs) (j * bs + k) = window X o k)))).

(** Every MATCH has the length of the block it names. *)
Definition lengths_agree (S : ChecksumSignature) (ins : list instruction) : bool :=
  forallb (fun ci : instruction =>
             match ci with
             | (_, IsMatch m) =>
                 match ChecksumSignature.blocks S
                       !! Z.to_nat (DeltaMatch.block_index m) with
                 | Some blk => DeltaMatch.length m =? BlockChecksum.length blk
                 | None => false
                 end
             | (_, IsLiteral _) => true
             end) ins.

(** What the matcher guarantees of an instruction it emits. *)
Definition sound_instr (cfg : Config) (self : ChecksumEngine.t)
           (S : ChecksumSignature) (X : bytes) (ci : instruction) : Prop :=
  match ci with
  | (cmd, IsLiteral l) =>
      cmd = "literal"%string
      /\ 0 <= DeltaLiteral.offset l
      /\ DeltaLiteral.offset l + len (DeltaLiteral.data l) <= len X
      /\ DeltaLiteral.data l
         = window X (DeltaLiteral.offset l) (len (DeltaLiteral.data l))
  | (cmd, IsMatch m) =>
      cmd = "match"%string
      /\ 0 <= DeltaMatch.block_index m < len (ChecksumSignature.blocks S)
      /\ 0 <= DeltaMatch.offset_in_new m
      /\ DeltaMatch.length m
         = window_length (len X) (ChecksumSignature.block_size S)
                         (DeltaMatch.offset_in_new m)
      /\ checks_agree cfg self S X (DeltaMatch.block_index m)
           (DeltaMatch.offset_in_new m) (DeltaMatch.length m) = true
  end.

(** What holds of the matcher's variables when the loop is left. *)
Definition matcher_post (cfg : Config) (self : ChecksumEngine.t)
           (S : ChecksumSignature) (X : bytes) (st : ChecksumEngine.mstate) : Prop :=
  0 <= ChecksumEngine.lit_start st <= len X
  /\ covers (ChecksumEngine.instructions st) 0 (ChecksumEngine.lit_start st)
  /\ Forall (sound_instr cfg self S X) (ChecksumEngine.instructions st).

(** The invariant of the matcher loop. *)
Definition matcher_inv (cfg : Config) (self : ChecksumEngine.t)
           (S : ChecksumSignature) (X : bytes) (st : ChecksumEngine.mstate) : Prop :=
  let w := window X (ChecksumEngine.offset st) (ChecksumEngine.k st) in
  matcher_post cfg self S X st
  /\ ChecksumEngine.lit_start st <= ChecksumEngine.offset st <= len X
  /\ ChecksumEngine.k st
     = window_length (len X) (ChecksumSignature.block_size S)
                     (ChecksumEngine.offset st)
  /\ ChecksumEngine.s1 st = sum_bytes w mod 65536
  /\ ChecksumEngine.s2 st = weighted_sum w mod 65536
  /\ 0 <= ChecksumEngine.want_i st
  /\ 0 <= ChecksumEngine.aligned_i st
  /\ ChecksumEngine.aligned_offset st
     = ChecksumEngine.aligned_i st * ChecksumSignature.block_size S.

(** The indices [0 .. len(blocks) - 1], and those of the blocks with a given
    weak checksum and length, in ascending order. *)
Definition block_indices {A} (blocks : list A) : list Z :=
  map Z.of_nat (seq 0 (length blocks)).

Definition candidates (blocks : list BlockChecksum) (w k : Z) : list Z :=
  List.filter
    (fun i => match blocks !! Z.to_nat i with
              | Some b => (BlockChecksum.weak_checksum b =? w)
                          && (BlockChecksum.length b =? k)
              | None => false
              end)
    (block_indices blocks).

(** ** Inputs of the examples *)

(** With [ChecksumType.NONE] no digest primitive is called, so the library
    of the examples is immaterial. *)
Definition example_lib : HashLib := {|
  md4_digest := fun _ => [];
  md5_digest := fun _ => [];
  sha1_digest := fun _ => [];
  sha256_digest := fun _ => [];
  xxh64_digest := fun _ _ => [];
  xxh3_64_digest := fun _ _ => [];
  xxh3_128_digest := fun _ _ => []
|}.

(** [ChecksumEngine(block_size=16, checksum_type=ChecksumType.NONE)] *)
Definition example_engine : ChecksumEngine.t :=
  ChecksumEngine.mk 16 NONE None 0 (fun _ => [0]).

(** [engine.generate_delta(engine.generate_signature(B), X)] and what
    [apply_delta] makes of it, with the default configuration. *)
Definition example_delta (B X : bytes) : result DeltaInstructions :=
  S ← ChecksumEngine.generate_signature example_engine B
         (CSUM_LENGTH default_config);
  ChecksumEngine.generate_delta example_lib default_config example_engine S X.

Definition example_roundtrip (B X : bytes) : result bytes :=
  D ← example_delta B X;
  ChecksumEngine.apply_delta B D.

(** The default configuration with [Config.UPDATING_BASIS_FILE = True]. *)
Definition updating_config : Config := {|
  HASH_TABLE_DYNAMIC := true;
  CSUM_LENGTH := SHORT_SUM_LENGTH;
  PROPER_SEED_ORDER := true;
  UPDATING_BASIS_FILE := true;
  COMPUTE_SENDER_FILE_SUM := true;
  VERIFY_SENDER_FILE_SUM_ON_WIRE := true;
  COLLECT_STATS := false;
  DEBUG_PARITY := false
|}.

(** A basis of one block [1 .. 16] and one block of zeros, and a new file
    whose zeros start one byte into the first block: when the basis is
    updated in place, the window at offset 1 matches block 1 and the aligned
    fast path moves it to offset 16. *)
Definition example_basis : bytes := map Z.of_nat (seq 1 16) ++ replicate 16 0.
Definition example_new : bytes := 5 :: replicate 31 0.

(** ** The delta of a file against its own signature *)

(** The MATCH instructions for the first [i] blocks of a file of [n] bytes. *)
Definition block_matches (n bs : Z) (i : nat) : list instruction :=
  map (fun j : nat =>
         ChecksumEngine.match_ (Z.of_nat j) (Z.of_nat j * bs)
           (window_length n bs (Z.of_nat j * bs)))
      (seq 0 i).

(** The matcher's variables when it reaches the start of block [i]. *)
Definition self_inv (self : ChecksumEngine.t) (X : bytes) (i : Z)
           (st : ChecksumEngine.mstate) : Prop :=
  let bs := ChecksumEngine.block_size self in
  let w := window X (ChecksumEngine.offset st) (ChecksumEngine.k st) in
  ChecksumEngine.offset st = i * bs
  /\ ChecksumEngine.lit_start st = i * bs
  /\ ChecksumEngine.k st = window_length (len X) bs (i * bs)
  /\ ChecksumEngine.s1 st = sum_bytes w mod 65536
  /\ ChecksumEngine.s2 st = weighted_sum w mod 65536
  /\ ChecksumEngine.want_i st = i
  /\ ChecksumEngine.instructions st = block_matches (len X) bs (Z.to_nat i)
  /\ 0 <= ChecksumEngine.aligned_i st <= i
  /\ ChecksumEngine.aligned_offset st = ChecksumEngine.aligned_i st * bs.

(** The signature [generate_signature] builds for [X], given the
    strong-checksum length chosen by [sum_sizes_sqroot]. *)
Definition signature_of (self : ChecksumEngine.t) (X : bytes) (s2length : Z)
  : ChecksumSignature :=
  ChecksumSignature.mk (ChecksumEngine.block_size self) (len X)
    (block_count (len X) (ChecksumEngine.block_size self))
    (map (fun i : nat => sig_block self X s2length (Z.of_nat i))
         (seq 0 (Z.to_nat (block_count (len X) (ChecksumEngine.block_size self)))))
    (ChecksumType_value (ChecksumEngine.checksum_type self))
    (default PROTOCOL_VERSION (ChecksumEngine.protocol_manager self))
    (ChecksumEngine.checksum_seed self).

(** ** Deltas on the wire *)

(** An instruction the receiver reconstructs as [apply_delta] does: it is
    well tagged, and a MATCH names a block of the sum header, has the length
    the header gives that block, and lies within the basis. *)
Definition wire_ready (basis : bytes) (sh : ProtocolIO.SumHead.t) (bs : Z)
           (ci : instruction) : Prop :=
  match ci with
  | (cmd, IsLiteral _) => cmd = "literal"%string
  | (cmd, IsMatch m) =>
      cmd = "match"%string
      /\ 0 <= DeltaMatch.block_index m < ProtocolIO.SumHead.count sh
      /\ block_offset sh (DeltaMatch.block_index m) = DeltaMatch.block_index m * bs
      /\ block_length sh (DeltaMatch.block_index m) = DeltaMatch.length m
      /\ DeltaMatch.block_index m * bs + DeltaMatch.length m <= len basis
  end.

(** * Further functions of the program *)

(** ** Validation ([validate_protocol_version], [validate_checksum_seed],
    [validate_signature]) *)

Definition SUBPROTOCOL_VERSION : Z := 0.
Definition MIN_PROTOCOL_VERSION : Z := 20.
Definition MAX_PROTOCOL_VERSION : Z := 40.
Definition MAX_NSTR_STRLEN : Z := 256.

Definition validate_protocol_version (version : Z) : result unit :=
  if version <? MIN_PROTOCOL_VERSION then Err ValidationError
  else if version >? MAX_PROTOCOL_VERSION then Err ValidationError
  else Ok ().

Definition validate_checksum_seed (seed : Z) : result unit :=
  if seed <? 0 then Err ValidationError
  else if seed >? 0xFFFFFFFF then Err ValidationError
  else Ok ().

(** The loop [for i, block in enumerate(signature.blocks)] of
    [validate_signature]. *)
Fixpoint validate_blocks (block_size : Z) (ibs : list (Z * BlockChecksum))
  : result unit :=
  match ibs with
  | [] => Ok ()
  | (i, block) :: rest =>
      if BlockChecksum.length block <=? 0 then Err ValidationError
      else if BlockChecksum.offset block <? 0 then Err ValidationError
      else if negb (BlockChecksum.offset block =? i * block_size)
           then Err ValidationError
           else validate_blocks block_size rest
  end.

Definition validate_signature (signature : ChecksumSignature) : result unit :=
  if negb (ChecksumSignature.num_blocks signature
           =? len (ChecksumSignature.blocks signature))
  then Err ValidationError
  else if ChecksumSignature.num_blocks signature <? 0 then Err ValidationError
  else if ChecksumSignature.file_size signature <? 0 then Err ValidationError
  else if ChecksumSignature.block_size signature <=? 0 then Err ValidationError
  else validate_blocks (ChecksumSignature.block_size signature)
                       (enumerate (ChecksumSignature.blocks signature)).

(** ** [HashTable.lookup] and [HashTable.__len__] *)

Definition HashTable_lookup (ht : HashTable.t) (weak_checksum : Z)
  : result (list BlockChecksum) :=
  indices ← HashTable.lookup_indices ht weak_checksum None;
  mapM (getitem (HashTable.blocks ht)) indices.

Definition HashTable_len (ht : HashTable.t) : Z := HashTable.count ht.

(** ** The counters of [DeltaInstructions]: [num_matches], [num_literals]
    (which look at the tag only), [matched_bytes] and [literal_bytes]. *)

Definition num_matches (d : DeltaInstructions) : Z :=
  sum_Z (map (fun _ => 1)
             (List.filter (fun ci : instruction => bool_decide (ci.1 = "match"%string))
                          (DeltaInstructions.instructions d))).

Definition num_literals (d : DeltaInstructions) : Z :=
  sum_Z (map (fun _ => 1)
             (List.filter (fun ci : instruction => bool_decide (ci.1 = "literal"%string))
                          (DeltaInstructions.instructions d))).

Definition matched_bytes (d : DeltaInstructions) : Z :=
  matched_bytes_of (DeltaInstructions.instructions d).

Definition literal_bytes (d : DeltaInstructions) : Z :=
  literal_bytes_of (DeltaInstructions.instructions d).

(** ** File modes ([S_ISLNK], [to_wire_mode], [from_wire_mode]); the octal
    constants of the program are written in hexadecimal: [0o170000 = 0xF000],
    [0o120000 = 0xA000], and so on. *)

Definition S_IFMT_MASK : Z := 0xF000.
Definition S_IFREG : Z := 0x8000.
Definition S_IFDIR : Z := 0x4000.
Definition S_IFLNK : Z := 0xA000.
Definition S_IFCHR : Z := 0x2000.
Definition S_IFBLK : Z := 0x6000.
Definition S_IFIFO : Z := 0x1000.
Definition S_IFSOCK : Z := 0xC000.

Definition S_ISDIR (mode : Z) : bool := Z.land mode 0xF000 =? S_IFDIR.
Definition S_ISLNK (mode : Z) : bool := Z.land mode 0xF000 =? S_IFLNK.
Definition S_ISREG (mode : Z) : bool := Z.land mode 0xF000 =? S_IFREG.
Definition S_ISCHR (mode : Z) : bool := Z.land mode 0xF000 =? S_IFCHR.
Definition S_ISBLK (mode : Z) : bool := Z.land mode 0xF000 =? S_IFBLK.
Definition S_ISFIFO (mode : Z) : bool := Z.land mode 0xF000 =? S_IFIFO.
Definition S_ISSOCK (mode : Z) : bool := Z.land mode 0xF000 =? S_IFSOCK.
Definition IS_DEVICE (mode : Z) : bool := S_ISCHR mode || S_ISBLK mode.
Definition IS_SPECIAL (mode : Z) : bool := S_ISFIFO mode || S_ISSOCK mode.

Definition to_wire_mode (mode : Z) : Z :=
  if S_ISLNK mode then Z.lor (Z.land mode (Z.lnot 0xF000)) S_IFLNK else mode.

Definition from_wire_mode (mode : Z) : Z :=
  if Z.land mode 0xF000 =? S_IFLNK
  then Z.lor (Z.land mode (Z.lnot 0xF000)) S_IFLNK else mode.

(** The test of [lookup_indices] on one block: the weak checksum, and the
    length when one is given. *)
Definition block_matches_key (w : Z) (length : option Z) (b : BlockChecksum) : bool :=
  (BlockChecksum.weak_checksum b =? w)
  && match length with
     | Some l => BlockChecksum.length b =? l
     | None => true
     end.

(** Python's [int.bit_length] on a non-negative integer, and the two final
    adjustments [sum_sizes_sqroot] makes to the strong-checksum length. *)
Definition bit_length (n : Z) : Z := if n <=? 0 then 0 else Z.log2 n + 1.

Definition clip_s2length (xfer_sum_len s2length : Z) : Z :=
  let s2length := if s2length <? 0 then 0 else s2length in
  if (xfer_sum_len >? 0) && (s2length >? xfer_sum_len)
  then xfer_sum_len else s2length.

(** The block length and the strong-checksum length of [sum_sizes_sqroot] in
    closed form, without its loops. *)
Definition sqrt_block_length (file_length protocol_version fixed_block_size : Z) : Z :=
  let max_blength :=
    if protocol_version <? 30 then OLD_MAX_BLOCK_SIZE else MAX_BLOCK_SIZE in
  if fixed_block_size >? 0 then fixed_block_size
  else if file_length <=? BLOCK_SIZE * BLOCK_SIZE then BLOCK_SIZE
  else if max_blength * max_blength <=? 4 * file_length then max_blength
  else Z.max (8 * (Z.sqrt file_length / 8)) BLOCK_SIZE.

Definition strong_sum_length (file_length protocol_version blength csum_length : Z) : Z :=
  if protocol_version <? 27 then csum_length
  else if csum_length =? SUM_LENGTH then SUM_LENGTH
  else
    let b := BLOCKSUM_BIAS + 2 * bit_length file_length in
    let b := b - Z.min (Z.log2 blength) b in
    Z.min (Z.max ((b + 1 - 32 + 7) / 8) csum_length) SUM_LENGTH.

(** ** More of the wire codec ([class ProtocolIO]): fixed-width integers,
    single bytes, vstrings and the protocol-switched integers *)

Definition read_uint : ProtocolIO.reader Z := fun inp =>
  '(data, inp) ← ProtocolIO.read_bytes 4 inp;
  Ok (le_value data, inp).

Definition read_long : ProtocolIO.reader Z := fun inp =>
  '(data, inp) ← ProtocolIO.read_bytes 8 inp;
  Ok (le_signed data, inp).

Definition write_uint (value : Z) : result bytes := pack_u32 value.

Definition write_long (value : Z) : result bytes := pack_i64 value.

(** [bytes([value])] raises ValueError outside [range(0, 256)]. *)
Definition write_byte (value : Z) : result bytes :=
  if (0 <=? value) && (value <? 256) then Ok [value] else Err ValueError.

Definition read_shortint : ProtocolIO.reader Z := fun inp =>
  '(data, inp) ← ProtocolIO.read_bytes 2 inp;
  Ok (le_value data, inp).

Definition write_shortint (value : Z) : result bytes :=
  Ok (le_bytes 2 (Z.land value 0xFFFF)).

(** [read_vstring] and [write_vstring] up to the text codec: [data] is
    [s.encode("utf-8")] for the writer, and the reader returns the bytes it
    hands to [data.decode("utf-8")]. *)
Definition read_vstring (bufsize : Z) : ProtocolIO.reader bytes := fun inp =>
  '(length, inp) ← ProtocolIO.read_byte inp;
  '(length, inp) ←
    (if negb (Z.land length 0x80 =? 0) then
       '(low, inp) ← ProtocolIO.read_byte inp;
       Ok (Z.land length (Z.lnot 0x80) * 0x100 + low, inp)
     else Ok (length, inp));
  if length >=? bufsize then Err ProtocolError
  else if negb (length =? 0) then ProtocolIO.read_bytes length inp
       else Ok ([], inp).

Definition write_vstring (data : bytes) : result bytes :=
  let length := len data in
  if length >? 0x7FFF then Err ProtocolError
  else
    b1 ← (if length >? 0x7F then write_byte (length / 0x100 + 0x80) else Ok []);
    b2 ← write_byte length;
    Ok (b1 ++ b2 ++ (if negb (length =? 0) then data else [])).

Definition read_varint30 (protocol_version : Z) : ProtocolIO.reader Z :=
  if protocol_version <? 30 then ProtocolIO.read_int else ProtocolIO.read_varint.

Definition write_varint30 (value protocol_version : Z) : result bytes :=
  if protocol_version <? 30 then ProtocolIO.write_int value
  else ProtocolIO.write_varint value.

Definition read_varlong30 (min_bytes protocol_version : Z) : ProtocolIO.reader Z :=
  if protocol_version <? 30 then read_long else ProtocolIO.read_varlong min_bytes.

Definition write_varlong30 (value min_bytes protocol_version : Z) : result bytes :=
  if protocol_version <? 30 then write_long value
  else ProtocolIO.write_varlong value min_bytes.

(** A 32-bit two's-complement reading of an integer. *)
Definition wrap_int32 (v : Z) : Z := (v + 2 ^ 31) mod 2 ^ 32 - 2 ^ 31.

(** ** [apply_delta_over_wire]: the sender and the receiver back to back *)

(** Beside the exceptions of [error], [apply_delta_over_wire] can raise
    DataIntegrityError. *)
Inductive wire_result (A : Type) : Type :=
| WireOk (a : A)
| WireErr (e : error)
| DataIntegrityError.
Arguments WireOk {A} a.
Arguments WireErr {A} e.
Arguments DataIntegrityError {A}.

(** The checksum type the receiver verifies with: the delta's, else the
    signature's, and MD5 when the name is missing or unknown. *)
Definition wire_checksum_type (signature : ChecksumSignature)
           (delta : DeltaInstructions) : ChecksumType :=
  let named :=
    match DeltaInstructions.xfer_checksum_type delta with
    | Some s =>
        if negb (bool_decide (s = ""%string)) then ChecksumType_of_value s
        else if negb (bool_decide (ChecksumSignature.checksum_type signature = ""%string))
             then ChecksumType_of_value (ChecksumSignature.checksum_type signature)
             else None
    | None =>
        if negb (bool_decide (ChecksumSignature.checksum_type signature = ""%string))
        then ChecksumType_of_value (ChecksumSignature.checksum_type signature)
        else None
    end in
  default MD5 named.

(** The temporary file holds what [send_delta_over_wire] wrote; the receiver
    reads the sum header, the tokens and, when the digest is verified, the
    sender's digest from it (uncompressed token mode). *)
Definition apply_delta_over_wire (lib : HashLib) (cfg : Config)
           (basis_data : bytes) (signature : ChecksumSignature)
           (delta : DeltaInstructions) (protocol_version : Z)
  : wire_result (bytes * SyncStats) :=
  match send_delta_over_wire signature delta protocol_version with
  | Err e => WireErr e
  | Ok stream =>
      match ProtocolIO.read_sum_head cfg protocol_version stream with
      | Err e => WireErr e
      | Ok (sum_head, inp) =>
          match receive_data basis_data sum_head inp with
          | Err e => WireErr e
          | Ok ((reconstructed, stats), inp) =>
              match DeltaInstructions.sender_file_sum delta with
              | Some sum =>
                  if VERIFY_SENDER_FILE_SUM_ON_WIRE cfg then
                    match ProtocolIO.read_bytes (len sum) inp with
                    | Err e => WireErr e
                    | Ok (sender_sum, _) =>
                        let csum_type := wire_checksum_type signature delta in
                        let seed :=
                          default (ChecksumSignature.checksum_seed signature)
                                  (DeltaInstructions.xfer_checksum_seed delta) in
                        match ChecksumEngine.whole_file_sum lib cfg csum_type
                                seed reconstructed with
                        | Err e => WireErr e
                        | Ok receiver_sum =>
                            if bool_decide (sender_sum = receiver_sum)
                            then WireOk (reconstructed, stats)
                            else DataIntegrityError
                        end
                    end
                  else WireOk (reconstructed, stats)
              | None => WireOk (reconstructed, stats)
              end
          end
      end
  end.

(** ** Protocol versions ([class ProtocolVersionManager]) *)

Module ProtocolVersionManager.
Record t : Type := mk {
  desired_protocol : Z;
  _negotiated_protocol : Z;
  remote_protocol : Z;
  compat_flags : Z
}.

Definition init (desired_protocol : Z) : t :=
  mk desired_protocol desired_protocol 0 0.

(** The attributes are assigned before the range is checked, so the manager
    is returned also when ProtocolError is raised. *)
Definition negotiate_protocol (self : t) (remote_version remote_sub : Z)
  : t * result Z :=
  let our_sub := SUBPROTOCOL_VERSION in
  let downgrade := negb (SUBPROTOCOL_VERSION =? 0) && negb (our_sub =? remote_sub) in
  let negotiated :=
    if remote_version >? desired_protocol self then desired_protocol self
    else if remote_version <? desired_protocol self then
           if downgrade then remote_version - 1 else remote_version
         else
           if downgrade then _negotiated_protocol self - 1
           else _negotiated_protocol self in
  let self := mk (desired_protocol self) negotiated remote_version
                 (compat_flags self) in
  if negotiated <? MIN_PROTOCOL_VERSION then (self, Err ProtocolError)
  else if negotiated >? MAX_PROTOCOL_VERSION then (self, Err ProtocolError)
  else (self, Ok negotiated).

Definition get_max_block_size (self : t) : Z :=
  if _negotiated_protocol self >=? 30 then MAX_BLOCK_SIZE else OLD_MAX_BLOCK_SIZE.

Definition supports_varint (self : t) : bool := _negotiated_protocol self >=? 27.
End ProtocolVersionManager.

(** ** The filter list on the wire ([send_filter_list_wire],
    [recv_filter_list_wire]).  A rule is a [str]; the text codec is the
    interpreter's and a parameter here: [encode rule] stands for
    [rule.encode("utf-8", errors="surrogateescape")] and is [None] when
    that raises UnicodeEncodeError, a ValueError; [decode data] stands for
    [data.decode("utf-8", errors="replace")], which never raises. *)

Fixpoint send_filter_rules {str : Type} (encode : str -> option bytes)
         (rules : list str) : result bytes :=
  match rules with
  | [] => Ok []
  | rule :: rest =>
      b ← of_option ValueError (encode rule);
      hd ← ProtocolIO.write_int (len b);
      tl ← send_filter_rules encode rest;
      Ok (hd ++ (if negb (len b =? 0) then b else []) ++ tl)
  end.

Definition send_filter_list_wire {str : Type} (encode : str -> option bytes)
           (rules : list str) : result bytes :=
  body ← send_filter_rules encode rules;
  stop ← ProtocolIO.write_int 0;
  Ok (body ++ stop).

(** The [while True] loop of [recv_filter_list_wire]. *)
Fixpoint recv_filter_loop {str : Type} (decode : bytes -> str) (fuel : nat)
         (rules : list str) : ProtocolIO.reader (list str) := fun inp =>
  match fuel with
  | O => Err OutOfFuel
  | S fuel' =>
      '(length, inp) ← ProtocolIO.read_int inp;
      if length =? 0 then Ok (rules, inp)
      else if length <? 0 then Err ProtocolError
      else
        '(data, inp) ← (if negb (length =? 0) then ProtocolIO.read_bytes length inp
                        else Ok ([], inp));
        recv_filter_loop decode fuel' (rules ++ [decode data]) inp
  end.

(** Every rule takes at least four bytes off the stream. *)
Definition recv_filter_list_wire {str : Type} (decode : bytes -> str)
  : ProtocolIO.reader (list str) := fun inp =>
  recv_filter_loop decode (S (length inp)) [] inp.

(** ** [_common_prefix_len_upto_255] *)

Fixpoint common_prefix_loop (fuel : nat) (a b : bytes) (n i : Z) : result Z :=
  if i <? n then
    x ← getitem a i;
    y ← getitem b i;
    if x =? y then
      match fuel with
      | O => Err OutOfFuel
      | S fuel' => common_prefix_loop fuel' a b n (i + 1)
      end
    else Ok i
  else Ok i.

Definition _common_prefix_len_upto_255 (a b : bytes) : result Z :=
  let n := Z.min (Z.min (len a) (len b)) 255 in
  common_prefix_loop 255 a b n 0.

(** ** The circular buffer ([class IOBuffer]) *)

(** The exceptions of the buffer: BufferError on overflow, and the
    ZeroDivisionError of [% self.size] on a buffer of size zero. *)
Inductive buffer_error : Type :=
| BufferError
| ZeroDivisionError.

Inductive buffered (A : Type) : Type :=
| Done (a : A)
| Fails (e : buffer_error).
Arguments Done {A} a.
Arguments Fails {A} e.

(** [buf[a:b] = data] on a bytearray, with the bounds clamped as Python
    does. *)
Definition py_slice_assign (buf : bytes) (a b : Z) (data : bytes) : bytes :=
  let lo := slice_bound (len buf) a in
  let hi := Z.max lo (slice_bound (len buf) b) in
  take (Z.to_nat lo) buf ++ data ++ drop (Z.to_nat hi) buf.

Module IOBuffer.
Record t : Type := mk {
  size : Z;
  buf : bytes;
  pos : Z;
  len : Z
}.

(** [IOBuffer(bufsize)], for [bufsize >= 0]. *)
Definition init (bufsize : Z) : t :=
  mk bufsize (replicate (Z.to_nat bufsize) 0) 0 0.

Definition consume (self : t) (n : Z) : buffered t :=
  if size self =? 0 then Fails ZeroDivisionError
  else Done (mk (size self) (buf self) ((pos self + n) mod size self)
                (len self - n)).

Definition peek (self : t) (n : Z) : bytes :=
  let n := if n >? len self then len self else n in
  let end_ := pos self + n in
  if end_ >? size self
  then py_slice (buf self) (pos self) (size self)
       ++ py_slice (buf self) 0 (end_ - size self)
  else py_slice (buf self) (pos self) end_.

Definition append (self : t) (data : bytes) : buffered t :=
  let n := Z.of_nat (length data) in
  if n =? 0 then Done self
  else if n >? size self - len self then Fails BufferError
  else if size self =? 0 then Fails ZeroDivisionError
  else
    let end_ := (pos self + len self) mod size self in
    let first := Z.min n (size self - end_) in
    let buf1 := py_slice_assign (buf self) end_ (end_ + first)
                                (py_slice data 0 first) in
    let remaining := n - first in
    let buf2 := if negb (remaining =? 0)
                then py_slice_assign buf1 0 remaining
                                     (py_slice data first (first + remaining))
                else buf1 in
    Done (mk (size self) buf2 (pos self) (len self + n)).

(** The state the methods keep: a buffer of [size > 0] bytes, a read
    position inside it and at most [size] buffered bytes. *)
Definition wf (self : t) : Prop :=
  0 < size self /\ Z.of_nat (length (buf self)) = size self
  /\ 0 <= pos self < size self /\ 0 <= len self <= size self.

(** The buffered bytes, oldest first. *)
Definition contents (self : t) : bytes := peek self (len self).
End IOBuffer.

(** The bytes of a list of encoded, non-empty filter rules on the wire,
    without the terminator, and the encoded rules that can be sent and
    received. *)
Definition encode_rules (rules : list bytes) : bytes :=
  concat (map (fun b => le_bytes 4 (len b) ++ b) rules).

Definition sendable (b : bytes) : Prop := 0 < len b <= ProtocolIO.IOBUFFER_SIZE.

(** A text codec for the examples, with a string as its list of code
    points: on ASCII text, where the interpreter's codec maps a code point
    to the byte of the same value and back. *)
Definition ascii_encode (s : list Z) : option bytes :=
  if forallb (fun c => (0 <=? c) && (c <? 128)) s then Some s else None.

Definition ascii_decode (data : bytes) : list Z :=
  map (fun b => if b <? 128 then b else 0xFFFD) data.


(** * Proofs *)

(** ** Lists, slices and bits *)

#[local] Existing Instances eqm_setoid Zplus_eqm Zminus_eqm Zmult_eqm Zopp_eqm.

(** Closes [a mod m = b mod m] when stripping the inner reductions modulo
    [m] makes both sides equal as polynomials. *)
Ltac modeq :=
  match goal with
  | |- ?a mod ?m = ?b mod ?m =>
      change (eqm m a b); repeat setoid_rewrite (Zmod_eqm m);
      match goal with
      | |- eqm _ ?x ?y => replace x with y by ring; reflexivity
      end
  end.

Lemma len_nonneg {A} (l : list A) : 0 <= len l.
Proof. unfold len. lia. Qed.

Lemma len_app {A} (l1 l2 : list A) : len (l1 ++ l2) = len l1 + len l2.
Proof. unfold len. rewrite length_app. lia. Qed.

Lemma len_cons {A} (x : A) (l : list A) : len (x :: l) = len l + 1.
Proof. unfold len. simpl. lia. Qed.

Lemma len_nil {A} : len (@nil A) = 0.
Proof. reflexivity. Qed.

Lemma getitem_inrange {A} (d : list A) (i : Z) :
  0 <= i < len d ->
  exists x, d !! Z.to_nat i = Some x /\ getitem d i = Ok x.
Proof.
  intros H. unfold getitem.
  destruct (lookup_lt_is_Some_2 d (Z.to_nat i)) as [x Hx].
  { unfold len in H. lia. }
  exists x. split; [exact Hx|].
  replace ((0 <=? i) && (i <? len d)) with true by (symmetry; apply andb_true_iff; lia).
  rewrite Hx. reflexivity.
Qed.

Lemma slice_bound_inrange (n i : Z) : 0 <= i <= n -> slice_bound n i = i.
Proof. intros H. unfold slice_bound. destruct (Z.ltb_spec i 0); lia. Qed.

Lemma py_slice_window {A} (d : list A) (a b : Z) :
  0 <= a -> a <= b -> b <= len d ->
  py_slice d a b = take (Z.to_nat (b - a)) (drop (Z.to_nat a) d).
Proof.
  intros Ha Hab Hb. unfold py_slice.
  rewrite !slice_bound_inrange by lia. reflexivity.
Qed.

Lemma py_slice_bytes_window (d : bytes) (o k : Z) :
  0 <= o -> 0 <= k -> o + k <= len d ->
  py_slice d o (o + k) = window d o k.
Proof.
  intros. rewrite py_slice_window by lia. unfold window. f_equal. lia.
Qed.

Lemma len_window (d : bytes) (o k : Z) :
  0 <= o -> 0 <= k -> o + k <= len d -> len (window d o k) = k.
Proof.
  intros. unfold window, len in *. rewrite length_take, length_drop. lia.
Qed.

Lemma py_slice_full {A} (d : list A) : py_slice d 0 (len d) = d.
Proof.
  pose proof (len_nonneg d).
  rewrite py_slice_window by lia. simpl.
  rewrite Z.sub_0_r. unfold len. rewrite Nat2Z.id. apply firstn_all.
Qed.

Lemma py_slice_prefix_all {A} (d : list A) (n : Z) :
  len d <= n -> py_slice d 0 n = d.
Proof.
  intros H. pose proof (len_nonneg d). unfold py_slice.
  rewrite (slice_bound_inrange (len d) 0) by lia.
  unfold slice_bound. destruct (Z.ltb_spec n 0); [lia|].
  rewrite Z.min_r by lia. simpl. rewrite Z.sub_0_r.
  unfold len. rewrite Nat2Z.id. apply firstn_all.
Qed.

Lemma window_cons (d : bytes) (o k : Z) :
  0 <= o -> 1 <= k -> o + k <= len d ->
  exists x, d !! Z.to_nat o = Some x /\
            window d o k = x :: window d (o + 1) (k - 1).
Proof.
  intros Ho Hk Hlen.
  destruct (lookup_lt_is_Some_2 d (Z.to_nat o)) as [x Hx].
  { unfold len in Hlen. lia. }
  exists x. split; [exact Hx|]. unfold window.
  rewrite (drop_S _ _ _ Hx).
  replace (Z.to_nat k) with (S (Z.to_nat (k - 1))) by lia.
  replace (Z.to_nat (o + 1)) with (S (Z.to_nat o)) by lia.
  reflexivity.
Qed.

Lemma window_snoc (d : bytes) (o k : Z) :
  0 <= o -> 0 <= k -> o + k < len d ->
  exists y, d !! Z.to_nat (o + k) = Some y /\
            window d o (k + 1) = window d o k ++ [y].
Proof.
  intros Ho Hk Hlen.
  destruct (lookup_lt_is_Some_2 d (Z.to_nat (o + k))) as [y Hy].
  { unfold len in Hlen. lia. }
  exists y. split; [exact Hy|]. unfold window.
  replace (Z.to_nat (k + 1)) with (S (Z.to_nat k)) by lia.
  erewrite take_S_r; [reflexivity|].
  rewrite lookup_drop. rewrite <- Hy. f_equal. lia.
Qed.

Lemma window_nil (d : bytes) (o : Z) : window d o 0 = [].
Proof. reflexivity. Qed.

Lemma land_FFFF (x : Z) : Z.land x 0xFFFF = x mod 65536.
Proof. change 0xFFFF with (Z.ones 16). rewrite Z.land_ones by lia. reflexivity. Qed.

Lemma mod65536_range (x : Z) : 0 <= x mod 65536 < 65536.
Proof. apply Z.mod_pos_bound. lia. Qed.

Lemma lor_shiftl_16 (x y : Z) :
  0 <= x < 65536 -> Z.lor x (Z.shiftl y 16) = x + 65536 * y.
Proof.
  intros Hx. rewrite Z.shiftl_mul_pow2 by lia.
  assert (Hdisj : Z.land x (y * 2 ^ 16) = 0).
  { apply Z.bits_inj'. intros n Hn. rewrite Z.land_spec, Z.bits_0.
    destruct (Z.lt_ge_cases n 16).
    - rewrite Z.mul_pow2_bits_low by lia. apply andb_false_r.
    - replace (Z.testbit x n) with false; [reflexivity|].
      symmetry. destruct (Z.eq_dec x 0) as [->|]; [apply Z.bits_0|].
      apply Z.bits_above_log2; [lia|].
      apply Z.lt_le_trans with 16; [|lia]. apply Z.log2_lt_pow2; lia. }
  rewrite <- Z.lxor_lor by exact Hdisj.
  rewrite <- Z.add_nocarry_lxor by exact Hdisj.
  change (2 ^ 16) with 65536. lia.
Qed.

(** ** The result monad, comprehensions and loops *)

Lemma enumerate_snoc {A} (l : list A) (x : A) :
  enumerate (l ++ [x]) = enumerate l ++ [(len l, x)].
Proof.
  unfold enumerate. rewrite imap_app. cbn. unfold len.
  rewrite Nat.add_0_r. reflexivity.
Qed.

Lemma enumerate_lookup {A} (l : list A) (i : nat) :
  enumerate l !! i = (fun a => (Z.of_nat i, a)) <$> l !! i.
Proof. unfold enumerate. rewrite list_lookup_imap. reflexivity. Qed.

Lemma bind_ok {A B} (a : A) (f : A -> result B) : (Ok a ≫= f) = f a.
Proof. reflexivity. Qed.

Lemma bind_ok_inv {A B} (m : result A) (f : A -> result B) (b : B) :
  (m ≫= f) = Ok b -> exists a, m = Ok a /\ f a = Ok b.
Proof. destruct m as [a|e]; [eauto|discriminate]. Qed.

Lemma filter_result_ok {A} (p : A -> result bool) (q : A -> bool) (l : list A) :
  (forall x, x ∈ l -> p x = Ok (q x)) ->
  filter_result p l = Ok (List.filter q l).
Proof.
  induction l as [|x l IH]; intros H; [reflexivity|].
  cbn [filter_result List.filter]. rewrite (H x) by left.
  rewrite IH by (intros y Hy; apply H; right; exact Hy).
  cbn. destruct (q x); reflexivity.
Qed.

Lemma mapM_ok {A B} (f : A -> result B) (g : A -> B) (l : list A) :
  (forall x, x ∈ l -> f x = Ok (g x)) ->
  mapM f l = Ok (map g l).
Proof.
  induction l as [|x l IH]; intros H; [reflexivity|].
  cbn [mapM map]. rewrite (H x) by left.
  rewrite IH by (intros y Hy; apply H; right; exact Hy). reflexivity.
Qed.

(** A [while] loop that decreases a measure with every iteration returns
    within that many iterations, and an invariant of its body holds of the
    state it returns. *)
Lemma while_loop_inv {S} (P : S -> Prop) (m : S -> nat) (cond : S -> bool)
      (body : S -> S) :
  (forall s, P s -> cond s = true -> P (body s) /\ (m (body s) < m s)%nat) ->
  forall fuel s, P s -> (m s <= fuel)%nat ->
    exists s', while_loop fuel cond body s = Ok s' /\ P s' /\ cond s' = false.
Proof.
  intros Hstep. induction fuel as [|fuel IH]; intros s HP Hm; cbn [while_loop].
  - destruct (cond s) eqn:Ec.
    + destruct (Hstep s HP Ec) as [_ Hlt]. lia.
    + eauto.
  - destruct (cond s) eqn:Ec.
    + destruct (Hstep s HP Ec) as [HP' Hlt]. apply IH; [exact HP'|lia].
    + eauto.
Qed.


(** ** The weak rolling checksum *)

Section RollingChecksum.
Import Checksum.

Lemma roll_step_mod (s1 s2 b : Z) :
  roll_step (s1, s2) b = ((s1 + b) mod 65536, (s2 + s1 + b) mod 65536).
Proof.
  unfold roll_step, CHAR_OFFSET. simpl. rewrite !land_FFFF.
  f_equal; modeq.
Qed.

Lemma sum_bytes_app (l1 l2 : bytes) :
  sum_bytes (l1 ++ l2) = sum_bytes l1 + sum_bytes l2.
Proof. induction l1 as [|b l1 IH]; simpl; lia. Qed.

Lemma weighted_sum_app (l1 l2 : bytes) :
  weighted_sum (l1 ++ l2) = weighted_sum l1 + len l2 * sum_bytes l1 + weighted_sum l2.
Proof.
  induction l1 as [|b l1 IH]; simpl; [lia|].
  rewrite IH, len_app. lia.
Qed.

(** The loop computes the two sums of the specification, reduced. *)
Lemma fold_roll_step (l : bytes) (s1 s2 : Z) :
  0 <= s1 < 65536 -> 0 <= s2 < 65536 ->
  fold_left roll_step l (s1, s2)
  = ((s1 + sum_bytes l) mod 65536, (s2 + len l * s1 + weighted_sum l) mod 65536).
Proof.
  revert s1 s2. induction l as [|b l IH]; intros s1 s2 H1 H2.
  - cbn [fold_left sum_bytes weighted_sum]. change (len (@nil Z)) with 0.
    f_equal; rewrite Z.mod_small; lia.
  - cbn [fold_left]. rewrite roll_step_mod.
    rewrite IH by apply mod65536_range.
    cbn [sum_bytes weighted_sum]. rewrite len_cons.
    f_equal; modeq.
Qed.

Lemma rolling_loop_window (d : bytes) (o i : Z) (n : nat) (s : Z * Z) :
  0 <= o + i -> o + i + Z.of_nat n <= len d ->
  rolling_loop d o i n s
  = Ok (fold_left roll_step (window d (o + i) (Z.of_nat n)) s).
Proof.
  revert i s. induction n as [|n IH]; intros i s H0 H1.
  - reflexivity.
  - cbn [rolling_loop].
    destruct (window_cons d (o + i) (Z.of_nat (S n))) as (x & Hx & Hw); try lia.
    destruct (getitem_inrange d (o + i)) as (x' & Hx' & Hg); [lia|].
    rewrite Hg. assert (x' = x) by congruence. subst x'.
    cbn. rewrite IH by lia. rewrite Hw. cbn [fold_left].
    do 3 f_equal; lia.
Qed.

Lemma weak_fold (l : bytes) :
  (let '(s1, s2) := fold_left roll_step l (0, 0) in
   Z.lor (Z.land s1 0xFFFF) (Z.shiftl s2 16)) = weak l.
Proof.
  rewrite fold_roll_step by lia. rewrite land_FFFF, Z.mod_mod by lia.
  unfold weak. do 3 f_equal; lia.
Qed.

Lemma rolling_checksum_window (d : bytes) (o k : Z) :
  0 <= o -> 0 <= k -> o + k <= len d ->
  rolling_checksum d o (Some k) = Ok (weak (window d o k)).
Proof.
  intros Ho Hk Hlen. unfold rolling_checksum.
  rewrite rolling_loop_window by lia.
  rewrite Z.add_0_r, Z2Nat.id by lia. cbn.
  pose proof (weak_fold (window d o k)) as H.
  destruct (fold_left roll_step (window d o k) (0, 0)) as [s1 s2].
  cbn. f_equal. exact H.
Qed.

Lemma window_all (d : bytes) : window d 0 (len d) = d.
Proof. unfold window, len. rewrite Nat2Z.id. simpl. apply firstn_all. Qed.

Lemma rolling_checksum_whole (d : bytes) :
  rolling_checksum d 0 None = Ok (weak d).
Proof.
  pose proof (len_nonneg d).
  change (rolling_checksum d 0 None) with (rolling_checksum d 0 (Some (len d - 0))).
  rewrite Z.sub_0_r, rolling_checksum_window by lia.
  rewrite window_all. reflexivity.
Qed.

Lemma window_split (d : bytes) (o a b : Z) :
  0 <= o -> 0 <= a -> 0 <= b ->
  window d o (a + b) = window d o a ++ window d (o + a) b.
Proof.
  intros. unfold window.
  rewrite Z2Nat.inj_add by lia. rewrite <- take_take_drop.
  rewrite drop_drop. do 3 f_equal. lia.
Qed.

(** Four single steps are one step of the unrolled loop. *)
Lemma roll_step4 (s : Z * Z) (b0 b1 b2 b3 : Z) :
  fold_left roll_step [b0; b1; b2; b3] s
  = (Z.land (fst s + (b0 + CHAR_OFFSET) + (b1 + CHAR_OFFSET) + (b2 + CHAR_OFFSET)
             + (b3 + CHAR_OFFSET)) 0xFFFF,
     Z.land (snd s + 4 * (fst s + (b0 + CHAR_OFFSET)) + 3 * (b1 + CHAR_OFFSET)
             + 2 * (b2 + CHAR_OFFSET) + (b3 + CHAR_OFFSET)) 0xFFFF).
Proof.
  destruct s as [s1 s2]. cbn [fold_left fst snd]. rewrite !roll_step_mod.
  unfold CHAR_OFFSET. rewrite !land_FFFF. f_equal; modeq.
Qed.

Lemma optimized_loop4_window (fuel : nat) (d : bytes) (o n i : Z) (s : Z * Z) :
  0 <= o -> 0 <= i -> o + n <= len d -> n - i <= Z.of_nat fuel ->
  exists i', optimized_loop4 fuel d o n i s
             = Ok (i', fold_left roll_step (window d (o + i) (i' - i)) s)
             /\ i <= i' /\ (i' <= n \/ i' = i) /\ n - 3 <= i'.
Proof.
  revert i s. induction fuel as [|fuel IH]; intros i s Ho Hi Hn Hf.
  - exists i. cbn. rewrite Z.sub_diag, window_nil. repeat split; try lia.
  - cbn [optimized_loop4]. destruct (Z.ltb_spec i (n - 3)) as [Hlt|Hge].
    + destruct (getitem_inrange d (o + i)) as (b0 & L0 & G0); [lia|].
      destruct (getitem_inrange d (o + i + 1)) as (b1 & L1 & G1); [lia|].
      destruct (getitem_inrange d (o + i + 2)) as (b2 & L2 & G2); [lia|].
      destruct (getitem_inrange d (o + i + 3)) as (b3 & L3 & G3); [lia|].
      rewrite G0, G1, G2, G3. cbn [mbind result_bind].
      destruct (IH (i + 4) (fold_left roll_step [b0; b1; b2; b3] s))
        as (i' & E & H1 & H2 & H3); try lia.
      assert (W : window d (o + i) 4 = [b0; b1; b2; b3]).
      { unfold window. change (Z.to_nat 4) with 4%nat.
        rewrite (drop_S _ _ _ L0).
        replace (S (Z.to_nat (o + i))) with (Z.to_nat (o + i + 1)) by lia.
        rewrite (drop_S _ _ _ L1).
        replace (S (Z.to_nat (o + i + 1))) with (Z.to_nat (o + i + 2)) by lia.
        rewrite (drop_S _ _ _ L2).
        replace (S (Z.to_nat (o + i + 2))) with (Z.to_nat (o + i + 3)) by lia.
        rewrite (drop_S _ _ _ L3). reflexivity. }
      exists i'. rewrite roll_step4 in E. rewrite E.
      split; [|lia]. f_equal. f_equal.
      replace (i' - i) with (4 + (i' - (i + 4))) by lia.
      rewrite window_split by lia. rewrite fold_left_app.
      rewrite W, roll_step4.
      replace (o + i + 4) with (o + (i + 4)) by lia. reflexivity.
    + exists i. rewrite Z.sub_diag, window_nil. repeat split; try lia.
Qed.

Lemma optimized_loop1_window (fuel : nat) (d : bytes) (o n i : Z) (s : Z * Z) :
  0 <= o -> 0 <= i -> o + n <= len d -> n - i <= Z.of_nat fuel ->
  optimized_loop1 fuel d o n i s
  = Ok (fold_left roll_step (window d (o + i) (n - i)) s).
Proof.
  revert i s. induction fuel as [|fuel IH]; intros i s Ho Hi Hn Hf.
  - cbn. unfold window. replace (Z.to_nat (n - i)) with 0%nat by lia. reflexivity.
  - cbn [optimized_loop1]. destruct (Z.ltb_spec i n) as [Hlt|Hge].
    + destruct (window_cons d (o + i) (n - i)) as (x & Hx & Hw); try lia.
      destruct (getitem_inrange d (o + i)) as (x' & Hx' & Hg); [lia|].
      rewrite Hg. assert (x' = x) by congruence. subst x'.
      cbn [mbind result_bind]. rewrite IH by lia. rewrite Hw. cbn [fold_left].
      do 3 f_equal; lia.
    + unfold window. replace (Z.to_nat (n - i)) with 0%nat by lia. reflexivity.
Qed.

Lemma rolling_checksum_optimized_window (d : bytes) (o k : Z) :
  0 <= o -> 0 <= k -> o + k <= len d ->
  rolling_checksum_optimized d o (Some k) = Ok (weak (window d o k)).
Proof.
  intros Ho Hk Hlen. unfold rolling_checksum_optimized.
  destruct (optimized_loop4_window (Z.to_nat k) d o k 0 (0, 0))
    as (i' & E & H1 & H2 & H3); try lia.
  rewrite E. cbn [mbind result_bind].
  rewrite optimized_loop1_window by lia. cbn [mbind result_bind].
  rewrite <- fold_left_app.
  rewrite Z.add_0_r, Z.sub_0_r. rewrite <- window_split by lia.
  replace (i' + (k - i')) with k by lia.
  pose proof (weak_fold (window d o k)) as H.
  destruct (fold_left roll_step (window d o k) (0, 0)) as [s1 s2].
  cbn. f_equal. exact H.
Qed.

(** Both entry points compute the same checksum. *)
Lemma rolling_checksum_optimized_eq (d : bytes) (o k : Z) :
  0 <= o -> 0 <= k -> o + k <= len d ->
  rolling_checksum_optimized d o (Some k) = rolling_checksum d o (Some k).
Proof.
  intros. rewrite rolling_checksum_optimized_window, rolling_checksum_window by lia.
  reflexivity.
Qed.

Lemma components_of_sums (a b : Z) :
  checksum_components (Z.lor (a mod 65536) (Z.shiftl (b mod 65536) 16))
  = (a mod 65536, b mod 65536).
Proof.
  pose proof (mod65536_range a). pose proof (mod65536_range b).
  unfold checksum_components. rewrite lor_shiftl_16 by lia.
  rewrite !land_FFFF. rewrite Z.shiftr_div_pow2 by lia. change (2 ^ 16) with 65536.
  set (x := a mod 65536) in *. set (y := b mod 65536) in *.
  f_equal.
  - replace (x + 65536 * y) with (x + y * 65536) by lia.
    rewrite Z.mod_add by lia. apply Z.mod_small. lia.
  - replace (x + 65536 * y) with (y * 65536 + x) by lia.
    rewrite Z.div_add_l by lia. rewrite (Z.div_small x) by lia.
    rewrite Z.add_0_r. apply Z.mod_small. lia.
Qed.

Lemma components_weak (w : bytes) :
  checksum_components (weak w) = (sum_bytes w mod 65536, weighted_sum w mod 65536).
Proof. apply components_of_sums. Qed.

Lemma combine_mod (s1 s2 : Z) :
  combine_checksum s1 s2 = Z.lor (s1 mod 65536) (Z.shiftl (s2 mod 65536) 16).
Proof. unfold combine_checksum. rewrite !land_FFFF. reflexivity. Qed.

Lemma combine_components_weak (w : bytes) :
  (let '(s1, s2) := checksum_components (weak w) in combine_checksum s1 s2) = weak w.
Proof.
  rewrite components_weak. rewrite combine_mod. rewrite !Z.mod_mod by lia.
  reflexivity.
Qed.

(** Sliding the window [b :: w] to [w ++ [c]]. *)
Lemma slide_weak (b c : Z) (w : bytes) :
  (let '(s1, s2) := checksum_components (weak (b :: w)) in
   let '(s1', s2') := rolling_update b c s1 s2 (len (b :: w)) in
   combine_checksum s1' s2') = weak (w ++ [c]).
Proof.
  rewrite components_weak. unfold rolling_update, CHAR_OFFSET.
  rewrite combine_mod, !land_FFFF, !Z.mod_mod by lia. unfold weak.
  rewrite sum_bytes_app, weighted_sum_app. cbn [sum_bytes weighted_sum].
  rewrite ?len_cons. change (len (@nil Z)) with 0.
  f_equal; [|f_equal]; modeq.
Qed.

(** Dropping the first byte of the window [b :: w]. *)
Lemma shrink_weak (b : Z) (w : bytes) :
  (let '(s1, s2) := checksum_components (weak (b :: w)) in
   let '(s1', s2') := shrink_update b s1 s2 (len (b :: w)) in
   combine_checksum s1' s2') = weak w.
Proof.
  rewrite components_weak. unfold shrink_update, CHAR_OFFSET.
  rewrite combine_mod, !land_FFFF, !Z.mod_mod by lia. unfold weak.
  cbn [sum_bytes weighted_sum]. rewrite len_cons.
  f_equal; [|f_equal]; modeq.
Qed.

End RollingChecksum.

(** *** Claim C3: rolling-update correctness *)

(** C3, as stated, fails: shrinking the window at its right end (same start,
    one byte shorter) is not what the shrink update computes.  On the window
    [1; 2] no choice of the removed byte makes the update agree with the
    checksum of the shorter window [1]. *)
Lemma rolling_shrink_right_end_counterexample :
  exists w w' : Z,
    Checksum.rolling_checksum [1; 2] 0 (Some 2) = Ok w /\
    Checksum.rolling_checksum [1; 2] 0 (Some 1) = Ok w' /\
    forall old_b : Z, shrink w old_b 2 <> w'.
Proof.
  exists 262147, 65537. split; [reflexivity|]. split; [reflexivity|].
  intros old_b H. unfold shrink in H.
  change (Checksum.checksum_components 262147) with (3, 4) in H.
  unfold Checksum.shrink_update, CHAR_OFFSET in H.
  rewrite combine_mod, !land_FFFF in H.
  apply (f_equal Checksum.checksum_components) in H.
  rewrite components_of_sums in H.
  change (Checksum.checksum_components 65537) with (1, 1) in H.
  injection H as H1 H2.
  rewrite Z.mod_mod in H2 by lia.
  revert H2. clear. intros H2. Z.div_mod_to_equations. lia.
Qed.

(** C3, amended: from the checksum of the window [D[o..o+k]] the shrink
    update with [old_b = D[o]] gives the checksum of [D[o+1..o+k]] (the window
    loses its first byte), and, when a byte follows the window, the slide
    update of [rolling_update] with [new_b = D[o+k]] gives the checksum of
    [D[o+1..o+k+1]]; both agree with [rolling_checksum] recomputed from
    scratch. *)
Theorem rolling_update_correct (D : bytes) (o k : Z) :
  0 <= o -> 1 <= k -> o + k <= len D ->
  exists w old_b : Z,
    Checksum.rolling_checksum D o (Some k) = Ok w /\
    getitem D o = Ok old_b /\
    Checksum.rolling_checksum D (o + 1) (Some (k - 1)) = Ok (shrink w old_b k) /\
    (o + k < len D ->
     exists new_b : Z,
       getitem D (o + k) = Ok new_b /\
       Checksum.rolling_checksum D (o + 1) (Some k) = Ok (slide w old_b new_b k)).
Proof.
  intros Ho Hk Hlen.
  destruct (window_cons D o k) as (x & Hx & Hw); try lia.
  destruct (getitem_inrange D o) as (x' & Hx' & Hg); [lia|].
  assert (x' = x) by congruence. subst x'.
  assert (Hk' : len (x :: window D (o + 1) (k - 1)) = k).
  { rewrite <- Hw. apply len_window; lia. }
  exists (weak (window D o k)), x.
  split; [apply rolling_checksum_window; lia|].
  split; [exact Hg|]. split.
  - rewrite rolling_checksum_window by lia. f_equal.
    rewrite Hw. remember (window D (o + 1) (k - 1)) as w' eqn:Ew.
    rewrite <- Hk'. symmetry. apply shrink_weak.
  - intros Hmore.
    destruct (window_snoc D (o + 1) (k - 1)) as (y & Hy & Hs); try lia.
    destruct (getitem_inrange D (o + k)) as (y' & Hy' & Hg'); [lia|].
    replace (o + 1 + (k - 1)) with (o + k) in Hy by lia.
    assert (y' = y) by congruence. subst y'.
    exists y. split; [exact Hg'|].
    rewrite rolling_checksum_window by lia. f_equal.
    replace (window D (o + 1) k) with (window D (o + 1) (k - 1 + 1))
      by (f_equal; lia).
    rewrite Hs, Hw. remember (window D (o + 1) (k - 1)) as w' eqn:Ew.
    rewrite <- Hk'. symmetry. apply slide_weak.
Qed.

Lemma rolling_update_correct_witness :
  exists w old_b : Z,
    Checksum.rolling_checksum [97; 98; 99; 100] 1 (Some 2) = Ok w /\
    getitem [97; 98; 99; 100] 1 = Ok old_b /\
    Checksum.rolling_checksum [97; 98; 99; 100] (1 + 1) (Some (2 - 1))
    = Ok (shrink w old_b 2) /\
    (1 + 2 < len [97; 98; 99; 100] ->
     exists new_b : Z,
       getitem [97; 98; 99; 100] (1 + 2) = Ok new_b /\
       Checksum.rolling_checksum [97; 98; 99; 100] (1 + 1) (Some 2)
       = Ok (slide w old_b new_b 2)).
Proof.
  apply (rolling_update_correct [97; 98; 99; 100] 1 2); vm_compute; congruence.
Defined.


(** ** Fixed-width integers *)

Lemma all_below_spec (n : nat) (P : Z -> bool) :
  all_below n P = true -> forall t, 0 <= t < Z.of_nat n -> P t = true.
Proof.
  unfold all_below. rewrite forallb_forall. intros H t Ht. apply H.
  apply in_map_iff. exists (Z.to_nat t). split; [lia|].
  apply in_seq. lia.
Qed.

Lemma len_le_bytes (n : nat) (v : Z) : len (le_bytes n v) = Z.of_nat n.
Proof.
  revert v. induction n as [|n IH]; intros v; [reflexivity|].
  cbn [le_bytes]. rewrite len_cons, IH. lia.
Qed.

Lemma land_FF (x : Z) : Z.land x 0xFF = x mod 256.
Proof. change 0xFF with (Z.ones 8). rewrite Z.land_ones by lia. reflexivity. Qed.

Lemma is_bytes_le_bytes (n : nat) (v : Z) : is_bytes (le_bytes n v).
Proof.
  revert v. induction n as [|n IH]; intros v; constructor.
  - rewrite land_FF. apply Z.mod_pos_bound. lia.
  - apply IH.
Qed.

Lemma le_value_le_bytes (n : nat) (v : Z) :
  le_value (le_bytes n v) = v mod 2 ^ (8 * Z.of_nat n).
Proof.
  revert v. induction n as [|n IH]; intros v.
  - cbn. rewrite Z.mod_1_r. reflexivity.
  - cbn [le_bytes le_value]. rewrite IH, land_FF.
    rewrite Z.shiftr_div_pow2 by lia. change (2 ^ 8) with 256.
    replace (8 * Z.of_nat (S n)) with (8 + 8 * Z.of_nat n) by lia.
    rewrite Z.pow_add_r by lia. change (2 ^ 8) with 256.
    rewrite Z.rem_mul_r by (try apply Z.pow_pos_nonneg; lia). reflexivity.
Qed.

Lemma le_value_range (b : bytes) :
  is_bytes b -> 0 <= le_value b < 2 ^ (8 * len b).
Proof.
  induction 1 as [|x b Hx Hb IH].
  - change (0 <= 0 < 1). lia.
  - cbn [le_value]. rewrite len_cons.
    replace (8 * (len b + 1)) with (8 + 8 * len b) by lia.
    pose proof (len_nonneg b).
    rewrite Z.pow_add_r by lia. change (2 ^ 8) with 256. lia.
Qed.

(** A byte string is determined by its length and its little-endian value. *)
Lemma le_bytes_le_value (b : bytes) :
  is_bytes b -> le_bytes (length b) (le_value b) = b.
Proof.
  induction 1 as [|x b Hx Hb IH]; [reflexivity|].
  cbn [length le_bytes le_value]. f_equal.
  - rewrite land_FF.
    replace (x + 256 * le_value b) with (x + le_value b * 256) by lia.
    rewrite Z.mod_add by lia. apply Z.mod_small. lia.
  - rewrite Z.shiftr_div_pow2 by lia. change (2 ^ 8) with 256.
    replace (x + 256 * le_value b) with (le_value b * 256 + x) by lia.
    rewrite Z.div_add_l by lia.
    rewrite Z.div_small by lia. rewrite Z.add_0_r. exact IH.
Qed.

Lemma le_signed_le_bytes_4 (v : Z) :
  - 2 ^ 31 <= v < 2 ^ 31 -> le_signed (le_bytes 4 v) = v.
Proof.
  intros Hv. unfold le_signed. rewrite le_value_le_bytes, len_le_bytes.
  change (8 * Z.of_nat 4 - 1) with 31. change (8 * Z.of_nat 4) with 32.
  change (2 ^ 32) with 4294967296. change (2 ^ 31) with 2147483648 in *.
  destruct (Z.ltb_spec (v mod 4294967296) 2147483648);
    Z.div_mod_to_equations; lia.
Qed.

Lemma le_signed_le_bytes_8 (v : Z) :
  - 2 ^ 63 <= v < 2 ^ 63 -> le_signed (le_bytes 8 v) = v.
Proof.
  intros Hv. unfold le_signed. rewrite le_value_le_bytes, len_le_bytes.
  change (8 * Z.of_nat 8 - 1) with 63. change (8 * Z.of_nat 8) with 64.
  change (2 ^ 64) with 18446744073709551616.
  change (2 ^ 63) with 9223372036854775808 in *.
  destruct (Z.ltb_spec (v mod 18446744073709551616) 9223372036854775808);
    Z.div_mod_to_equations; lia.
Qed.

(** The low 32 bits determine a signed 32-bit integer. *)
Lemma le_signed_le_bytes_4_masked (v : Z) :
  - 2 ^ 31 <= v < 2 ^ 31 -> le_signed (le_bytes 4 (Z.land v 0xFFFFFFFF)) = v.
Proof.
  intros Hv. rewrite <- (le_signed_le_bytes_4 v Hv) at 2.
  unfold le_signed. rewrite !le_value_le_bytes, !len_le_bytes.
  change 0xFFFFFFFF with (Z.ones 32). rewrite Z.land_ones by lia.
  change (8 * Z.of_nat 4) with 32. rewrite Z.mod_mod by lia. reflexivity.
Qed.

Section ReadWrite.
Import ProtocolIO.

Lemma read_bytes_app (w rest : bytes) :
  len w <= IOBUFFER_SIZE ->
  read_bytes (len w) (w ++ rest) = Ok (w, rest).
Proof.
  intros Hw. unfold read_bytes. pose proof (len_nonneg w).
  destruct (Z.leb_spec (len w) 0) as [H0|H0].
  - assert (w = []) by (destruct w; [reflexivity|rewrite len_cons in H0; pose proof (len_nonneg w); lia]).
    subst. reflexivity.
  - destruct (Z.gtb_spec (len w) IOBUFFER_SIZE); [lia|].
    rewrite len_app. pose proof (len_nonneg rest).
    destruct (Z.leb_spec (len w) (len w + len rest)); [|lia].
    unfold len. rewrite Nat2Z.id. rewrite take_app_length, drop_app_length.
    reflexivity.
Qed.

Lemma read_bytes_app' (n : Z) (w rest : bytes) :
  n = len w -> n <= IOBUFFER_SIZE ->
  read_bytes n (w ++ rest) = Ok (w, rest).
Proof. intros -> H. apply read_bytes_app. exact H. Qed.

Lemma read_int_write_int (v : Z) (rest : bytes) :
  - 2 ^ 31 <= v < 2 ^ 31 ->
  exists w, write_int v = Ok w /\ len w = 4 /\ read_int (w ++ rest) = Ok (v, rest).
Proof.
  intros Hv. exists (le_bytes 4 v). unfold write_int, pack_i32.
  replace ((- 2 ^ 31 <=? v) && (v <? 2 ^ 31)) with true
    by (symmetry; apply andb_true_iff; lia).
  split; [reflexivity|]. split; [apply len_le_bytes|].
  unfold read_int. rewrite (read_bytes_app' 4 (le_bytes 4 v)).
  - cbn [mbind result_bind]. rewrite le_signed_le_bytes_4 by lia. reflexivity.
  - rewrite len_le_bytes. reflexivity.
  - unfold IOBUFFER_SIZE. lia.
Qed.

End ReadWrite.


(** ** varint and varlong *)

(** Decides a goal [lhs = rhs] on integers that mentions a variable [t]
    known to lie in [0, n) by evaluating it at every value. *)
Ltac brute t n :=
  apply Z.eqb_eq;
  match goal with
  | |- (?lhs =? ?rhs) = true =>
      let P := eval pattern t in (lhs =? rhs) in
      match P with
      | ?F _ => apply (all_below_spec n F); [vm_compute; reflexivity | lia]
      end
  end.

(** Turns a list of known length into an explicit list of variables. *)
Ltac explicit_list l H :=
  unfold len in H;
  repeat (destruct l as [|? l]; simpl length in H; try (exfalso; lia)).

(** Evaluates the closed list and shift computations left in the goal. *)
Ltac norm_bytes :=
  repeat match goal with
    | |- context [byte_at ?l ?i] =>
        let v := eval cbv in (byte_at l i) in change (byte_at l i) with v
    | H : context [byte_at ?l ?i] |- _ =>
        let v := eval cbv in (byte_at l i) in change (byte_at l i) with v in H
    | |- context [Z.shiftl 1 ?n] =>
        let v := eval cbv in (Z.shiftl 1 n) in change (Z.shiftl 1 n) with v
    end.

Ltac eval_slices :=
  repeat match goal with
    | |- context [py_slice ?l ?a ?c] =>
        let v := eval cbv in (py_slice l a c) in change (py_slice l a c) with v
    end.

(** Finds the number of extra bytes the table gives for the prefix [p]. *)
Ltac table_entry t n H :=
  match goal with
  | |- context [byte_at _INT_BYTE_EXTRA ?i] =>
      first
        [ assert (H : byte_at _INT_BYTE_EXTRA i = 0) by brute t n
        | assert (H : byte_at _INT_BYTE_EXTRA i = 1) by brute t n
        | assert (H : byte_at _INT_BYTE_EXTRA i = 2) by brute t n
        | assert (H : byte_at _INT_BYTE_EXTRA i = 3) by brute t n
        | assert (H : byte_at _INT_BYTE_EXTRA i = 4) by brute t n
        | assert (H : byte_at _INT_BYTE_EXTRA i = 5) by brute t n
        | assert (H : byte_at _INT_BYTE_EXTRA i = 6) by brute t n ]
  end.

Ltac split_rest l rest :=
  match l with
  | rest => constr:(@nil Z)
  | ?x :: ?l' => let r := split_rest l' rest in constr:(x :: r)
  end.

Ltac side t n := solve [ lia | reflexivity | vm_compute; reflexivity | brute t n ].

(** Replaces every closed boolean test of a conditional by its value. *)
Ltac step_bools :=
  repeat match goal with
    | |- context [if ?c then _ else _] =>
        let v := eval cbv in c in
        match v with
        | true => change c with true
        | false => change c with false
        end; cbv iota
    end.

(** The writer side of a leaf: names the prefix byte, runs the slice. *)
Ltac emit :=
  cbv beta iota;
  match goal with
  | |- context [set_byte _ 0 ?v] =>
      let p := fresh "p" in let Hp := fresh "Hp" in
      remember v as p eqn:Hp; eexists; split; [reflexivity|];
      eval_slices; cbn [app]; subst p
  end.

Section Varint.
Import ProtocolIO.

Lemma getitem_cons_0 {A} (x : A) (l : list A) : getitem (x :: l) 0 = Ok x.
Proof.
  unfold getitem. rewrite len_cons. pose proof (len_nonneg l).
  replace ((0 <=? 0) && (0 <? len l + 1)) with true
    by (symmetry; apply andb_true_iff; lia).
  reflexivity.
Qed.

Lemma read_byte_cons (x : Z) (inp : bytes) : read_byte (x :: inp) = Ok (x, inp).
Proof.
  unfold read_byte. change (x :: inp) with ([x] ++ inp).
  rewrite (read_bytes_app' 1 [x] inp) by (unfold IOBUFFER_SIZE; reflexivity || lia).
  cbn [mbind result_bind]. rewrite getitem_cons_0. reflexivity.
Qed.

(** The reader, given the number of extra bytes announced by the prefix. *)
Lemma read_varint_decode (p e : Z) (P rest : bytes) :
  byte_at _INT_BYTE_EXTRA (Z.land p 0xFF / 4) = e ->
  0 <= e <= 4 -> len P = e ->
  read_varint (p :: P ++ rest)
  = Ok (le_signed
          (py_slice
             (set_byte (P ++ replicate (Z.to_nat (5 - e)) 0) e
                (if e =? 0 then Z.land p 0xFF
                 else Z.land (Z.land p 0xFF) (Z.shiftl 1 (8 - e) - 1))) 0 4),
        rest).
Proof.
  intros He Hr HP. unfold read_varint. rewrite read_byte_cons.
  cbn [mbind result_bind]. rewrite He.
  assert (E : e = 0 \/ e = 1 \/ e = 2 \/ e = 3 \/ e = 4) by lia.
  destruct E as [-> | [-> | [-> | [-> | ->]]]]; explicit_list P HP.
  - reflexivity.
  - cbn [negb Z.eqb Z.geb Z.compare Pos.compare Pos.compare_cont].
    rewrite (read_bytes_app' 1 [z] rest) by (unfold IOBUFFER_SIZE; reflexivity || lia).
    reflexivity.
  - cbn [negb Z.eqb Z.geb Z.compare Pos.compare Pos.compare_cont].
    rewrite (read_bytes_app' 2 [z; z0] rest) by (unfold IOBUFFER_SIZE; reflexivity || lia).
    reflexivity.
  - cbn [negb Z.eqb Z.geb Z.compare Pos.compare Pos.compare_cont].
    rewrite (read_bytes_app' 3 [z; z0; z1] rest) by (unfold IOBUFFER_SIZE; reflexivity || lia).
    reflexivity.
  - cbn [negb Z.eqb Z.geb Z.compare Pos.compare Pos.compare_cont].
    rewrite (read_bytes_app' 4 [z; z0; z1; z2] rest) by (unfold IOBUFFER_SIZE; reflexivity || lia).
    reflexivity.
Qed.


(** The zero-stripping loop of the writers. *)
Lemma strip_loop_spec (b : bytes) (mb : Z) (fuel : nat) (c : Z) :
  mb <= c -> c - mb <= Z.of_nat fuel ->
  exists cnt,
    while_loop fuel (fun cnt => (cnt >? mb) && (byte_at b cnt =? 0))
               (fun cnt => cnt - 1) c = Ok cnt
    /\ mb <= cnt <= c
    /\ (forall j, cnt < j <= c -> byte_at b j = 0)
    /\ (cnt = mb \/ byte_at b cnt <> 0).
Proof.
  revert c. induction fuel as [|fuel IH]; intros c Hc Hf.
  - assert (c = mb) by lia. subst c. exists mb. cbn [while_loop].
    destruct (Z.gtb_spec mb mb); [lia|].
    cbn. split; [reflexivity|]. split; [lia|].
    split; [intros j Hj; lia | left; reflexivity].
  - cbn [while_loop]. destruct (Z.gtb_spec c mb) as [Hgt|Hle].
    + destruct (Z.eqb_spec (byte_at b c) 0) as [Hz|Hnz]; cbn [andb].
      * destruct (IH (c - 1)) as (cnt & E & H1 & H2 & H3); try lia.
        exists cnt. split; [exact E|]. split; [lia|]. split; [|exact H3].
        intros j Hj. destruct (Z.eq_dec j c) as [->|]; [exact Hz|].
        apply H2. lia.
      * exists c. split; [reflexivity|]. split; [lia|].
        split; [intros j Hj; lia | right; exact Hnz].
    + cbn [andb]. exists c. split; [reflexivity|]. split; [lia|].
      split; [intros j Hj; lia | left; lia].
Qed.


Ltac varint_leaf t n :=
  match goal with
  | |- read_varint (?p :: ?l) = Ok (_, ?rest) =>
      let P := split_rest l rest in
      change (p :: l) with (p :: P ++ rest);
      first [ rewrite (read_varint_decode p 0 P rest) by side t n
            | rewrite (read_varint_decode p 1 P rest) by side t n
            | rewrite (read_varint_decode p 2 P rest) by side t n
            | rewrite (read_varint_decode p 3 P rest) by side t n
            | rewrite (read_varint_decode p 4 P rest) by side t n ]
  end;
  f_equal; f_equal;
  try match goal with
    | |- context [set_byte _ _ ?v] => replace v with t by (symmetry; brute t n)
    end;
  reflexivity.

(** The varint round trip on the four bytes of the packed value. *)
Lemma varint_bytes_roundtrip (b1 b2 b3 b4 : Z) (rest : bytes) :
  0 <= b1 < 256 -> 0 <= b2 < 256 -> 0 <= b3 < 256 -> 0 <= b4 < 256 ->
  exists w, encode_prefix [0; b1; b2; b3; b4] 4 1 = Ok w /\
            read_varint (w ++ rest) = Ok (le_signed [b1; b2; b3; b4], rest).
Proof.
  intros H1 H2 H3 H4. unfold encode_prefix.
  destruct (strip_loop_spec [0; b1; b2; b3; b4] 1 (Z.to_nat 4) 4)
    as (cnt & E & Hc & Hz & Hnz); [lia|lia|].
  rewrite E. cbn [mbind result_bind]. clear E.
  assert (Hcases : cnt = 1 \/ cnt = 2 \/ cnt = 3 \/ cnt = 4) by lia.
  destruct Hcases as [-> | [-> | [-> | ->]]].
  - pose proof (Hz 2 ltac:(lia)) as Z2. pose proof (Hz 3 ltac:(lia)) as Z3.
    pose proof (Hz 4 ltac:(lia)) as Z4. norm_bytes. subst b2 b3 b4.
    destruct (Z.geb_spec b1 128) as [Hge|Hlt].
    + emit. varint_leaf b1 256%nat.
    + step_bools. emit. varint_leaf b1 128%nat.
  - pose proof (Hz 3 ltac:(lia)) as Z3.
    pose proof (Hz 4 ltac:(lia)) as Z4. norm_bytes. subst b3 b4.
    destruct (Z.geb_spec b2 64) as [Hge|Hlt].
    + emit. varint_leaf b2 256%nat.
    + step_bools. emit. varint_leaf b2 64%nat.
  - pose proof (Hz 4 ltac:(lia)) as Z4. norm_bytes. subst b4.
    destruct (Z.geb_spec b3 32) as [Hge|Hlt].
    + emit. varint_leaf b3 256%nat.
    + step_bools. emit. varint_leaf b3 32%nat.
  - norm_bytes.
    destruct (Z.geb_spec b4 16) as [Hge|Hlt].
    + emit. varint_leaf b4 256%nat.
    + step_bools. emit. varint_leaf b4 16%nat.
Qed.

Lemma write_read_varint (v : Z) :
  - 2 ^ 31 <= v < 2 ^ 31 ->
  exists w, write_varint v = Ok w /\
            forall rest, read_varint (w ++ rest) = Ok (v, rest).
Proof.
  intros Hv. unfold write_varint, pack_u32.
  assert (Hu : 0 <= Z.land v 0xFFFFFFFF < 2 ^ 32).
  { change 0xFFFFFFFF with (Z.ones 32). rewrite Z.land_ones by lia.
    apply Z.mod_pos_bound. lia. }
  replace ((0 <=? Z.land v 0xFFFFFFFF) && (Z.land v 0xFFFFFFFF <? 2 ^ 32))
    with true by (symmetry; apply andb_true_iff; lia).
  cbn [mbind result_bind].
  pose proof (is_bytes_le_bytes 4 (Z.land v 0xFFFFFFFF)) as Hb.
  pose proof (le_signed_le_bytes_4_masked v Hv) as Hs.
  remember (Z.land v 0xFFFFFFFF) as u eqn:Eu. clear Eu Hu.
  cbn [le_bytes] in *.
  remember (Z.land u 0xFF) as b1 eqn:E1.
  remember (Z.land (Z.shiftr u 8) 0xFF) as b2 eqn:E2.
  remember (Z.land (Z.shiftr (Z.shiftr u 8) 8) 0xFF) as b3 eqn:E3.
  remember (Z.land (Z.shiftr (Z.shiftr (Z.shiftr u 8) 8) 8) 0xFF) as b4 eqn:E4.
  clear E1 E2 E3 E4.
  unfold is_bytes in Hb. rewrite !Forall_cons in Hb.
  destruct Hb as (R1 & R2 & R3 & R4 & _).
  change (slice_assign (replicate 5 0) 1 5 [b1; b2; b3; b4])
    with [0; b1; b2; b3; b4].
  destruct (varint_bytes_roundtrip b1 b2 b3 b4 [] R1 R2 R3 R4) as (w & Ew & _).
  exists w. split; [exact Ew|]. intros rest.
  destruct (varint_bytes_roundtrip b1 b2 b3 b4 rest R1 R2 R3 R4) as (w' & Ew' & Er).
  assert (w' = w) by congruence. subst w'. rewrite Er, Hs. reflexivity.
Qed.

End Varint.


Section Varlong.
Import ProtocolIO.

Ltac read_front :=
  match goal with
  | |- context [read_bytes ?n (?p :: ?P ++ ?rest)] =>
      let P1 := eval cbv in (take (Z.to_nat (n - 1)) P) in
      let P2 := eval cbv in (drop (Z.to_nat (n - 1)) P) in
      change (p :: P ++ rest) with ((p :: P1) ++ (P2 ++ rest));
      rewrite (read_bytes_app' n (p :: P1) (P2 ++ rest))
        by (reflexivity || (unfold IOBUFFER_SIZE; lia))
  end.

Ltac read_tail :=
  try match goal with
    | |- context [read_bytes ?n (?P ++ ?rest)] =>
        rewrite (read_bytes_app' n P rest)
          by (reflexivity || (unfold IOBUFFER_SIZE; lia))
    end.

Ltac varlong_shape He :=
  unfold read_varlong; step_bools; read_front;
  cbn [mbind result_bind]; rewrite getitem_cons_0;
  cbn [mbind result_bind]; rewrite He; cbv zeta; step_bools;
  read_tail; cbn [mbind result_bind]; reflexivity.

(** The reader, given the number of extra bytes announced by the prefix. *)
Lemma read_varlong_decode (mb p e : Z) (P rest : bytes) :
  byte_at _INT_BYTE_EXTRA (Z.land p 0xFF / 4) = e ->
  1 <= mb <= 8 -> 0 <= e <= 6 -> mb + e <= 9 -> len P = mb - 1 + e ->
  read_varlong mb (p :: P ++ rest)
  = Ok (le_signed
          (py_slice
             (set_byte (P ++ replicate (Z.to_nat (9 - len P)) 0) (mb + e - 1)
                (if e =? 0 then p else Z.land p (Z.shiftl 1 (8 - e) - 1))) 0 8),
        rest).
Proof.
  intros He Hmb Hr Hsum HP.
  assert (M : mb = 1 \/ mb = 2 \/ mb = 3 \/ mb = 4 \/ mb = 5 \/ mb = 6 \/ mb = 7
              \/ mb = 8) by lia.
  assert (E : e = 0 \/ e = 1 \/ e = 2 \/ e = 3 \/ e = 4 \/ e = 5 \/ e = 6) by lia.
  destruct M as [-> | [-> | [-> | [-> | [-> | [-> | [-> | ->]]]]]]];
    destruct E as [-> | [-> | [-> | [-> | [-> | [-> | ->]]]]]];
    try (exfalso; lia); explicit_list P HP; varlong_shape He.
Qed.


Ltac varlong_leaf mb t n :=
  match goal with
  | |- read_varlong _ (?p :: ?l) = Ok (_, ?rest) =>
      let P := split_rest l rest in
      change (p :: l) with (p :: P ++ rest);
      first [ rewrite (read_varlong_decode mb p 0 P rest) by side t n
            | rewrite (read_varlong_decode mb p 1 P rest) by side t n
            | rewrite (read_varlong_decode mb p 2 P rest) by side t n
            | rewrite (read_varlong_decode mb p 3 P rest) by side t n
            | rewrite (read_varlong_decode mb p 4 P rest) by side t n
            | rewrite (read_varlong_decode mb p 5 P rest) by side t n
            | rewrite (read_varlong_decode mb p 6 P rest) by side t n ]
  end;
  f_equal; f_equal;
  try match goal with
    | |- context [set_byte _ _ ?v] => replace v with t by (symmetry; brute t n)
    end;
  reflexivity.

(** One value of [cnt]: the bytes above it are zero; then the two branches
    of the writer. *)
Ltac varlong_case mb Hz :=
  try (pose proof (Hz 2 ltac:(lia))); try (pose proof (Hz 3 ltac:(lia)));
  try (pose proof (Hz 4 ltac:(lia))); try (pose proof (Hz 5 ltac:(lia)));
  try (pose proof (Hz 6 ltac:(lia))); try (pose proof (Hz 7 ltac:(lia)));
  try (pose proof (Hz 8 ltac:(lia)));
  norm_bytes;
  repeat match goal with H : ?b = 0 |- _ => subst b end;
  match goal with
  | |- context [if ?t >=? ?bit then _ else _] =>
      destruct (Z.geb_spec t bit);
      [ emit; varlong_leaf mb t 256%nat
      | step_bools; emit; varlong_leaf mb t (Z.to_nat bit) ]
  end.

(** The varlong round trip on the eight bytes of the packed value. *)
Lemma varlong_bytes_roundtrip (b1 b2 b3 b4 b5 b6 b7 b8 mb : Z) (rest : bytes) :
  0 <= b1 < 256 -> 0 <= b2 < 256 -> 0 <= b3 < 256 -> 0 <= b4 < 256 ->
  0 <= b5 < 256 -> 0 <= b6 < 256 -> 0 <= b7 < 256 -> 0 <= b8 < 256 ->
  3 <= mb <= 8 ->
  exists w, encode_prefix [0; b1; b2; b3; b4; b5; b6; b7; b8] 8 mb = Ok w /\
            read_varlong mb (w ++ rest)
            = Ok (le_signed [b1; b2; b3; b4; b5; b6; b7; b8], rest).
Proof.
  intros H1 H2 H3 H4 H5 H6 H7 H8 Hmb. unfold encode_prefix.
  destruct (strip_loop_spec [0; b1; b2; b3; b4; b5; b6; b7; b8] mb (Z.to_nat 8) 8)
    as (cnt & E & Hc & Hz & Hnz); [lia|lia|].
  rewrite E. cbn [mbind result_bind]. clear E Hnz.
  assert (M : mb = 3 \/ mb = 4 \/ mb = 5 \/ mb = 6 \/ mb = 7 \/ mb = 8) by lia.
  assert (C : cnt = 3 \/ cnt = 4 \/ cnt = 5 \/ cnt = 6 \/ cnt = 7 \/ cnt = 8) by lia.
  destruct M as [-> | [-> | [-> | [-> | [-> | ->]]]]];
    destruct C as [-> | [-> | [-> | [-> | [-> | ->]]]]];
    try (exfalso; lia).
  all: match goal with
       | Hmb : 3 <= ?mb <= 8 |- _ => varlong_case mb Hz
       end.
Qed.

Lemma write_read_varlong (v mb : Z) :
  - 2 ^ 63 <= v < 2 ^ 63 -> 3 <= mb <= 8 ->
  exists w, write_varlong v mb = Ok w /\
            forall rest, read_varlong mb (w ++ rest) = Ok (v, rest).
Proof.
  intros Hv Hmb. unfold write_varlong, pack_i64.
  destruct (Z.ltb_spec mb 1); [lia|]. destruct (Z.gtb_spec mb 8); [lia|].
  cbn [orb].
  replace ((- 2 ^ 63 <=? v) && (v <? 2 ^ 63)) with true
    by (symmetry; apply andb_true_iff; lia).
  cbn [mbind result_bind].
  pose proof (is_bytes_le_bytes 8 v) as Hb.
  pose proof (le_signed_le_bytes_8 v Hv) as Hs.
  cbn [le_bytes] in *.
  remember (Z.land v 0xFF) as b1 eqn:E1.
  remember (Z.shiftr v 8) as v1 eqn:F1.
  remember (Z.land v1 0xFF) as b2 eqn:E2.
  remember (Z.shiftr v1 8) as v2 eqn:F2.
  remember (Z.land v2 0xFF) as b3 eqn:E3.
  remember (Z.shiftr v2 8) as v3 eqn:F3.
  remember (Z.land v3 0xFF) as b4 eqn:E4.
  remember (Z.shiftr v3 8) as v4 eqn:F4.
  remember (Z.land v4 0xFF) as b5 eqn:E5.
  remember (Z.shiftr v4 8) as v5 eqn:F5.
  remember (Z.land v5 0xFF) as b6 eqn:E6.
  remember (Z.shiftr v5 8) as v6 eqn:F6.
  remember (Z.land v6 0xFF) as b7 eqn:E7.
  remember (Z.shiftr v6 8) as v7 eqn:F7.
  remember (Z.land v7 0xFF) as b8 eqn:E8.
  clear E1 E2 E3 E4 E5 E6 E7 E8 F1 F2 F3 F4 F5 F6 F7.
  unfold is_bytes in Hb. rewrite !Forall_cons in Hb.
  destruct Hb as (R1 & R2 & R3 & R4 & R5 & R6 & R7 & R8 & _).
  change (slice_assign (replicate 9 0) 1 9 [b1; b2; b3; b4; b5; b6; b7; b8])
    with [0; b1; b2; b3; b4; b5; b6; b7; b8].
  destruct (varlong_bytes_roundtrip b1 b2 b3 b4 b5 b6 b7 b8 mb []
              R1 R2 R3 R4 R5 R6 R7 R8 Hmb) as (w & Ew & _).
  exists w. split; [exact Ew|]. intros rest.
  destruct (varlong_bytes_roundtrip b1 b2 b3 b4 b5 b6 b7 b8 mb rest
              R1 R2 R3 R4 R5 R6 R7 R8 Hmb) as (w' & Ew' & Er).
  assert (w' = w) by congruence. subst w'. rewrite Er, Hs. reflexivity.
Qed.

End Varlong.

(** *** Claim C5: the variable-length integers *)

(** C5, as stated, fails for [min_bytes = 1]: the writer announces eight
    extra bytes for -1 with the prefix 0xFF, for which the reader's table
    gives six. *)
Lemma varlong_min_bytes_1_counterexample :
  exists w, ProtocolIO.write_varlong (-1) 1 = Ok w /\
            ProtocolIO.read_varlong 1 w <> Ok (-1, []).
Proof. eexists. split; [reflexivity|]. vm_compute. discriminate. Qed.

(** C5, amended: [read_varint] inverts [write_varint] on every signed 32-bit
    integer, and [read_varlong] inverts [write_varlong] on every signed 64-bit
    integer when [min_bytes] is in [3, 8]; the reader consumes exactly the
    bytes written. *)
Theorem varint_varlong_roundtrip (v32 v64 min_bytes : Z) :
  - 2 ^ 31 <= v32 < 2 ^ 31 ->
  - 2 ^ 63 <= v64 < 2 ^ 63 ->
  3 <= min_bytes <= 8 ->
  (exists w, ProtocolIO.write_varint v32 = Ok w /\
             forall rest, ProtocolIO.read_varint (w ++ rest) = Ok (v32, rest))
  /\
  (exists w, ProtocolIO.write_varlong v64 min_bytes = Ok w /\
             forall rest,
               ProtocolIO.read_varlong min_bytes (w ++ rest) = Ok (v64, rest)).
Proof.
  intros H32 H64 Hmb. split.
  - apply write_read_varint. exact H32.
  - apply write_read_varlong; assumption.
Qed.

Lemma varint_varlong_roundtrip_witness :
  (exists w, ProtocolIO.write_varint (-5) = Ok w /\
             forall rest, ProtocolIO.read_varint (w ++ rest) = Ok (-5, rest))
  /\
  (exists w, ProtocolIO.write_varlong (-7) 3 = Ok w /\
             forall rest, ProtocolIO.read_varlong 3 (w ++ rest) = Ok (-7, rest)).
Proof. apply (varint_varlong_roundtrip (-5) (-7) 3); lia. Defined.


(** ** The sum header *)

Section SumHeader.
Import ProtocolIO.

(** *** Claim C6 *)

(** C6, as stated, fails: a count of 2^31 satisfies "count >= 0" but is not
    an int32, and [write_int] raises on it. *)
Lemma sum_head_count_counterexample :
  valid_sum_head 32 (SumHead.mk (2 ^ 31) 0 0 0)
  /\ write_sum_head (Some (SumHead.mk (2 ^ 31) 0 0 0)) 32 = Err StructError.
Proof.
  split; [|reflexivity].
  repeat split; vm_compute; congruence.
Qed.

(** C6, amended: for every sum header that is valid for protocol [P] and
    whose count is an int32, what [read_sum_head] reads back from the bytes
    of [write_sum_head] is the header itself when [P >= 27]; for [P < 27] the
    strong-prefix length is not transmitted and the reader substitutes the
    configured default [Config.CSUM_LENGTH] (which has to be a legal length
    itself). *)
Theorem sum_head_roundtrip (cfg : Config) (P : Z) (h : SumHead.t) (rest : bytes) :
  valid_sum_head P h ->
  SumHead.count h < 2 ^ 31 ->
  (P < 27 -> 0 <= CSUM_LENGTH cfg <= MAX_DIGEST_LEN) ->
  exists w,
    write_sum_head (Some h) P = Ok w /\
    read_sum_head cfg P (w ++ rest)
    = Ok (if P >=? 27 then h
          else SumHead.mk (SumHead.count h) (SumHead.blength h)
                 (CSUM_LENGTH cfg) (SumHead.remainder h),
          rest).
Proof.
  intros (Hc & Hb & Hs & Hr) Hc32 Hcfg. destruct h as [c b s r].
  cbn [SumHead.count SumHead.blength SumHead.s2length SumHead.remainder] in *.
  assert (Hmax : max_block_length P <= 131072).
  { unfold max_block_length, OLD_MAX_BLOCK_SIZE, MAX_BLOCK_SIZE.
    destruct (P <? 30); lia. }
  unfold write_sum_head, read_sum_head. cbn [default from_option id SumHead.count
    SumHead.blength SumHead.s2length SumHead.remainder].
  fold (max_block_length P).
  destruct (Z.geb_spec P 27) as [HP|HP].
  - destruct (read_int_write_int c (le_bytes 4 b ++ le_bytes 4 s ++ le_bytes 4 r ++ rest))
      as (w1 & E1 & L1 & R1); [lia|].
    destruct (read_int_write_int b (le_bytes 4 s ++ le_bytes 4 r ++ rest))
      as (w2 & E2 & L2 & R2); [lia|].
    destruct (read_int_write_int s (le_bytes 4 r ++ rest))
      as (w3 & E3 & L3 & R3); [lia|].
    destruct (read_int_write_int r rest) as (w4 & E4 & L4 & R4); [lia|].
    assert (w2 = le_bytes 4 b /\ w3 = le_bytes 4 s /\ w4 = le_bytes 4 r)
      as (-> & -> & ->).
    { unfold write_int, pack_i32 in *.
      repeat match goal with
             | H : (if ?c then _ else _) = Ok _ |- _ => destruct c; inversion H; clear H
             end. auto. }
    rewrite E1, E2, E3, E4. cbn [mbind result_bind].
    eexists. split; [reflexivity|].
    cbv beta. rewrite <- !app_assoc. rewrite R1. cbn [mbind result_bind].
    destruct (Z.ltb_spec c 0); [lia|].
    rewrite R2. cbn [mbind result_bind].
    destruct (Z.ltb_spec b 0); [lia|].
    destruct (Z.gtb_spec b (max_block_length P)); [lia|]. cbn [orb].
    rewrite R3. cbn [mbind result_bind].
    destruct (Z.ltb_spec s 0); [lia|].
    destruct (Z.gtb_spec s MAX_DIGEST_LEN); [unfold MAX_DIGEST_LEN in *; lia|].
    cbn [orb]. rewrite R4. cbn [mbind result_bind].
    destruct (Z.ltb_spec r 0); [lia|].
    destruct (Z.gtb_spec r b); [lia|]. reflexivity.
  - specialize (Hcfg HP).
    destruct (read_int_write_int c (le_bytes 4 b ++ le_bytes 4 r ++ rest))
      as (w1 & E1 & L1 & R1); [lia|].
    destruct (read_int_write_int b (le_bytes 4 r ++ rest))
      as (w2 & E2 & L2 & R2); [lia|].
    destruct (read_int_write_int r rest) as (w4 & E4 & L4 & R4); [lia|].
    assert (w2 = le_bytes 4 b /\ w4 = le_bytes 4 r) as (-> & ->).
    { unfold write_int, pack_i32 in *.
      repeat match goal with
             | H : (if ?c then _ else _) = Ok _ |- _ => destruct c; inversion H; clear H
             end. auto. }
    rewrite E1, E2, E4. cbn [mbind result_bind].
    eexists. split; [reflexivity|].
    cbv beta. rewrite app_nil_l. rewrite <- !app_assoc. rewrite R1. cbn [mbind result_bind].
    destruct (Z.ltb_spec c 0); [lia|].
    rewrite R2. cbn [mbind result_bind].
    destruct (Z.ltb_spec b 0); [lia|].
    destruct (Z.gtb_spec b (max_block_length P)); [lia|]. cbn [orb].
    destruct (Z.ltb_spec (CSUM_LENGTH cfg) 0); [lia|].
    destruct (Z.gtb_spec (CSUM_LENGTH cfg) MAX_DIGEST_LEN); [lia|].
    cbn [orb]. rewrite R4. cbn [mbind result_bind].
    destruct (Z.ltb_spec r 0); [lia|].
    destruct (Z.gtb_spec r b); [lia|]. reflexivity.
Qed.

Lemma sum_head_roundtrip_witness :
  exists w,
    write_sum_head (Some (SumHead.mk 100 4096 16 512)) 30 = Ok w /\
    read_sum_head default_config 30 (w ++ [1; 2; 3])
    = Ok (if 30 >=? 27 then SumHead.mk 100 4096 16 512
          else SumHead.mk 100 4096 (CSUM_LENGTH default_config) 512,
          [1; 2; 3]).
Proof.
  apply (sum_head_roundtrip default_config 30 (SumHead.mk 100 4096 16 512) [1; 2; 3]).
  - repeat split; vm_compute; congruence.
  - vm_compute. reflexivity.
  - vm_compute. congruence.
Defined.

End SumHeader.

(** ** The reconstructor [receive_data] *)

Section ReceiveData.
Import ProtocolIO.

Lemma read_bytes_inv (n : Z) (inp d inp' : bytes) :
  read_bytes n inp = Ok (d, inp') -> 0 < n ->
  d = take (Z.to_nat n) inp /\ inp' = drop (Z.to_nat n) inp /\ n <= len inp.
Proof.
  unfold read_bytes. intros H Hn.
  destruct (Z.leb_spec n 0); [lia|].
  destruct (n >? IOBUFFER_SIZE); [discriminate|].
  destruct (Z.leb_spec n (len inp)); [|discriminate].
  inversion H. auto.
Qed.

Lemma read_bytes_error (n : Z) (inp : bytes) (e : error) :
  read_bytes n inp = Err e -> e = EOFError.
Proof.
  unfold read_bytes. intros H.
  destruct (n <=? 0); [discriminate|].
  destruct (n >? IOBUFFER_SIZE); [congruence|].
  destruct (n <=? len inp); [discriminate|congruence].
Qed.

Lemma read_int_inv (inp : bytes) (i : Z) (inp' : bytes) :
  read_int inp = Ok (i, inp') -> (length inp' + 4 <= length inp)%nat.
Proof.
  unfold read_int. intros H.
  destruct (read_bytes 4 inp) as [[d r]|e] eqn:E; [|discriminate].
  cbn in H. inversion H. subst.
  apply read_bytes_inv in E; [|lia]. destruct E as (_ & -> & Hl).
  unfold len in Hl. rewrite length_drop. lia.
Qed.

Lemma read_int_error (inp : bytes) (e : error) :
  read_int inp = Err e -> e = EOFError.
Proof.
  unfold read_int. intros H.
  destruct (read_bytes 4 inp) as [[d r]|e'] eqn:E.
  - cbn in H. discriminate.
  - cbn in H. inversion H. subst. eapply read_bytes_error. exact E.
Qed.

Lemma read_bytes_nonempty (n : Z) (inp d inp' : bytes) :
  read_bytes n inp = Ok (d, inp') -> 0 < n ->
  d <> [] /\ (length inp' <= length inp)%nat.
Proof.
  intros H Hn. apply read_bytes_inv in H; [|exact Hn].
  destruct H as (-> & -> & Hl). unfold len in Hl. split.
  - intros E. apply (f_equal (@length Z)) in E. rewrite length_take in E.
    cbn in E. lia.
  - rewrite length_drop. lia.
Qed.

(** The code's test of a negative token is the acceptance condition of the
    specification. *)
Lemma copy_block_spec (basis : bytes) (sh : SumHead.t) (token : Z) :
  token < 0 ->
  (token_accepted basis sh token /\
   copy_block basis sh token
   = Ok (py_slice basis (block_offset sh (block_num_of token))
                  (block_offset sh (block_num_of token)
                   + block_length sh (block_num_of token)),
         block_length sh (block_num_of token)))
  \/ (~ token_accepted basis sh token /\
      copy_block basis sh token = Err ProtocolError).
Proof.
  intros Ht. unfold copy_block, token_accepted, block_offset, block_length,
    block_num_of.
  replace (- (token + 1)) with (- token - 1) by lia.
  set (bn := - token - 1).
  destruct (Z.ltb_spec bn 0) as [H0|H0]; [right; split; [lia|reflexivity]|].
  destruct (Z.geb_spec bn (SumHead.count sh)) as [H1|H1];
    [right; split; [lia|reflexivity]|].
  cbn [orb].
  assert (Hlen : (if (bn =? SumHead.count sh - 1) && (SumHead.remainder sh >? 0)
                  then SumHead.remainder sh else SumHead.blength sh)
                 = (if bool_decide (bn = SumHead.count sh - 1
                                    /\ SumHead.remainder sh > 0)
                    then SumHead.remainder sh else SumHead.blength sh)).
  { destruct (Z.eqb_spec bn (SumHead.count sh - 1));
      destruct (Z.gtb_spec (SumHead.remainder sh) 0); cbn [andb];
      case_bool_decide; try reflexivity; lia. }
  rewrite Hlen.
  destruct (Z.leb_spec
              (bn * SumHead.blength sh
               + (if bool_decide (bn = SumHead.count sh - 1
                                  /\ SumHead.remainder sh > 0)
                  then SumHead.remainder sh else SumHead.blength sh))
              (len basis)) as [H2|H2].
  - left. split; [split; [lia|exact H2]|reflexivity].
  - right. split; [lia|reflexivity].
Qed.

Lemma receive_loop_ok (basis : bytes) (sh : SumHead.t) (fuel : nat) :
  forall inp acc l m out stats rest,
    receive_loop fuel basis sh acc l m inp = Ok ((out, stats), rest) ->
    exists inp1, reads basis sh inp acc inp1 out
                 /\ read_int inp1 = Ok (0, rest).
Proof.
  induction fuel as [|fuel IH]; intros inp acc l m out stats rest H;
    [discriminate|].
  cbn [receive_loop] in H. unfold _recv_token_simple in H.
  destruct (read_int inp) as [[i inp1]|e] eqn:Ei; [|discriminate].
  cbn [mbind result_bind] in H.
  destruct (Z.eqb_spec i 0) as [->|Hi0].
  - cbn [mbind result_bind] in H. cbn in H. inversion H. subst.
    exists inp. split; [constructor|exact Ei].
  - destruct (Z.gtb_spec i 0) as [Hpos|Hneg].
    + destruct (read_bytes i inp1) as [[d inp2]|e] eqn:Ed; [|discriminate].
      cbn [mbind result_bind] in H.
      destruct (Z.eqb_spec i 0); [lia|]. destruct (Z.gtb_spec i 0); [|lia].
      destruct (read_bytes_nonempty _ _ _ _ Ed ltac:(lia)) as [Hd _].
      destruct d as [|x d]; [congruence|].
      apply IH in H. destruct H as (inp' & Hr & Hz).
      exists inp'. split; [|exact Hz].
      eapply reads_literal; eauto. lia.
    + cbn [mbind result_bind] in H.
      destruct (Z.eqb_spec i 0); [lia|]. destruct (Z.gtb_spec i 0); [lia|].
      destruct (copy_block_spec basis sh i ltac:(lia)) as [[Ha Ec]|[Ha Ec]];
        rewrite Ec in H; [|discriminate].
      cbn [mbind result_bind] in H.
      apply IH in H. destruct H as (inp' & Hr & Hz).
      exists inp'. split; [|exact Hz].
      eapply reads_match; eauto. lia.
Qed.

Lemma receive_loop_protocol_error (basis : bytes) (sh : SumHead.t) (fuel : nat) :
  forall inp acc l m,
    receive_loop fuel basis sh acc l m inp = Err ProtocolError ->
    exists inp1 acc1 i inp2,
      reads basis sh inp acc inp1 acc1
      /\ read_int inp1 = Ok (i, inp2) /\ i < 0
      /\ ~ token_accepted basis sh i.
Proof.
  induction fuel as [|fuel IH]; intros inp acc l m H; [discriminate|].
  cbn [receive_loop] in H. unfold _recv_token_simple in H.
  destruct (read_int inp) as [[i inp1]|e] eqn:Ei.
  2:{ cbn in H. apply read_int_error in Ei. congruence. }
  cbn [mbind result_bind] in H.
  destruct (Z.eqb_spec i 0) as [->|Hi0].
  - cbn in H. discriminate.
  - destruct (Z.gtb_spec i 0) as [Hpos|Hneg].
    + destruct (read_bytes i inp1) as [[d inp2]|e] eqn:Ed.
      2:{ cbn in H. apply read_bytes_error in Ed. congruence. }
      cbn [mbind result_bind] in H.
      destruct (Z.eqb_spec i 0); [lia|]. destruct (Z.gtb_spec i 0); [|lia].
      destruct (read_bytes_nonempty _ _ _ _ Ed ltac:(lia)) as [Hd _].
      destruct d as [|x d]; [congruence|].
      apply IH in H. destruct H as (inp' & acc' & j & inp'' & Hr & Hj & Hn & Ha).
      exists inp', acc', j, inp''. split; [|auto].
      eapply reads_literal; eauto. lia.
    + cbn [mbind result_bind] in H.
      destruct (Z.eqb_spec i 0); [lia|]. destruct (Z.gtb_spec i 0); [lia|].
      destruct (copy_block_spec basis sh i ltac:(lia)) as [[Ha Ec]|[Ha Ec]];
        rewrite Ec in H.
      * cbn [mbind result_bind] in H.
        apply IH in H. destruct H as (inp' & acc' & j & inp'' & Hr & Hj & Hn & Ha').
        exists inp', acc', j, inp''. split; [|auto].
        eapply reads_match; eauto. lia.
      * exists inp, acc, i, inp1. split; [constructor|]. split; [exact Ei|].
        split; [lia|exact Ha].
Qed.

Lemma reads_receive_loop (basis : bytes) (sh : SumHead.t) :
  forall inp acc inp1 acc1,
    reads basis sh inp acc inp1 acc1 ->
    forall fuel l m,
      (length inp < fuel)%nat ->
      exists fuel' l' m',
        (length inp1 < fuel')%nat /\
        receive_loop fuel basis sh acc l m inp
        = receive_loop fuel' basis sh acc1 l' m' inp1.
Proof.
  induction 1 as [inp acc
                 |inp acc i inp1 d inp2 inp' acc' Ei Hi Ed Hr IH
                 |inp acc i inp1 inp' acc' Ei Hi Ha Hr IH];
    intros fuel l m Hf.
  - exists fuel, l, m. split; [exact Hf|reflexivity].
  - destruct fuel as [|fuel]; [lia|].
    pose proof (read_int_inv _ _ _ Ei) as L1.
    destruct (read_bytes_nonempty _ _ _ _ Ed ltac:(lia)) as [Hd L2].
    destruct (IH fuel (l + len d) m ltac:(lia)) as (fuel' & l' & m' & Hf' & E).
    exists fuel', l', m'. split; [exact Hf'|].
    cbn [receive_loop]. unfold _recv_token_simple. rewrite Ei.
    cbn [mbind result_bind].
    destruct (Z.eqb_spec i 0); [lia|]. destruct (Z.gtb_spec i 0); [|lia].
    rewrite Ed. cbn [mbind result_bind].
    destruct (Z.eqb_spec i 0); [lia|]. destruct (Z.gtb_spec i 0); [|lia].
    destruct d as [|x d]; [congruence|]. exact E.
  - destruct fuel as [|fuel]; [lia|].
    pose proof (read_int_inv _ _ _ Ei) as L1.
    destruct (IH fuel l (m + block_length sh (block_num_of i)) ltac:(lia))
      as (fuel' & l' & m' & Hf' & E).
    exists fuel', l', m'. split; [exact Hf'|].
    cbn [receive_loop]. unfold _recv_token_simple. rewrite Ei.
    cbn [mbind result_bind].
    destruct (Z.eqb_spec i 0); [lia|]. destruct (Z.gtb_spec i 0); [lia|].
    cbn [mbind result_bind].
    destruct (Z.eqb_spec i 0); [lia|]. destruct (Z.gtb_spec i 0); [lia|].
    destruct (copy_block_spec basis sh i Hi) as [[Ha' Ec]|[Ha' Ec]];
      [|contradiction].
    rewrite Ec. cbn [mbind result_bind]. exact E.
Qed.

(** *** Claim C7 *)

(** C7: [receive_data] returns the accumulated result exactly when the
    stream is a run of literal tokens and accepted match tokens followed by
    the token 0 (each accepted match token appends
    [basis[block_num*block_length .. +len]]), and it raises ProtocolError
    exactly when such a run is followed by a negative token that names a
    block outside [0, count) or whose range extends past the end of the
    basis. *)
Theorem receive_data_spec (basis : bytes) (sh : SumHead.t) (inp : bytes) :
  (forall out rest,
      (exists stats, receive_data basis sh inp = Ok ((out, stats), rest))
      <-> (exists inp1, reads basis sh inp [] inp1 out
                        /\ read_int inp1 = Ok (0, rest)))
  /\ (receive_data basis sh inp = Err ProtocolError
      <-> (exists inp1 acc i inp2,
              reads basis sh inp [] inp1 acc
              /\ read_int inp1 = Ok (i, inp2) /\ i < 0
              /\ ~ token_accepted basis sh i)).
Proof.
  unfold receive_data. split; [intros out rest|]; split.
  - intros [stats H]. eapply receive_loop_ok. exact H.
  - intros (inp1 & Hr & Hz).
    destruct (reads_receive_loop basis sh _ _ _ _ Hr (S (length inp)) 0 0
                ltac:(lia)) as (fuel' & l' & m' & Hf & E).
    rewrite E. destruct fuel' as [|fuel']; [lia|].
    cbn [receive_loop]. unfold _recv_token_simple. rewrite Hz.
    cbn. eexists. reflexivity.
  - intros H. eapply receive_loop_protocol_error. exact H.
  - intros (inp1 & acc & i & inp2 & Hr & Hi & Hneg & Ha).
    destruct (reads_receive_loop basis sh _ _ _ _ Hr (S (length inp)) 0 0
                ltac:(lia)) as (fuel' & l' & m' & Hf & E).
    rewrite E. destruct fuel' as [|fuel']; [lia|].
    cbn [receive_loop]. unfold _recv_token_simple. rewrite Hi.
    cbn [mbind result_bind].
    destruct (Z.eqb_spec i 0); [lia|]. destruct (Z.gtb_spec i 0); [lia|].
    cbn [mbind result_bind].
    destruct (Z.eqb_spec i 0); [lia|]. destruct (Z.gtb_spec i 0); [lia|].
    destruct (copy_block_spec basis sh i Hneg) as [[Ha' Ec]|[Ha' Ec]];
      [contradiction|].
    rewrite Ec. reflexivity.
Qed.

End ReceiveData.


(** ** Negotiation of algorithm names *)

Section Negotiation.

Lemma rank_of_snoc (l : list string) (x : string) :
  rank_of (l ++ [x]) = <[x := len l]> (rank_of l).
Proof. unfold rank_of. rewrite enumerate_snoc, foldl_app. reflexivity. Qed.

Lemma rank_of_not_in (l : list string) (x : string) :
  x ∉ l -> rank_of l !! x = None.
Proof.
  induction l as [|y l IH] using rev_ind; intros Hx.
  - reflexivity.
  - rewrite rank_of_snoc. rewrite elem_of_app, list_elem_of_singleton in Hx.
    rewrite lookup_insert_ne by (intros ->; tauto).
    apply IH. tauto.
Qed.

(** Without repetitions the rank of a name is its position. *)
Lemma rank_of_lookup (l : list string) (i : nat) (x : string) :
  NoDup l -> l !! i = Some x -> rank_of l !! x = Some (Z.of_nat i).
Proof.
  revert i. induction l as [|y l IH] using rev_ind; intros i Hnd Hi.
  - discriminate.
  - rewrite rank_of_snoc. apply NoDup_app in Hnd. destruct Hnd as (Hnd & Hdisj & _).
    destruct (decide (i < length l)%nat) as [Hlt|Hge].
    + rewrite lookup_app_l in Hi by exact Hlt.
      assert (x ≠ y).
      { intros ->. apply (Hdisj y); [eapply list_elem_of_lookup_2; eauto|].
        apply list_elem_of_singleton. reflexivity. }
      rewrite lookup_insert_ne by congruence. apply IH; assumption.
    + rewrite lookup_app_r in Hi by lia.
      destruct (i - length l)%nat as [|k] eqn:Ek; [|destruct k; discriminate].
      cbn in Hi. inversion Hi. subst y.
      rewrite lookup_insert_eq. unfold len. f_equal. lia.
Qed.

Lemma rank_of_elem (l : list string) (x : string) :
  NoDup l -> x ∈ l ->
  exists i : nat, l !! i = Some x /\ rank_of l !! x = Some (Z.of_nat i).
Proof.
  intros Hnd Hx. apply list_elem_of_lookup in Hx. destruct Hx as [i Hi].
  exists i. split; [exact Hi|]. apply rank_of_lookup; assumption.
Qed.

(** [find] returns the first element that passes the test. *)
Lemma find_first {A} (f : A -> bool) (l : list A) (x : A) :
  List.find f l = Some x ->
  exists i : nat, l !! i = Some x /\ f x = true
                  /\ forall j y, (j < i)%nat -> l !! j = Some y -> f y = false.
Proof.
  induction l as [|a l IH]; intros H; [discriminate|].
  cbn in H. destruct (f a) eqn:Ea.
  - inversion H. subst. exists 0%nat. split; [reflexivity|]. split; [exact Ea|].
    intros j y Hj. lia.
  - destruct (IH H) as (i & Hi & Hf & Hmin). exists (S i).
    split; [exact Hi|]. split; [exact Hf|].
    intros [|j] y Hj Hy; [cbn in Hy; congruence|].
    apply (Hmin j); [lia|exact Hy].
Qed.

Lemma find_none_iff {A} (f : A -> bool) (l : list A) :
  List.find f l = None <-> forall x, x ∈ l -> f x = false.
Proof.
  split.
  - intros H x Hx. apply (List.find_none f l H). apply list_elem_of_In. exact Hx.
  - intros H. induction l as [|a l IH]; [reflexivity|].
    cbn. rewrite (H a) by (left). apply IH. intros x Hx. apply H. right. exact Hx.
Qed.

(** The client's loop returns a name of least rank among the acceptable
    names that beat [best_rank], or else [best_tok]. *)
Lemma client_scan_min (local_pref : list string) (remote : list string) :
  NoDup local_pref ->
  forall best_tok best_rank,
    let res := client_scan (list_to_set local_pref) (rank_of local_pref)
                           remote best_tok best_rank in
    (res = best_tok
     /\ forall t r, t ∈ remote -> rank_of local_pref !! t = Some r ->
                    best_rank <= r)
    \/ (exists t r, res = Some t /\ t ∈ remote
                    /\ rank_of local_pref !! t = Some r /\ r < best_rank
                    /\ forall t' r', t' ∈ remote ->
                                     rank_of local_pref !! t' = Some r' ->
                                     r <= r').
Proof.
  intros Hnd. induction remote as [|tok rest IH]; intros best_tok best_rank res.
  - left. split; [reflexivity|]. intros t r Ht. inversion Ht.
  - subst res. cbn [client_scan]. case_bool_decide as Hin.
    + rewrite elem_of_list_to_set in Hin.
      destruct (rank_of_elem local_pref tok Hnd Hin) as (i & Hi & Hr).
      rewrite Hr. cbn [default from_option id].
      destruct (Z.ltb_spec (Z.of_nat i) best_rank) as [Hlt|Hge].
      * destruct (Z.eqb_spec (Z.of_nat i) 0) as [H0|H0].
        -- right. exists tok, (Z.of_nat i). split; [reflexivity|].
           split; [left|]. split; [exact Hr|]. split; [exact Hlt|].
           intros t' r' Ht' Hr'.
           destruct (decide (t' ∈ local_pref)) as [Hl|Hl].
           ++ destruct (rank_of_elem local_pref t' Hnd Hl) as (j & _ & Hj).
              rewrite Hj in Hr'. inversion Hr'. lia.
           ++ rewrite rank_of_not_in in Hr' by exact Hl. discriminate.
        -- destruct (IH (Some tok) (Z.of_nat i)) as [[E Hall]|(t & r & E & Ht & Hr' & Hlt' & Hall)].
           ++ right. exists tok, (Z.of_nat i). split; [exact E|].
              split; [left|]. split; [exact Hr|]. split; [exact Hlt|].
              intros t' r' Ht' Hr''. apply elem_of_cons in Ht'.
              destruct Ht' as [->|Ht']; [rewrite Hr in Hr''; inversion Hr''; lia|].
              eapply Hall; eauto.
           ++ right. exists t, r. split; [exact E|]. split; [right; exact Ht|].
              split; [exact Hr'|]. split; [lia|].
              intros t' r' Ht' Hr''. apply elem_of_cons in Ht'.
              destruct Ht' as [->|Ht']; [rewrite Hr in Hr''; inversion Hr''; lia|].
              eapply Hall; eauto.
      * destruct (IH best_tok best_rank) as [[E Hall]|(t & r & E & Ht & Hr' & Hlt' & Hall)].
        -- left. split; [exact E|].
           intros t' r' Ht' Hr''. apply elem_of_cons in Ht'.
           destruct Ht' as [->|Ht']; [rewrite Hr in Hr''; inversion Hr''; lia|].
           eapply Hall; eauto.
        -- right. exists t, r. split; [exact E|]. split; [right; exact Ht|].
           split; [exact Hr'|]. split; [exact Hlt'|].
           intros t' r' Ht' Hr''. apply elem_of_cons in Ht'.
           destruct Ht' as [->|Ht']; [rewrite Hr in Hr''; inversion Hr''; lia|].
           eapply Hall; eauto.
    + rewrite elem_of_list_to_set in Hin.
      destruct (IH best_tok best_rank) as [[E Hall]|(t & r & E & Ht & Hr' & Hlt' & Hall)].
      * left. split; [exact E|].
        intros t' r' Ht' Hr''. apply elem_of_cons in Ht'.
        destruct Ht' as [->|Ht'];
          [rewrite rank_of_not_in in Hr'' by exact Hin; discriminate|].
        eapply Hall; eauto.
      * right. exists t, r. split; [exact E|]. split; [right; exact Ht|].
        split; [exact Hr'|]. split; [exact Hlt'|].
        intros t' r' Ht' Hr''. apply elem_of_cons in Ht'.
        destruct Ht' as [->|Ht'];
          [rewrite rank_of_not_in in Hr'' by exact Hin; discriminate|].
        eapply Hall; eauto.
Qed.

End Negotiation.

(** *** Claim C8 *)

Local Open Scope string_scope.


(** X24: when the client's preference list has no repeated name, the server
    (given the client's list) and the client (given the server's list)
    return the same result: with a common name both return the same name,
    which belongs to both lists, and with no common name both raise
    ProtocolError. *)
Theorem negotiation_converges (server_pref client_pref : list string) :
  NoDup client_pref ->
  _choose_from_remote_list true server_pref client_pref
  = _choose_from_remote_list false client_pref server_pref
  /\ ((exists t, t ∈ server_pref /\ t ∈ client_pref) ->
      exists tok, _choose_from_remote_list true server_pref client_pref = Ok tok
                  /\ tok ∈ server_pref /\ tok ∈ client_pref)
  /\ ((forall t, t ∈ server_pref -> t ∉ client_pref) ->
      _choose_from_remote_list true server_pref client_pref = Err ProtocolError).
Proof.
  intros Hnd. unfold _choose_from_remote_list.
  pose proof (client_scan_min client_pref server_pref Hnd None
                (len client_pref + 1)) as Hscan. cbv zeta in Hscan.
  destruct (List.find (fun tok => bool_decide (tok ∈ list_to_set server_pref))
                      client_pref) as [tok0|] eqn:Ef.
  - destruct (find_first _ _ _ Ef) as (i0 & Hi0 & Hf0 & Hmin).
    apply bool_decide_eq_true in Hf0. rewrite elem_of_list_to_set in Hf0.
    pose proof (rank_of_lookup client_pref i0 tok0 Hnd Hi0) as Hr0.
    pose proof (lookup_lt_Some _ _ _ Hi0) as Hlt0.
    assert (Hclient : client_scan (list_to_set client_pref) (rank_of client_pref)
                        server_pref None (len client_pref + 1) = Some tok0).
    { destruct Hscan as [[_ Hall]|(t & r & E & Ht & Hr & Hlt & Hall)].
      - specialize (Hall tok0 _ Hf0 Hr0). unfold len in Hall. lia.
      - rewrite E. f_equal.
        destruct (decide (t ∈ client_pref)) as [Hc|Hc];
          [|rewrite rank_of_not_in in Hr by exact Hc; discriminate].
        destruct (rank_of_elem client_pref t Hnd Hc) as (j & Hj & Hrj).
        rewrite Hrj in Hr. inversion Hr. subst r.
        specialize (Hall tok0 _ Hf0 Hr0).
        destruct (decide (j < i0)%nat) as [Hji|Hji].
        + specialize (Hmin j t Hji Hj). apply bool_decide_eq_false in Hmin.
          rewrite elem_of_list_to_set in Hmin. contradiction.
        + assert (j = i0) by lia. subst j. congruence. }
    rewrite Hclient. cbn [of_option]. split; [reflexivity|]. split.
    + intros _. exists tok0. split; [reflexivity|]. split; [exact Hf0|].
      eapply list_elem_of_lookup_2. exact Hi0.
    + intros Hno. exfalso. apply (Hno tok0 Hf0).
      eapply list_elem_of_lookup_2. exact Hi0.
  - rewrite find_none_iff in Ef.
    assert (Hno : forall t, t ∈ client_pref -> t ∉ server_pref).
    { intros t Ht. specialize (Ef t Ht). apply bool_decide_eq_false in Ef.
      rewrite elem_of_list_to_set in Ef. exact Ef. }
    assert (Hclient : client_scan (list_to_set client_pref) (rank_of client_pref)
                        server_pref None (len client_pref + 1) = None).
    { destruct Hscan as [[E _]|(t & r & E & Ht & Hr & Hlt & Hall)]; [exact E|].
      exfalso.
      destruct (decide (t ∈ client_pref)) as [Hc|Hc];
        [|rewrite rank_of_not_in in Hr by exact Hc; discriminate].
      exact (Hno t Hc Ht). }
    rewrite Hclient. cbn [of_option]. split; [reflexivity|]. split.
    + intros (t & Hs & Hc). exfalso. exact (Hno t Hc Hs).
    + intros _. reflexivity.
Qed.

Lemma negotiation_converges_witness :
  _choose_from_remote_list true ["md5"; "md4"; "xxh64"]
    ["xxh128"; "xxh3"; "xxh64"; "md5"; "md4"; "sha1"; "none"]
  = _choose_from_remote_list false
      ["xxh128"; "xxh3"; "xxh64"; "md5"; "md4"; "sha1"; "none"]
      ["md5"; "md4"; "xxh64"]
  /\ ((exists t, t ∈ ["md5"; "md4"; "xxh64"]
                 /\ t ∈ ["xxh128"; "xxh3"; "xxh64"; "md5"; "md4"; "sha1"; "none"]) ->
      exists tok,
        _choose_from_remote_list true ["md5"; "md4"; "xxh64"]
          ["xxh128"; "xxh3"; "xxh64"; "md5"; "md4"; "sha1"; "none"] = Ok tok
        /\ tok ∈ ["md5"; "md4"; "xxh64"]
        /\ tok ∈ ["xxh128"; "xxh3"; "xxh64"; "md5"; "md4"; "sha1"; "none"])
  /\ ((forall t, t ∈ ["md5"; "md4"; "xxh64"] ->
                 t ∉ ["xxh128"; "xxh3"; "xxh64"; "md5"; "md4"; "sha1"; "none"]) ->
      _choose_from_remote_list true ["md5"; "md4"; "xxh64"]
        ["xxh128"; "xxh3"; "xxh64"; "md5"; "md4"; "sha1"; "none"]
      = Err ProtocolError).
Proof.
  apply (negotiation_converges ["md5"; "md4"; "xxh64"]
           ["xxh128"; "xxh3"; "xxh64"; "md5"; "md4"; "sha1"; "none"]).
  apply (bool_decide_unpack _). vm_compute. exact I.
Defined.

Local Close Scope string_scope.


(** ** [apply_delta] *)

Section Apply.

Import ChecksumEngine.

Lemma py_slice_truncated (d : bytes) (a k : Z) :
  0 <= a -> 0 <= k -> py_slice d a (a + k) = window d a k.
Proof.
  intros Ha Hk. pose proof (len_nonneg d) as Hn. unfold py_slice, window, slice_bound.
  destruct (Z.ltb_spec a 0); [lia|]. destruct (Z.ltb_spec (a + k) 0); [lia|].
  destruct (Z.le_gt_cases (len d) a) as [Hge|Hlt].
  - rewrite Z.min_r by lia. rewrite !drop_ge by (unfold len in *; lia).
    rewrite !take_nil. reflexivity.
  - rewrite (Z.min_l a) by lia.
    destruct (Z.le_gt_cases (a + k) (len d)).
    + rewrite Z.min_l by lia. f_equal. lia.
    + rewrite Z.min_r by lia.
      rewrite !take_ge; [reflexivity| |]; rewrite length_drop; unfold len in *; lia.
Qed.

Lemma len_window_truncated (d : bytes) (a k : Z) :
  0 <= a -> 0 <= k -> len (window d a k) = Z.max 0 (Z.min k (len d - a)).
Proof.
  intros. unfold window, len. rewrite length_take, length_drop. lia.
Qed.

Lemma foldl_app_concat {A} (f : A -> bytes) (l : list A) (acc : bytes) :
  foldl (fun r x => r ++ f x) acc l = acc ++ concat (map f l).
Proof.
  revert acc. induction l as [|x l IH]; intros acc; simpl.
  - rewrite app_nil_r. reflexivity.
  - rewrite IH, <- app_assoc. reflexivity.
Qed.

Lemma apply_delta_ok (B : bytes) (delta : DeltaInstructions) :
  len B <= MAX_FILE_SIZE_IN_MEMORY ->
  apply_delta B delta
  = Ok (concat (map (apply_instruction B (DeltaInstructions.block_size delta))
                    (DeltaInstructions.instructions delta))).
Proof.
  intros H. unfold apply_delta, validate_data. pose proof (len_nonneg B).
  destruct (Z.ltb_spec (len B) 0); [lia|].
  destruct (Z.gtb_spec (len B) MAX_FILE_SIZE_IN_MEMORY); [lia|].
  cbn [mbind result_bind]. rewrite foldl_app_concat. reflexivity.
Qed.

Lemma apply_instruction_forget (B : bytes) (bs : Z) (ci : instruction) :
  apply_instruction B bs (forget_offsets ci) = apply_instruction B bs ci.
Proof. destruct ci as [cmd [m|l]]; reflexivity. Qed.

Lemma apply_instruction_ill_tagged (B : bytes) (bs : Z) (ci : instruction) :
  well_tagged ci = false -> apply_instruction B bs ci = [].
Proof. destruct ci as [cmd [m|l]]; simpl; intros ->; reflexivity. Qed.

Lemma concat_map_filter_tagged (B : bytes) (bs : Z) (ins : list instruction) :
  concat (map (apply_instruction B bs) (List.filter well_tagged ins))
  = concat (map (apply_instruction B bs) ins).
Proof.
  induction ins as [|ci ins IH]; [reflexivity|]. simpl.
  destruct (well_tagged ci) eqn:E; simpl; rewrite IH; [reflexivity|].
  rewrite (apply_instruction_ill_tagged _ _ _ E). reflexivity.
Qed.

Lemma apply_instruction_literal (B : bytes) (bs o : Z) (d : bytes) :
  apply_instruction B bs (literal o d) = d.
Proof. reflexivity. Qed.

Lemma apply_instruction_match (B : bytes) (bs i o n : Z) :
  apply_instruction B bs (match_ i o n) = py_slice B (i * bs) (i * bs + n).
Proof. reflexivity. Qed.

(** *** Claim C10 *)

(** C10, as stated, fails: whatever the instruction list is (here the empty
    one), a basis larger than MAX_FILE_SIZE_IN_MEMORY makes [apply_delta]
    raise ResourceLimitError. *)
Lemma apply_delta_large_basis_counterexample :
  apply_delta (replicate (Z.to_nat (MAX_FILE_SIZE_IN_MEMORY + 1)) 0)
              (DeltaInstructions.mk 0 0 16 [] 0%Q None None None None)
  = Err ResourceLimitError.
Proof.
  unfold apply_delta, validate_data.
  assert (Hlen : len (replicate (Z.to_nat (MAX_FILE_SIZE_IN_MEMORY + 1)) 0)
                 = MAX_FILE_SIZE_IN_MEMORY + 1).
  { unfold len. rewrite length_replicate. apply Z2Nat.id.
    unfold MAX_FILE_SIZE_IN_MEMORY. lia. }
  rewrite Hlen. reflexivity.
Qed.

(** C10, amended: for a basis of at most MAX_FILE_SIZE_IN_MEMORY bytes,
    [apply_delta] returns, for every instruction list, the concatenation in
    order of what each instruction contributes; the result does not change
    when the position fields are blanked or when the instructions whose tag
    does not name their class are removed; a well-tagged LITERAL contributes
    its buffer and a well-tagged MATCH with non-negative block index, block
    size and length contributes the basis bytes from [block_index *
    block_size], at most [length] of them and as many as the basis has left
    (none when the start lies past the end). *)
Theorem apply_delta_total (B : bytes) (delta : DeltaInstructions) :
  len B <= MAX_FILE_SIZE_IN_MEMORY ->
  let bs := DeltaInstructions.block_size delta in
  let ins := DeltaInstructions.instructions delta in
  apply_delta B delta = Ok (concat (map (apply_instruction B bs) ins))
  /\ apply_delta B (with_instructions delta (map forget_offsets ins))
     = apply_delta B delta
  /\ apply_delta B (with_instructions delta (List.filter well_tagged ins))
     = apply_delta B delta
  /\ (forall l, apply_delta B (with_instructions delta [literal (DeltaLiteral.offset l)
                                                          (DeltaLiteral.data l)])
                = Ok (DeltaLiteral.data l))
  /\ (forall i o n, 0 <= i -> 0 <= bs -> 0 <= n ->
        apply_delta B (with_instructions delta [match_ i o n])
        = Ok (window B (i * bs) n)
        /\ len (window B (i * bs) n) = Z.max 0 (Z.min n (len B - i * bs))).
Proof.
  intros H bs ins. rewrite !apply_delta_ok by exact H.
  cbn [with_instructions DeltaInstructions.block_size DeltaInstructions.instructions].
  fold bs ins. split; [reflexivity|]. split; [|split; [|split]].
  - f_equal. rewrite map_map. f_equal. apply map_ext.
    intros ci. apply apply_instruction_forget.
  - f_equal. apply concat_map_filter_tagged.
  - intros l. rewrite apply_delta_ok by exact H.
    cbn [with_instructions DeltaInstructions.block_size
         DeltaInstructions.instructions map concat].
    rewrite apply_instruction_literal, app_nil_r. reflexivity.
  - intros i o n Hi Hbs Hn. split.
    + rewrite apply_delta_ok by exact H.
      cbn [with_instructions DeltaInstructions.block_size
           DeltaInstructions.instructions map concat].
      rewrite apply_instruction_match, app_nil_r.
      f_equal. apply py_slice_truncated; nia.
    + apply len_window_truncated; nia.
Qed.

Lemma apply_delta_total_witness :
  let B := [10; 20; 30; 40; 50] in
  let delta := DeltaInstructions.mk 5 6 2
                 [match_ 1 0 2; literal 2 [7; 8];
                  ("noop"%string, IsMatch (DeltaMatch.mk 0 4 2)); match_ 2 4 2]
                 0%Q None None None None in
  apply_delta B delta = Ok [30; 40; 7; 8; 50].
Proof.
  intros B delta.
  refine (eq_trans (proj1 (apply_delta_total B delta _)) _).
  - vm_compute. congruence.
  - vm_compute. reflexivity.
Defined.

End Apply.


(** ** Block sizes and signatures *)

Section Signature.

Import ChecksumEngine.

(** The number of halvings left in a non-negative integer. *)
Lemma halving_measure (l : Z) :
  0 < l ->
  0 <= (if Z.shiftr l 1 <=? 0 then 0 else Z.log2 (Z.shiftr l 1) + 1) < Z.log2 l + 1.
Proof.
  intros Hl. pose proof (Z.log2_nonneg l) as Hlog.
  rewrite Z.shiftr_div_pow2 by lia. change (2 ^ 1) with 2.
  pose proof (Z.log2_nonneg (l / 2)) as Hlog2.
  destruct (Z.leb_spec (l / 2) 0) as [H|H]; [lia|].
  assert (Z.log2 (l / 2) = Z.log2 l - 1).
  { replace (l / 2) with (Z.shiftr l 1)
      by (rewrite Z.shiftr_div_pow2 by lia; reflexivity).
    rewrite Z.log2_shiftr by lia.
    assert (1 <= Z.log2 l).
    { apply Z.log2_le_pow2; [lia|]. change (2 ^ 1) with 2.
      destruct (Z.eq_dec l 1) as [->|]; [discriminate H|lia]. }
    lia. }
  lia.
Qed.

Lemma halving_loop (file_length : Z) (b0 : Z) :
  exists s', while_loop (bit_fuel file_length)
               (fun '(l, b) => l >? 0)
               (fun '(l, b) => (Z.shiftr l 1, b + 2)) (file_length, b0) = Ok s'.
Proof.
  destruct (while_loop_inv (fun _ : Z * Z => True)
              (fun '(l, _) => Z.to_nat (if l <=? 0 then 0 else Z.log2 l + 1))
              (fun '(l, b) => l >? 0)
              (fun '(l, b) => (Z.shiftr l 1, b + 2))) with
    (fuel := bit_fuel file_length) (s := (file_length, b0)) as (s' & Hs' & _).
  - intros [l b] _ Hc. split; [exact I|].
    assert (0 < l) by lia.
    destruct (Z.leb_spec l 0); [lia|].
    pose proof (halving_measure l ltac:(lia)). lia.
  - exact I.
  - unfold bit_fuel. destruct (Z.leb_spec file_length 0); lia.
  - eauto.
Qed.

Lemma bias_loop (blength b0 : Z) :
  0 <= blength ->
  exists s', while_loop (bit_fuel blength)
               (fun '(c, b) => negb (Z.shiftr c 1 =? 0) && negb (b =? 0))
               (fun '(c, b) => (Z.shiftr c 1, b - 1)) (blength, b0) = Ok s'.
Proof.
  intros Hb.
  destruct (while_loop_inv (fun s : Z * Z => 0 <= fst s)
              (fun '(l, _) => Z.to_nat (if l <=? 0 then 0 else Z.log2 l + 1))
              (fun '(c, b) => negb (Z.shiftr c 1 =? 0) && negb (b =? 0))
              (fun '(c, b) => (Z.shiftr c 1, b - 1))) with
    (fuel := bit_fuel blength) (s := (blength, b0)) as (s' & Hs' & _).
  - intros [c b] Hc Hcond. cbn [fst] in *.
    apply andb_true_iff in Hcond. destruct Hcond as [Hne _].
    apply negb_true_iff, Z.eqb_neq in Hne.
    assert (0 <= Z.shiftr c 1) by (apply Z.shiftr_nonneg; lia).
    assert (0 < c).
    { destruct (Z.eq_dec c 0) as [->|]; [elim Hne; reflexivity|lia]. }
    split; [assumption|].
    destruct (Z.leb_spec c 0); [lia|].
    pose proof (halving_measure c ltac:(lia)). lia.
  - exact Hb.
  - unfold bit_fuel. destruct (Z.leb_spec blength 0); lia.
  - eauto.
Qed.

(** With a fixed block size [sum_sizes_sqroot] always returns, and the
    strong-checksum length it chooses is not negative. *)
Lemma sum_sizes_fixed (file_length pv fixed csum_length xfer_sum_len : Z) :
  0 <= file_length -> 0 < fixed ->
  exists sizes,
    sum_sizes_sqroot file_length pv fixed csum_length xfer_sum_len = Ok sizes
    /\ 0 <= SumSizes.s2length sizes.
Proof.
  intros Hfl Hfixed. unfold sum_sizes_sqroot.
  destruct (Z.ltb_spec file_length 0); [lia|].
  destruct (Z.gtb_spec fixed 0); [|lia]. cbn [mbind result_bind].
  assert (Hfin : forall s2l,
    0 <= SumSizes.s2length
           (SumSizes.mk file_length fixed
              (let s2length := if s2l <? 0 then 0 else s2l in
               if (xfer_sum_len >? 0) && (s2length >? xfer_sum_len)
               then xfer_sum_len else s2length)
              (if fixed >? 0 then file_length mod fixed else 0)
              (if fixed >? 0
               then file_length / fixed
                    + (if (if fixed >? 0 then file_length mod fixed else 0) =? 0
                       then 0 else 1)
               else 0))).
  { intros s2l. cbn [SumSizes.s2length]. cbv zeta.
    destruct (Z.ltb_spec s2l 0);
      destruct (Z.gtb_spec xfer_sum_len 0); cbn [andb];
      try match goal with |- context [?a >? ?b] => destruct (Z.gtb_spec a b) end; lia. }
  destruct (pv <? 27).
  { cbn [mbind result_bind]. eexists. split; [reflexivity|]. apply Hfin. }
  destruct (csum_length =? SUM_LENGTH).
  { cbn [mbind result_bind]. eexists. split; [reflexivity|]. apply Hfin. }
  destruct (halving_loop file_length BLOCKSUM_BIAS) as ([l b] & ->).
  cbn [mbind result_bind].
  destruct (bias_loop fixed b) as ([c b'] & ->); [lia|].
  cbn [mbind result_bind]. eexists. split; [reflexivity|]. apply Hfin.
Qed.

Lemma range_step_pos (stop step : Z) :
  0 < step ->
  range_step stop step
  = Ok (map (fun i : nat => Z.of_nat i * step)
            (seq 0 (Z.to_nat (block_count stop step)))).
Proof.
  intros H. unfold range_step, block_count.
  destruct (Z.eqb_spec step 0); [lia|]. destruct (Z.ltb_spec step 0); [lia|].
  reflexivity.
Qed.

Lemma block_count_bounds (n bs : Z) (i : Z) :
  0 <= n -> 0 < bs ->
  (0 <= i < block_count n bs <-> 0 <= i /\ i * bs < n).
Proof.
  intros Hn Hbs. unfold block_count.
  pose proof (Z.div_mod (n + bs - 1) bs ltac:(lia)) as Hdm.
  pose proof (Z.mod_pos_bound (n + bs - 1) bs Hbs) as Hmod.
  split; intros H; split; try lia; nia.
Qed.

Lemma block_count_nonneg (n bs : Z) : 0 <= n -> 0 < bs -> 0 <= block_count n bs.
Proof. intros. unfold block_count. apply Z.div_pos; lia. Qed.

Lemma block_checksums_ok (self : t) (X : bytes) :
  0 < block_size self ->
  block_checksums self X
  = Ok (map (fun i : nat =>
               let w := window X (Z.of_nat i * block_size self)
                          (window_length (len X) (block_size self)
                                         (Z.of_nat i * block_size self)) in
               (weak w, strong_checksum self w))
            (seq 0 (Z.to_nat (block_count (len X) (block_size self))))).
Proof.
  intros Hbs. unfold block_checksums. rewrite range_step_pos by exact Hbs.
  cbn [mbind result_bind]. pose proof (len_nonneg X) as HX.
  rewrite (mapM_ok _ (fun offset =>
             let w := window X offset (window_length (len X) (block_size self) offset) in
             (weak w, strong_checksum self w))).
  - rewrite map_map. reflexivity.
  - intros o Ho. apply list_elem_of_fmap in Ho. destruct Ho as (i & -> & Hi).
    apply elem_of_seq in Hi.
    assert (Hrange : 0 <= Z.of_nat i < block_count (len X) (block_size self)) by lia.
    apply block_count_bounds in Hrange; [|lia|lia].
    set (o := Z.of_nat i * block_size self) in *.
    assert (Hsl : py_slice X o (o + block_size self)
                  = window X o (window_length (len X) (block_size self) o)).
    { unfold window_length. replace (py_slice X o (o + block_size self))
        with (window X o (block_size self)).
      - unfold window. destruct (Z.le_gt_cases (block_size self) (len X - o)).
        + rewrite Z.min_l by lia. reflexivity.
        + rewrite Z.min_r by lia.
          rewrite !take_ge; [reflexivity| |]; rewrite length_drop; unfold len in *; lia.
      - unfold py_slice, window, slice_bound.
        destruct (Z.ltb_spec o 0); [lia|].
        destruct (Z.ltb_spec (o + block_size self) 0); [lia|].
        rewrite (Z.min_l o) by lia.
        destruct (Z.le_gt_cases (o + block_size self) (len X)).
        + rewrite Z.min_l by lia. f_equal. lia.
        + rewrite Z.min_r by lia.
          rewrite !take_ge; [reflexivity| |]; rewrite length_drop; unfold len in *; lia. }
    rewrite Hsl. rewrite rolling_checksum_whole. reflexivity.
Qed.

Lemma generate_signature_ok (self : t) (X : bytes) (csum_length : Z) :
  0 < block_size self -> len X <= MAX_FILE_SIZE_IN_MEMORY ->
  exists s2length,
    0 <= s2length
    /\ generate_signature self X csum_length = Ok (signature_of self X s2length).
Proof.
  intros Hbs HX. pose proof (len_nonneg X) as HX0.
  unfold generate_signature, validate_data.
  destruct (Z.ltb_spec (len X) 0); [lia|].
  destruct (Z.gtb_spec (len X) MAX_FILE_SIZE_IN_MEMORY); [lia|].
  cbn [mbind result_bind].
  destruct (sum_sizes_fixed (len X) (default PROTOCOL_VERSION (protocol_manager self))
              (block_size self) csum_length
              (ChecksumRegistry.get_digest_length (checksum_type self)))
    as (sizes & -> & Hs2); [lia|lia|].
  cbn [mbind result_bind]. rewrite block_checksums_ok by exact Hbs.
  cbn [mbind result_bind]. exists (SumSizes.s2length sizes). split; [exact Hs2|].
  unfold signature_of. f_equal.
  assert (Hblocks : forall (n0 : nat) (l : list nat),
    map (fun iws : Z * (Z * bytes) =>
           let '(i, (weak, strong)) := iws in
           BlockChecksum.mk weak (py_slice strong 0 (SumSizes.s2length sizes))
             (i * block_size self)
             (Z.min (block_size self) (len X - i * block_size self)) (-1))
        (imap (fun i a => (Z.of_nat (n0 + i), a))
           (map (fun i : nat =>
               let w := window X (Z.of_nat i * block_size self)
                          (window_length (len X) (block_size self)
                                         (Z.of_nat i * block_size self)) in
               (weak w, strong_checksum self w)) (seq n0 (length l))))
    = map (fun i : nat => sig_block self X (SumSizes.s2length sizes) (Z.of_nat i))
          (seq n0 (length l))).
  { intros n0 l. revert n0. induction l as [|x l IH]; intros n0; [reflexivity|].
    cbn [length seq map imap]. f_equal.
    - rewrite Nat.add_0_r. reflexivity.
    - rewrite <- IH. f_equal. apply imap_ext. intros i y _. cbn.
      replace (n0 + S i)%nat with (S n0 + i)%nat by lia. reflexivity. }
  specialize (Hblocks 0%nat
    (replicate (Z.to_nat (block_count (len X) (block_size self))) 0%nat)).
  rewrite length_replicate in Hblocks. unfold enumerate.
  cbn [Nat.add] in Hblocks. rewrite Hblocks. f_equal.
  unfold len. rewrite length_map, length_seq.
  pose proof (block_count_nonneg (len X) (block_size self)). unfold len in *. lia.
Qed.

End Signature.


(** ** The hash index *)

Section HashIndex.

Lemma elem_of_block_indices {A} (blocks : list A) (i : Z) :
  i ∈ block_indices blocks <-> 0 <= i < len blocks.
Proof.
  unfold block_indices, len. rewrite list_elem_of_fmap. split.
  - intros (j & -> & Hj). apply elem_of_seq in Hj. lia.
  - intros H. exists (Z.to_nat i). split; [lia|]. apply elem_of_seq. lia.
Qed.

Lemma block_indices_snoc {A} (l : list A) (x : A) :
  block_indices (l ++ [x]) = block_indices l ++ [len l].
Proof.
  unfold block_indices, len. rewrite length_app. cbn [length].
  rewrite Nat.add_1_r, seq_S, map_app. reflexivity.
Qed.

Lemma getitem_valid {A} (l : list A) (i : Z) :
  0 <= i < len l ->
  exists x, l !! Z.to_nat i = Some x /\ getitem l i = Ok x.
Proof. apply getitem_inrange. Qed.

Lemma filter_ext_elem {A} (f g : A -> bool) (l : list A) :
  (forall x, x ∈ l -> f x = g x) -> List.filter f l = List.filter g l.
Proof.
  induction l as [|x l IH]; intros H; [reflexivity|]. cbn [List.filter].
  rewrite (H x) by left. rewrite IH by (intros y Hy; apply H; right; exact Hy).
  reflexivity.
Qed.

Lemma filter_filter {A} (f g : A -> bool) (l : list A) :
  List.filter f (List.filter g l) = List.filter (fun x => g x && f x) l.
Proof.
  induction l as [|x l IH]; [reflexivity|]. cbn [List.filter].
  destruct (g x); cbn [List.filter andb]; rewrite IH; reflexivity.
Qed.

Lemma elem_of_filter_bool {A} (f : A -> bool) (l : list A) (x : A) :
  x ∈ List.filter f l <-> x ∈ l /\ f x = true.
Proof. rewrite !list_elem_of_In. apply filter_In. Qed.

(** A bucket holds, in ascending order, the indices of the blocks whose weak
    checksum hashes to it. *)
Lemma build_bucket (tablesize : Z) (blocks : list BlockChecksum) (h : Z) :
  default [] (HashTable._build tablesize blocks !! h)
  = List.filter
      (fun i => match blocks !! Z.to_nat i with
                | Some b => HashTable._hash tablesize (BlockChecksum.weak_checksum b) =? h
                | None => false
                end)
      (block_indices blocks).
Proof.
  induction blocks as [|x l IH] using rev_ind.
  - reflexivity.
  - unfold HashTable._build in *. rewrite enumerate_snoc, foldl_app.
    cbn [foldl fst snd]. rewrite block_indices_snoc, List.filter_app.
    cbn [List.filter].
    replace (l ++ [x]) with (l ++ [x]) by reflexivity.
    assert (Hlast : (l ++ [x]) !! Z.to_nat (len l) = Some x).
    { unfold len. rewrite Nat2Z.id. rewrite lookup_app_r by lia.
      rewrite Nat.sub_diag. reflexivity. }
    rewrite Hlast.
    assert (Hpre : List.filter
              (fun i => match (l ++ [x]) !! Z.to_nat i with
                        | Some b => HashTable._hash tablesize (BlockChecksum.weak_checksum b) =? h
                        | None => false
                        end) (block_indices l)
            = List.filter
              (fun i => match l !! Z.to_nat i with
                        | Some b => HashTable._hash tablesize (BlockChecksum.weak_checksum b) =? h
                        | None => false
                        end) (block_indices l)).
    { apply filter_ext_elem. intros i Hi. apply elem_of_block_indices in Hi.
      rewrite lookup_app_l by (unfold len in Hi; lia). reflexivity. }
    rewrite Hpre, <- IH.
    destruct (Z.eqb_spec (HashTable._hash tablesize (BlockChecksum.weak_checksum x)) h)
      as [->|Hne].
    + rewrite lookup_insert_eq. reflexivity.
    + rewrite lookup_insert_ne by exact Hne. rewrite app_nil_r. reflexivity.
Qed.

Lemma lookup_indices_spec (cfg : Config) (blocks : list BlockChecksum) (w k : Z) :
  HashTable.lookup_indices (HashTable.init cfg blocks) w (Some k)
  = Ok (candidates blocks w k).
Proof.
  unfold HashTable.lookup_indices, HashTable.init.
  cbn [HashTable.tablesize HashTable._table HashTable.blocks].
  set (ts := if HASH_TABLE_DYNAMIC cfg && (len blocks >? 0)
             then if (len blocks / 8 * 10 + 11 <? TRADITIONAL_TABLESIZE)
                  then TRADITIONAL_TABLESIZE else len blocks / 8 * 10 + 11
             else TRADITIONAL_TABLESIZE).
  rewrite build_bucket.
  set (bucket := List.filter _ (block_indices blocks)).
  assert (Hres : filter_result
            (fun i => blk ← getitem blocks i;
                      Ok ((BlockChecksum.weak_checksum blk =? w)
                          && (BlockChecksum.length blk =? k))) bucket
          = Ok (candidates blocks w k)).
  { rewrite (filter_result_ok _
       (fun i => match blocks !! Z.to_nat i with
                 | Some b => (BlockChecksum.weak_checksum b =? w)
                             && (BlockChecksum.length b =? k)
                 | None => false
                 end)).
    - f_equal. unfold bucket, candidates. rewrite filter_filter.
      apply filter_ext_elem. intros i Hi.
      destruct (blocks !! Z.to_nat i) as [b|]; [|reflexivity].
      destruct (Z.eqb_spec (BlockChecksum.weak_checksum b) w) as [->|];
        [|apply andb_false_r].
      rewrite Z.eqb_refl. reflexivity.
    - intros i Hi. unfold bucket in Hi. apply elem_of_filter_bool in Hi.
      destruct Hi as [Hi _]. apply elem_of_block_indices in Hi.
      destruct (getitem_valid blocks i Hi) as (x & Hx & ->). rewrite Hx.
      reflexivity. }
  destruct bucket; [|exact Hres]. exact Hres.
Qed.

Lemma elem_of_candidates (blocks : list BlockChecksum) (w k i : Z) :
  i ∈ candidates blocks w k
  <-> 0 <= i < len blocks
      /\ exists b, blocks !! Z.to_nat i = Some b
                   /\ BlockChecksum.weak_checksum b = w
                   /\ BlockChecksum.length b = k.
Proof.
  unfold candidates. rewrite elem_of_filter_bool, elem_of_block_indices. split.
  - intros [Hi Hf]. split; [exact Hi|].
    destruct (blocks !! Z.to_nat i) as [b|]; [|discriminate].
    apply andb_true_iff in Hf. destruct Hf as [H1 H2].
    exists b. split; [reflexivity|]. split; lia.
  - intros [Hi (b & Hb & Hw & Hk)]. split; [exact Hi|]. rewrite Hb.
    apply andb_true_iff. split; lia.
Qed.

Import ChecksumEngine.

(** The candidate loop returns the first candidate whose strong prefix
    agrees. *)
Lemma scan_candidates_spec (blocks : list BlockChecksum) (s2length : Z)
      (strong : bytes) (cands : list Z) (alarms : Z) :
  (forall i, i ∈ cands -> 0 <= i < len blocks) ->
  exists r alarms',
    scan_candidates blocks s2length strong cands alarms = Ok (r, alarms')
    /\ match r with
       | Some idx =>
           idx ∈ cands
           /\ exists blk, blocks !! Z.to_nat idx = Some blk
                          /\ prefix_eq s2length strong blk = true
       | None =>
           forall i blk, i ∈ cands -> blocks !! Z.to_nat i = Some blk ->
                         prefix_eq s2length strong blk = false
       end.
Proof.
  revert alarms. induction cands as [|idx rest IH]; intros alarms Hvalid.
  - exists None, alarms. split; [reflexivity|]. intros i blk Hi. inversion Hi.
  - cbn [scan_candidates].
    destruct (getitem_valid blocks idx (Hvalid idx ltac:(left))) as (blk & Hblk & ->).
    cbn [mbind result_bind].
    destruct (prefix_eq s2length strong blk) eqn:Ep.
    + exists (Some idx), alarms. split; [reflexivity|]. split; [left|eauto].
    + destruct (IH (alarms + 1)) as (r & alarms' & Hr & Hspec).
      { intros i Hi. apply Hvalid. right. exact Hi. }
      exists r, alarms'. split; [exact Hr|]. destruct r as [i|].
      * destruct Hspec as [Hin Hex]. split; [right; exact Hin|exact Hex].
      * intros i blk' Hi Hblk'. apply elem_of_cons in Hi. destruct Hi as [->|Hi].
        -- rewrite Hblk in Hblk'. inversion Hblk'. subst. exact Ep.
        -- eapply Hspec; eauto.
Qed.

Lemma bypass_filter_spec (blocks : list BlockChecksum) (offset : Z)
      (same_offset : gset Z) (cands : list Z) :
  (forall i, i ∈ cands -> 0 <= i < len blocks) ->
  bypass_filter blocks offset same_offset cands
  = Ok (List.filter
          (fun i => match blocks !! Z.to_nat i with
                    | Some blk => (BlockChecksum.offset blk >=? offset)
                                  || bool_decide (i ∈ same_offset)
                    | None => false
                    end) cands).
Proof.
  intros Hvalid. unfold bypass_filter. apply filter_result_ok.
  intros i Hi. destruct (getitem_valid blocks i (Hvalid i Hi)) as (blk & Hblk & ->).
  rewrite Hblk. reflexivity.
Qed.

End HashIndex.


(** ** The matcher loop of [generate_delta] *)

Section RollingState.

Import Checksum.

#[local] Existing Instances eqm_setoid Zplus_eqm Zminus_eqm Zmult_eqm Zopp_eqm.

Lemma combine_sums (w : bytes) :
  combine_checksum (sum_bytes w mod 65536) (weighted_sum w mod 65536) = weak w.
Proof. rewrite combine_mod, !Z.mod_mod by lia. reflexivity. Qed.

Lemma slide_sums (b c : Z) (w : bytes) (k : Z) :
  k = len (b :: w) ->
  rolling_update b c (sum_bytes (b :: w) mod 65536)
                 (weighted_sum (b :: w) mod 65536) k
  = (sum_bytes (w ++ [c]) mod 65536, weighted_sum (w ++ [c]) mod 65536).
Proof.
  intros ->. unfold rolling_update, CHAR_OFFSET. rewrite !land_FFFF.
  rewrite sum_bytes_app, weighted_sum_app. cbn [sum_bytes weighted_sum].
  rewrite ?len_cons. change (len (@nil Z)) with 0.
  f_equal; modeq.
Qed.

Lemma shrink_sums (b : Z) (w : bytes) (k : Z) :
  k = len (b :: w) ->
  shrink_update b (sum_bytes (b :: w) mod 65536)
                (weighted_sum (b :: w) mod 65536) k
  = (sum_bytes w mod 65536, weighted_sum w mod 65536).
Proof.
  intros ->. unfold shrink_update, CHAR_OFFSET. rewrite !land_FFFF.
  cbn [sum_bytes weighted_sum]. rewrite len_cons.
  f_equal; modeq.
Qed.

End RollingState.

Section Covers.

Lemma covers_app (l1 l2 : list instruction) (a c : Z) :
  covers (l1 ++ l2) a c <-> exists b, covers l1 a b /\ covers l2 b c.
Proof.
  revert a. induction l1 as [|ci l1 IH]; intros a; cbn [app covers].
  - split.
    + intros H. exists a. split; [reflexivity|exact H].
    + intros (b & -> & H). exact H.
  - rewrite IH. split.
    + intros (H1 & H2 & b & H3 & H4). exists b. tauto.
    + intros (b & (H1 & H2 & H3) & H4). eauto.
Qed.

Lemma covers_snoc (l : list instruction) (ci : instruction) (a b : Z) :
  covers l a b -> instr_offset ci = b -> 0 < instr_length ci ->
  covers (l ++ [ci]) a (b + instr_length ci).
Proof.
  intros H1 H2 H3. apply covers_app. exists b. split; [exact H1|].
  cbn [covers]. subst b. tauto.
Qed.

Lemma covers_le (l : list instruction) (a b : Z) : covers l a b -> a <= b.
Proof.
  revert a. induction l as [|ci l IH]; intros a; cbn [covers].
  - lia.
  - intros (_ & H & Hc). apply IH in Hc. lia.
Qed.

End Covers.

Section Matcher.

Import ChecksumEngine.

Variables (cfg : Config) (self : t) (S : ChecksumSignature) (X : bytes).

Lemma want_phase_spec (w : Z) (strong : bytes) (f : found) :
  0 <= f_want_i f ->
  exists mi,
    want_phase cfg S w strong f = Ok mi
    /\ (mi = f_matched_index f
        \/ (mi = f_want_i f
            /\ f_want_i f < len (ChecksumSignature.blocks S)
            /\ exists blk,
                 ChecksumSignature.blocks S !! Z.to_nat (f_want_i f) = Some blk
                 /\ w = BlockChecksum.weak_checksum blk
                 /\ prefix_eq (ChecksumSignature.s2length S) strong blk = true)).
Proof.
  intros Hw. unfold want_phase.
  destruct (negb (f_matched_index f =? f_want_i f)
            && (f_want_i f <? len (ChecksumSignature.blocks S))) eqn:Ec;
    [|eauto].
  apply andb_true_iff in Ec. destruct Ec as [_ Hlt]. apply Z.ltb_lt in Hlt.
  destruct (getitem_valid (ChecksumSignature.blocks S) (f_want_i f))
    as (blk & Hblk & ->); [lia|].
  cbn [mbind result_bind].
  match goal with |- context [if ?c then _ else _] => destruct c eqn:Ec end;
    [|eauto].
  apply andb_true_iff in Ec. destruct Ec as [Ec Hp].
  apply andb_true_iff in Ec. destruct Ec as [_ Hweak]. apply Z.eqb_eq in Hweak.
  exists (f_want_i f). split; [reflexivity|]. right. eauto 10.
Qed.

Lemma window_length_realigned (n bs o o' k : Z) :
  k = window_length n bs o -> o < o' -> o' + k <= n ->
  k = window_length n bs o'.
Proof. unfold window_length. lia. Qed.

Lemma aligned_phase_spec (w : Z) (st : mstate) (mi : Z) (blk : BlockChecksum) :
  let n := len X in
  let bs := ChecksumSignature.block_size S in
  let strong := strong_checksum self (window X (offset st) (k st)) in
  1 <= bs -> 1 <= k st -> 0 <= offset st ->
  k st = window_length n bs (offset st) ->
  0 <= aligned_i st -> aligned_offset st = aligned_i st * bs ->
  0 <= want_i st ->
  0 <= mi < len (ChecksumSignature.blocks S) ->
  ChecksumSignature.blocks S !! Z.to_nat mi = Some blk ->
  w = BlockChecksum.weak_checksum blk ->
  BlockChecksum.length blk = k st ->
  prefix_eq (ChecksumSignature.s2length S) strong blk = true ->
  exists f strong',
    aligned_phase self S X w strong st mi = Ok (f, strong')
    /\ offset st <= f_offset f
    /\ k st = window_length n bs (f_offset f)
    /\ 0 <= f_matched_index f < len (ChecksumSignature.blocks S)
    /\ (exists blk',
          ChecksumSignature.blocks S !! Z.to_nat (f_matched_index f) = Some blk'
          /\ prefix_eq (ChecksumSignature.s2length S) strong' blk' = true
          /\ (f_offset f = offset st /\ w = BlockChecksum.weak_checksum blk'
              \/ f_want_i f = f_matched_index f
                 /\ f_offset f = f_matched_index f * bs /\ k st = bs
                 /\ BlockChecksum.weak_checksum blk' = 0
                 /\ BlockChecksum.length blk' = bs))
    /\ strong' = strong_checksum self (window X (f_offset f) (k st))
    /\ 0 <= f_want_i f /\ 0 <= f_aligned_i f
    /\ f_aligned_offset f = f_aligned_i f * bs.
Proof.
  intros n bs strong Hbs Hk Hoff Hkw Hai Hao Hwi Hmi Hblk Hweak Hlen Hp.
  unfold aligned_phase. fold bs. fold n.
  destruct (while_loop_inv (fun s : Z * Z => 0 <= snd s /\ fst s = snd s * bs)
              (fun '(ao, _) => Z.to_nat (offset st - ao))
              (fun '(ao, ai) => ao <? offset st)
              (fun '(ao, ai) => (ao + bs, ai + 1))) with
    (fuel := Z.to_nat (offset st - aligned_offset st))
    (s := (aligned_offset st, aligned_i st))
    as ([ao ai] & -> & [Hai' Hao'] & Hcond).
  { intros [ao ai] [Hs Hs'] Hc. cbn [fst snd] in *. apply Z.ltb_lt in Hc.
    split; [split|]; lia. }
  { split; [exact Hai|exact Hao]. }
  { lia. }
  cbn [fst snd] in Hai', Hao'. apply Z.ltb_ge in Hcond. cbn [mbind result_bind].
  assert (Hunchanged :
    exists f strong',
      Ok (mkfound mi (offset st) (want_i st) ao ai (same_offset st), strong)
      = Ok (f, strong')
      /\ offset st <= f_offset f
      /\ k st = window_length n bs (f_offset f)
      /\ 0 <= f_matched_index f < len (ChecksumSignature.blocks S)
      /\ (exists blk',
            ChecksumSignature.blocks S !! Z.to_nat (f_matched_index f) = Some blk'
            /\ prefix_eq (ChecksumSignature.s2length S) strong' blk' = true
            /\ (f_offset f = offset st /\ w = BlockChecksum.weak_checksum blk'
                \/ f_want_i f = f_matched_index f
                   /\ f_offset f = f_matched_index f * bs /\ k st = bs
                   /\ BlockChecksum.weak_checksum blk' = 0
                   /\ BlockChecksum.length blk' = bs))
      /\ strong' = strong_checksum self (window X (f_offset f) (k st))
      /\ 0 <= f_want_i f /\ 0 <= f_aligned_i f
      /\ f_aligned_offset f = f_aligned_i f * bs).
  { eexists _, _. split; [reflexivity|]. cbn. repeat split; eauto 10; lia. }
  match goal with |- context [if ?c then _ else Ok _] => destruct c eqn:Ec end;
    [|exact Hunchanged].
  apply andb_true_iff in Ec. destruct Ec as [Hpath Hlt]. apply Z.ltb_lt in Hlt.
  (* the index after the comparison with the aligned block *)
  assert (Hmi' : exists mi' blk',
    (if negb (mi =? ai) then
       aligned_blk ← getitem (ChecksumSignature.blocks S) ai;
       if (w =? BlockChecksum.weak_checksum aligned_blk)
          && (k st =? BlockChecksum.length aligned_blk)
          && prefix_eq (ChecksumSignature.s2length S) strong aligned_blk
       then Ok ai else Ok mi
     else Ok mi) = Ok mi'
    /\ 0 <= mi' < len (ChecksumSignature.blocks S)
    /\ ChecksumSignature.blocks S !! Z.to_nat mi' = Some blk'
    /\ w = BlockChecksum.weak_checksum blk'
    /\ BlockChecksum.length blk' = k st
    /\ prefix_eq (ChecksumSignature.s2length S) strong blk' = true).
  { destruct (negb (mi =? ai)); [|eauto 12].
    destruct (getitem_valid (ChecksumSignature.blocks S) ai) as (ablk & Hablk & ->);
      [lia|].
    cbn [mbind result_bind].
    match goal with |- context [if ?c then _ else _] => destruct c eqn:Ea end;
      [|eauto 12].
    apply andb_true_iff in Ea. destruct Ea as [Ea Hpa].
    apply andb_true_iff in Ea. destruct Ea as [Hwa Hla].
    apply Z.eqb_eq in Hwa. apply Z.eqb_eq in Hla.
    exists ai, ablk. repeat split; auto; lia. }
  destruct Hmi' as (mi' & blk' & -> & Hmi'r & Hblk' & Hweak' & Hlen' & Hp').
  cbn [mbind result_bind].
  destruct (mi' =? ai) eqn:Eai.
  2:{ eexists _, _. split; [reflexivity|]. cbn. repeat split; eauto 10; lia. }
  apply Z.eqb_eq in Eai.
  destruct (negb (offset st =? ao) && (ao + k st <=? n)) eqn:Emove.
  2:{ cbn [mbind result_bind]. eexists _, _. split; [reflexivity|]. cbn.
      repeat split; eauto 10; lia. }
  apply andb_true_iff in Emove. destruct Emove as [Hne Hfit].
  apply negb_true_iff, Z.eqb_neq in Hne. apply Z.leb_le in Hfit.
  destruct (getitem_valid (ChecksumSignature.blocks S) mi' Hmi'r) as (b2 & Hb2 & ->).
  rewrite Hblk' in Hb2. inversion Hb2. subst b2. clear Hb2.
  cbn [mbind result_bind].
  rewrite py_slice_bytes_window by lia.
  destruct (prefix_eq (ChecksumSignature.s2length S)
              (strong_checksum self (window X ao (k st))) blk') eqn:Epa.
  - cbn [mbind result_bind]. eexists _, _. split; [reflexivity|]. cbn.
    split; [lia|]. split.
    { apply (window_length_realigned n bs (offset st)); [exact Hkw|lia|lia]. }
    split; [lia|]. split.
    { exists blk'. split; [exact Hblk'|]. split; [exact Epa|]. right.
      apply orb_true_iff in Hpath. destruct Hpath as [Hsame|Hzero].
      { apply Z.eqb_eq in Hsame. contradiction. }
      apply andb_true_iff in Hzero. destruct Hzero as [Hzero _].
      apply andb_true_iff in Hzero. destruct Hzero as [Hw0 Hkbs].
      apply Z.eqb_eq in Hw0. apply Z.eqb_eq in Hkbs.
      repeat split; [lia|exact Hkbs|congruence|congruence]. }
    split; [reflexivity|]. lia.
  - cbn [mbind result_bind]. eexists _, _. split; [reflexivity|]. cbn.
    repeat split; eauto 10; lia.
Qed.

Lemma checks_agree_intro (j o k0 : Z) (blk : BlockChecksum) :
  ChecksumSignature.blocks S !! Z.to_nat j = Some blk ->
  prefix_eq (ChecksumSignature.s2length S)
            (strong_checksum self (window X o k0)) blk = true ->
  weak (window X o k0) = BlockChecksum.weak_checksum blk
  \/ aligned_window cfg S blk j o k0 = true ->
  checks_agree cfg self S X j o k0 = true.
Proof.
  intros Hblk Hp Hw. unfold checks_agree. rewrite Hblk, Hp. cbn [andb].
  destruct Hw as [-> | ->].
  - rewrite Z.eqb_refl. reflexivity.
  - apply orb_true_r.
Qed.

Lemma aligned_window_intro (j o k0 : Z) (blk : BlockChecksum) :
  UPDATING_BASIS_FILE cfg = true ->
  o = j * ChecksumSignature.block_size S ->
  k0 = ChecksumSignature.block_size S ->
  BlockChecksum.weak_checksum blk = 0 ->
  BlockChecksum.length blk = ChecksumSignature.block_size S ->
  aligned_window cfg S blk j o k0 = true.
Proof.
  intros Hupd -> -> Hw Hl. unfold aligned_window.
  rewrite Hupd, Hw, Hl, !Z.eqb_refl. reflexivity.
Qed.

(** The search at one window position returns, and a block it reports has
    passed the checks against the window the MATCH will name. *)
Lemma find_match_spec (st : mstate) :
  matcher_inv cfg self S X st -> 1 <= k st ->
  exists hits alarms r,
    find_match cfg self S (HashTable.init cfg (ChecksumSignature.blocks S)) X st
    = Ok (hits, alarms, r)
    /\ match r with
       | None => True
       | Some f =>
           offset st <= f_offset f
           /\ k st = window_length (len X) (ChecksumSignature.block_size S) (f_offset f)
           /\ 0 <= f_matched_index f < len (ChecksumSignature.blocks S)
           /\ checks_agree cfg self S X (f_matched_index f) (f_offset f) (k st) = true
           /\ 0 <= f_want_i f /\ 0 <= f_aligned_i f
           /\ f_aligned_offset f
              = f_aligned_i f * ChecksumSignature.block_size S
       end.
Proof.
  intros ((Hlit & Hcov & Hsound) & Hoff & Hk & Hs1 & Hs2 & Hwant & Hai & Hao) Hk1.
  assert (Hbs : 1 <= ChecksumSignature.block_size S)
    by (unfold window_length in Hk; lia).
  assert (Hfit : offset st + k st <= len X) by (unfold window_length in Hk; lia).
  unfold find_match. cbv zeta. rewrite Hs1, Hs2, combine_sums.
  rewrite lookup_indices_spec. cbn [mbind result_bind].
  set (w := weak (window X (offset st) (k st))).
  destruct (candidates (ChecksumSignature.blocks S) w (k st)) as [|c0 cands0] eqn:Ecands.
  { eexists _, _, None. split; [reflexivity|exact I]. }
  rewrite <- Ecands. clear c0 cands0 Ecands.
  rewrite py_slice_bytes_window by lia.
  set (strong := strong_checksum self (window X (offset st) (k st))).
  (* the candidates that survive the bypass *)
  assert (Hcands : exists cands,
    (if UPDATING_BASIS_FILE cfg
     then bypass_filter (ChecksumSignature.blocks S) (offset st) (same_offset st)
            (candidates (ChecksumSignature.blocks S) w (k st))
     else Ok (candidates (ChecksumSignature.blocks S) w (k st))) = Ok cands
    /\ forall i, i ∈ cands -> i ∈ candidates (ChecksumSignature.blocks S) w (k st)).
  { destruct (UPDATING_BASIS_FILE cfg).
    - rewrite bypass_filter_spec.
      + eexists. split; [reflexivity|]. intros i Hi.
        apply elem_of_filter_bool in Hi. tauto.
      + intros i Hi. apply elem_of_candidates in Hi. tauto.
    - eauto. }
  destruct Hcands as (cands & -> & Hsub). cbn [mbind result_bind].
  destruct (scan_candidates_spec (ChecksumSignature.blocks S)
              (ChecksumSignature.s2length S) strong cands (local_false_alarms st))
    as (r & alarms' & -> & Hr).
  { intros i Hi. apply Hsub, elem_of_candidates in Hi. tauto. }
  cbn [mbind result_bind].
  destruct r as [mi|]; [|eexists _, _, None; split; [reflexivity|exact I]].
  destruct Hr as (Hin & blk & Hblk & Hp).
  apply Hsub, elem_of_candidates in Hin.
  destruct Hin as (Hmi & b' & Hb' & Hweak & Hlen).
  rewrite Hblk in Hb'. inversion Hb'. subst b'. clear Hb'.
  destruct (UPDATING_BASIS_FILE cfg) eqn:Eupd.
  - subst strong.
    destruct (aligned_phase_spec w st mi blk) as
      (f & strong' & -> & Hfo & Hfk & Hfmi & (blk' & Hblk' & Hp' & Hpath)
       & Hstrong' & Hfw & Hfa & Hfao);
      try assumption; try lia; try (symmetry; exact Hweak).
    cbn [mbind result_bind].
    destruct (want_phase_spec w strong' f Hfw) as (mi' & -> & Hcase).
    cbn [mbind result_bind].
    eexists _, _, (Some _). split; [reflexivity|]. cbn.
    split; [exact Hfo|]. split; [exact Hfk|].
    destruct Hcase as [->|(-> & Hlt & wblk & Hwblk & Hww & Hwp)].
    + split; [exact Hfmi|]. split; [|repeat split; [lia|lia|exact Hfao]].
      apply checks_agree_intro with blk'; [exact Hblk'| |].
      * rewrite <- Hstrong'. exact Hp'.
      * destruct Hpath as [[-> Hwb]|(_ & Hmoved & Hkbs & Hw0 & Hl0)].
        -- left. exact Hwb.
        -- right. apply aligned_window_intro; assumption.
    + split; [lia|]. split; [|repeat split; [lia|lia|exact Hfao]].
      apply checks_agree_intro with wblk; [exact Hwblk| |].
      * rewrite <- Hstrong'. exact Hwp.
      * destruct Hpath as [[-> _]|(Hsame & Hmoved & Hkbs & Hw0 & Hl0)].
        -- left. exact Hww.
        -- right. rewrite Hsame in Hwblk. rewrite Hblk' in Hwblk.
           inversion Hwblk. subst wblk. rewrite Hsame.
           apply aligned_window_intro; assumption.
  - cbn [mbind result_bind].
    destruct (want_phase_spec w strong
                (mkfound mi (offset st) (want_i st) (aligned_offset st)
                         (aligned_i st) (same_offset st)) Hwant)
      as (mi' & -> & Hcase).
    cbn [mbind result_bind]. cbn in Hcase.
    eexists _, _, (Some _). split; [reflexivity|]. cbn.
    split; [lia|]. split; [exact Hk|].
    destruct Hcase as [->|(-> & Hlt & wblk & Hwblk & Hww & Hwp)].
    + split; [exact Hmi|]. split; [|repeat split; [lia|lia|exact Hao]].
      apply checks_agree_intro with blk; [exact Hblk|exact Hp|left].
      symmetry. exact Hweak.
    + split; [lia|]. split; [|repeat split; [lia|lia|exact Hao]].
      apply checks_agree_intro with wblk; [exact Hwblk|exact Hwp|left].
      exact Hww.
Qed.

Lemma py_slice_as_window (a b : Z) :
  0 <= a -> a <= b -> b <= len X -> py_slice X a b = window X a (b - a).
Proof.
  intros. replace b with (a + (b - a)) at 1 by lia.
  apply py_slice_bytes_window; lia.
Qed.

Lemma emit_literal_ok (ins : list instruction) (lit e : Z) :
  covers ins 0 lit -> Forall (sound_instr cfg self S X) ins ->
  0 <= lit -> lit < e -> e <= len X ->
  covers (ins ++ [literal lit (py_slice X lit e)]) 0 e
  /\ Forall (sound_instr cfg self S X) (ins ++ [literal lit (py_slice X lit e)]).
Proof.
  intros Hcov Hsound H0 Hlt He.
  rewrite py_slice_as_window by lia.
  assert (Hlen : len (window X lit (e - lit)) = e - lit) by (apply len_window; lia).
  split.
  - replace e with (lit + instr_length (literal lit (window X lit (e - lit)))) at 2
      by (cbn; lia).
    apply covers_snoc; [exact Hcov|reflexivity|cbn; lia].
  - apply Forall_app. split; [exact Hsound|]. apply Forall_singleton.
    cbn. rewrite Hlen. repeat split; try lia.
Qed.

Lemma emit_match_ok (ins : list instruction) (lit o k0 mi : Z) :
  covers ins 0 lit -> Forall (sound_instr cfg self S X) ins ->
  0 <= lit -> lit <= o -> 1 <= k0 ->
  k0 = window_length (len X) (ChecksumSignature.block_size S) o ->
  0 <= mi < len (ChecksumSignature.blocks S) ->
  checks_agree cfg self S X mi o k0 = true ->
  let ins' := (if o >? lit then ins ++ [literal lit (py_slice X lit o)] else ins)
              ++ [match_ mi o k0] in
  covers ins' 0 (o + k0) /\ Forall (sound_instr cfg self S X) ins'.
Proof.
  intros Hcov Hsound H0 Hlo Hk1 Hk Hmi Hchk ins'.
  assert (Hfit : o + k0 <= len X) by (unfold window_length in Hk; lia).
  assert (Hpre : covers (if o >? lit then ins ++ [literal lit (py_slice X lit o)]
                         else ins) 0 o
                 /\ Forall (sound_instr cfg self S X)
                      (if o >? lit then ins ++ [literal lit (py_slice X lit o)]
                       else ins)).
  { destruct (Z.gtb_spec o lit).
    - apply emit_literal_ok; try assumption; lia.
    - assert (o = lit) by lia. subst o. tauto. }
  destruct Hpre as [Hc Hs]. split.
  - replace (o + k0) with (o + instr_length (match_ mi o k0)) by reflexivity.
    apply covers_snoc; [exact Hc|reflexivity|cbn; lia].
  - apply Forall_app. split; [exact Hs|]. apply Forall_singleton.
    cbn. repeat split; try lia; assumption.
Qed.

Lemma matcher_inv_post (st : mstate) :
  matcher_inv cfg self S X st -> matcher_post cfg self S X st.
Proof. intros [H _]. exact H. Qed.

(** An accepted match keeps the instruction list a tiling of the new file up
    to the end of the match, and moves the window forward. *)
Lemma on_match_spec (st : mstate) (hits alarms : Z) (f : found) :
  matcher_inv cfg self S X st -> 1 <= k st ->
  offset st <= f_offset f ->
  k st = window_length (len X) (ChecksumSignature.block_size S) (f_offset f) ->
  0 <= f_matched_index f < len (ChecksumSignature.blocks S) ->
  checks_agree cfg self S X (f_matched_index f) (f_offset f) (k st) = true ->
  0 <= f_want_i f -> 0 <= f_aligned_i f ->
  f_aligned_offset f = f_aligned_i f * ChecksumSignature.block_size S ->
  exists b st',
    on_match S X st hits alarms f = Ok (b, st')
    /\ matcher_post cfg self S X st'
    /\ offset st < offset st'
    /\ (b = true -> matcher_inv cfg self S X st').
Proof.
  intros ((Hlit & Hcov & Hsound) & Hoff & Hk & Hs1 & Hs2 & Hwant & Hai & Hao)
         Hk1 Hfo Hfk Hmi Hchk Hfw Hfa Hfao.
  assert (Hfit : f_offset f + k st <= len X) by (unfold window_length in Hfk; lia).
  destruct (emit_match_ok (instructions st) (lit_start st) (f_offset f) (k st)
              (f_matched_index f)) as [Hc' Hs']; try assumption; try lia.
  unfold on_match. cbv zeta.
  set (ins' := (if f_offset f >? lit_start st then _ else _) ++ _) in *.
  assert (Hpost : forall k' s1' s2' ao ai so a h m,
            matcher_post cfg self S X
              (mkst (f_offset f + k st) k' s1' s2' (f_offset f + k st)
                    (f_matched_index f + 1) (f_offset f + k st) ao ai so ins' a h m)).
  { intros. unfold matcher_post. cbn. split; [lia|]. split; assumption. }
  destruct (Z.geb_spec (f_offset f + k st) (len X)) as [Hge|Hlt].
  { eexists _, _. split; [reflexivity|]. split; [apply Hpost|].
    split; [cbn; lia|discriminate]. }
  destruct (Z.leb_spec (Z.min (ChecksumSignature.block_size S)
                              (len X - (f_offset f + k st))) 0) as [Hle|Hgt].
  { eexists _, _. split; [reflexivity|]. split; [apply Hpost|].
    split; [cbn; lia|discriminate]. }
  rewrite rolling_checksum_optimized_window by lia.
  cbn [mbind result_bind]. rewrite components_weak.
  eexists _, _. split; [reflexivity|]. split; [apply Hpost|].
  split; [cbn; lia|]. intros _. unfold matcher_inv. cbn.
  split; [apply Hpost|]. unfold window_length.
  repeat split; try lia; exact Hfao.
Qed.

Lemma getitem_lookup (i : Z) (x : Z) :
  0 <= i -> X !! Z.to_nat i = Some x -> getitem X i = Ok x.
Proof.
  intros Hi Hx. destruct (getitem_valid X i) as (y & Hy & ->).
  - split; [exact Hi|]. apply lookup_lt_Some in Hx. unfold len. lia.
  - congruence.
Qed.

(** Without a match the window advances by one byte and the running sums
    remain those of the window. *)
Lemma no_match_spec (end_ : Z) (st : mstate) (hits alarms : Z) :
  matcher_inv cfg self S X st -> 1 <= k st ->
  offset st < end_ -> end_ <= len X ->
  exists st',
    no_match S X end_ st hits alarms = Ok (true, st')
    /\ matcher_inv cfg self S X st'
    /\ offset st' = offset st + 1.
Proof.
  intros ((Hlit & Hcov & Hsound) & Hoff & Hk & Hs1 & Hs2 & Hwant & Hai & Hao)
         Hk1 Hend Hendn.
  assert (Hbs : 1 <= ChecksumSignature.block_size S)
    by (unfold window_length in Hk; lia).
  assert (Hfit : offset st + k st <= len X) by (unfold window_length in Hk; lia).
  destruct (window_cons X (offset st) (k st)) as (old & Hold & Hwin); try lia.
  unfold no_match. cbv zeta.
  rewrite (getitem_lookup (offset st) old) by (try lia; exact Hold).
  cbn [mbind result_bind].
  assert (Hklen : k st = len (old :: window X (offset st + 1) (k st - 1))).
  { rewrite len_cons, len_window by lia. lia. }
  (* the new sums and window length *)
  assert (Hroll : exists s1' s2' k',
    (if offset st + k st <? len X then
       new_byte ← getitem X (offset st + k st);
       let '(s1, s2) :=
         Checksum.rolling_update old new_byte (s1 st) (s2 st) (k st) in
       Ok (s1, s2, k st)
     else
       let '(s1, s2) := Checksum.shrink_update old (s1 st) (s2 st) (k st) in
       Ok (s1, s2, k st - 1)) = Ok (s1', s2', k')
    /\ k' = window_length (len X) (ChecksumSignature.block_size S) (offset st + 1)
    /\ s1' = sum_bytes (window X (offset st + 1) k') mod 65536
    /\ s2' = weighted_sum (window X (offset st + 1) k') mod 65536).
  { rewrite Hs1, Hs2, Hwin.
    destruct (Z.ltb_spec (offset st + k st) (len X)) as [Hmore|Hlast].
    - destruct (window_snoc X (offset st + 1) (k st - 1)) as (y & Hy & Hsnoc);
        try lia.
      replace (offset st + 1 + (k st - 1)) with (offset st + k st) in Hy by lia.
      replace (k st - 1 + 1) with (k st) in Hsnoc by lia.
      rewrite (getitem_lookup (offset st + k st) y) by (try lia; exact Hy).
      cbn [mbind result_bind].
      rewrite (slide_sums old y _ (k st) Hklen), <- Hsnoc.
      eexists _, _, _. split; [reflexivity|].
      unfold window_length in *. repeat split; lia.
    - rewrite (shrink_sums old _ (k st) Hklen).
      eexists _, _, _. split; [reflexivity|].
      unfold window_length in *. repeat split; lia. }
  destruct Hroll as (s1' & s2' & k' & -> & Hk' & Hs1' & Hs2').
  cbn [mbind result_bind].
  match goal with |- context [if ?c then _ else _] => destruct c eqn:Eflush end.
  - apply andb_true_iff in Eflush. destruct Eflush as [_ Hfl]. apply Z.gtb_lt in Hfl.
    destruct (emit_literal_ok (instructions st) (lit_start st)
                (offset st - ChecksumSignature.block_size S))
      as [Hc' Hs']; try assumption; try lia.
    eexists. split; [reflexivity|]. split; [|reflexivity].
    unfold matcher_inv, matcher_post. cbn.
    repeat split; try assumption; try lia.
  - eexists. split; [reflexivity|]. split; [|reflexivity].
    unfold matcher_inv, matcher_post. cbn.
    repeat split; try assumption; try lia.
Qed.

Lemma end_bound_le : end_bound S (len X) <= len X.
Proof.
  pose proof (len_nonneg X). unfold end_bound.
  match goal with |- context [?a >? 0] => destruct (Z.gtb_spec a 0) end; lia.
Qed.

Lemma loop_body_spec (st : mstate) :
  matcher_inv cfg self S X st ->
  loop_cond (end_bound S (len X)) st = true ->
  exists b st',
    loop_body cfg self S (HashTable.init cfg (ChecksumSignature.blocks S)) X
              (end_bound S (len X)) st = Ok (b, st')
    /\ matcher_post cfg self S X st'
    /\ offset st < offset st'
    /\ (b = true -> matcher_inv cfg self S X st').
Proof.
  intros Hinv Hcond. unfold loop_cond in Hcond.
  apply andb_true_iff in Hcond. destruct Hcond as [Hend Hk].
  apply Z.ltb_lt in Hend. apply Z.gtb_lt in Hk.
  unfold loop_body.
  destruct (find_match_spec st Hinv) as (hits & alarms & r & -> & Hr); [lia|].
  cbn [mbind result_bind]. destruct r as [f|].
  - destruct Hr as (H1 & H2 & H3 & H4 & H5 & H6 & H7).
    apply on_match_spec; try assumption; lia.
  - destruct (no_match_spec (end_bound S (len X)) st hits alarms Hinv)
      as (st' & -> & Hinv' & Hoff); [lia|lia|apply end_bound_le|].
    exists true, st'. split; [reflexivity|].
    split; [apply matcher_inv_post; exact Hinv'|]. split; [lia|].
    intros _. exact Hinv'.
Qed.

(** Every iteration moves the window forward, so the loop returns within
    [end] iterations. *)
Lemma match_loop_spec (fuel : nat) (st : mstate) :
  matcher_inv cfg self S X st ->
  end_bound S (len X) - offset st <= Z.of_nat fuel ->
  exists st',
    match_loop fuel cfg self S (HashTable.init cfg (ChecksumSignature.blocks S)) X
               (end_bound S (len X)) st = Ok st'
    /\ matcher_post cfg self S X st'.
Proof.
  revert st. induction fuel as [|fuel IH]; intros st Hinv Hfuel.
  - cbn [match_loop]. destruct (loop_cond (end_bound S (len X)) st) eqn:Ec.
    + unfold loop_cond in Ec. apply andb_true_iff in Ec. lia.
    + exists st. split; [reflexivity|]. apply matcher_inv_post. exact Hinv.
  - cbn [match_loop]. destruct (loop_cond (end_bound S (len X)) st) eqn:Ec.
    + destruct (loop_body_spec st Hinv Ec) as (b & st' & -> & Hpost & Hlt & Hinv').
      cbn [mbind result_bind]. destruct b.
      * apply IH; [apply Hinv'; reflexivity|lia].
      * exists st'. split; [reflexivity|exact Hpost].
    + exists st. split; [reflexivity|]. apply matcher_inv_post. exact Hinv.
Qed.

(** The matcher returns for every signature and every new file, and the
    instructions it builds tile the new file. *)
Lemma match_instructions_spec :
  exists st,
    match_instructions cfg self S X = Ok st
    /\ covers (instructions st) 0 (len X)
    /\ Forall (sound_instr cfg self S X) (instructions st).
Proof.
  pose proof (len_nonneg X) as Hn. unfold match_instructions. cbv zeta.
  set (k0 := Z.min (ChecksumSignature.block_size S) (len X)).
  assert (Hinit : exists s12,
    (if k0 >? 0 then
       weak0 ← Checksum.rolling_checksum_optimized X 0 (Some k0);
       Ok (Checksum.checksum_components weak0)
     else Ok (0, 0)) = Ok s12
    /\ s12.1 = sum_bytes (window X 0 k0) mod 65536
    /\ s12.2 = weighted_sum (window X 0 k0) mod 65536).
  { destruct (Z.gtb_spec k0 0).
    - rewrite rolling_checksum_optimized_window by (unfold k0; lia).
      cbn [mbind result_bind]. rewrite components_weak.
      eexists. split; [reflexivity|]. split; reflexivity.
    - exists (0, 0). split; [reflexivity|].
      unfold window. replace (Z.to_nat k0) with 0%nat by lia.
      split; reflexivity. }
  destruct Hinit as (s12 & -> & Hs1 & Hs2). cbn [mbind result_bind].
  destruct (match_loop_spec (Z.to_nat (end_bound S (len X)))
              (mkst 0 k0 s12.1 s12.2 0 0 0 0 0 ∅ [] 0 0 0))
    as (st & -> & (Hlit & Hcov & Hsound)).
  { unfold matcher_inv, matcher_post. cbn.
    unfold window_length. rewrite Z.sub_0_r. fold k0.
    repeat split; try lia; try assumption. constructor. }
  { cbn. lia. }
  cbn [mbind result_bind]. eexists. split; [reflexivity|]. cbn [instructions].
  destruct (Z.ltb_spec (lit_start st) (len X)).
  - apply emit_literal_ok; try assumption; lia.
  - assert (lit_start st = len X) by lia. split; [congruence|assumption].
Qed.

End Matcher.


(** ** [generate_delta] *)

Section Delta.

Import ChecksumEngine.

Lemma get_checksum_function_seeded (lib : HashLib) (cfg : Config)
      (ct : ChecksumType) (seed : Z) :
  0 <= seed < 2 ^ 32 ->
  exists f, ChecksumRegistry.get_checksum_function lib cfg ct seed = Ok f.
Proof.
  intros Hseed. unfold ChecksumRegistry.get_checksum_function, pack_u32.
  replace ((0 <=? seed) && (seed <? 2 ^ 32)) with true
    by (symmetry; apply andb_true_iff; lia).
  destruct ct; destruct (seed =? 0); cbn [mbind result_bind];
    try destruct (PROPER_SEED_ORDER cfg); eauto.
Qed.

Lemma whole_file_sum_cases (lib : HashLib) (cfg : Config) (ct : ChecksumType)
      (seed : Z) (data : bytes) :
  (0 <= seed < 2 ^ 32 -> exists sum, whole_file_sum lib cfg ct seed data = Ok sum)
  /\ (~ 0 <= seed < 2 ^ 32 -> whole_file_sum lib cfg ct seed data = Err StructError).
Proof.
  unfold whole_file_sum. split; intros Hseed.
  - destruct (get_checksum_function_seeded lib cfg ct seed Hseed) as (f & ->).
    unfold pack_u32.
    replace ((0 <=? seed) && (seed <? 2 ^ 32)) with true
      by (symmetry; apply andb_true_iff; lia).
    destruct (seed =? 0); cbn [mbind result_bind]; eauto.
  - destruct (Z.eqb_spec seed 0); [lia|]. unfold pack_u32.
    replace ((0 <=? seed) && (seed <? 2 ^ 32)) with false; [reflexivity|].
    symmetry. apply andb_false_iff. lia.
Qed.

(** The result of [generate_delta] in terms of the matcher's instruction
    list: the only errors are the size limit and an unpackable seed. *)
Lemma generate_delta_cases (lib : HashLib) (cfg : Config) (self : t)
      (S : ChecksumSignature) (X : bytes) :
  exists st,
    match_instructions cfg self S X = Ok st
    /\ covers (instructions st) 0 (len X)
    /\ Forall (sound_instr cfg self S X) (instructions st)
    /\ match generate_delta lib cfg self S X with
       | Ok D =>
           len X <= MAX_FILE_SIZE_IN_MEMORY
           /\ DeltaInstructions.instructions D = instructions st
           /\ DeltaInstructions.block_size D = ChecksumSignature.block_size S
           /\ DeltaInstructions.compression_ratio D
              = (let total := matched_bytes_of (instructions st)
                              + literal_bytes_of (instructions st) in
                 if total >? 0
                 then Qmake (matched_bytes_of (instructions st)) (Z.to_pos total)
                 else 0%Q)
       | Err e =>
           (e = ResourceLimitError /\ MAX_FILE_SIZE_IN_MEMORY < len X)
           \/ (e = StructError /\ len X <= MAX_FILE_SIZE_IN_MEMORY
               /\ COMPUTE_SENDER_FILE_SUM cfg = true
               /\ ~ 0 <= ChecksumSignature.checksum_seed S < 2 ^ 32)
       end.
Proof.
  destruct (match_instructions_spec cfg self S X) as (st & Hst & Hcov & Hsound).
  exists st. split; [exact Hst|]. split; [exact Hcov|]. split; [exact Hsound|].
  pose proof (len_nonneg X) as Hn.
  unfold generate_delta, validate_data.
  destruct (Z.ltb_spec (len X) 0); [lia|].
  destruct (Z.gtb_spec (len X) MAX_FILE_SIZE_IN_MEMORY) as [Hbig|Hsmall].
  { cbn [mbind result_bind]. left. split; [reflexivity|lia]. }
  cbn [mbind result_bind]. rewrite Hst. cbn [mbind result_bind].
  destruct (COMPUTE_SENDER_FILE_SUM cfg) eqn:Ecomp.
  - set (ct := if bool_decide (ChecksumSignature.checksum_type S = ""%string)
               then _ else _).
    destruct (whole_file_sum_cases lib cfg ct (ChecksumSignature.checksum_seed S) X)
      as [Hok Herr].
    destruct (Z_le_dec 0 (ChecksumSignature.checksum_seed S)) as [H0|H0];
      [destruct (Z_lt_dec (ChecksumSignature.checksum_seed S) (2 ^ 32)) as [H1|H1]|].
    + destruct Hok as (sum & ->); [lia|]. cbn [mbind result_bind].
      cbn. repeat split; try lia.
    + rewrite Herr by lia. cbn [mbind result_bind]. right.
      repeat split; try lia.
    + rewrite Herr by lia. cbn [mbind result_bind]. right.
      repeat split; try lia.
  - cbn [mbind result_bind]. cbn. repeat split; try lia.
Qed.

Lemma covers_bounds (ins : list instruction) (a b : Z) :
  covers ins a b ->
  Forall (fun ci => a <= instr_offset ci /\ 0 < instr_length ci
                    /\ instr_offset ci + instr_length ci <= b) ins.
Proof.
  revert a. induction ins as [|ci ins IH]; intros a; cbn [covers].
  - constructor.
  - intros (Ho & Hl & Hc). pose proof (covers_le _ _ _ Hc).
    constructor; [lia|]. apply IH in Hc.
    eapply Forall_impl; [exact Hc|]. cbn. intros x. lia.
Qed.

Lemma covers_sorted (ins : list instruction) (a b : Z) :
  covers ins a b -> StronglySorted Z.lt (map instr_offset ins).
Proof.
  revert a. induction ins as [|ci ins IH]; intros a; cbn [covers map].
  - constructor.
  - intros (Ho & Hl & Hc). constructor; [eapply IH; exact Hc|].
    apply covers_bounds in Hc. apply Forall_map.
    eapply Forall_impl; [exact Hc|]. cbn. intros x. lia.
Qed.

Lemma covers_once (ins : list instruction) (a b p : Z) :
  covers ins a b -> a <= p < b ->
  exists i ci,
    ins !! i = Some ci /\ in_range ci p
    /\ forall j cj, ins !! j = Some cj -> in_range cj p -> j = i.
Proof.
  revert a. induction ins as [|c ins IH]; intros a; cbn [covers].
  - lia.
  - intros (Ho & Hl & Hc) Hp.
    destruct (Z_lt_dec p (a + instr_length c)) as [Hin|Hout].
    + exists 0%nat, c. split; [reflexivity|]. split; [unfold in_range; lia|].
      intros [|j] cj Hj Hr; [reflexivity|]. exfalso. cbn in Hj.
      apply covers_bounds in Hc. rewrite Forall_forall in Hc.
      specialize (Hc cj (list_elem_of_lookup_2 _ _ _ Hj)).
      unfold in_range in Hr. lia.
    + destruct (IH _ Hc) as (i & ci & Hi & Hr & Huniq); [lia|].
      exists (Datatypes.S i), ci. split; [exact Hi|]. split; [exact Hr|].
      intros [|j] cj Hj Hrj.
      * exfalso. cbn in Hj. inversion Hj. subst cj. unfold in_range in Hrj. lia.
      * f_equal. eapply Huniq; eauto.
Qed.

End Delta.

(** *** Claim C2 *)

(** C2: for every signature [S], every new byte string [X] and every
    configuration (so with and without the updating-basis fast path, and
    whether or not the early flush fires), [generate_delta] either raises one
    of its two input errors (file above the in-memory limit, checksum seed
    that does not fit 32 bits) or returns a delta whose instructions have
    strictly ascending offsets, each a non-empty range inside [0, N), every
    position of [0, N) lying in the range of exactly one instruction. *)
Theorem generate_delta_partition (lib : HashLib) (cfg : Config)
        (self : ChecksumEngine.t) (S : ChecksumSignature) (X : bytes) :
  match ChecksumEngine.generate_delta lib cfg self S X with
  | Ok D =>
      let ins := DeltaInstructions.instructions D in
      covers ins 0 (len X)
      /\ StronglySorted Z.lt (map instr_offset ins)
      /\ Forall (fun ci => 0 <= instr_offset ci /\ 0 < instr_length ci
                           /\ instr_offset ci + instr_length ci <= len X) ins
      /\ forall p, 0 <= p < len X ->
           exists i ci,
             ins !! i = Some ci /\ in_range ci p
             /\ forall j cj, ins !! j = Some cj -> in_range cj p -> j = i
  | Err e =>
      (e = ResourceLimitError /\ MAX_FILE_SIZE_IN_MEMORY < len X)
      \/ (e = StructError /\ len X <= MAX_FILE_SIZE_IN_MEMORY
          /\ COMPUTE_SENDER_FILE_SUM cfg = true
          /\ ~ 0 <= ChecksumSignature.checksum_seed S < 2 ^ 32)
  end.
Proof.
  destruct (generate_delta_cases lib cfg self S X) as (st & _ & Hcov & _ & Hres).
  destruct (ChecksumEngine.generate_delta lib cfg self S X) as [D|e];
    [|exact Hres].
  destruct Hres as (_ & Hins & _). cbv zeta. rewrite Hins.
  split; [exact Hcov|]. split; [eapply covers_sorted; exact Hcov|].
  split; [apply covers_bounds; exact Hcov|].
  intros p Hp. eapply covers_once; eauto.
Qed.

(** *** Claim C1 *)

Section Roundtrip.

Import ChecksumEngine.

Lemma init_inv (lib : HashLib) (cfg : Config) (bs : Z) (ct : ChecksumType)
      (pm : option Z) (seed : Z) (self : t) :
  init lib cfg bs ct pm seed = Ok self ->
  16 <= block_size self /\ block_size self = bs /\ checksum_type self = ct
  /\ protocol_manager self = pm /\ checksum_seed self = seed.
Proof.
  unfold init, validate_block_size. intros H.
  destruct (Z.leb_spec bs 0); [discriminate|].
  destruct (Z.ltb_spec bs MIN_BLOCK_SIZE_LIMIT); [discriminate|].
  destruct (bs >? _); [discriminate|]. destruct (bs >? _); [discriminate|].
  cbn [mbind result_bind] in H.
  destruct (ChecksumRegistry.get_checksum_function lib cfg ct seed);
    [|discriminate].
  cbn [mbind result_bind] in H. inversion H. subst self. cbn.
  unfold MIN_BLOCK_SIZE_LIMIT in *. repeat split; lia.
Qed.

Lemma collision_free_spec (cfg : Config) (self : t) (S : ChecksumSignature)
      (B X : bytes) (o j : Z) :
  collision_free cfg self S B X = true ->
  0 <= o < len X -> 0 <= j < len (ChecksumSignature.blocks S) ->
  let bs := ChecksumSignature.block_size S in
  let k0 := window_length (len X) bs o in
  checks_agree cfg self S X j o k0 = true ->
  py_slice B (j * bs) (j * bs + k0) = window X o k0.
Proof.
  intros Hcf Ho Hj bs k0 Hchk. unfold collision_free in Hcf.
  pose proof (all_below_spec _ _ Hcf o Ho) as Hcf1. cbv beta zeta in Hcf1.
  pose proof (all_below_spec _ _ Hcf1 j Hj) as Hcf2. cbv beta in Hcf2.
  fold bs in Hcf2. fold k0 in Hcf2. rewrite Hchk in Hcf2. cbn [implb] in Hcf2.
  apply bool_decide_eq_true in Hcf2. exact Hcf2.
Qed.

Lemma window_drop (X : bytes) (p k0 : Z) :
  0 <= p -> 0 <= k0 ->
  window X p k0 ++ drop (Z.to_nat (p + k0)) X = drop (Z.to_nat p) X.
Proof.
  intros Hp Hk. unfold window.
  replace (Z.to_nat (p + k0)) with (Z.to_nat p + Z.to_nat k0)%nat by lia.
  rewrite <- drop_drop. apply take_drop.
Qed.

(** Applying instructions that tile [[p, N)] and are free of collisions
    yields the new file from position [p] on. *)
Lemma apply_covers (cfg : Config) (self : t) (S : ChecksumSignature)
      (B X : bytes) (ins : list instruction) (p : Z) :
  collision_free cfg self S B X = true ->
  covers ins p (len X) -> Forall (sound_instr cfg self S X) ins -> 0 <= p ->
  concat (map (apply_instruction B (ChecksumSignature.block_size S)) ins)
  = drop (Z.to_nat p) X.
Proof.
  intros Hcf. revert p. induction ins as [|ci ins IH]; intros p Hcov Hsound Hp.
  - cbn in Hcov. subst p. cbn. rewrite drop_ge; [reflexivity|unfold len; lia].
  - cbn [covers] in Hcov. destruct Hcov as (Ho & Hl & Hcov).
    inversion Hsound as [|? ? Hci Hrest]. subst.
    cbn [map concat]. rewrite (IH (instr_offset ci + instr_length ci));
      [|exact Hcov|exact Hrest|lia].
    destruct ci as [cmd [m|l]]; cbn in Hci, Hl, Hp |- *.
    + destruct Hci as (-> & Hbi & Hoff & Hlen & Hchk).
      rewrite bool_decide_eq_true_2 by reflexivity.
      rewrite Hlen in Hchk |- *.
      rewrite (collision_free_spec cfg self S B X (DeltaMatch.offset_in_new m)
                 (DeltaMatch.block_index m) Hcf); try assumption.
      * apply window_drop; [lia|]. rewrite <- Hlen. lia.
      * unfold window_length in Hlen. lia.
    + destruct Hci as (-> & Hoff & Hfit & Hdata).
      rewrite bool_decide_eq_true_2 by reflexivity.
      rewrite Hdata at 1. apply window_drop; lia.
Qed.

End Roundtrip.

(** C1, as stated, fails: with [ChecksumType.NONE] every strong checksum is
    the same byte, and a window of the new file whose weak checksum collides
    with that of a block is turned into a MATCH.  Basis [0^15 7 7], block size
    16, new file [7]: the delta is the single instruction MATCH(block 0,
    length 1) and applying it gives [0]. *)
Lemma delta_roundtrip_collision_counterexample :
  ChecksumEngine.init example_lib default_config 16 NONE None 0 = Ok example_engine
  /\ exists S D,
       ChecksumEngine.generate_signature example_engine (replicate 15 0 ++ [7; 7])
         (CSUM_LENGTH default_config) = Ok S
       /\ ChecksumEngine.generate_delta example_lib default_config example_engine S [7]
          = Ok D
       /\ DeltaInstructions.instructions D = [ChecksumEngine.match_ 0 0 1]
       /\ ChecksumEngine.apply_delta (replicate 15 0 ++ [7; 7]) D = Ok [0].
Proof.
  split; [reflexivity|]. eexists _, _.
  split; [vm_compute; reflexivity|]. split; [vm_compute; reflexivity|].
  split; vm_compute; reflexivity.
Qed.

(** C1, amended: for an engine built by [ChecksumEngine(...)] with a seed
    that fits 32 bits, a basis [B] and a new file [X] within the in-memory
    limit, both [generate_signature(B)] and [generate_delta(S, X)] return,
    and if no window of [X] collides with a block of [B] then
    [apply_delta(B, generate_delta(S, X)) = X].  A window [X[o .. o+k]],
    [k = min(block_size, len(X) - o)], collides with block [j] when it passes
    the checks of the matcher against [j] without holding the bytes
    [B[j*block_size .. j*block_size + k]] that a MATCH on [j] copies.  The
    checks are the equality of the truncated strong checksums and of the weak
    checksums; the weak checksum is not compared for one window only, the
    one the aligned fast path of the updating-basis mode moves to: a full
    window at [o = j*block_size] for a full block [j] of weak checksum 0. *)
Theorem delta_roundtrip (lib : HashLib) (cfg : Config) (bs : Z)
        (ct : ChecksumType) (pm : option Z) (seed : Z)
        (self : ChecksumEngine.t) (csum_length : Z) (B X : bytes) :
  ChecksumEngine.init lib cfg bs ct pm seed = Ok self ->
  0 <= seed < 2 ^ 32 ->
  len B <= MAX_FILE_SIZE_IN_MEMORY -> len X <= MAX_FILE_SIZE_IN_MEMORY ->
  exists S D,
    ChecksumEngine.generate_signature self B csum_length = Ok S
    /\ ChecksumEngine.generate_delta lib cfg self S X = Ok D
    /\ (collision_free cfg self S B X = true ->
        ChecksumEngine.apply_delta B D = Ok X).
Proof.
  intros Hinit Hseed HB HX.
  destruct (init_inv _ _ _ _ _ _ _ Hinit) as (Hbs & _ & _ & _ & Hs).
  destruct (generate_signature_ok self B csum_length) as (s2l & _ & Hsig);
    [lia|exact HB|].
  set (S := signature_of self B s2l) in *.
  assert (HseedS : ChecksumSignature.checksum_seed S = seed) by exact Hs.
  destruct (generate_delta_cases lib cfg self S X)
    as (st & _ & Hcov & Hsound & Hres).
  exists S.
  destruct (ChecksumEngine.generate_delta lib cfg self S X) as [D|e] eqn:ED.
  - exists D. split; [exact Hsig|]. split; [reflexivity|]. intros Hcf.
    destruct Hres as (_ & Hins & Hbsz & _).
    rewrite apply_delta_ok by exact HB. rewrite Hins, Hbsz. f_equal.
    rewrite (apply_covers cfg self S B X (ChecksumEngine.instructions st) 0 Hcf);
      [reflexivity|exact Hcov|exact Hsound|lia].
  - exfalso. destruct Hres as [[_ H]|(_ & _ & _ & H)]; lia.
Qed.

Lemma delta_roundtrip_witness :
  example_roundtrip (map Z.of_nat (seq 0 40)) (map Z.of_nat (seq 3 30))
  = Ok (map Z.of_nat (seq 3 30))
  /\ exists S D,
       ChecksumEngine.generate_signature example_engine example_basis
         (CSUM_LENGTH updating_config) = Ok S
       /\ ChecksumEngine.generate_delta example_lib updating_config
            example_engine S example_new = Ok D
       /\ DeltaInstructions.instructions D
          = [ChecksumEngine.literal 0 (5 :: replicate 15 0);
             ChecksumEngine.match_ 1 16 16]
       /\ ChecksumEngine.apply_delta example_basis D = Ok example_new.
Proof.
  split.
  - destruct (delta_roundtrip example_lib default_config 16 NONE None 0
                example_engine (CSUM_LENGTH default_config)
                (map Z.of_nat (seq 0 40)) (map Z.of_nat (seq 3 30)))
      as (S & D & HS & HD & HA).
    + reflexivity.
    + lia.
    + vm_compute. congruence.
    + vm_compute. congruence.
    + unfold example_roundtrip, example_delta. rewrite HS.
      cbn [mbind result_bind]. rewrite HD. cbn [mbind result_bind].
      apply HA. vm_compute in HS. inversion HS. subst S.
      vm_compute. reflexivity.
  - destruct (delta_roundtrip example_lib updating_config 16 NONE None 0
                example_engine (CSUM_LENGTH updating_config)
                example_basis example_new)
      as (S & D & HS & HD & HA).
    + reflexivity.
    + lia.
    + vm_compute. congruence.
    + vm_compute. congruence.
    + exists S, D. split; [exact HS|]. split; [exact HD|].
      pose proof HS as HS'. vm_compute in HS'. inversion HS'. subst S.
      split.
      * pose proof HD as HD'. vm_compute in HD'. inversion HD'. reflexivity.
      * apply HA. vm_compute. reflexivity.
Defined.


(** ** The delta of a file against its own signature *)

Section SelfDelta.

Import ChecksumEngine.

Variables (cfg : Config) (self : t) (X : bytes) (s2l : Z).
Hypothesis Hbs : 1 <= block_size self.
Hypothesis Hs2l : 0 <= s2l.

Lemma py_slice_take {A} (x : list A) (a : Z) :
  0 <= a -> py_slice x 0 a = take (Z.to_nat a) x.
Proof.
  intros Ha. pose proof (len_nonneg x). unfold py_slice, slice_bound.
  destruct (Z.ltb_spec 0 0); [lia|]. destruct (Z.ltb_spec a 0); [lia|].
  rewrite (Z.min_l 0) by lia. change (drop (Z.to_nat 0) x) with x. rewrite Z.sub_0_r.
  destruct (Z.le_gt_cases a (len x)).
  - rewrite Z.min_l by lia. reflexivity.
  - rewrite Z.min_r by lia.
    rewrite (take_ge x (Z.to_nat (len x))) by (unfold len; lia).
    rewrite take_ge by (unfold len in *; lia). reflexivity.
Qed.

Lemma sig_blocks_len :
  len (ChecksumSignature.blocks (signature_of self X s2l))
  = block_count (len X) (block_size self).
Proof.
  pose proof (len_nonneg X).
  pose proof (block_count_nonneg (len X) (block_size self)).
  cbn. unfold len. rewrite length_map, length_seq. unfold len in *. lia.
Qed.

Lemma sig_blocks_lookup (i : Z) :
  0 <= i < block_count (len X) (block_size self) ->
  ChecksumSignature.blocks (signature_of self X s2l) !! Z.to_nat i
  = Some (sig_block self X s2l i).
Proof.
  intros Hi. cbn. rewrite list_lookup_fmap, lookup_seq_lt by lia.
  cbn. rewrite Z2Nat.id by lia. reflexivity.
Qed.

(** The strong prefix of a block of [X] agrees with its own entry. *)
Lemma sig_block_prefix (i : Z) :
  0 <= i < block_count (len X) (block_size self) ->
  prefix_eq (ChecksumSignature.s2length (signature_of self X s2l))
    (strong_checksum self
       (window X (i * block_size self)
          (window_length (len X) (block_size self) (i * block_size self))))
    (sig_block self X s2l i) = true.
Proof.
  intros Hi. unfold prefix_eq. apply bool_decide_eq_true.
  unfold ChecksumSignature.s2length.
  destruct (ChecksumSignature.blocks (signature_of self X s2l)) as [|b0 rest] eqn:Eb.
  { pose proof sig_blocks_len as Hl. rewrite Eb in Hl. change (len (@nil BlockChecksum)) with 0 in Hl. lia. }
  assert (Hb0 : b0 = sig_block self X s2l 0).
  { pose proof (sig_blocks_lookup 0 ltac:(lia)) as H0. rewrite Eb in H0.
    change (Some b0 = Some (sig_block self X s2l 0)) in H0. congruence. }
  subst b0. cbn [sig_block BlockChecksum.strong_checksum].
  set (xi := strong_checksum self _). set (x0 := strong_checksum self _).
  pose proof (len_nonneg (py_slice x0 0 s2l)) as HL.
  assert (HLs : len (py_slice x0 0 s2l) <= s2l).
  { rewrite py_slice_take by lia. unfold len. rewrite length_take. lia. }
  set (L := len (py_slice x0 0 s2l)) in *.
  rewrite !py_slice_take by lia. rewrite take_take. f_equal. lia.
Qed.

Lemma end_bound_self :
  0 < len X ->
  end_bound (signature_of self X s2l) (len X)
  = (block_count (len X) (block_size self) - 1) * block_size self + 1.
Proof.
  intros Hn. set (N := block_count (len X) (block_size self)).
  assert (Hfacts : (N - 1) * block_size self < len X
                   /\ len X <= N * block_size self /\ 1 <= N).
  { unfold N, block_count.
    pose proof (Z.div_mod (len X + block_size self - 1) (block_size self)
                  ltac:(lia)).
    pose proof (Z.mod_pos_bound (len X + block_size self - 1) (block_size self)
                  ltac:(lia)).
    nia. }
  destruct Hfacts as (Hlast & Hcover & HN).
  unfold end_bound. cbn [signature_of ChecksumSignature.blocks]. fold N.
  replace (Z.to_nat N) with (Datatypes.S (Z.to_nat (N - 1))) by lia.
  rewrite seq_S, map_app. cbn [map Nat.add]. rewrite last_snoc.
  cbn [sig_block BlockChecksum.length]. rewrite Z2Nat.id by lia.
  unfold window_length.
  destruct (Z.gtb_spec (Z.min (block_size self) (len X - (N - 1) * block_size self)) 0);
    lia.
Qed.

Lemma block_matches_snoc (n bs : Z) (i : Z) :
  0 <= i ->
  block_matches n bs (Z.to_nat (i + 1))
  = block_matches n bs (Z.to_nat i) ++ [match_ i (i * bs) (window_length n bs (i * bs))].
Proof.
  intros Hi. unfold block_matches.
  replace (Z.to_nat (i + 1)) with (Datatypes.S (Z.to_nat i)) by lia.
  rewrite seq_S, map_app. cbn [map Nat.add]. rewrite Z2Nat.id by lia. reflexivity.
Qed.

Lemma want_phase_self (w : Z) (strong : bytes) (f : found) (i : Z) :
  0 <= i < block_count (len X) (block_size self) ->
  f_want_i f = i ->
  w = BlockChecksum.weak_checksum (sig_block self X s2l i) ->
  prefix_eq (ChecksumSignature.s2length (signature_of self X s2l)) strong
            (sig_block self X s2l i) = true ->
  UPDATING_BASIS_FILE cfg = false \/ f_matched_index f = i ->
  want_phase cfg (signature_of self X s2l) w strong f = Ok i.
Proof.
  intros Hi Hw Hweak Hp Hcase. unfold want_phase. rewrite Hw.
  destruct (Z.eqb_spec (f_matched_index f) i) as [->|Hne]; [reflexivity|].
  cbn [negb andb]. rewrite sig_blocks_len.
  destruct (Z.ltb_spec i (block_count (len X) (block_size self))); [|lia].
  destruct (getitem_valid (ChecksumSignature.blocks (signature_of self X s2l)) i)
    as (blk & Hblk & ->); [rewrite sig_blocks_len; lia|].
  rewrite sig_blocks_lookup in Hblk by lia. inversion Hblk. subst blk.
  cbn [mbind result_bind]. rewrite Hp, <- Hweak, Z.eqb_refl.
  destruct Hcase as [-> | ?]; [reflexivity|contradiction].
Qed.

Lemma aligned_phase_self (w : Z) (strong : bytes) (st : mstate) (mi i : Z) :
  0 <= i < block_count (len X) (block_size self) ->
  offset st = i * block_size self ->
  k st = window_length (len X) (block_size self) (i * block_size self) ->
  0 <= aligned_i st <= i ->
  aligned_offset st = aligned_i st * block_size self ->
  w = BlockChecksum.weak_checksum (sig_block self X s2l i) ->
  prefix_eq (ChecksumSignature.s2length (signature_of self X s2l)) strong
            (sig_block self X s2l i) = true ->
  aligned_phase self (signature_of self X s2l) X w strong st mi
  = Ok (mkfound i (offset st) i (i * block_size self) i
                ({[i]} ∪ same_offset st), strong).
Proof.
  intros Hi Hoff Hk Hai Hao Hweak Hp. unfold aligned_phase.
  cbn [signature_of ChecksumSignature.block_size].
  destruct (while_loop_inv
              (fun s : Z * Z => fst s = snd s * block_size self /\ 0 <= snd s <= i)
              (fun '(ao, _) => Z.to_nat (offset st - ao))
              (fun '(ao, ai) => ao <? offset st)
              (fun '(ao, ai) => (ao + block_size self, ai + 1))) with
    (fuel := Z.to_nat (offset st - aligned_offset st))
    (s := (aligned_offset st, aligned_i st)) as ([ao ai] & -> & [Hao' Hai'] & Hcond).
  { intros [ao ai] [Hs1 Hs2] Hc. cbn [fst snd] in *. apply Z.ltb_lt in Hc.
    split; [split; [lia|nia]|lia]. }
  { cbn. lia. }
  { lia. }
  cbn [fst snd] in *. apply Z.ltb_ge in Hcond.
  assert (ai = i) by nia. subst ai. subst ao.
  cbn [mbind result_bind]. rewrite Hoff, Z.eqb_refl. cbn [orb andb negb].
  fold (signature_of self X s2l). rewrite sig_blocks_len.
  destruct (Z.ltb_spec i (block_count (len X) (block_size self))); [|lia].
  assert (Hidx : (if negb (mi =? i) then
       aligned_blk ← getitem (ChecksumSignature.blocks (signature_of self X s2l)) i;
       if (w =? BlockChecksum.weak_checksum aligned_blk)
          && (k st =? BlockChecksum.length aligned_blk)
          && prefix_eq (ChecksumSignature.s2length (signature_of self X s2l))
               strong aligned_blk
       then Ok i else Ok mi
     else Ok mi) = Ok i).
  { destruct (Z.eqb_spec mi i) as [->|Hne]; [reflexivity|]. cbn [negb].
    destruct (getitem_valid (ChecksumSignature.blocks (signature_of self X s2l)) i)
      as (blk & Hblk & ->); [rewrite sig_blocks_len; lia|].
    rewrite sig_blocks_lookup in Hblk by lia. inversion Hblk. subst blk.
    cbn [mbind result_bind]. rewrite Hp, <- Hweak, Z.eqb_refl.
    cbn [sig_block BlockChecksum.length]. rewrite Hk, Z.eqb_refl. reflexivity. }
  rewrite Hidx. cbn [mbind result_bind]. rewrite Z.eqb_refl.
  cbn [negb andb mbind result_bind]. reflexivity.
Qed.

(** At the start of block [i] the search reports block [i], at the offset
    of the window. *)
Lemma find_match_self (st : mstate) (i : Z) :
  0 <= i < block_count (len X) (block_size self) ->
  self_inv self X i st ->
  exists hits alarms f,
    find_match cfg self (signature_of self X s2l)
      (HashTable.init cfg (ChecksumSignature.blocks (signature_of self X s2l))) X st
    = Ok (hits, alarms, Some f)
    /\ f_matched_index f = i /\ f_offset f = offset st
    /\ 0 <= f_aligned_i f <= i + 1
    /\ f_aligned_offset f = f_aligned_i f * block_size self.
Proof.
  intros Hi (Hoff & Hlit & Hk & Hs1 & Hs2 & Hwant & Hins & Hai & Hao).
  pose proof (len_nonneg X) as Hn.
  pose proof (proj1 (block_count_bounds (len X) (block_size self) i
                       ltac:(lia) ltac:(lia)) Hi) as [_ Hin].
  assert (Hk1 : 1 <= k st) by (rewrite Hk; unfold window_length; lia).
  assert (Hfit : offset st + k st <= len X)
    by (rewrite Hk, Hoff; unfold window_length; lia).
  unfold find_match. cbv zeta. rewrite Hs1, Hs2, combine_sums.
  rewrite lookup_indices_spec. cbn [mbind result_bind].
  set (w := weak (window X (offset st) (k st))).
  set (blocks := ChecksumSignature.blocks (signature_of self X s2l)).
  assert (Hblk : blocks !! Z.to_nat i = Some (sig_block self X s2l i))
    by (apply sig_blocks_lookup; exact Hi).
  assert (Hweak : w = BlockChecksum.weak_checksum (sig_block self X s2l i)).
  { unfold w. cbn [sig_block BlockChecksum.weak_checksum]. rewrite Hoff, Hk. reflexivity. }
  assert (Hcand : i ∈ candidates blocks w (k st)).
  { apply elem_of_candidates. split; [unfold blocks; rewrite sig_blocks_len; lia|].
    exists (sig_block self X s2l i). split; [exact Hblk|].
    split; [symmetry; exact Hweak|]. cbn. rewrite Hk. reflexivity. }
  destruct (candidates blocks w (k st)) as [|c0 cands0] eqn:Ecands.
  { inversion Hcand. }
  rewrite <- Ecands in *. clear c0 cands0 Ecands.
  rewrite py_slice_bytes_window by lia.
  set (strong := strong_checksum self (window X (offset st) (k st))).
  assert (Hp : prefix_eq (ChecksumSignature.s2length (signature_of self X s2l))
                 strong (sig_block self X s2l i) = true).
  { unfold strong. rewrite Hoff, Hk. apply sig_block_prefix. exact Hi. }
  assert (Hcands : exists cands,
    (if UPDATING_BASIS_FILE cfg
     then bypass_filter blocks (offset st) (same_offset st)
            (candidates blocks w (k st))
     else Ok (candidates blocks w (k st))) = Ok cands
    /\ (forall j, j ∈ cands -> j ∈ candidates blocks w (k st))
    /\ i ∈ cands).
  { destruct (UPDATING_BASIS_FILE cfg).
    - rewrite bypass_filter_spec.
      + eexists. split; [reflexivity|]. split.
        * intros j Hj. apply elem_of_filter_bool in Hj. tauto.
        * apply elem_of_filter_bool. split; [exact Hcand|]. rewrite Hblk.
          cbn [sig_block BlockChecksum.offset].
          destruct (Z.geb_spec (i * block_size self) (offset st)); [reflexivity|lia].
      + intros j Hj. apply elem_of_candidates in Hj. tauto.
    - eauto. }
  destruct Hcands as (cands & -> & Hsub & Hic). cbn [mbind result_bind].
  destruct (scan_candidates_spec blocks
              (ChecksumSignature.s2length (signature_of self X s2l)) strong cands
              (local_false_alarms st))
    as (r & alarms' & -> & Hr).
  { intros j Hj. apply Hsub, elem_of_candidates in Hj. tauto. }
  cbn [mbind result_bind].
  destruct r as [mi|]; [|rewrite (Hr i _ Hic Hblk) in Hp; discriminate].
  destruct (UPDATING_BASIS_FILE cfg) eqn:Eupd.
  - rewrite (aligned_phase_self w strong st mi i) by assumption.
    cbn [mbind result_bind].
    rewrite (want_phase_self w strong _ i); try assumption; try reflexivity;
      [|right; reflexivity].
    cbn [mbind result_bind]. eexists _, _, _. split; [reflexivity|]. cbn.
    repeat split; lia.
  - cbn [mbind result_bind].
    rewrite (want_phase_self w strong _ i); try assumption; try reflexivity;
      [|left; exact Eupd].
    cbn [mbind result_bind]. eexists _, _, _. split; [reflexivity|]. cbn.
    repeat split; lia.
Qed.

(** The match on block [i] takes the matcher to the start of block [i + 1],
    or out of the loop after the last block. *)
Lemma on_match_self (st : mstate) (hits alarms : Z) (f : found) (i : Z) :
  0 <= i < block_count (len X) (block_size self) ->
  self_inv self X i st ->
  f_matched_index f = i -> f_offset f = offset st ->
  0 <= f_aligned_i f <= i + 1 ->
  f_aligned_offset f = f_aligned_i f * block_size self ->
  exists b st',
    on_match (signature_of self X s2l) X st hits alarms f = Ok (b, st')
    /\ instructions st'
       = block_matches (len X) (block_size self) (Z.to_nat (i + 1))
    /\ (if i + 1 <? block_count (len X) (block_size self)
        then b = true /\ self_inv self X (i + 1) st'
        else b = false /\ lit_start st' = len X).
Proof.
  intros Hi (Hoff & Hlit & Hk & Hs1 & Hs2 & Hwant & Hins & Hai & Hao)
         Hfm Hfo Hfa Hfao.
  pose proof (len_nonneg X) as Hn.
  pose proof (proj1 (block_count_bounds (len X) (block_size self) i
                       ltac:(lia) ltac:(lia)) Hi) as [_ Hin].
  pose proof (block_count_bounds (len X) (block_size self) (i + 1)
                ltac:(lia) ltac:(lia)) as Hnext.
  unfold on_match. cbv zeta. cbn [signature_of ChecksumSignature.block_size].
  rewrite Hfo, Hfm, Hlit, Hoff.
  destruct (Z.gtb_spec (i * block_size self) (i * block_size self)); [lia|].
  rewrite Hins, Hk, <- block_matches_snoc by lia.
  destruct (Z.ltb_spec (i + 1) (block_count (len X) (block_size self))) as [Hlt|Hge].
  - assert (Hin1 : (i + 1) * block_size self < len X) by (apply Hnext; lia).
    assert (Hkbs : window_length (len X) (block_size self) (i * block_size self)
                   = block_size self) by (unfold window_length; lia).
    rewrite Hkbs.
    replace (i * block_size self + block_size self)
      with ((i + 1) * block_size self) by lia.
    destruct (Z.geb_spec ((i + 1) * block_size self) (len X)); [lia|].
    fold (window_length (len X) (block_size self) ((i + 1) * block_size self)).
    assert (Hk' : 1 <= window_length (len X) (block_size self)
                         ((i + 1) * block_size self))
      by (unfold window_length; lia).
    destruct (Z.leb_spec (window_length (len X) (block_size self)
                            ((i + 1) * block_size self)) 0); [lia|].
    rewrite rolling_checksum_optimized_window
      by (unfold window_length in *; lia).
    cbn [mbind result_bind]. rewrite components_weak.
    eexists _, _. split; [reflexivity|]. split; [reflexivity|].
    split; [reflexivity|]. unfold self_inv. cbn.
    repeat split; try reflexivity; try lia.
  - assert (Hend : i * block_size self
                   + window_length (len X) (block_size self) (i * block_size self)
                   = len X).
    { assert (~ (i + 1) * block_size self < len X)
        by (intros H'; assert (0 <= i + 1 < block_count (len X) (block_size self))
              by (apply Hnext; lia); lia).
      unfold window_length. lia. }
    rewrite Hend. destruct (Z.geb_spec (len X) (len X)); [|lia].
    eexists _, _. split; [reflexivity|]. split; [reflexivity|].
    split; reflexivity.
Qed.

Lemma self_loop (fuel : nat) (st : mstate) (i : Z) :
  0 < len X ->
  0 <= i < block_count (len X) (block_size self) ->
  self_inv self X i st ->
  block_count (len X) (block_size self) - i <= Z.of_nat fuel ->
  exists st',
    match_loop fuel cfg self (signature_of self X s2l)
      (HashTable.init cfg (ChecksumSignature.blocks (signature_of self X s2l))) X
      (end_bound (signature_of self X s2l) (len X)) st = Ok st'
    /\ instructions st'
       = block_matches (len X) (block_size self)
           (Z.to_nat (block_count (len X) (block_size self)))
    /\ lit_start st' = len X.
Proof.
  intros Hn. revert st i. induction fuel as [|fuel IH]; intros st i Hi Hinv Hfuel;
    [lia|].
  pose proof (proj1 (block_count_bounds (len X) (block_size self) i
                       ltac:(lia) ltac:(lia)) Hi) as [_ Hin].
  cbn [match_loop].
  assert (Hcond : loop_cond (end_bound (signature_of self X s2l) (len X)) st = true).
  { destruct Hinv as (Hoff & _ & Hk & _). unfold loop_cond.
    rewrite end_bound_self by exact Hn. rewrite Hoff, Hk.
    apply andb_true_iff. split; [apply Z.ltb_lt; nia|].
    apply Z.gtb_lt. unfold window_length. lia. }
  rewrite Hcond. unfold loop_body.
  destruct (find_match_self st i Hi Hinv)
    as (hits & alarms & f & -> & Hfm & Hfo & Hfa & Hfao).
  cbn [mbind result_bind].
  destruct (on_match_self st hits alarms f i Hi Hinv Hfm Hfo Hfa Hfao)
    as (b & st' & -> & Hins & Hnext).
  cbn [mbind result_bind].
  destruct (Z.ltb_spec (i + 1) (block_count (len X) (block_size self))).
  - destruct Hnext as [-> Hinv']. apply (IH st' (i + 1)); [lia|exact Hinv'|lia].
  - destruct Hnext as [-> Hlit]. exists st'. split; [reflexivity|].
    split; [|exact Hlit]. rewrite Hins. f_equal. lia.
Qed.

(** Against its own signature the matcher emits exactly one MATCH per
    block, in order. *)
Lemma match_instructions_self :
  exists st,
    match_instructions cfg self (signature_of self X s2l) X = Ok st
    /\ instructions st
       = block_matches (len X) (block_size self)
           (Z.to_nat (block_count (len X) (block_size self))).
Proof.
  pose proof (len_nonneg X) as Hn. unfold match_instructions. cbv zeta.
  cbn [signature_of ChecksumSignature.block_size].
  fold (signature_of self X s2l).
  set (k0 := Z.min (block_size self) (len X)).
  destruct (Z.eq_dec (len X) 0) as [Hz|Hnz].
  - (* the empty file *)
    assert (Hk0 : k0 = 0) by (unfold k0; lia).
    assert (HN : block_count (len X) (block_size self) = 0).
    { unfold block_count. rewrite Hz. apply Z.div_small. lia. }
    rewrite Hk0. cbn [Z.gtb Z.compare mbind result_bind fst snd].
    assert (Hend : end_bound (signature_of self X s2l) (len X) = 0).
    { unfold end_bound. cbn [signature_of ChecksumSignature.blocks].
      rewrite HN. reflexivity. }
    rewrite Hend, HN. cbn [Z.to_nat match_loop loop_cond offset Z.ltb Z.compare andb
                       mbind result_bind lit_start instructions].
    rewrite Hz. cbn [Z.ltb Z.compare]. eexists. split; [reflexivity|].
    reflexivity.
  - assert (Hpos : 0 < len X) by lia.
    destruct (Z.gtb_spec k0 0); [|unfold k0 in *; lia].
    rewrite rolling_checksum_optimized_window by (unfold k0; lia).
    cbn [mbind result_bind]. rewrite components_weak. cbn [fst snd].
    assert (H0 : 0 <= 0 < block_count (len X) (block_size self))
      by (apply block_count_bounds; lia).
    destruct (self_loop (Z.to_nat (end_bound (signature_of self X s2l) (len X)))
                (mkst 0 k0 (sum_bytes (window X 0 k0) mod 65536)
                      (weighted_sum (window X 0 k0) mod 65536) 0 0 0 0 0 ∅ [] 0 0 0)
                0 Hpos H0)
      as (st & -> & Hins & Hlit).
    { unfold self_inv. cbn. unfold window_length.
      rewrite Z.sub_0_r. fold k0. repeat split; try reflexivity; lia. }
    { rewrite end_bound_self by exact Hpos. nia. }
    cbn [mbind result_bind]. eexists. split; [reflexivity|]. cbn [instructions].
    rewrite Hlit. destruct (Z.ltb_spec (len X) (len X)); [lia|]. exact Hins.
Qed.

End SelfDelta.

Section SelfRatio.

Import ChecksumEngine.

Lemma sum_Z_app (l1 l2 : list Z) : sum_Z (l1 ++ l2) = sum_Z l1 + sum_Z l2.
Proof.
  unfold sum_Z. induction l1 as [|x l1 IH]; cbn [app fold_right]; lia.
Qed.

Lemma matched_bytes_block_matches (n bs : Z) (i : nat) :
  0 < bs -> 0 <= n -> (Z.of_nat i - 1) * bs < n ->
  matched_bytes_of (block_matches n bs i) = Z.min (Z.of_nat i * bs) n.
Proof.
  intros Hbs Hn. induction i as [|i IH]; intros Hi.
  - cbn. lia.
  - unfold block_matches in *. rewrite seq_S, map_app. cbn [map Nat.add].
    unfold matched_bytes_of in *. rewrite omap_app, sum_Z_app, IH by nia.
    change (sum_Z (omap _ [match_ (Z.of_nat i) (Z.of_nat i * bs)
                             (window_length n bs (Z.of_nat i * bs))]))
      with (window_length n bs (Z.of_nat i * bs) + 0).
    unfold window_length. rewrite Nat2Z.inj_succ in *. nia.
Qed.

Lemma literal_bytes_block_matches (n bs : Z) (i : nat) :
  literal_bytes_of (block_matches n bs i) = 0.
Proof.
  unfold block_matches, literal_bytes_of. induction (seq 0 i) as [|j l IH];
    [reflexivity|exact IH].
Qed.

Lemma block_matches_enumerate (self : t) (X : bytes) (s2l : Z) :
  0 < block_size self ->
  block_matches (len X) (block_size self)
    (Z.to_nat (block_count (len X) (block_size self)))
  = map (fun ib : Z * BlockChecksum =>
           match_ ib.1 (BlockChecksum.offset ib.2) (BlockChecksum.length ib.2))
        (enumerate (ChecksumSignature.blocks (signature_of self X s2l))).
Proof.
  intros Hbs. apply list_eq. intros j. unfold block_matches.
  rewrite !list_lookup_fmap, enumerate_lookup.
  cbn [signature_of ChecksumSignature.blocks]. rewrite list_lookup_fmap.
  destruct (seq 0 (Z.to_nat (block_count (len X) (block_size self))) !! j)
    as [j'|] eqn:Ej; [|reflexivity].
  apply lookup_seq in Ej. destruct Ej as [-> _]. reflexivity.
Qed.

End SelfRatio.

(** *** Claim C9 *)

(** C9, as stated, fails for the empty file: the signature has no block, the
    delta has no instruction, and [compression_ratio] is 0.0 (the guard
    [total_bytes > 0] of [generate_delta]). *)
Lemma self_delta_empty_counterexample :
  ChecksumEngine.init example_lib default_config 16 NONE None 0 = Ok example_engine
  /\ exists S D,
       ChecksumEngine.generate_signature example_engine []
         (CSUM_LENGTH default_config) = Ok S
       /\ ChecksumEngine.generate_delta example_lib default_config example_engine S []
          = Ok D
       /\ DeltaInstructions.instructions D = []
       /\ DeltaInstructions.compression_ratio D = 0%Q
       /\ ~ (DeltaInstructions.compression_ratio D == 1)%Q.
Proof.
  split; [reflexivity|]. eexists _, _.
  split; [vm_compute; reflexivity|]. split; [vm_compute; reflexivity|].
  split; [reflexivity|]. split; [reflexivity|]. vm_compute. discriminate.
Qed.

(** C9, amended: for an engine built by [ChecksumEngine(...)] with a seed
    that fits 32 bits and every byte string [X] within the in-memory limit,
    in either matching mode, [generate_delta(generate_signature(X), X)]
    returns a delta whose instructions are exactly one MATCH per block of the
    signature, in block order, at the block's offset and of the block's
    length (so no LITERAL at all); its [compression_ratio] is 1 when [X] is
    not empty and 0 when [X] is empty. *)
Theorem self_delta_all_matches (lib : HashLib) (cfg : Config) (bs : Z)
        (ct : ChecksumType) (pm : option Z) (seed : Z)
        (self : ChecksumEngine.t) (csum_length : Z) (X : bytes) :
  ChecksumEngine.init lib cfg bs ct pm seed = Ok self ->
  0 <= seed < 2 ^ 32 ->
  len X <= MAX_FILE_SIZE_IN_MEMORY ->
  exists S D,
    ChecksumEngine.generate_signature self X csum_length = Ok S
    /\ ChecksumEngine.generate_delta lib cfg self S X = Ok D
    /\ DeltaInstructions.instructions D
       = map (fun ib : Z * BlockChecksum =>
                ChecksumEngine.match_ ib.1 (BlockChecksum.offset ib.2)
                                      (BlockChecksum.length ib.2))
             (enumerate (ChecksumSignature.blocks S))
    /\ literal_bytes_of (DeltaInstructions.instructions D) = 0
    /\ (0 < len X -> (DeltaInstructions.compression_ratio D == 1)%Q)
    /\ (len X = 0 -> DeltaInstructions.compression_ratio D = 0%Q).
Proof.
  intros Hinit Hseed HX. pose proof (len_nonneg X) as Hn.
  destruct (init_inv _ _ _ _ _ _ _ Hinit) as (Hbs & _ & _ & _ & Hs).
  destruct (generate_signature_ok self X csum_length) as (s2l & Hs2l & Hsig);
    [lia|exact HX|].
  set (S := signature_of self X s2l) in *.
  assert (HseedS : ChecksumSignature.checksum_seed S = seed) by exact Hs.
  destruct (match_instructions_self cfg self X s2l ltac:(lia) Hs2l)
    as (st & Hst & Hins).
  destruct (generate_delta_cases lib cfg self S X)
    as (st' & Hst' & _ & _ & Hres).
  fold S in Hst. rewrite Hst in Hst'. inversion Hst'. subst st'. clear Hst'.
  exists S.
  destruct (ChecksumEngine.generate_delta lib cfg self S X) as [D|e] eqn:ED.
  2:{ exfalso. destruct Hres as [[_ H]|(_ & _ & _ & H)]; lia. }
  exists D. split; [exact Hsig|]. split; [reflexivity|].
  destruct Hres as (_ & HinsD & _ & Hratio).
  set (N := block_count (len X) (ChecksumEngine.block_size self)) in *.
  assert (HN : (Z.of_nat (Z.to_nat N) - 1) * ChecksumEngine.block_size self < len X
               /\ len X <= Z.of_nat (Z.to_nat N) * ChecksumEngine.block_size self).
  { unfold N, block_count.
    pose proof (Z.div_mod (len X + ChecksumEngine.block_size self - 1)
                  (ChecksumEngine.block_size self) ltac:(lia)).
    pose proof (Z.mod_pos_bound (len X + ChecksumEngine.block_size self - 1)
                  (ChecksumEngine.block_size self) ltac:(lia)).
    assert (0 <= (len X + ChecksumEngine.block_size self - 1)
                 / ChecksumEngine.block_size self) by (apply Z.div_pos; lia).
    rewrite Z2Nat.id by lia. nia. }
  assert (Hm : matched_bytes_of (ChecksumEngine.instructions st) = len X).
  { rewrite Hins, matched_bytes_block_matches by lia. lia. }
  assert (Hl : literal_bytes_of (ChecksumEngine.instructions st) = 0).
  { rewrite Hins. apply literal_bytes_block_matches. }
  rewrite Hratio, HinsD, Hm, Hl. cbv zeta. rewrite Z.add_0_r.
  split; [rewrite Hins; apply block_matches_enumerate; lia|].
  split; [reflexivity|]. split.
  - intros Hpos. destruct (Z.gtb_spec (len X) 0); [|lia].
    unfold Qeq. cbn [Qnum Qden]. rewrite Z2Pos.id by lia. lia.
  - intros Hz. rewrite Hz. reflexivity.
Qed.

Lemma self_delta_all_matches_witness :
  exists S D,
    ChecksumEngine.generate_signature example_engine (map Z.of_nat (seq 0 40))
      (CSUM_LENGTH default_config) = Ok S
    /\ ChecksumEngine.generate_delta example_lib default_config example_engine S
         (map Z.of_nat (seq 0 40)) = Ok D
    /\ DeltaInstructions.instructions D
       = map (fun ib : Z * BlockChecksum =>
                ChecksumEngine.match_ ib.1 (BlockChecksum.offset ib.2)
                                      (BlockChecksum.length ib.2))
             (enumerate (ChecksumSignature.blocks S))
    /\ literal_bytes_of (DeltaInstructions.instructions D) = 0
    /\ (0 < len (map Z.of_nat (seq 0 40)) ->
        (DeltaInstructions.compression_ratio D == 1)%Q)
    /\ (len (map Z.of_nat (seq 0 40)) = 0 ->
        DeltaInstructions.compression_ratio D = 0%Q).
Proof.
  apply (self_delta_all_matches example_lib default_config 16 NONE None 0
           example_engine (CSUM_LENGTH default_config) (map Z.of_nat (seq 0 40))).
  - reflexivity.
  - lia.
  - vm_compute. congruence.
Defined.


(** ** The token stream of a delta *)

Section TokenStream.

Import ProtocolIO.

Variables (basis : bytes) (sh : SumHead.t).

Lemma write_int_ok (v : Z) :
  - 2 ^ 31 <= v < 2 ^ 31 -> write_int v = Ok (le_bytes 4 v).
Proof.
  intros Hv. unfold write_int, pack_i32.
  replace ((- 2 ^ 31 <=? v) && (v <? 2 ^ 31)) with true
    by (symmetry; apply andb_true_iff; lia).
  reflexivity.
Qed.

Lemma read_int_le_bytes (v : Z) (rest : bytes) :
  - 2 ^ 31 <= v < 2 ^ 31 -> read_int (le_bytes 4 v ++ rest) = Ok (v, rest).
Proof.
  intros Hv. destruct (read_int_write_int v rest Hv) as (w & Hw & _ & Hr).
  rewrite write_int_ok in Hw by exact Hv. inversion Hw. subst w. exact Hr.
Qed.

Lemma reads_trans (inp acc inp1 acc1 inp2 acc2 : bytes) :
  reads basis sh inp acc inp1 acc1 -> reads basis sh inp1 acc1 inp2 acc2 ->
  reads basis sh inp acc inp2 acc2.
Proof.
  induction 1; intros Hnext; [exact Hnext| |].
  - eapply reads_literal; eauto.
  - eapply reads_match; eauto.
Qed.

(** A run of tokens followed by the token 0 is what [receive_data]
    accepts. *)
Lemma reads_receive_data (inp inp1 out rest : bytes) :
  reads basis sh inp [] inp1 out -> read_int inp1 = Ok (0, rest) ->
  exists stats, receive_data basis sh inp = Ok ((out, stats), rest).
Proof.
  intros Hr Hz. unfold receive_data.
  destruct (reads_receive_loop basis sh _ _ _ _ Hr (S (length inp)) 0 0
              ltac:(lia)) as (fuel' & l' & m' & Hf & E).
  rewrite E. destruct fuel' as [|fuel']; [lia|].
  cbn [receive_loop]. unfold _recv_token_simple. rewrite Hz.
  cbn. eexists. reflexivity.
Qed.

(** The chunks of a literal run are read back as that run. *)
Lemma send_chunks_reads (data : bytes) (fuel : nat) :
  forall sent,
    0 <= sent <= len data -> len data - sent <= Z.of_nat fuel ->
    exists enc,
      send_chunks fuel data 0 (len data) sent = Ok enc
      /\ forall acc rest,
           reads basis sh (enc ++ rest) acc rest
                 (acc ++ drop (Z.to_nat sent) data).
Proof.
  induction fuel as [|fuel IH]; intros sent Hs Hf.
  - assert (sent = len data) by lia. subst sent. cbn [send_chunks].
    rewrite Z.ltb_irrefl. exists []. split; [reflexivity|]. intros acc rest.
    rewrite drop_ge by (unfold len; lia). rewrite app_nil_r. constructor.
  - cbn [send_chunks]. destruct (Z.ltb_spec sent (len data)) as [Hlt|Hge].
    + set (chunk_len := Z.min CHUNK_SIZE (len data - sent)).
      assert (Hc : 1 <= chunk_len <= 32768)
        by (unfold chunk_len, CHUNK_SIZE; lia).
      rewrite write_int_ok by lia. cbn [mbind result_bind].
      destruct (IH (sent + chunk_len)) as (enc' & -> & Hreads);
        [unfold chunk_len; lia|lia|].
      cbn [mbind result_bind]. eexists. split; [reflexivity|].
      intros acc rest. cbn [Z.add].
      assert (Hbody : py_slice data (0 + sent) (0 + sent + chunk_len)
                      = window data sent chunk_len).
      { rewrite Z.add_0_l. apply py_slice_bytes_window; unfold chunk_len; lia. }
      rewrite Hbody.
      assert (Hlen : len (window data sent chunk_len) = chunk_len)
        by (apply len_window; unfold chunk_len; lia).
      rewrite <- !app_assoc.
      eapply reads_literal.
      * apply read_int_le_bytes. lia.
      * lia.
      * apply read_bytes_app'; [symmetry; exact Hlen|unfold IOBUFFER_SIZE; lia].
      * specialize (Hreads (acc ++ window data sent chunk_len) rest).
        rewrite <- app_assoc in Hreads.
        rewrite (window_drop data sent chunk_len) in Hreads by lia.
        exact Hreads.
    + assert (sent = len data) by lia. subst sent.
      exists []. split; [reflexivity|]. intros acc rest.
      rewrite drop_ge by (unfold len; lia). rewrite app_nil_r. constructor.
Qed.

(** One call of [send_token]: the pending literal bytes, then the token. *)
Lemma send_token_reads (token : Z) (pending : bytes) :
  token <> -2 -> - 2 ^ 31 <= - (token + 1) < 2 ^ 31 ->
  exists enc,
    match pending with
    | [] => _send_token_simple token None 0 0
    | _ => _send_token_simple token (Some pending) 0 (len pending)
    end = Ok (enc ++ le_bytes 4 (- (token + 1)))
    /\ forall acc rest,
         reads basis sh (enc ++ rest) acc rest (acc ++ pending).
Proof.
  intros Hne Hrange.
  assert (Htok : (if negb (token =? -2) then write_int (- (token + 1)) else Ok [])
                 = Ok (le_bytes 4 (- (token + 1)))).
  { destruct (Z.eqb_spec token (-2)); [contradiction|]. apply write_int_ok. exact Hrange. }
  destruct pending as [|x pending'] eqn:Ep.
  - exists []. unfold _send_token_simple. rewrite Htok. split; [reflexivity|].
    intros acc rest. rewrite app_nil_r. constructor.
  - rewrite <- Ep. unfold _send_token_simple. rewrite Htok.
    assert (Hlen : 0 < len pending)
      by (subst pending; rewrite len_cons; pose proof (len_nonneg pending'); lia).
    destruct (Z.gtb_spec (len pending) 0); [|lia].
    destruct (send_chunks_reads pending (Z.to_nat (len pending)) 0)
      as (enc & -> & Hreads); [lia|lia|].
    exists enc. split; [reflexivity|]. intros acc rest. apply Hreads.
Qed.

(** The token stream of an instruction list is read back, up to the final
    token 0, as the bytes [apply_delta] assembles. *)
Lemma send_tokens_reads (bs : Z) (ins : list instruction) :
  SumHead.count sh < 2 ^ 31 ->
  Forall (wire_ready basis sh bs) ins ->
  forall pending,
    exists toks,
      send_tokens pending ins = Ok (toks ++ le_bytes 4 0)
      /\ forall acc rest,
           reads basis sh (toks ++ rest) acc rest
                 (acc ++ pending
                      ++ concat (map (ChecksumEngine.apply_instruction basis bs) ins)).
Proof.
  intros Hcount. induction ins as [|ci ins IH]; intros Hready pending.
  - cbn [send_tokens map concat].
    destruct (send_token_reads (-1) pending) as (enc & Henc & Hreads);
      [lia|lia|].
    exists enc. split; [exact Henc|]. intros acc rest.
    rewrite app_nil_r. apply Hreads.
  - inversion Hready as [|? ? Hci Hrest]. subst.
    destruct ci as [cmd [m|l]]; cbn [wire_ready] in Hci.
    + destruct Hci as (-> & Hbi & Hoff & Hlen & Hfit).
      cbn [send_tokens]. rewrite bool_decide_eq_true_2 by reflexivity.
      destruct (send_token_reads (DeltaMatch.block_index m) pending)
        as (enc & -> & Hreads); [lia|lia|].
      cbn [mbind result_bind].
      destruct (IH Hrest []) as (toks & -> & Hrest_reads).
      cbn [mbind result_bind]. exists ((enc ++ le_bytes 4 (- (DeltaMatch.block_index m + 1))) ++ toks).
      split; [rewrite <- !app_assoc; reflexivity|].
      intros acc rest. rewrite <- !app_assoc.
      eapply reads_trans; [apply Hreads|].
      assert (Hbn : block_num_of (- (DeltaMatch.block_index m + 1))
                    = DeltaMatch.block_index m) by (unfold block_num_of; lia).
      eapply reads_match.
      * apply read_int_le_bytes. lia.
      * lia.
      * unfold token_accepted. rewrite Hbn, Hoff, Hlen. lia.
      * rewrite Hbn, Hoff, Hlen.
        specialize (Hrest_reads
          ((acc ++ pending)
             ++ py_slice basis (DeltaMatch.block_index m * bs)
                  (DeltaMatch.block_index m * bs + DeltaMatch.length m)) rest).
        cbn [app] in Hrest_reads. cbn [map concat].
        unfold ChecksumEngine.apply_instruction at 1.
        rewrite bool_decide_eq_true_2 by reflexivity. cbv zeta.
        rewrite <- !app_assoc in Hrest_reads. rewrite <- !app_assoc.
        exact Hrest_reads.
    + subst cmd. cbn [send_tokens]. rewrite bool_decide_eq_true_2 by reflexivity.
      destruct (IH Hrest (pending ++ DeltaLiteral.data l)) as (toks & -> & Hreads).
      exists toks. split; [reflexivity|]. intros acc rest.
      cbn [map concat]. unfold ChecksumEngine.apply_instruction at 1.
      rewrite bool_decide_eq_true_2 by reflexivity.
      specialize (Hreads acc rest). rewrite <- !app_assoc in Hreads.
      exact Hreads.
Qed.

End TokenStream.

Section WireSignature.

Import ChecksumEngine ProtocolIO.

Variables (cfg : Config) (self : ChecksumEngine.t) (B : bytes) (s2l : Z).
Hypothesis Hbs : 1 <= block_size self.

Lemma block_count_le : block_count (len B) (block_size self) <= len B.
Proof.
  pose proof (len_nonneg B). unfold block_count.
  pose proof (Z.div_mod (len B + block_size self - 1) (block_size self) ltac:(lia)).
  pose proof (Z.mod_pos_bound (len B + block_size self - 1) (block_size self)
                ltac:(lia)).
  nia.
Qed.

(** The sum header built from the signature of [B] gives every block the
    offset and length it has in the signature. *)
Lemma sum_head_block (bi : Z) :
  0 <= bi < block_count (len B) (block_size self) ->
  let sh := _sum_head_from_signature (signature_of self B s2l) in
  SumHead.count sh = block_count (len B) (block_size self)
  /\ block_offset sh bi = bi * block_size self
  /\ block_length sh bi
     = window_length (len B) (block_size self) (bi * block_size self)
  /\ bi * block_size self
     + window_length (len B) (block_size self) (bi * block_size self) <= len B.
Proof.
  intros Hbi sh. pose proof (len_nonneg B) as Hn.
  set (N := block_count (len B) (block_size self)) in *.
  assert (Hfacts : (N - 1) * block_size self < len B
                   /\ len B <= N * block_size self).
  { unfold N, block_count.
    pose proof (Z.div_mod (len B + block_size self - 1) (block_size self)
                  ltac:(lia)).
    pose proof (Z.mod_pos_bound (len B + block_size self - 1) (block_size self)
                  ltac:(lia)).
    nia. }
  destruct Hfacts as (Hlast & Hcover).
  assert (Hrem : SumHead.remainder sh
                 = (if len B - (N - 1) * block_size self =? block_size self
                    then 0 else len B - (N - 1) * block_size self)).
  { unfold sh, _sum_head_from_signature.
    cbn [signature_of ChecksumSignature.num_blocks ChecksumSignature.blocks
         ChecksumSignature.block_size SumHead.remainder]. fold N.
    destruct (Z.gtb_spec N 0); [|lia].
    replace (Z.to_nat N) with (Datatypes.S (Z.to_nat (N - 1))) by lia.
    rewrite seq_S, map_app. cbn [map Nat.add]. rewrite last_snoc.
    cbn [sig_block BlockChecksum.length]. rewrite Z2Nat.id by lia.
    unfold window_length. rewrite Z.min_r by lia. reflexivity. }
  split; [reflexivity|]. split; [reflexivity|].
  unfold block_length. rewrite Hrem.
  change (SumHead.count sh) with N. change (SumHead.blength sh) with (block_size self).
  unfold window_length.
  destruct (Z.eqb_spec (len B - (N - 1) * block_size self) (block_size self));
    case_bool_decide; split; try lia; nia.
Qed.

Lemma sig_wire_ready (X : bytes) (ins : list instruction) :
  Forall (sound_instr cfg self (signature_of self B s2l) X) ins ->
  lengths_agree (signature_of self B s2l) ins = true ->
  Forall (wire_ready B (_sum_head_from_signature (signature_of self B s2l))
                     (block_size self)) ins.
Proof.
  intros Hsound Hagree. unfold lengths_agree in Hagree.
  rewrite forallb_forall in Hagree. rewrite Forall_forall in *.
  intros ci Hci. specialize (Hsound ci Hci).
  specialize (Hagree ci (proj1 (list_elem_of_In _ _) Hci)).
  destruct ci as [cmd [m|l]]; cbn [sound_instr wire_ready] in *.
  - destruct Hsound as (-> & Hbi & _).
    rewrite sig_blocks_len in Hbi by lia.
    rewrite sig_blocks_lookup in Hagree by lia.
    cbn [sig_block BlockChecksum.length] in Hagree. apply Z.eqb_eq in Hagree.
    destruct (sum_head_block (DeltaMatch.block_index m) Hbi)
      as (Hc & Ho & Hl & Hfit).
    rewrite Hc, Ho, Hl, Hagree. repeat split; try lia.
  - tauto.
Qed.

End WireSignature.

(** *** Claim C4 *)

(** C4, as stated, fails: the want_i preference of the matcher does not
    compare lengths, so a MATCH can name a block whose length differs from
    the window's.  Basis [0^15 7 7] (blocks of 16 and 1 bytes with the same
    weak checksum), new file [7]: the delta is MATCH(block 0, length 1);
    [apply_delta] copies one byte, [receive_data] copies the whole block. *)
Lemma wire_apply_length_counterexample :
  ChecksumEngine.init example_lib default_config 16 NONE None 0 = Ok example_engine
  /\ exists S D wire rest stats,
       ChecksumEngine.generate_signature example_engine (replicate 15 0 ++ [7; 7])
         (CSUM_LENGTH default_config) = Ok S
       /\ ChecksumEngine.generate_delta example_lib default_config example_engine S [7]
          = Ok D
       /\ send_delta_over_wire S D PROTOCOL_VERSION = Ok wire
       /\ ProtocolIO.read_sum_head default_config PROTOCOL_VERSION wire
          = Ok (_sum_head_from_signature S, rest)
       /\ receive_data (replicate 15 0 ++ [7; 7]) (_sum_head_from_signature S) rest
          = Ok ((replicate 15 0 ++ [7], stats), [0])
       /\ ChecksumEngine.apply_delta (replicate 15 0 ++ [7; 7]) D = Ok [0].
Proof.
  split; [reflexivity|]. eexists _, _, _, _, _.
  split; [vm_compute; reflexivity|]. split; [vm_compute; reflexivity|].
  split; [vm_compute; reflexivity|]. split; [vm_compute; reflexivity|].
  split; vm_compute; reflexivity.
Qed.

(** C4, amended: for a delta [D] the matcher produces from the signature of
    the basis [B] in which every MATCH has the length of the block it names,
    the simple token stream of [send_delta_over_wire] (literal runs in chunks
    of at most 32 KiB, [-(block_index + 1)] for a match, a final 0) is
    decoded by [receive_data], with the sum header of the signature, into
    exactly the bytes [apply_delta(B, D)] returns, leaving what follows the
    stream unread. *)
Theorem wire_apply_equivalent (lib : HashLib) (cfg : Config) (bs : Z)
        (ct : ChecksumType) (pm : option Z) (seed : Z)
        (self : ChecksumEngine.t) (csum_length : Z) (B X : bytes)
        (S : ChecksumSignature) (D : DeltaInstructions) :
  ChecksumEngine.init lib cfg bs ct pm seed = Ok self ->
  len B <= MAX_FILE_SIZE_IN_MEMORY ->
  ChecksumEngine.generate_signature self B csum_length = Ok S ->
  ChecksumEngine.generate_delta lib cfg self S X = Ok D ->
  lengths_agree S (DeltaInstructions.instructions D) = true ->
  exists toks out,
    send_tokens [] (DeltaInstructions.instructions D) = Ok toks
    /\ (forall P hd,
          ProtocolIO.write_sum_head (Some (_sum_head_from_signature S)) P = Ok hd ->
          send_delta_over_wire S D P
          = Ok (hd ++ toks ++ default [] (DeltaInstructions.sender_file_sum D)))
    /\ (forall rest,
          exists stats,
            receive_data B (_sum_head_from_signature S) (toks ++ rest)
            = Ok ((out, stats), rest))
    /\ ChecksumEngine.apply_delta B D = Ok out.
Proof.
  intros Hinit HB Hsig Hdelta Hagree.
  destruct (init_inv _ _ _ _ _ _ _ Hinit) as (Hbs & _).
  destruct (generate_signature_ok self B csum_length) as (s2l & _ & Hsig');
    [lia|exact HB|].
  rewrite Hsig in Hsig'. inversion Hsig'. subst S. clear Hsig'.
  destruct (generate_delta_cases lib cfg self (signature_of self B s2l) X)
    as (st & _ & _ & Hsound & Hres).
  rewrite Hdelta in Hres. destruct Hres as (_ & Hins & Hbsz & _).
  rewrite Hins in *.
  pose proof (sig_wire_ready cfg self B s2l ltac:(lia) X _ Hsound Hagree) as Hready.
  destruct (send_tokens_reads B (_sum_head_from_signature (signature_of self B s2l))
              (ChecksumEngine.block_size self) (ChecksumEngine.instructions st))
    with (pending := @nil Z) as (toks & Htoks & Hreads).
  { change (ProtocolIO.SumHead.count
              (_sum_head_from_signature (signature_of self B s2l)))
      with (block_count (len B) (ChecksumEngine.block_size self)).
    pose proof (block_count_le self B ltac:(lia)).
    unfold MAX_FILE_SIZE_IN_MEMORY in HB. lia. }
  { exact Hready. }
  exists (toks ++ le_bytes 4 0),
         (concat (map (ChecksumEngine.apply_instruction B
                         (ChecksumEngine.block_size self))
                      (ChecksumEngine.instructions st))).
  split; [exact Htoks|]. split; [|split].
  - intros P hd Hhd. unfold send_delta_over_wire. rewrite Hhd.
    cbn [mbind result_bind]. rewrite Hins, Htoks. reflexivity.
  - intros rest. rewrite <- app_assoc.
    eapply reads_receive_data; [apply Hreads|].
    apply read_int_le_bytes. lia.
  - rewrite apply_delta_ok by exact HB. rewrite Hins, Hbsz. reflexivity.
Qed.

Lemma wire_apply_equivalent_witness :
  exists S D toks,
    ChecksumEngine.generate_signature example_engine (map Z.of_nat (seq 0 40))
      (CSUM_LENGTH default_config) = Ok S
    /\ ChecksumEngine.generate_delta example_lib default_config example_engine S
         (map Z.of_nat (seq 3 30)) = Ok D
    /\ send_tokens [] (DeltaInstructions.instructions D) = Ok toks
    /\ (exists stats,
          receive_data (map Z.of_nat (seq 0 40)) (_sum_head_from_signature S)
                       (toks ++ [1; 2; 3])
          = Ok ((map Z.of_nat (seq 3 30), stats), [1; 2; 3]))
    /\ ChecksumEngine.apply_delta (map Z.of_nat (seq 0 40)) D
       = Ok (map Z.of_nat (seq 3 30)).
Proof.
  destruct (ChecksumEngine.generate_signature example_engine
              (map Z.of_nat (seq 0 40)) (CSUM_LENGTH default_config))
    as [S|e] eqn:ES; [|vm_compute in ES; discriminate].
  pose proof ES as ES'. vm_compute in ES'. inversion ES' as [HS]. clear ES'.
  destruct (ChecksumEngine.generate_delta example_lib default_config
              example_engine S (map Z.of_nat (seq 3 30)))
    as [D|e] eqn:ED; [|subst S; vm_compute in ED; discriminate].
  pose proof ED as ED'. rewrite <- HS in ED'. vm_compute in ED'.
  inversion ED' as [HD]. clear ED'.
  destruct (wire_apply_equivalent example_lib default_config 16 NONE None 0
              example_engine (CSUM_LENGTH default_config)
              (map Z.of_nat (seq 0 40)) (map Z.of_nat (seq 3 30)) S D)
    as (toks & out & Htoks & _ & Hrecv & Happly).
  - reflexivity.
  - vm_compute. congruence.
  - exact ES.
  - exact ED.
  - rewrite <- HS, <- HD. vm_compute. reflexivity.
  - assert (Hout : out = map Z.of_nat (seq 3 30)).
    { rewrite <- HD in Happly. vm_compute in Happly. vm_compute. congruence. }
    subst out. exists S, D, toks. split; [exact ES|]. split; [exact ED|].
    split; [exact Htoks|]. split; [apply Hrecv|exact Happly].
Defined.


(** * Further properties of the program *)

(** ** The weak checksum *)

Section WeakChecksum.

Import Checksum.

Lemma weak_range (w : bytes) : 0 <= weak w < 2 ^ 32.
Proof.
  unfold weak. pose proof (mod65536_range (sum_bytes w)).
  pose proof (mod65536_range (weighted_sum w)).
  rewrite lor_shiftl_16 by lia. lia.
Qed.

Lemma getitem_error {A} (l : list A) (i : Z) (e : error) :
  getitem l i = Err e -> e = IndexError.
Proof.
  unfold getitem. intros H.
  repeat match type of H with
         | (if ?c then _ else _) = _ => destruct c
         | of_option _ ?o = _ => destruct o; cbn in H
         end; congruence.
Qed.

Lemma getitem_beyond {A} (l : list A) (i : Z) :
  len l <= i -> getitem l i = Err IndexError.
Proof.
  intros H. pose proof (len_nonneg l). unfold getitem.
  destruct (Z.ltb_spec i (len l)); [lia|]. rewrite andb_false_r.
  destruct (Z.ltb_spec i 0); [lia|]. rewrite andb_false_r. reflexivity.
Qed.

(** A window that runs past the end of the data makes the byte loop raise
    IndexError. *)
Lemma rolling_loop_beyond (d : bytes) (o : Z) (n : nat) :
  forall i s, 0 <= o + i -> (0 < n)%nat -> len d < o + i + Z.of_nat n ->
              rolling_loop d o i n s = Err IndexError.
Proof.
  induction n as [|n IH]; intros i s Hi Hpos Hn; [lia|].
  cbn [rolling_loop].
  destruct (Z.lt_ge_cases (o + i) (len d)) as [Hlt|Hge].
  - destruct (getitem_inrange d (o + i) ltac:(lia)) as (x & _ & ->).
    cbn [mbind result_bind]. apply IH; lia.
  - rewrite getitem_beyond by lia. reflexivity.
Qed.

Lemma rolling_loop_split (d : bytes) (o : Z) (n1 n2 : nat) :
  forall i s,
    rolling_loop d o i (n1 + n2) s
    = (rolling_loop d o i n1 s ≫= rolling_loop d o (i + Z.of_nat n1) n2).
Proof.
  induction n1 as [|n1 IH]; intros i s.
  - cbn. rewrite Z.add_0_r. reflexivity.
  - cbn [Nat.add rolling_loop]. destruct (getitem d (o + i)) as [b|e]; [|reflexivity].
    cbn [mbind result_bind]. rewrite IH. do 2 f_equal. lia.
Qed.

(** The tail loop of the optimized version is the reference loop. *)
Lemma optimized_loop1_reference (d : bytes) (o n : Z) (fuel : nat) :
  forall i s, n - i <= Z.of_nat fuel ->
              optimized_loop1 fuel d o n i s
              = rolling_loop d o i (Z.to_nat (n - i)) s.
Proof.
  induction fuel as [|fuel IH]; intros i s Hf.
  - cbn [optimized_loop1]. replace (Z.to_nat (n - i)) with 0%nat by lia. reflexivity.
  - cbn [optimized_loop1]. destruct (Z.ltb_spec i n) as [Hlt|Hge].
    + replace (Z.to_nat (n - i)) with (S (Z.to_nat (n - (i + 1)))) by lia.
      cbn [rolling_loop]. destruct (getitem d (o + i)) as [b|e]; [|reflexivity].
      cbn [mbind result_bind]. apply IH. lia.
    + replace (Z.to_nat (n - i)) with 0%nat by lia. reflexivity.
Qed.

(** Four bytes at a time, then the rest: the same bytes are read in the same
    order and the same sums come out. *)
Lemma optimized_loop4_reference (d : bytes) (o n : Z) (fuel : nat) :
  forall i s,
    (optimized_loop4 fuel d o n i s
       ≫= fun '(i', s') => rolling_loop d o i' (Z.to_nat (n - i')) s')
    = rolling_loop d o i (Z.to_nat (n - i)) s.
Proof.
  induction fuel as [|fuel IH]; intros i s; [reflexivity|].
  cbn [optimized_loop4]. destruct (Z.ltb_spec i (n - 3)) as [Hlt|Hge]; [|reflexivity].
  replace (Z.to_nat (n - i)) with (4 + Z.to_nat (n - (i + 4)))%nat by lia.
  rewrite rolling_loop_split. cbn [rolling_loop].
  replace (o + (i + 1)) with (o + i + 1) by lia.
  replace (o + (i + 1 + 1)) with (o + i + 2) by lia.
  replace (o + (i + 1 + 1 + 1)) with (o + i + 3) by lia.
  destruct (getitem d (o + i)) as [b0|e]; [|reflexivity]. cbn [mbind result_bind].
  destruct (getitem d (o + i + 1)) as [b1|e]; [|reflexivity]. cbn [mbind result_bind].
  destruct (getitem d (o + i + 2)) as [b2|e]; [|reflexivity]. cbn [mbind result_bind].
  destruct (getitem d (o + i + 3)) as [b3|e]; [|reflexivity]. cbn [mbind result_bind].
  rewrite IH. change (Z.of_nat 4) with 4.
  pose proof (roll_step4 s b0 b1 b2 b3) as H4. cbn [fold_left] in H4.
  rewrite H4. reflexivity.
Qed.

Lemma optimized_loop4_index (d : bytes) (o n : Z) (fuel : nat) :
  forall i s i' s',
    optimized_loop4 fuel d o n i s = Ok (i', s') -> i <= i'.
Proof.
  induction fuel as [|fuel IH]; intros i s i' s' H.
  - cbn in H. inversion H. lia.
  - cbn [optimized_loop4] in H. destruct (i <? n - 3).
    + destruct (getitem d (o + i)); [|discriminate]. cbn [mbind result_bind] in H.
      destruct (getitem d (o + i + 1)); [|discriminate]. cbn [mbind result_bind] in H.
      destruct (getitem d (o + i + 2)); [|discriminate]. cbn [mbind result_bind] in H.
      destruct (getitem d (o + i + 3)); [|discriminate]. cbn [mbind result_bind] in H.
      apply IH in H. lia.
    + inversion H. lia.
Qed.

End WeakChecksum.

(** X1: [rolling_checksum(D, o, k)] on a window inside the data is the
    checksum of section 4.1, [s1 | s2 << 16] with [s1] the sum of the bytes
    and [s2] the sum of the bytes weighted by their distance to the end of
    the window, both modulo 2^16; it is a 32-bit value; with the default
    length it covers the rest of the data; and a non-empty window that
    runs past the end of the data raises IndexError. *)
Theorem rolling_checksum_value (D : bytes) (o k : Z) :
  0 <= o -> 0 <= k ->
  (o + k <= len D ->
   Checksum.rolling_checksum D o (Some k) = Ok (weak (window D o k))
   /\ 0 <= weak (window D o k) < 2 ^ 32)
  /\ (o <= len D ->
      Checksum.rolling_checksum D o None = Ok (weak (drop (Z.to_nat o) D)))
  /\ (0 < k -> len D < o + k ->
      Checksum.rolling_checksum D o (Some k) = Err IndexError).
Proof.
  intros Ho Hk. split; [|split].
  - intros Hfit. split; [apply rolling_checksum_window; lia|apply weak_range].
  - intros Hfit.
    change (Checksum.rolling_checksum D o None)
      with (Checksum.rolling_checksum D o (Some (len D - o))).
    rewrite rolling_checksum_window by lia. do 2 f_equal.
    unfold window. apply take_ge. rewrite length_drop. unfold len. lia.
  - intros Hpos Hover. unfold Checksum.rolling_checksum.
    pose proof (len_nonneg D).
    rewrite rolling_loop_beyond by lia. reflexivity.
Qed.

Lemma rolling_checksum_value_witness :
  Checksum.rolling_checksum [10; 20; 30; 40] 1 (Some 2) = Ok (weak [20; 30])
  /\ Checksum.rolling_checksum [10; 20; 30; 40] 1 None = Ok (weak [20; 30; 40])
  /\ Checksum.rolling_checksum [10; 20; 30; 40] 3 (Some 2) = Err IndexError.
Proof.
  destruct (rolling_checksum_value [10; 20; 30; 40] 1 2 ltac:(lia) ltac:(lia))
    as (H1 & H2 & _).
  destruct (rolling_checksum_value [10; 20; 30; 40] 3 2 ltac:(lia) ltac:(lia))
    as (_ & _ & H3).
  split; [apply H1; vm_compute; congruence|].
  split; [apply H2; vm_compute; congruence|].
  apply H3; [lia|vm_compute; reflexivity].
Defined.

(** X2: the optimized rolling checksum (four bytes per iteration) returns
    what the reference implementation returns, on every input: the same
    value, or the same IndexError. *)
Theorem rolling_checksum_optimized_agrees (D : bytes) (o : Z) (length : option Z) :
  Checksum.rolling_checksum_optimized D o length
  = Checksum.rolling_checksum D o length.
Proof.
  unfold Checksum.rolling_checksum_optimized, Checksum.rolling_checksum.
  set (n := match length with Some l => l | None => len D - o end).
  pose proof (optimized_loop4_reference D o n (Z.to_nat n) 0 (0, 0)) as H.
  rewrite Z.sub_0_r in H. rewrite <- H. clear H.
  destruct (Checksum.optimized_loop4 (Z.to_nat n) D o n 0 (0, 0)) as [[i s]|e] eqn:E;
    [|reflexivity].
  cbn [mbind result_bind].
  apply optimized_loop4_index in E.
  rewrite optimized_loop1_reference by lia. reflexivity.
Qed.

(** X3: [checksum_components] and [combine_checksum] are inverse to each
    other up to the reductions they make: splitting a combined checksum gives
    the two sums modulo 2^16, and recombining the components of any integer
    gives that integer modulo 2^32. *)
Theorem checksum_split_join (s1 s2 w : Z) :
  Checksum.checksum_components (Checksum.combine_checksum s1 s2)
  = (s1 mod 65536, s2 mod 65536)
  /\ 0 <= Checksum.combine_checksum s1 s2 < 2 ^ 32
  /\ Checksum.combine_checksum (fst (Checksum.checksum_components w))
                               (snd (Checksum.checksum_components w))
     = w mod 2 ^ 32.
Proof.
  pose proof (mod65536_range s1) as H1. pose proof (mod65536_range s2) as H2.
  split; [|split].
  - rewrite combine_mod. apply components_of_sums.
  - rewrite combine_mod. rewrite lor_shiftl_16 by lia. lia.
  - unfold Checksum.checksum_components. cbn [fst snd].
    rewrite combine_mod, !land_FFFF, !Z.mod_mod by lia.
    rewrite Z.shiftr_div_pow2 by lia. change (2 ^ 16) with 65536.
    pose proof (mod65536_range w). rewrite lor_shiftl_16 by lia.
    change (2 ^ 32) with (65536 * 65536).
    rewrite Z.rem_mul_r by lia. reflexivity.
Qed.

(** ** File modes *)

Section Modes.

Lemma lor_land_lnot (m k : Z) : Z.lor (Z.land m (Z.lnot k)) (Z.land m k) = m.
Proof.
  apply Z.bits_inj'. intros n Hn.
  rewrite Z.lor_spec, !Z.land_spec, Z.lnot_spec by lia.
  destruct (Z.testbit m n), (Z.testbit k n); reflexivity.
Qed.

End Modes.

(** X4: [to_wire_mode] and [from_wire_mode] return the mode they are given,
    for every integer: the only case they rewrite is a symbolic link, whose
    type bits they replace by the type bits it already has.  The seven file
    type tests exclude one another. *)
Theorem wire_mode_identity (mode : Z) :
  to_wire_mode mode = mode /\ from_wire_mode mode = mode
  /\ (Z.b2z (S_ISDIR mode) + Z.b2z (S_ISLNK mode) + Z.b2z (S_ISREG mode)
      + Z.b2z (S_ISCHR mode) + Z.b2z (S_ISBLK mode) + Z.b2z (S_ISFIFO mode)
      + Z.b2z (S_ISSOCK mode) <= 1).
Proof.
  unfold to_wire_mode, from_wire_mode, S_ISDIR, S_ISLNK, S_ISREG, S_ISCHR,
    S_ISBLK, S_ISFIFO, S_ISSOCK.
  split; [|split].
  - destruct (Z.eqb_spec (Z.land mode 0xF000) S_IFLNK) as [E|]; [|reflexivity].
    rewrite <- E. apply lor_land_lnot.
  - destruct (Z.eqb_spec (Z.land mode 0xF000) S_IFLNK) as [E|]; [|reflexivity].
    rewrite <- E. apply lor_land_lnot.
  - set (t := Z.land mode 0xF000).
    unfold S_IFDIR, S_IFLNK, S_IFREG, S_IFCHR, S_IFBLK, S_IFIFO, S_IFSOCK.
    repeat match goal with
           | |- context [?a =? ?b] => destruct (Z.eqb_spec a b)
           end; cbn [Z.b2z]; lia.
Qed.


(** ** The hash index, again *)

Section HashLookup.

Lemma lookup_indices_exact (cfg : Config) (blocks : list BlockChecksum)
      (w : Z) (length : option Z) :
  HashTable.lookup_indices (HashTable.init cfg blocks) w length
  = Ok (List.filter
          (fun i => from_option (block_matches_key w length) false
                                (blocks !! Z.to_nat i))
          (block_indices blocks)).
Proof.
  unfold HashTable.lookup_indices, HashTable.init.
  cbn [HashTable.tablesize HashTable._table HashTable.blocks].
  set (ts := if HASH_TABLE_DYNAMIC cfg && (len blocks >? 0)
             then if (len blocks / 8 * 10 + 11 <? TRADITIONAL_TABLESIZE)
                  then TRADITIONAL_TABLESIZE else len blocks / 8 * 10 + 11
             else TRADITIONAL_TABLESIZE).
  rewrite build_bucket.
  set (bucket := List.filter _ (block_indices blocks)).
  assert (Hres : filter_result
            (fun i => blk ← getitem blocks i;
                      Ok ((BlockChecksum.weak_checksum blk =? w)
                          && match length with
                             | Some l => BlockChecksum.length blk =? l
                             | None => true
                             end)) bucket
          = Ok (List.filter
                  (fun i => from_option (block_matches_key w length) false
                                        (blocks !! Z.to_nat i))
                  (block_indices blocks))).
  { rewrite (filter_result_ok _
       (fun i => from_option (block_matches_key w length) false
                             (blocks !! Z.to_nat i))).
    - f_equal. unfold bucket. rewrite filter_filter.
      apply filter_ext_elem. intros i Hi.
      destruct (blocks !! Z.to_nat i) as [b|]; [|reflexivity].
      cbn [from_option]. unfold block_matches_key.
      destruct (Z.eqb_spec (BlockChecksum.weak_checksum b) w) as [->|];
        [|apply andb_false_r].
      rewrite Z.eqb_refl. reflexivity.
    - intros i Hi. unfold bucket in Hi. apply elem_of_filter_bool in Hi.
      destruct Hi as [Hi _]. apply elem_of_block_indices in Hi.
      destruct (getitem_valid blocks i Hi) as (x & Hx & ->). rewrite Hx.
      reflexivity. }
  destruct bucket; exact Hres.
Qed.

Lemma filter_indices_blocks (p : BlockChecksum -> bool) (d : BlockChecksum)
      (blocks : list BlockChecksum) :
  map (fun i => nth (Z.to_nat i) blocks d)
      (List.filter (fun i => from_option p false (blocks !! Z.to_nat i))
                   (block_indices blocks))
  = List.filter p blocks.
Proof.
  induction blocks as [|x l IH] using rev_ind; [reflexivity|].
  rewrite block_indices_snoc, !List.filter_app, map_app.
  assert (Hpre : forall i, i ∈ block_indices l ->
                           (l ++ [x]) !! Z.to_nat i = l !! Z.to_nat i).
  { intros i Hi. apply elem_of_block_indices in Hi.
    apply lookup_app_l. unfold len in Hi. lia. }
  rewrite (filter_ext_elem _ (fun i => from_option p false (l !! Z.to_nat i)))
    by (intros i Hi; rewrite Hpre by exact Hi; reflexivity).
  f_equal.
  - rewrite <- IH. apply map_ext_in. intros i Hi.
    apply list_elem_of_In, elem_of_filter_bool in Hi. destruct Hi as [Hi _].
    apply elem_of_block_indices in Hi. apply app_nth1. unfold len in Hi. lia.
  - cbn [List.filter].
    assert (Hlast : (l ++ [x]) !! Z.to_nat (len l) = Some x).
    { unfold len. rewrite Nat2Z.id, lookup_app_r by lia.
      rewrite Nat.sub_diag. reflexivity. }
    rewrite Hlast. cbn [from_option]. destruct (p x); [|reflexivity].
    cbn [map]. unfold len. rewrite Nat2Z.id, app_nth2 by lia.
    rewrite Nat.sub_diag. reflexivity.
Qed.

End HashLookup.

(** X5: for every block list and every integer key, [lookup_indices] of the
    index built by [HashTable(blocks)] returns exactly the indices [i], in
    ascending order, with [blocks[i].weak_checksum == key] (and
    [blocks[i].length == length] when a length is given), and [lookup]
    returns exactly those blocks; neither raises.  The table has at least
    65536 buckets and every key hashes to a bucket number below the table
    size. *)
Theorem hash_table_lookup (cfg : Config) (blocks : list BlockChecksum)
        (w : Z) (length : option Z) :
  let ht := HashTable.init cfg blocks in
  HashTable.lookup_indices ht w length
  = Ok (List.filter
          (fun i => from_option (block_matches_key w length) false
                                (blocks !! Z.to_nat i))
          (block_indices blocks))
  /\ HashTable_lookup ht w
     = Ok (List.filter (fun b => BlockChecksum.weak_checksum b =? w) blocks)
  /\ HashTable_len ht = len blocks
  /\ 65536 <= HashTable.tablesize ht
  /\ 0 <= HashTable._hash (HashTable.tablesize ht) w < HashTable.tablesize ht.
Proof.
  intros ht. split; [apply lookup_indices_exact|]. split; [|split; [reflexivity|]].
  - subst ht. unfold HashTable_lookup. rewrite lookup_indices_exact.
    cbn [mbind result_bind].
    rewrite (mapM_ok _ (fun i => nth (Z.to_nat i) blocks (BlockChecksum.mk 0 [] 0 0 0))).
    + f_equal.
      rewrite (filter_indices_blocks (block_matches_key w None)).
      apply filter_ext_elem. intros b _. unfold block_matches_key.
      apply andb_true_r.
    + intros i Hi. apply elem_of_filter_bool in Hi. destruct Hi as [Hi _].
      apply elem_of_block_indices in Hi.
      destruct (getitem_valid blocks i Hi) as (x & Hx & Hg).
      change (HashTable.blocks (HashTable.init cfg blocks)) with blocks.
      rewrite Hg. f_equal.
      symmetry. apply nth_lookup_Some with (d := BlockChecksum.mk 0 [] 0 0 0) in Hx.
      exact Hx.
  - assert (Hts : 65536 <= HashTable.tablesize ht).
    { unfold ht, HashTable.init. cbn [HashTable.tablesize].
      unfold TRADITIONAL_TABLESIZE.
      destruct (HASH_TABLE_DYNAMIC cfg && (len blocks >? 0)); [|lia].
      destruct (Z.ltb_spec (len blocks / 8 * 10 + 11) 65536); lia. }
    split; [exact Hts|]. unfold HashTable._hash.
    destruct (HashTable.tablesize ht =? TRADITIONAL_TABLESIZE).
    + rewrite land_FFFF. pose proof (mod65536_range
        (Z.land w 65535 + Z.land (Z.shiftr w 16) 65535)). lia.
    + apply Z.mod_pos_bound. lia.
Qed.

(** ** Signatures, again *)

Section SignatureShape.

Import ChecksumEngine.

Lemma validate_blocks_ok (bs : Z) (l : list BlockChecksum) :
  forall n0 : nat,
    (forall i blk, l !! i = Some blk ->
                   0 < BlockChecksum.length blk
                   /\ BlockChecksum.offset blk = Z.of_nat (n0 + i) * bs
                   /\ 0 <= BlockChecksum.offset blk) ->
    validate_blocks bs (imap (fun i a => (Z.of_nat (n0 + i), a)) l) = Ok ().
Proof.
  induction l as [|x l IH]; intros n0 H; [reflexivity|].
  cbn [imap validate_blocks].
  destruct (H 0%nat x eq_refl) as (Hl & Ho & Ho0).
  destruct (Z.leb_spec (BlockChecksum.length x) 0); [lia|].
  destruct (Z.ltb_spec (BlockChecksum.offset x) 0); [lia|].
  rewrite Ho, Z.eqb_refl. cbn [negb].
  rewrite <- (IH (S n0)).
  - f_equal. apply imap_ext. intros i a _. cbn. do 2 f_equal. lia.
  - intros i blk Hi. specialize (H (S i) blk Hi).
    replace (S n0 + i)%nat with (n0 + S i)%nat by lia. exact H.
Qed.

Lemma sum_window_lengths (n bs : Z) (i : nat) :
  0 < bs -> 0 <= n -> (Z.of_nat i - 1) * bs < n ->
  sum_Z (map (fun j : nat => window_length n bs (Z.of_nat j * bs)) (seq 0 i))
  = Z.min (Z.of_nat i * bs) n.
Proof.
  intros Hbs Hn. induction i as [|i IH]; intros Hi.
  - cbn. lia.
  - rewrite seq_S, map_app, sum_Z_app, IH by nia. cbn [Nat.add map sum_Z fold_right].
    unfold window_length. rewrite Nat2Z.inj_succ in *. nia.
Qed.

End SignatureShape.

(** X6: for an engine built by [ChecksumEngine(...)], [generate_signature]
    raises ResourceLimitError on a file above the in-memory limit and
    otherwise returns a signature that passes [validate_signature]: it has
    ceil(len / block_size) blocks, block [i] lies at offset [i * block_size],
    has length [min(block_size, len - i * block_size) >= 1], carries the weak
    checksum of those bytes and a prefix of their strong checksum; the block
    lengths add up to the file size, and [remainder] is
    [len mod block_size]. *)
Theorem generate_signature_blocks (lib : HashLib) (cfg : Config) (bs : Z)
        (ct : ChecksumType) (pm : option Z) (seed : Z)
        (self : ChecksumEngine.t) (csum_length : Z) (X : bytes) :
  ChecksumEngine.init lib cfg bs ct pm seed = Ok self ->
  (MAX_FILE_SIZE_IN_MEMORY < len X ->
   ChecksumEngine.generate_signature self X csum_length = Err ResourceLimitError)
  /\ (len X <= MAX_FILE_SIZE_IN_MEMORY ->
      exists S,
        ChecksumEngine.generate_signature self X csum_length = Ok S
        /\ validate_signature S = Ok ()
        /\ ChecksumSignature.block_size S = bs
        /\ ChecksumSignature.file_size S = len X
        /\ ChecksumSignature.num_blocks S = len (ChecksumSignature.blocks S)
        /\ ChecksumSignature.num_blocks S = block_count (len X) bs
        /\ (forall (i : nat) blk,
              ChecksumSignature.blocks S !! i = Some blk ->
              BlockChecksum.offset blk = Z.of_nat i * bs
              /\ BlockChecksum.length blk = Z.min bs (len X - Z.of_nat i * bs)
              /\ 1 <= BlockChecksum.length blk
              /\ BlockChecksum.weak_checksum blk
                 = weak (window X (BlockChecksum.offset blk) (BlockChecksum.length blk))
              /\ BlockChecksum.strong_checksum blk
                 `prefix_of` ChecksumEngine.strong_checksum self
                               (window X (BlockChecksum.offset blk)
                                       (BlockChecksum.length blk)))
        /\ sum_Z (map BlockChecksum.length (ChecksumSignature.blocks S)) = len X
        /\ ChecksumSignature.remainder S = len X mod bs).
Proof.
  intros Hinit. pose proof (len_nonneg X) as Hn.
  destruct (init_inv _ _ _ _ _ _ _ Hinit) as (Hbs & Hbs' & _). subst bs.
  split.
  - intros Hbig. unfold ChecksumEngine.generate_signature, validate_data.
    destruct (Z.ltb_spec (len X) 0); [lia|].
    destruct (Z.gtb_spec (len X) MAX_FILE_SIZE_IN_MEMORY); [reflexivity|lia].
  - intros HX.
    destruct (generate_signature_ok self X csum_length) as (s2l & Hs2l & Hsig);
      [lia|exact HX|].
    exists (signature_of self X s2l). split; [exact Hsig|].
    set (N := block_count (len X) (ChecksumEngine.block_size self)).
    assert (HN : 0 <= N) by (apply block_count_nonneg; lia).
    assert (Hblk : forall (i : nat) blk,
              ChecksumSignature.blocks (signature_of self X s2l) !! i = Some blk ->
              blk = sig_block self X s2l (Z.of_nat i) /\ Z.of_nat i < N).
    { intros i blk Hi. cbn [signature_of ChecksumSignature.blocks] in Hi.
      rewrite list_lookup_fmap in Hi. fold N in Hi.
      destruct (seq 0 (Z.to_nat N) !! i) as [j|] eqn:Ej; cbn in Hi; [|discriminate].
      apply lookup_seq in Ej. destruct Ej as [-> Hlt].
      inversion Hi. split; [reflexivity|lia]. }
    assert (Hin : forall i : nat, Z.of_nat i < N ->
                    Z.of_nat i * ChecksumEngine.block_size self < len X).
    { intros i Hi. apply (block_count_bounds (len X)); [lia|lia|]. fold N. lia. }
    assert (Hfacts : (Z.of_nat (Z.to_nat N) - 1) * ChecksumEngine.block_size self < len X
                     /\ len X <= Z.of_nat (Z.to_nat N) * ChecksumEngine.block_size self).
    { rewrite Z2Nat.id by lia. unfold N, block_count.
      pose proof (Z.div_mod (len X + ChecksumEngine.block_size self - 1)
                    (ChecksumEngine.block_size self) ltac:(lia)).
      pose proof (Z.mod_pos_bound (len X + ChecksumEngine.block_size self - 1)
                    (ChecksumEngine.block_size self) ltac:(lia)).
      nia. }
    split; [|split; [reflexivity|split; [reflexivity|split; [|split; [reflexivity|split; [|split]]]]]].
    + unfold validate_signature. rewrite sig_blocks_len by lia.
      cbn [signature_of ChecksumSignature.num_blocks ChecksumSignature.file_size
           ChecksumSignature.block_size]. fold N.
      rewrite Z.eqb_refl. cbn [negb].
      destruct (Z.ltb_spec N 0); [lia|]. destruct (Z.ltb_spec (len X) 0); [lia|].
      destruct (Z.leb_spec (ChecksumEngine.block_size self) 0); [lia|].
      unfold enumerate. apply (validate_blocks_ok _ _ 0%nat).
      intros i blk Hi. destruct (Hblk i blk Hi) as [-> Hlt].
      specialize (Hin i Hlt). cbn [sig_block BlockChecksum.length BlockChecksum.offset].
      unfold window_length. cbn [Nat.add]. split; [lia|]. split; [reflexivity|nia].
    + rewrite sig_blocks_len by lia. reflexivity.
    + intros i blk Hi. destruct (Hblk i blk Hi) as [-> Hlt].
      specialize (Hin i Hlt).
      cbn [sig_block BlockChecksum.length BlockChecksum.offset
           BlockChecksum.weak_checksum BlockChecksum.strong_checksum].
      unfold window_length. split; [reflexivity|]. split; [reflexivity|].
      split; [lia|]. split; [reflexivity|].
      rewrite py_slice_take by exact Hs2l. apply prefix_take.
    + cbn [signature_of ChecksumSignature.blocks]. rewrite map_map.
      cbn [sig_block BlockChecksum.length]. fold N.
      rewrite sum_window_lengths by lia. lia.
    + unfold ChecksumSignature.remainder.
      cbn [signature_of ChecksumSignature.block_size ChecksumSignature.file_size].
      destruct (Z.gtb_spec (ChecksumEngine.block_size self) 0); [reflexivity|lia].
Qed.

Lemma generate_signature_blocks_witness :
  exists S,
    ChecksumEngine.generate_signature example_engine (map Z.of_nat (seq 0 40))
      (CSUM_LENGTH default_config) = Ok S
    /\ validate_signature S = Ok ()
    /\ ChecksumSignature.num_blocks S = 3
    /\ sum_Z (map BlockChecksum.length (ChecksumSignature.blocks S)) = 40.
Proof.
  destruct (generate_signature_blocks example_lib default_config 16 NONE None 0
              example_engine (CSUM_LENGTH default_config) (map Z.of_nat (seq 0 40)))
    as [_ H]; [reflexivity|].
  destruct H as (S & HS & Hv & _ & _ & _ & Hn & _ & Hsum & _);
    [vm_compute; congruence|].
  exists S. split; [exact HS|]. split; [exact Hv|]. split; [exact Hn|exact Hsum].
Defined.


(** ** Block sizes ([sum_sizes_sqroot]) *)

Section BlockSizes.

Lemma bit_length_nonneg (l : Z) : 0 <= bit_length l.
Proof.
  unfold bit_length. pose proof (Z.log2_nonneg l). destruct (l <=? 0); lia.
Qed.

Lemma bit_length_shiftr (l : Z) :
  0 < l -> bit_length (Z.shiftr l 1) = bit_length l - 1.
Proof.
  intros Hl. unfold bit_length.
  destruct (Z.leb_spec l 0); [lia|].
  destruct (Z.eq_dec l 1) as [->|Hne]; [reflexivity|].
  assert (1 <= Z.log2 l).
  { apply Z.log2_le_pow2; [lia|]. change (2 ^ 1) with 2. lia. }
  assert (0 < Z.shiftr l 1).
  { rewrite Z.shiftr_div_pow2 by lia. change (2 ^ 1) with 2.
    apply Z.div_str_pos. lia. }
  destruct (Z.leb_spec (Z.shiftr l 1) 0); [lia|].
  rewrite Z.log2_shiftr by lia. lia.
Qed.

Lemma bit_length_shiftr2 (l : Z) :
  0 < l -> bit_length (Z.shiftr l 2) < bit_length l.
Proof.
  intros Hl. pose proof (bit_length_shiftr l Hl) as H1.
  replace (Z.shiftr l 2) with (Z.shiftr (Z.shiftr l 1) 1)
    by (rewrite Z.shiftr_shiftr by lia; reflexivity).
  assert (0 <= Z.shiftr l 1) by (apply Z.shiftr_nonneg; lia).
  destruct (Z.eq_dec (Z.shiftr l 1) 0) as [E|].
  - rewrite E in *. change (Z.shiftr 0 1) with 0.
    assert (bit_length 0 = 0) by reflexivity. lia.
  - rewrite bit_length_shiftr by lia. lia.
Qed.

(** The first loop of the square-root branch: [c] ends as the power of two
    [2 ^ cnt] with [4 ^ (cnt - 1) <= file_length < 4 ^ cnt]. *)
Lemma quarter_loop (file_length : Z) :
  0 < file_length ->
  exists l cnt,
    while_loop (bit_fuel file_length)
      (fun '(l, c, cnt) => l >? 0)
      (fun '(l, c, cnt) => (Z.shiftr l 2, Z.shiftl c 1, cnt + 1))
      (file_length, 1, 0) = Ok (l, 2 ^ cnt, cnt)
    /\ 1 <= cnt /\ 4 ^ (cnt - 1) <= file_length < 4 ^ cnt.
Proof.
  intros Hfl.
  destruct (while_loop_inv
              (fun '(l, c, cnt) =>
                 0 <= cnt /\ c = 2 ^ cnt /\ l = file_length / 4 ^ cnt
                 /\ (cnt = 0 \/ 4 ^ (cnt - 1) <= file_length))
              (fun '(l, _, _) => Z.to_nat (bit_length l))
              (fun '(l, c, cnt) => l >? 0)
              (fun '(l, c, cnt) => (Z.shiftr l 2, Z.shiftl c 1, cnt + 1))) with
    (fuel := bit_fuel file_length) (s := (file_length, 1, 0))
    as ([[l c] cnt] & Hs' & (Hcnt & -> & Hl & Hlow) & Hexit).
  - intros [[l c] cnt] (Hcnt & -> & Hl & Hlow) Hc.
    assert (0 < l) by lia.
    assert (0 < 4 ^ cnt) by (apply Z.pow_pos_nonneg; lia).
    split.
    + split; [lia|]. split.
      { rewrite Z.shiftl_mul_pow2 by lia. rewrite Z.pow_add_r by lia. reflexivity. }
      split.
      { rewrite Z.shiftr_div_pow2 by lia. change (2 ^ 2) with 4.
        rewrite Hl, Z.div_div by lia. rewrite Z.pow_add_r by lia. reflexivity. }
      right. replace (cnt + 1 - 1) with cnt by lia.
      subst l. destruct (Z.lt_ge_cases file_length (4 ^ cnt)) as [Hlt|]; [|lia].
      rewrite Z.div_small in H by lia. lia.
    + pose proof (bit_length_shiftr2 l ltac:(lia)).
      pose proof (bit_length_nonneg (Z.shiftr l 2)). lia.
  - split; [lia|]. split; [reflexivity|]. split; [|left; reflexivity].
    change (4 ^ 0) with 1. rewrite Z.div_1_r. reflexivity.
  - unfold bit_fuel, bit_length. destruct (Z.leb_spec file_length 0); lia.
  - exists l, cnt. split; [exact Hs'|].
    assert (0 < 4 ^ cnt) by (apply Z.pow_pos_nonneg; lia).
    assert (Hle : l <= 0) by lia.
    assert (Hl0 : 0 <= l) by (subst l; apply Z.div_pos; lia).
    assert (l = 0) by lia.
    assert (file_length < 4 ^ cnt).
    { destruct (Z.lt_ge_cases file_length (4 ^ cnt)) as [|Hge]; [assumption|].
      assert (1 <= file_length / 4 ^ cnt)
        by (apply Z.div_le_lower_bound; lia). lia. }
    destruct Hlow as [->|Hlow]; [change (4 ^ 0) with 1 in *; lia|].
    split; [|split; assumption].
    destruct (Z.eq_dec cnt 0) as [->|]; [change (4 ^ 0) with 1 in *; lia|lia].
Qed.

Lemma land_pow2_multiple (r j : Z) :
  0 <= j -> r mod 2 ^ (j + 1) = 0 -> Z.land r (2 ^ j) = 0.
Proof.
  intros Hj Hr. apply Z.mod_divide in Hr; [|apply Z.pow_nonzero; lia].
  destruct Hr as [q ->]. apply Z.bits_inj'. intros n Hn.
  rewrite Z.land_spec, Z.pow2_bits_eqb, Z.bits_0 by lia.
  destruct (Z.eqb_spec j n) as [->|]; [|apply andb_false_r].
  rewrite Z.mul_pow2_bits_low by lia. reflexivity.
Qed.

Lemma lor_pow2_multiple (r j : Z) :
  0 <= j -> r mod 2 ^ (j + 1) = 0 -> Z.lor r (2 ^ j) = r + 2 ^ j.
Proof.
  intros Hj Hr. pose proof (land_pow2_multiple r j Hj Hr) as H0.
  rewrite Z.add_nocarry_lxor by exact H0. symmetry. apply Z.lxor_lor. exact H0.
Qed.

Lemma land_lnot_pow2 (r j : Z) :
  0 <= j -> r mod 2 ^ (j + 1) = 0 ->
  Z.land (r + 2 ^ j) (Z.lnot (2 ^ j)) = r.
Proof.
  intros Hj Hr. rewrite <- lor_pow2_multiple by assumption.
  pose proof (land_pow2_multiple r j Hj Hr) as H0.
  apply Z.bits_inj'. intros n Hn.
  rewrite Z.land_spec, Z.lor_spec, Z.lnot_spec by lia.
  assert (Hb : Z.testbit (Z.land r (2 ^ j)) n = false) by (rewrite H0; apply Z.bits_0).
  rewrite Z.land_spec in Hb.
  destruct (Z.testbit r n), (Z.testbit (2 ^ j) n); cbn in *; congruence.
Qed.

(** The second loop: bit by bit, from [c] down to 8, it builds the largest
    multiple of 8 whose square does not exceed the file length. *)
Lemma sqrt_loop (file_length k : Z) :
  2 <= k -> 0 <= file_length < (2 ^ (k + 1)) ^ 2 ->
  exists c r,
    while_loop (bit_fuel (2 ^ k))
      (fun '(c, blength) => c >=? 8)
      (fun '(c, blength) =>
         let blength := Z.lor blength c in
         let blength := if file_length <? blength * blength
                        then Z.land blength (Z.lnot c) else blength in
         (Z.shiftr c 1, blength))
      (2 ^ k, 0) = Ok (c, r)
    /\ 0 <= r /\ r mod 8 = 0 /\ r * r <= file_length < (r + 8) * (r + 8).
Proof.
  intros Hk Hfl.
  destruct (while_loop_inv
              (fun '(c, r) =>
                 exists j, 2 <= j <= k /\ c = 2 ^ j /\ 0 <= r
                           /\ r mod 2 ^ (j + 1) = 0
                           /\ r * r <= file_length < (r + 2 ^ (j + 1)) ^ 2)
              (fun '(c, _) => Z.to_nat (bit_length c))
              (fun '(c, blength) => c >=? 8)
              (fun '(c, blength) =>
                 let blength := Z.lor blength c in
                 let blength := if file_length <? blength * blength
                                then Z.land blength (Z.lnot c) else blength in
                 (Z.shiftr c 1, blength))) with
    (fuel := bit_fuel (2 ^ k)) (s := (2 ^ k, 0))
    as ([c r] & Hs' & (j & Hj & -> & Hr0 & Hmod & Hsq) & Hexit).
  - intros [c r] (j & Hj & -> & Hr0 & Hmod & Hsq) Hc. cbv zeta.
    assert (Hpos : 0 < 2 ^ j) by (apply Z.pow_pos_nonneg; lia).
    assert (Hj3 : 3 <= j).
    { destruct (Z.lt_ge_cases j 3) as [Hlt|]; [|assumption].
      assert (2 ^ j <= 2 ^ 2) by (apply Z.pow_le_mono_r; lia).
      change (2 ^ 2) with 4 in *. lia. }
    assert (Hhalf : Z.shiftr (2 ^ j) 1 = 2 ^ (j - 1)).
    { rewrite Z.shiftr_div_pow2 by lia. rewrite <- Z.pow_sub_r by lia. reflexivity. }
    assert (Hdouble : 2 ^ (j + 1) = 2 * 2 ^ j)
      by (rewrite Z.pow_add_r by lia; lia).
    assert (Hj1 : 2 ^ (j - 1 + 1) = 2 ^ j) by (f_equal; lia).
    assert (Hmodj : r mod 2 ^ j = 0).
    { apply Z.mod_divide in Hmod; [|lia]. destruct Hmod as [q ->].
      rewrite Hdouble. apply Z.mod_divide; [lia|].
      exists (q * 2). lia. }
    split.
    + rewrite lor_pow2_multiple by (assumption || lia).
      exists (j - 1). split; [lia|]. split; [exact Hhalf|]. rewrite Hj1.
      destruct (Z.ltb_spec file_length ((r + 2 ^ j) * (r + 2 ^ j))).
      * rewrite land_lnot_pow2 by (assumption || lia).
        split; [lia|]. split; [exact Hmodj|]. nia.
      * split; [lia|]. split.
        { rewrite <- Zplus_mod_idemp_l, Hmodj, Z.add_0_l. apply Z.mod_same. lia. }
        rewrite Hdouble in Hsq. nia.
    + rewrite bit_length_shiftr by lia.
      pose proof (bit_length_nonneg (2 ^ j)).
      assert (0 < bit_length (2 ^ j)).
      { unfold bit_length. destruct (Z.leb_spec (2 ^ j) 0); [lia|].
        pose proof (Z.log2_nonneg (2 ^ j)). lia. }
      lia.
  - exists k. split; [lia|]. split; [reflexivity|]. split; [lia|].
    split; [apply Z.mod_0_l; apply Z.pow_nonzero; lia|]. cbn [Z.add Z.mul]. lia.
  - unfold bit_fuel, bit_length.
    assert (0 < 2 ^ k) by (apply Z.pow_pos_nonneg; lia).
    destruct (Z.leb_spec (2 ^ k) 0); lia.
  - exists (2 ^ j), r. split; [exact Hs'|].
    assert (j = 2).
    { destruct (Z.eq_dec j 2) as [|Hne]; [assumption|].
      assert (2 ^ 3 <= 2 ^ j) by (apply Z.pow_le_mono_r; lia).
      change (2 ^ 3) with 8 in *. lia. }
    subst j. change (2 ^ (2 + 1)) with 8 in *.
    split; [exact Hr0|]. split; [exact Hmod|]. lia.
Qed.

Lemma halving_loop_exact (file_length b0 : Z) :
  0 <= file_length ->
  while_loop (bit_fuel file_length)
    (fun '(l, b) => l >? 0)
    (fun '(l, b) => (Z.shiftr l 1, b + 2)) (file_length, b0)
  = Ok (0, b0 + 2 * bit_length file_length).
Proof.
  intros Hfl.
  destruct (while_loop_inv
              (fun '(l, b) => 0 <= l
                              /\ b + 2 * bit_length l = b0 + 2 * bit_length file_length)
              (fun '(l, _) => Z.to_nat (bit_length l))
              (fun '(l, b) => l >? 0)
              (fun '(l, b) => (Z.shiftr l 1, b + 2))) with
    (fuel := bit_fuel file_length) (s := (file_length, b0))
    as ([l b] & Hs' & (Hl & Hb) & Hexit).
  - intros [l b] (Hl & Hb) Hc. assert (0 < l) by lia.
    pose proof (bit_length_shiftr l ltac:(lia)).
    pose proof (bit_length_nonneg (Z.shiftr l 1)).
    split; [|lia]. split; [apply Z.shiftr_nonneg; lia|lia].
  - split; [exact Hfl|reflexivity].
  - unfold bit_fuel, bit_length. destruct (Z.leb_spec file_length 0); lia.
  - rewrite Hs'. assert (l = 0) by lia. subst l.
    change (bit_length 0) with 0 in Hb. do 2 f_equal. lia.
Qed.

Lemma bias_loop_exact (blength b0 : Z) :
  0 < blength -> 0 <= b0 ->
  exists c,
    while_loop (bit_fuel blength)
      (fun '(c, b) => negb (Z.shiftr c 1 =? 0) && negb (b =? 0))
      (fun '(c, b) => (Z.shiftr c 1, b - 1)) (blength, b0)
    = Ok (c, b0 - Z.min (Z.log2 blength) b0).
Proof.
  intros Hbl Hb0.
  destruct (while_loop_inv
              (fun '(c, b) => 0 < c /\ 0 <= b
                              /\ b - Z.log2 c = b0 - Z.log2 blength)
              (fun '(c, _) => Z.to_nat (bit_length c))
              (fun '(c, b) => negb (Z.shiftr c 1 =? 0) && negb (b =? 0))
              (fun '(c, b) => (Z.shiftr c 1, b - 1))) with
    (fuel := bit_fuel blength) (s := (blength, b0))
    as ([c b] & Hs' & (Hc & Hb & Heq) & Hexit).
  - intros [c b] (Hc & Hb & Heq) Hcond.
    apply andb_true_iff in Hcond. destruct Hcond as [Hne Hbne].
    apply negb_true_iff, Z.eqb_neq in Hne. apply negb_true_iff, Z.eqb_neq in Hbne.
    assert (0 <= Z.shiftr c 1) by (apply Z.shiftr_nonneg; lia).
    pose proof (bit_length_shiftr c Hc) as Hlen.
    unfold bit_length in Hlen.
    destruct (Z.leb_spec (Z.shiftr c 1) 0); [lia|].
    destruct (Z.leb_spec c 0); [lia|].
    split; [lia|]. unfold bit_length.
    destruct (Z.leb_spec (Z.shiftr c 1) 0); [lia|].
    destruct (Z.leb_spec c 0); [lia|].
    pose proof (Z.log2_nonneg (Z.shiftr c 1)). lia.
  - split; [exact Hbl|]. split; [exact Hb0|reflexivity].
  - unfold bit_fuel, bit_length. destruct (Z.leb_spec blength 0); lia.
  - exists c. rewrite Hs'. do 2 f_equal.
    pose proof (Z.log2_nonneg c). pose proof (Z.log2_nonneg blength).
    apply andb_false_iff in Hexit. destruct Hexit as [Hexit|Hexit].
    + apply negb_false_iff, Z.eqb_eq in Hexit.
      assert (c = 1).
      { rewrite Z.shiftr_div_pow2 in Hexit by lia. change (2 ^ 1) with 2 in Hexit.
        destruct (Z.lt_ge_cases c 2); [lia|].
        assert (1 <= c / 2) by (apply Z.div_le_lower_bound; lia). lia. }
      subst c. change (Z.log2 1) with 0 in Heq. lia.
    + apply negb_false_iff, Z.eqb_eq in Hexit. lia.
Qed.

Lemma pow4_square (n : Z) : 4 ^ n = 2 ^ n * 2 ^ n.
Proof. change 4 with (2 * 2). apply Z.pow_mul_l. Qed.

(** The block length of the square-root branch. *)
Lemma sqroot_blength_closed (file_length max_blength m : Z) :
  BLOCK_SIZE * BLOCK_SIZE < file_length -> 2 <= m -> max_blength = 2 ^ m ->
  sqroot_blength file_length max_blength
  = Ok (if max_blength * max_blength <=? 4 * file_length then max_blength
        else Z.max (8 * (Z.sqrt file_length / 8)) BLOCK_SIZE).
Proof.
  intros Hfl Hm ->. unfold BLOCK_SIZE in Hfl. unfold sqroot_blength.
  destruct (quarter_loop file_length ltac:(lia)) as (l & cnt & -> & Hcnt & Hlow & Hhigh).
  cbn [mbind result_bind].
  assert (Hpos : 0 < 2 ^ cnt) by (apply Z.pow_pos_nonneg; lia).
  assert (Hposm : 0 < 2 ^ m) by (apply Z.pow_pos_nonneg; lia).
  destruct (Z.ltb_spec (2 ^ cnt) 0); [lia|]. cbn [orb].
  rewrite pow4_square in Hlow, Hhigh.
  assert (Hprev : 2 ^ cnt = 2 * 2 ^ (cnt - 1)).
  { rewrite <- Z.pow_succ_r by lia. f_equal. lia. }
  destruct (Z.geb_spec (2 ^ cnt) (2 ^ m)) as [Hge|Hlt].
  - destruct (Z.leb_spec (2 ^ m * 2 ^ m) (4 * file_length)); [reflexivity|nia].
  - assert (Hcm : cnt < m) by (apply (Z.pow_lt_mono_r_iff 2); lia).
    assert (Hdbl : 2 * 2 ^ cnt <= 2 ^ m).
    { rewrite <- Z.pow_succ_r by lia. apply Z.pow_le_mono_r; lia. }
    destruct (Z.leb_spec (2 ^ m * 2 ^ m) (4 * file_length)) as [Hbig|_]; [nia|].
    assert (Hc2 : 2 <= cnt).
    { destruct (Z.lt_ge_cases cnt 2); [|assumption].
      assert (2 ^ cnt <= 2 ^ 1) by (apply Z.pow_le_mono_r; lia).
      change (2 ^ 1) with 2 in *. nia. }
    cbv iota zeta.
    assert (Hrange : 0 <= file_length < (2 ^ (cnt + 1)) ^ 2).
    { rewrite Z.pow_add_r by lia. change (2 ^ 1) with 2. nia. }
    pose proof (sqrt_loop file_length cnt Hc2 Hrange) as Hloop. cbv zeta in Hloop.
    destruct Hloop as (c & r & -> & Hr0 & Hr8 & Hsq).
    cbn [mbind result_bind]. do 2 f_equal.
    pose proof (Z.sqrt_spec file_length ltac:(lia)) as Hs.
    pose proof (Z.sqrt_nonneg file_length) as Hs0.
    apply Z.mod_divide in Hr8; [|lia]. destruct Hr8 as [q ->].
    set (s := Z.sqrt file_length) in *. cbv zeta in Hs.
    assert (H1 : 8 * q <= s).
    { destruct (Z.lt_ge_cases s (8 * q)) as [Hc|]; [|assumption].
      assert ((s + 1) * (s + 1) <= (8 * q) * (8 * q))
        by (apply Z.mul_le_mono_nonneg; lia).
      lia. }
    assert (H2 : s < 8 * q + 8).
    { destruct (Z.lt_ge_cases s (8 * q + 8)) as [|Hc]; [assumption|].
      assert ((8 * q + 8) * (8 * q + 8) <= s * s)
        by (apply Z.mul_le_mono_nonneg; lia).
      lia. }
    assert (q = s / 8); [|lia].
    apply Z.div_unique with (r := s - 8 * q); lia.
Qed.

(** [sum_sizes_sqroot] without its loops. *)
Lemma sum_sizes_sqroot_closed (file_length pv fixed csum_length xfer_sum_len : Z) :
  0 <= file_length ->
  let blength := sqrt_block_length file_length pv fixed in
  0 < blength
  /\ sum_sizes_sqroot file_length pv fixed csum_length xfer_sum_len
     = Ok (SumSizes.mk file_length blength
             (clip_s2length xfer_sum_len
                (strong_sum_length file_length pv blength csum_length))
             (file_length mod blength)
             (file_length / blength
              + (if file_length mod blength =? 0 then 0 else 1))).
Proof.
  intros Hfl blength.
  assert (Hblen :
    (if fixed >? 0 then Ok fixed
     else if file_length <=? BLOCK_SIZE * BLOCK_SIZE then Ok BLOCK_SIZE
     else sqroot_blength file_length
            (if pv <? 30 then OLD_MAX_BLOCK_SIZE else MAX_BLOCK_SIZE))
    = Ok blength /\ 0 < blength).
  { unfold blength, sqrt_block_length. cbv zeta.
    destruct (Z.gtb_spec fixed 0); [split; [reflexivity|lia]|].
    destruct (Z.leb_spec file_length (BLOCK_SIZE * BLOCK_SIZE));
      [split; [reflexivity|reflexivity]|].
    destruct (pv <? 30).
    - rewrite (sqroot_blength_closed file_length OLD_MAX_BLOCK_SIZE 13)
        by (lia || reflexivity).
      split; [reflexivity|].
      destruct (_ <=? _); [reflexivity|]. unfold BLOCK_SIZE. lia.
    - rewrite (sqroot_blength_closed file_length MAX_BLOCK_SIZE 17)
        by (lia || reflexivity).
      split; [reflexivity|].
      destruct (_ <=? _); [reflexivity|]. unfold BLOCK_SIZE. lia. }
  destruct Hblen as [Hblen Hpos]. split; [exact Hpos|].
  unfold sum_sizes_sqroot. cbv zeta.
  destruct (Z.ltb_spec file_length 0); [lia|].
  rewrite Hblen. cbn [mbind result_bind].
  destruct (Z.gtb_spec blength 0); [|lia].
  assert (Hs2 :
    (if pv <? 27 then Ok csum_length
     else if csum_length =? SUM_LENGTH then Ok SUM_LENGTH
     else
       '(l, b) ← while_loop (bit_fuel file_length)
           (fun '(l, b) => l >? 0)
           (fun '(l, b) => (Z.shiftr l 1, b + 2))
           (file_length, BLOCKSUM_BIAS);
       '(c, b) ← while_loop (bit_fuel blength)
           (fun '(c, b) => negb (Z.shiftr c 1 =? 0) && negb (b =? 0))
           (fun '(c, b) => (Z.shiftr c 1, b - 1))
           (blength, b);
       Ok (Z.min (Z.max ((b + 1 - 32 + 7) / 8) csum_length) SUM_LENGTH))
    = Ok (strong_sum_length file_length pv blength csum_length)).
  { unfold strong_sum_length. cbv zeta.
    destruct (pv <? 27); [reflexivity|].
    destruct (csum_length =? SUM_LENGTH); [reflexivity|].
    rewrite halving_loop_exact by exact Hfl. cbn [mbind result_bind].
    pose proof (bit_length_nonneg file_length).
    destruct (bias_loop_exact blength (BLOCKSUM_BIAS + 2 * bit_length file_length))
      as (c & ->); [exact Hpos|unfold BLOCKSUM_BIAS; lia|].
    reflexivity. }
  rewrite Hs2. reflexivity.
Qed.

End BlockSizes.

(** X7: for every non-negative file length [sum_sizes_sqroot] returns (its
    loops end within their bounds).  The block length is the fixed block size
    when one is given; otherwise it is 700 up to 490000 bytes, then the
    integer square root of the file length rounded down to a multiple of 8
    (never below 700), and the protocol's maximum block size once the file
    length reaches a quarter of its square.  [count] is the number of blocks,
    ceil(file_length / blength), and [remainder] is
    [file_length mod blength]. *)
Theorem sum_sizes_block_length (file_length pv fixed csum_length xfer_sum_len : Z) :
  0 <= file_length ->
  exists sizes,
    sum_sizes_sqroot file_length pv fixed csum_length xfer_sum_len = Ok sizes
    /\ SumSizes.flength sizes = file_length
    /\ 0 < SumSizes.blength sizes
    /\ (0 < fixed -> SumSizes.blength sizes = fixed)
    /\ (fixed <= 0 ->
        let max_blength := if pv <? 30 then OLD_MAX_BLOCK_SIZE else MAX_BLOCK_SIZE in
        BLOCK_SIZE <= SumSizes.blength sizes <= max_blength
        /\ (file_length <= BLOCK_SIZE * BLOCK_SIZE ->
            SumSizes.blength sizes = BLOCK_SIZE)
        /\ (BLOCK_SIZE * BLOCK_SIZE < file_length ->
            4 * file_length < max_blength * max_blength ->
            SumSizes.blength sizes = Z.max (8 * (Z.sqrt file_length / 8)) BLOCK_SIZE
            /\ SumSizes.blength sizes * SumSizes.blength sizes <= file_length
               < (SumSizes.blength sizes + 8) * (SumSizes.blength sizes + 8))
        /\ (max_blength * max_blength <= 4 * file_length ->
            SumSizes.blength sizes = max_blength))
    /\ SumSizes.remainder sizes = file_length mod SumSizes.blength sizes
    /\ SumSizes.count sizes = block_count file_length (SumSizes.blength sizes)
    /\ file_length <= SumSizes.count sizes * SumSizes.blength sizes
       < file_length + SumSizes.blength sizes.
Proof.
  intros Hfl.
  destruct (sum_sizes_sqroot_closed file_length pv fixed csum_length xfer_sum_len Hfl)
    as [Hpos Heq].
  eexists. split; [exact Heq|].
  cbn [SumSizes.flength SumSizes.blength SumSizes.remainder SumSizes.count].
  set (bl := sqrt_block_length file_length pv fixed) in *.
  pose proof (Z.div_mod file_length bl ltac:(lia)) as Hdm.
  pose proof (Z.mod_pos_bound file_length bl Hpos) as Hmod.
  assert (Hcount : file_length / bl + (if file_length mod bl =? 0 then 0 else 1)
                   = block_count file_length bl).
  { unfold block_count. destruct (Z.eqb_spec (file_length mod bl) 0) as [E|E].
    - apply Z.div_unique with (r := bl - 1); lia.
    - apply Z.div_unique with (r := file_length mod bl - 1); lia. }
  split; [reflexivity|]. split; [exact Hpos|].
  split; [|split; [|split; [reflexivity|split; [exact Hcount|]]]].
  - intros Hfix. unfold bl, sqrt_block_length.
    destruct (Z.gtb_spec fixed 0); [reflexivity|lia].
  - intros Hfix. cbv zeta. unfold bl, sqrt_block_length. cbv zeta.
    destruct (Z.gtb_spec fixed 0); [lia|].
    set (maxb := if pv <? 30 then OLD_MAX_BLOCK_SIZE else MAX_BLOCK_SIZE).
    assert (Hmaxb : maxb = 8192 \/ maxb = 131072)
      by (unfold maxb; destruct (pv <? 30); [left|right]; reflexivity).
    unfold BLOCK_SIZE.
    pose proof (Z.sqrt_spec file_length Hfl) as Hs. cbv zeta in Hs.
    pose proof (Z.sqrt_nonneg file_length) as Hs0.
    set (s := Z.sqrt file_length) in *.
    pose proof (Z.div_mod s 8 ltac:(lia)) as Hs8.
    pose proof (Z.mod_pos_bound s 8 ltac:(lia)) as Hs8'.
    destruct (Z.leb_spec file_length (700 * 700)) as [Hsmall|Hlarge].
    { split; [lia|]. split; [reflexivity|]. split; [lia|].
      intros Hbig. exfalso. nia. }
    destruct (Z.leb_spec (maxb * maxb) (4 * file_length)) as [Hbig|Hmid].
    { split; [lia|]. split; [lia|]. split; [lia|reflexivity]. }
    assert (H700 : 700 <= s).
    { destruct (Z.lt_ge_cases s 700); [|assumption].
      assert ((s + 1) * (s + 1) <= 700 * 700)
        by (apply Z.mul_le_mono_nonneg; lia). lia. }
    assert (Hhalf : 2 * s < maxb).
    { destruct (Z.lt_ge_cases (2 * s) maxb); [assumption|].
      assert (maxb * maxb <= (2 * s) * (2 * s))
        by (apply Z.mul_le_mono_nonneg; lia). lia. }
    split; [lia|]. split; [lia|]. split; [|lia].
    intros _ _. split; [reflexivity|].
    set (r := 8 * (s / 8)) in *.
    assert (Hr : s - 8 < r <= s) by lia.
    destruct (Z.max_spec r 700) as [[Hlt ->]|[Hge ->]].
    + split; [lia|].
      assert ((s + 1) * (s + 1) <= (700 + 8) * (700 + 8))
        by (apply Z.mul_le_mono_nonneg; lia). lia.
    + split.
      * assert (r * r <= s * s) by (apply Z.mul_le_mono_nonneg; lia). lia.
      * assert ((s + 1) * (s + 1) <= (r + 8) * (r + 8))
          by (apply Z.mul_le_mono_nonneg; lia). lia.
  - rewrite Hcount. unfold block_count.
    pose proof (Z.div_mod (file_length + bl - 1) bl ltac:(lia)).
    pose proof (Z.mod_pos_bound (file_length + bl - 1) bl Hpos). nia.
Qed.

Lemma sum_sizes_block_length_witness :
  exists sizes,
    sum_sizes_sqroot 1000000 31 0 2 16 = Ok sizes
    /\ SumSizes.blength sizes = 1000
    /\ SumSizes.count sizes = 1000
    /\ SumSizes.remainder sizes = 0.
Proof.
  destruct (sum_sizes_block_length 1000000 31 0 2 16)
    as (sizes & Heq & _ & _ & _ & Hb & Hrem & Hcount & _); [lia|].
  destruct (Hb ltac:(lia)) as (_ & _ & Hsq & _).
  destruct Hsq as [Hbl _]; [reflexivity|reflexivity|].
  exists sizes. split; [exact Heq|].
  assert (Hbl' : SumSizes.blength sizes = 1000) by (rewrite Hbl; reflexivity).
  split; [exact Hbl'|]. rewrite Hcount, Hrem, Hbl'. split; reflexivity.
Defined.

(** X8: the strong-checksum length [sum_sizes_sqroot] chooses.  Before
    protocol 27, or when the caller asks for the full 16 bytes, it is the
    requested length; otherwise it is
    [(10 + 2 * bit_length(file_length) - log2(blength) - 24) // 8] (the
    subtraction of [log2(blength)] stopping at zero), raised to the requested
    length and capped at 16.  In every case the result is then made
    non-negative and capped at [xfer_sum_len] when that is positive. *)
Theorem sum_sizes_strong_length (file_length pv fixed csum_length xfer_sum_len : Z) :
  0 <= file_length ->
  exists sizes,
    sum_sizes_sqroot file_length pv fixed csum_length xfer_sum_len = Ok sizes
    /\ SumSizes.s2length sizes
       = clip_s2length xfer_sum_len
           (strong_sum_length file_length pv (SumSizes.blength sizes) csum_length)
    /\ 0 <= SumSizes.s2length sizes
    /\ (0 < xfer_sum_len -> SumSizes.s2length sizes <= xfer_sum_len)
    /\ (27 <= pv -> SumSizes.s2length sizes <= SUM_LENGTH)
    /\ (27 <= pv -> 0 <= csum_length <= SUM_LENGTH ->
        xfer_sum_len <= 0 \/ csum_length <= xfer_sum_len ->
        csum_length <= SumSizes.s2length sizes)
    /\ (pv < 27 \/ csum_length = SUM_LENGTH ->
        SumSizes.s2length sizes = clip_s2length xfer_sum_len csum_length).
Proof.
  intros Hfl.
  destruct (sum_sizes_sqroot_closed file_length pv fixed csum_length xfer_sum_len Hfl)
    as [Hpos Heq].
  eexists. split; [exact Heq|].
  cbn [SumSizes.s2length SumSizes.blength].
  set (bl := sqrt_block_length file_length pv fixed) in *.
  set (raw := strong_sum_length file_length pv bl csum_length).
  assert (Hclip : forall s,
            0 <= clip_s2length xfer_sum_len s
            /\ (0 < xfer_sum_len -> clip_s2length xfer_sum_len s <= xfer_sum_len)
            /\ clip_s2length xfer_sum_len s <= Z.max 0 s
            /\ (0 <= s -> xfer_sum_len <= 0 \/ s <= xfer_sum_len ->
                clip_s2length xfer_sum_len s = s)
            /\ (forall c, 0 <= c <= s -> xfer_sum_len <= 0 \/ c <= xfer_sum_len ->
                          c <= clip_s2length xfer_sum_len s)).
  { intros s. unfold clip_s2length. cbv zeta.
    destruct (Z.ltb_spec s 0); destruct (Z.gtb_spec xfer_sum_len 0); cbn [andb];
      try match goal with |- context [?a >? ?b] => destruct (Z.gtb_spec a b) end;
      repeat split; intros; lia. }
  assert (Hraw : (27 <= pv -> raw <= SUM_LENGTH
                              /\ (csum_length <= SUM_LENGTH -> csum_length <= raw))
                 /\ (pv < 27 \/ csum_length = SUM_LENGTH -> raw = csum_length)).
  { unfold raw, strong_sum_length. cbv zeta.
    destruct (Z.ltb_spec pv 27); [split; [lia|reflexivity]|].
    destruct (Z.eqb_spec csum_length SUM_LENGTH) as [->|Hne];
      [split; [lia|reflexivity]|].
    split; [|lia]. intros _. lia. }
  destruct (Hclip raw) as (H0 & Hx & Hmax & Hid & Hlow).
  destruct Hraw as [Hraw27 Hrawid].
  split; [reflexivity|]. split; [exact H0|]. split; [exact Hx|].
  split; [|split].
  - intros Hpv. destruct (Hraw27 Hpv) as [Hle _]. unfold SUM_LENGTH in *. lia.
  - intros Hpv Hc Hxf. destruct (Hraw27 Hpv) as [_ Hge].
    apply Hlow; [lia|exact Hxf].
  - intros Hc. rewrite (Hrawid Hc). reflexivity.
Qed.

Lemma sum_sizes_strong_length_witness :
  exists sizes,
    sum_sizes_sqroot 1000000 31 0 2 16 = Ok sizes
    /\ SumSizes.s2length sizes = 2.
Proof.
  destruct (sum_sizes_strong_length 1000000 31 0 2 16)
    as (sizes & Heq & Hs2 & _); [lia|].
  exists sizes. split; [exact Heq|].
  pose proof Heq as Heq'. vm_compute in Heq'. inversion Heq'. subst sizes.
  reflexivity.
Defined.


(** ** The deltas [generate_delta] returns *)

Section DeltaAccounting.

Import ChecksumEngine.

Variables (cfg : Config) (self : t) (S : ChecksumSignature) (X : bytes).

Lemma matched_bytes_cons_match (m : DeltaMatch) (ins : list instruction) :
  matched_bytes_of (("match"%string, IsMatch m) :: ins)
  = DeltaMatch.length m + matched_bytes_of ins.
Proof. reflexivity. Qed.

Lemma matched_bytes_cons_literal (cmd : string) (l : DeltaLiteral)
      (ins : list instruction) :
  matched_bytes_of ((cmd, IsLiteral l) :: ins) = matched_bytes_of ins.
Proof. reflexivity. Qed.

Lemma literal_bytes_cons_literal (l : DeltaLiteral) (ins : list instruction) :
  literal_bytes_of (("literal"%string, IsLiteral l) :: ins)
  = len (DeltaLiteral.data l) + literal_bytes_of ins.
Proof. reflexivity. Qed.

Lemma literal_bytes_cons_match (cmd : string) (m : DeltaMatch)
      (ins : list instruction) :
  literal_bytes_of ((cmd, IsMatch m) :: ins) = literal_bytes_of ins.
Proof. reflexivity. Qed.

Lemma instr_accounting (ins : list instruction) :
  Forall (sound_instr cfg self S X) ins ->
  forall a b, covers ins a b ->
    matched_bytes_of ins + literal_bytes_of ins = b - a
    /\ 0 <= matched_bytes_of ins /\ 0 <= literal_bytes_of ins.
Proof.
  induction 1 as [|ci ins Hci _ IH]; intros a b Hcov.
  - cbn in Hcov. subst b. cbn. lia.
  - cbn [covers] in Hcov. destruct Hcov as (_ & Hl & Hcov).
    destruct (IH _ _ Hcov) as (Hsum & Hm & Hlit).
    destruct ci as [cmd [m|l]]; cbn [sound_instr] in Hci;
      cbn [instr_length] in Hl, Hsum; destruct Hci as (-> & _).
    + rewrite matched_bytes_cons_match, literal_bytes_cons_match. lia.
    + rewrite matched_bytes_cons_literal, literal_bytes_cons_literal. lia.
Qed.

Lemma instr_tags (ins : list instruction) :
  Forall (sound_instr cfg self S X) ins ->
  sum_Z (map (fun _ => 1)
             (List.filter (fun ci : instruction => bool_decide (ci.1 = "match"%string)) ins))
  + sum_Z (map (fun _ => 1)
               (List.filter (fun ci : instruction => bool_decide (ci.1 = "literal"%string)) ins))
  = len ins.
Proof.
  induction 1 as [|ci ins Hci _ IH]; [reflexivity|].
  unfold len in *. cbn [length]. rewrite Nat2Z.inj_succ.
  destruct ci as [cmd [m|l]]; cbn [sound_instr] in Hci; destruct Hci as (-> & _);
    cbn [List.filter fst].
  - rewrite (bool_decide_eq_true_2 ("match" = "match")%string) by reflexivity.
    rewrite (bool_decide_eq_false_2 ("match" = "literal")%string) by discriminate.
    unfold sum_Z in *. cbn [map fold_right]. lia.
  - rewrite (bool_decide_eq_true_2 ("literal" = "literal")%string) by reflexivity.
    rewrite (bool_decide_eq_false_2 ("literal" = "match")%string) by discriminate.
    unfold sum_Z in *. cbn [map fold_right]. lia.
Qed.

Lemma generate_delta_inv (lib : HashLib) (D : DeltaInstructions) :
  generate_delta lib cfg self S X = Ok D ->
  exists st,
    match_instructions cfg self S X = Ok st
    /\ DeltaInstructions.original_file_size D = ChecksumSignature.file_size S
    /\ DeltaInstructions.new_file_size D = len X
    /\ DeltaInstructions.block_size D = ChecksumSignature.block_size S
    /\ DeltaInstructions.instructions D = instructions st
    /\ DeltaInstructions.compression_ratio D
       = (let total := matched_bytes_of (instructions st)
                       + literal_bytes_of (instructions st) in
          if total >? 0
          then Qmake (matched_bytes_of (instructions st)) (Z.to_pos total)
          else 0%Q)
    /\ DeltaInstructions.stats D
       = (if COLLECT_STATS cfg || DEBUG_PARITY cfg
          then Some (SyncStats.mk (local_false_alarms st) (local_hash_hits st)
                       (local_matches st) (literal_bytes_of (instructions st))
                       (matched_bytes_of (instructions st)))
          else None).
Proof.
  intros HD. destruct (match_instructions_spec cfg self S X) as (st & Hst & _).
  exists st. split; [exact Hst|].
  unfold generate_delta in HD.
  destruct (validate_data X (Some MAX_FILE_SIZE_IN_MEMORY)); [|discriminate].
  cbn [mbind result_bind] in HD. rewrite Hst in HD. cbn [mbind result_bind] in HD.
  cbv zeta in HD.
  destruct (COMPUTE_SENDER_FILE_SUM cfg).
  - destruct (whole_file_sum _ _ _ _ _); [|discriminate].
    cbn [mbind result_bind] in HD. inversion HD. cbn. repeat split.
  - cbn [mbind result_bind] in HD. inversion HD. cbn. repeat split.
Qed.

End DeltaAccounting.

(** X9: in every delta that [generate_delta] returns, the byte counters add
    up to the new file ([matched_bytes + literal_bytes = len(new)], and the
    same in the statistics when they are collected), every instruction is
    counted as a match or as a literal, and the compression ratio is
    [matched_bytes / len(new)], between 0 and 1.  A literal carries the bytes
    of the new file at its offset; a match names a block that exists in the
    signature and whose truncated strong checksum and weak checksum are
    those of the window of the new file it replaces (the weak checksum is
    not compared for the one window the aligned fast path of the
    updating-basis mode moves to: a full window at the start of a full block
    of weak checksum 0). *)
Theorem generate_delta_accounting (lib : HashLib) (cfg : Config)
        (self : ChecksumEngine.t) (S : ChecksumSignature) (X : bytes)
        (D : DeltaInstructions) :
  ChecksumEngine.generate_delta lib cfg self S X = Ok D ->
  DeltaInstructions.new_file_size D = len X
  /\ DeltaInstructions.original_file_size D = ChecksumSignature.file_size S
  /\ DeltaInstructions.block_size D = ChecksumSignature.block_size S
  /\ matched_bytes D + literal_bytes D = len X
  /\ 0 <= matched_bytes D /\ 0 <= literal_bytes D
  /\ num_matches D + num_literals D = len (DeltaInstructions.instructions D)
  /\ DeltaInstructions.compression_ratio D
     = (if len X >? 0 then Qmake (matched_bytes D) (Z.to_pos (len X)) else 0%Q)
  /\ (0 <= DeltaInstructions.compression_ratio D <= 1)%Q
  /\ (forall st, DeltaInstructions.stats D = Some st ->
                 SyncStats.literal_data st = literal_bytes D
                 /\ SyncStats.matched_data st = matched_bytes D)
  /\ Forall (sound_instr cfg self S X) (DeltaInstructions.instructions D).
Proof.
  intros HD.
  destruct (generate_delta_inv cfg self S X lib D HD)
    as (st & Hst & Hof & Hnf & Hbs & Hins & Hratio & Hstats).
  destruct (match_instructions_spec cfg self S X) as (st' & Hst' & Hcov & Hsound).
  rewrite Hst in Hst'. inversion Hst'. subst st'.
  destruct (instr_accounting cfg self S X _ Hsound _ _ Hcov) as (Hsum & Hm & Hl).
  rewrite Z.sub_0_r in Hsum.
  unfold matched_bytes, literal_bytes, num_matches, num_literals.
  rewrite Hins, Hratio, Hstats. cbv zeta. rewrite Hsum.
  split; [exact Hnf|]. split; [exact Hof|]. split; [exact Hbs|].
  split; [reflexivity|]. split; [exact Hm|]. split; [exact Hl|].
  split; [apply (instr_tags cfg self S X); exact Hsound|].
  split; [reflexivity|].
  split.
  - destruct (Z.gtb_spec (len X) 0) as [Hpos|_].
    + unfold Qle. cbn [Qnum Qden]. rewrite Z2Pos.id by lia. lia.
    + split; discriminate.
  - split; [|exact Hsound].
    intros st0 Hst0. destruct (COLLECT_STATS cfg || DEBUG_PARITY cfg); [|discriminate].
    inversion Hst0. split; reflexivity.
Qed.

Lemma generate_delta_accounting_witness :
  exists D,
    ChecksumEngine.generate_delta example_lib default_config example_engine
      (signature_of example_engine (map Z.of_nat (seq 0 40)) 2)
      (map Z.of_nat (seq 0 40) ++ [7; 7; 7]) = Ok D
    /\ matched_bytes D + literal_bytes D = 43
    /\ (0 <= DeltaInstructions.compression_ratio D <= 1)%Q.
Proof.
  destruct (ChecksumEngine.generate_delta example_lib default_config example_engine
              (signature_of example_engine (map Z.of_nat (seq 0 40)) 2)
              (map Z.of_nat (seq 0 40) ++ [7; 7; 7])) as [D|e] eqn:E.
  - exists D. split; [reflexivity|].
    destruct (generate_delta_accounting _ _ _ _ _ _ E)
      as (_ & _ & _ & Hsum & _ & _ & _ & _ & Hq & _).
    split; [exact Hsum|exact Hq].
  - exfalso. vm_compute in E. discriminate E.
Defined.

Section NoBlocks.

Import ChecksumEngine.


End NoBlocks.




(** ** More of the wire codec *)

Section FixedWidth.

Import ProtocolIO.

Lemma le_value_le_bytes_small (n : nat) (v : Z) :
  0 <= v < 2 ^ (8 * Z.of_nat n) -> le_value (le_bytes n v) = v.
Proof. intros H. rewrite le_value_le_bytes. apply Z.mod_small. exact H. Qed.

Lemma read_le_bytes (n : nat) (v : Z) (rest : bytes) :
  Z.of_nat n <= IOBUFFER_SIZE ->
  read_bytes (Z.of_nat n) (le_bytes n v ++ rest) = Ok (le_bytes n v, rest).
Proof.
  intros H. apply read_bytes_app'; [|exact H].
  rewrite len_le_bytes. reflexivity.
Qed.

End FixedWidth.

(** X11: the fixed-width integers of the wire.  [write_uint], [write_long],
    [write_int] and [write_byte] accept exactly the values of their width
    (unsigned 32 bits, signed 64 and 32 bits, one unsigned byte) and raise
    struct.error, or ValueError for the byte, on any other; on an accepted
    value they emit 4, 8, 4 and 1 bytes which the matching reader turns back
    into the value, leaving the rest of the stream.  [write_shortint] never
    fails: it sends the low 16 bits, and [read_shortint] returns
    [value mod 65536]. *)
Theorem fixed_width_roundtrip (v : Z) (rest : bytes) :
  (0 <= v < 2 ^ 32 ->
   exists w, write_uint v = Ok w /\ len w = 4 /\ read_uint (w ++ rest) = Ok (v, rest))
  /\ (~ 0 <= v < 2 ^ 32 -> write_uint v = Err StructError)
  /\ (- 2 ^ 63 <= v < 2 ^ 63 ->
      exists w, write_long v = Ok w /\ len w = 8
                /\ read_long (w ++ rest) = Ok (v, rest))
  /\ (~ - 2 ^ 63 <= v < 2 ^ 63 -> write_long v = Err StructError)
  /\ (- 2 ^ 31 <= v < 2 ^ 31 ->
      exists w, ProtocolIO.write_int v = Ok w /\ len w = 4
                /\ ProtocolIO.read_int (w ++ rest) = Ok (v, rest))
  /\ (~ - 2 ^ 31 <= v < 2 ^ 31 -> ProtocolIO.write_int v = Err StructError)
  /\ (exists w, write_shortint v = Ok w /\ len w = 2
                /\ read_shortint (w ++ rest) = Ok (v mod 65536, rest))
  /\ (0 <= v < 256 ->
      exists w, write_byte v = Ok w /\ len w = 1
                /\ ProtocolIO.read_byte (w ++ rest) = Ok (v, rest))
  /\ (~ 0 <= v < 256 -> write_byte v = Err ValueError).
Proof.
  assert (Hin : forall a b, a <= v < b -> (a <=? v) && (v <? b) = true)
    by (intros; apply andb_true_iff; lia).
  assert (Hout : forall a b, ~ a <= v < b -> (a <=? v) && (v <? b) = false)
    by (intros; apply andb_false_iff; lia).
  repeat split.
  - intros Hv. unfold write_uint, pack_u32. rewrite Hin by exact Hv.
    eexists. split; [reflexivity|]. split; [apply len_le_bytes|].
    unfold read_uint. rewrite (read_le_bytes 4) by (unfold ProtocolIO.IOBUFFER_SIZE; lia).
    cbn [mbind result_bind]. rewrite le_value_le_bytes_small by exact Hv.
    reflexivity.
  - intros Hv. unfold write_uint, pack_u32. rewrite Hout by exact Hv. reflexivity.
  - intros Hv. unfold write_long, pack_i64. rewrite Hin by exact Hv.
    eexists. split; [reflexivity|]. split; [apply len_le_bytes|].
    unfold read_long. rewrite (read_le_bytes 8) by (unfold ProtocolIO.IOBUFFER_SIZE; lia).
    cbn [mbind result_bind]. rewrite le_signed_le_bytes_8 by exact Hv.
    reflexivity.
  - intros Hv. unfold write_long, pack_i64. rewrite Hout by exact Hv. reflexivity.
  - intros Hv. destruct (read_int_write_int v rest Hv) as (w & Hw & Hl & Hr). eauto.
  - intros Hv. unfold ProtocolIO.write_int, pack_i32. rewrite Hout by exact Hv.
    reflexivity.
  - unfold write_shortint. eexists. split; [reflexivity|].
    split; [apply len_le_bytes|].
    unfold read_shortint. rewrite (read_le_bytes 2) by (unfold ProtocolIO.IOBUFFER_SIZE; lia).
    cbn [mbind result_bind]. rewrite land_FFFF.
    rewrite le_value_le_bytes_small by (apply mod65536_range). reflexivity.
  - intros Hv. unfold write_byte. rewrite Hin by exact Hv.
    eexists. split; [reflexivity|]. split; [reflexivity|].
    apply read_byte_cons.
  - intros Hv. unfold write_byte. rewrite Hout by exact Hv. reflexivity.
Qed.

Section Vstring.

Import ProtocolIO.

Lemma write_vstring_short (data : bytes) :
  len data <= 127 -> write_vstring data = Ok (len data :: data).
Proof.
  intros H. pose proof (len_nonneg data). unfold write_vstring. cbv zeta.
  destruct (Z.gtb_spec (len data) 0x7FFF); [lia|].
  destruct (Z.gtb_spec (len data) 0x7F); [lia|]. cbn [mbind result_bind].
  unfold write_byte.
  replace ((0 <=? len data) && (len data <? 256)) with true
    by (symmetry; apply andb_true_iff; lia).
  cbn [mbind result_bind app]. f_equal. f_equal.
  destruct (Z.eqb_spec (len data) 0); [|reflexivity].
  destruct data as [|x data]; [reflexivity|].
  pose proof (len_nonneg data). rewrite len_cons in *. lia.
Qed.

Lemma write_vstring_medium (data : bytes) :
  127 < len data <= 255 -> write_vstring data = Ok (0x80 :: len data :: data).
Proof.
  intros H. unfold write_vstring. cbv zeta.
  destruct (Z.gtb_spec (len data) 0x7FFF); [lia|].
  destruct (Z.gtb_spec (len data) 0x7F); [|lia].
  rewrite Z.div_small by lia. unfold write_byte.
  change ((0 <=? 0 + 128) && (0 + 128 <? 256)) with true.
  cbn [mbind result_bind].
  replace ((0 <=? len data) && (len data <? 256)) with true
    by (symmetry; apply andb_true_iff; lia).
  cbn [mbind result_bind app].
  destruct (Z.eqb_spec (len data) 0); [lia|]. reflexivity.
Qed.

Lemma read_vstring_body (n bufsize : Z) (data rest : bytes) :
  n = len data -> n <= 255 ->
  (if n >=? bufsize then Err ProtocolError
   else if negb (n =? 0) then read_bytes n (data ++ rest)
        else Ok ([], data ++ rest))
  = (if n >=? bufsize then Err ProtocolError else Ok (data, rest)).
Proof.
  intros -> Hn. destruct (len data >=? bufsize); [reflexivity|].
  destruct (Z.eqb_spec (len data) 0) as [E|E]; cbn [negb].
  - destruct data; [reflexivity|]. rewrite len_cons in E.
    pose proof (len_nonneg data). lia.
  - apply read_bytes_app. unfold IOBUFFER_SIZE. lia.
Qed.

End Vstring.

(** X12: vstrings (a one- or two-byte length, then the bytes).  A string of
    up to 127 bytes is sent with a one-byte length and one of 128 to 255
    bytes with the two bytes [0x80, length]; [read_vstring] returns the bytes
    when the length is below its buffer size and raises ProtocolError
    otherwise.  A string of 256 to 32767 bytes cannot be sent, because its
    length is handed to [write_byte] as a whole: [write_vstring] raises
    ValueError; above 32767 bytes it raises ProtocolError. *)
Theorem vstring_roundtrip (data rest : bytes) (bufsize : Z) :
  (len data <= 255 ->
   exists w,
     write_vstring data = Ok w
     /\ len w = len data + (if len data <=? 127 then 1 else 2)
     /\ (len data < bufsize -> read_vstring bufsize (w ++ rest) = Ok (data, rest))
     /\ (bufsize <= len data ->
         read_vstring bufsize (w ++ rest) = Err ProtocolError))
  /\ (256 <= len data <= 0x7FFF -> write_vstring data = Err ValueError)
  /\ (0x7FFF < len data -> write_vstring data = Err ProtocolError).
Proof.
  pose proof (len_nonneg data) as Hn. repeat split.
  - intros Hlen. destruct (Z.leb_spec (len data) 127) as [Hs|Hm].
    + rewrite write_vstring_short by exact Hs.
      eexists. split; [reflexivity|]. split; [rewrite len_cons; lia|].
      assert (Hread : read_vstring bufsize ((len data :: data) ++ rest)
                      = (if len data >=? bufsize then Err ProtocolError
                         else Ok (data, rest))).
      { unfold read_vstring. cbn [app]. rewrite read_byte_cons.
        cbn [mbind result_bind].
        assert (Z.land (len data) 0x80 = 0) as ->.
        { apply Z.bits_inj'. intros i Hi. rewrite Z.land_spec, Z.bits_0.
          destruct (Z.eq_dec i 7) as [->|Hne].
          - replace (Z.testbit (len data) 7) with false; [reflexivity|].
            symmetry. apply Z.bits_above_log2; [lia|].
            destruct (Z.eq_dec (len data) 0) as [->|]; [reflexivity|].
            apply Z.log2_lt_pow2; lia.
          - replace (Z.testbit 128 i) with false; [apply andb_false_r|].
            symmetry. change 128 with (2 ^ 7). apply Z.pow2_bits_false. lia. }
        cbn [negb Z.eqb mbind result_bind].
        apply read_vstring_body; [reflexivity|lia]. }
      rewrite Hread. split; intros Hb.
      * destruct (Z.geb_spec (len data) bufsize); [lia|reflexivity].
      * destruct (Z.geb_spec (len data) bufsize); [reflexivity|lia].
    + rewrite write_vstring_medium by lia.
      eexists. split; [reflexivity|]. split; [rewrite !len_cons; lia|].
      assert (Hread : read_vstring bufsize ((0x80 :: len data :: data) ++ rest)
                      = (if len data >=? bufsize then Err ProtocolError
                         else Ok (data, rest))).
      { unfold read_vstring. cbn [app]. rewrite read_byte_cons.
        cbn [mbind result_bind].
        change (Z.land 128 128 =? 0) with false. cbn [negb].
        rewrite read_byte_cons. cbn [mbind result_bind].
        change (Z.land 128 (Z.lnot 128) * 256) with 0. rewrite Z.add_0_l.
        apply read_vstring_body; [reflexivity|lia]. }
      rewrite Hread. split; intros Hb.
      * destruct (Z.geb_spec (len data) bufsize); [lia|reflexivity].
      * destruct (Z.geb_spec (len data) bufsize); [reflexivity|lia].
  - intros Hlen. unfold write_vstring. cbv zeta.
    destruct (Z.gtb_spec (len data) 0x7FFF); [lia|].
    destruct (Z.gtb_spec (len data) 0x7F); [|lia].
    unfold write_byte.
    assert (0 <= len data / 256 < 128).
    { split; [apply Z.div_pos; lia|]. apply Z.div_lt_upper_bound; lia. }
    replace ((0 <=? len data / 256 + 128) && (len data / 256 + 128 <? 256))
      with true by (symmetry; apply andb_true_iff; lia).
    cbn [mbind result_bind].
    replace ((0 <=? len data) && (len data <? 256)) with false
      by (symmetry; apply andb_false_iff; lia).
    reflexivity.
  - intros Hlen. unfold write_vstring. cbv zeta.
    destruct (Z.gtb_spec (len data) 0x7FFF); [reflexivity|lia].
Qed.

Lemma vstring_roundtrip_witness :
  exists w, write_vstring [104; 105] = Ok w
            /\ read_vstring MAX_NSTR_STRLEN (w ++ [1; 2]) = Ok ([104; 105], [1; 2]).
Proof.
  destruct (vstring_roundtrip [104; 105] [1; 2] MAX_NSTR_STRLEN) as [H _].
  destruct H as (w & Hw & _ & Hr & _); [vm_compute; congruence|].
  exists w. split; [exact Hw|]. apply Hr. reflexivity.
Defined.

Section VarintAny.

Import ProtocolIO.

Lemma len_py_slice_prefix {A} (l : list A) (c : Z) :
  0 <= c <= len l -> len (py_slice l 0 c) = c.
Proof.
  intros H. unfold py_slice, slice_bound.
  destruct (Z.ltb_spec 0 0); [lia|]. destruct (Z.ltb_spec c 0); [lia|].
  rewrite (Z.min_l 0), (Z.min_l c) by lia.
  unfold len in *. rewrite length_take, length_drop. lia.
Qed.

(** The writers emit between [min_bytes] and [start + 1] bytes. *)
Lemma encode_prefix_len (b : bytes) (start mb : Z) (w : bytes) :
  len b = start + 1 -> 1 <= mb <= start ->
  encode_prefix b start mb = Ok w -> mb <= len w <= start + 1.
Proof.
  intros Hb Hmb. unfold encode_prefix.
  destruct (strip_loop_spec b mb (Z.to_nat start) start) as (cnt & -> & Hc & _);
    [lia|lia|].
  cbn [mbind result_bind].
  assert (Hlen : forall x, len (set_byte b 0 x) = start + 1).
  { intros x. unfold set_byte, len in *. rewrite length_insert. exact Hb. }
  destruct (_ >=? _); [|destruct (_ >? _)]; intros Hw; inversion Hw; subst w;
    rewrite len_py_slice_prefix by (rewrite Hlen; lia); lia.
Qed.

Lemma land_mask_wrap (v : Z) :
  Z.land (wrap_int32 v) 0xFFFFFFFF = Z.land v 0xFFFFFFFF.
Proof.
  change 0xFFFFFFFF with (Z.ones 32). rewrite !Z.land_ones by lia.
  unfold wrap_int32. change (2 ^ 32) with 4294967296.
  change (2 ^ 31) with 2147483648. Z.div_mod_to_equations. lia.
Qed.

Lemma wrap_int32_range (v : Z) : - 2 ^ 31 <= wrap_int32 v < 2 ^ 31.
Proof.
  unfold wrap_int32. pose proof (Z.mod_pos_bound (v + 2 ^ 31) (2 ^ 32) ltac:(lia)).
  change (2 ^ 32) with (2 * 2 ^ 31) in *. lia.
Qed.

Lemma write_varint_small :
  all_below 128 (fun v => match write_varint v with
                          | Ok w => bool_decide (w = [v])
                          | Err _ => false
                          end) = true.
Proof. vm_compute. reflexivity. Qed.

End VarintAny.

(** X13: [write_varint] accepts every integer, because it masks its
    argument to 32 bits: it emits between one and five bytes, and
    [read_varint] reads them back as the 32-bit two's-complement value of the
    argument (the argument itself when that is an int32).  A value from 0 to
    127 is sent as the single byte of that value. *)
Theorem write_varint_any (v : Z) :
  exists w,
    ProtocolIO.write_varint v = Ok w
    /\ 1 <= len w <= 5
    /\ (forall rest, ProtocolIO.read_varint (w ++ rest) = Ok (wrap_int32 v, rest))
    /\ (- 2 ^ 31 <= v < 2 ^ 31 -> wrap_int32 v = v)
    /\ (0 <= v < 128 -> w = [v]).
Proof.
  destruct (write_read_varint (wrap_int32 v) (wrap_int32_range v)) as (w & Hw & Hr).
  assert (Hsame : ProtocolIO.write_varint v = ProtocolIO.write_varint (wrap_int32 v)).
  { unfold ProtocolIO.write_varint. rewrite land_mask_wrap. reflexivity. }
  exists w. split; [congruence|]. split.
  - rewrite <- Hsame in Hw. unfold ProtocolIO.write_varint in Hw.
    destruct (pack_u32 (Z.land v 0xFFFFFFFF)) as [packed|] eqn:Ep; [|discriminate].
    cbn [mbind result_bind] in Hw.
    apply encode_prefix_len in Hw; [lia| |lia].
    unfold pack_u32 in Ep. destruct (_ && _); [|discriminate].
    inversion Ep. reflexivity.
  - split; [exact Hr|]. split.
    + intros Hv. unfold wrap_int32. change (2 ^ 32) with (2 * 2 ^ 31).
      rewrite Z.mod_small by lia. lia.
    + intros Hv. pose proof (all_below_spec 128 _ write_varint_small v ltac:(lia)) as Hs.
      cbv beta in Hs. rewrite Hsame, Hw in Hs.
      apply bool_decide_eq_true_1 in Hs. exact Hs.
Qed.

(** X14: the protocol-switched integers.  [write_varint30] and
    [write_varlong30] send a fixed-width integer (4 and 8 bytes) before
    protocol 30 and a varint or varlong from protocol 30 on; read with the
    same protocol version, either form gives back the value. *)
Theorem varint30_roundtrip (protocol_version v32 v64 min_bytes : Z) (rest : bytes) :
  - 2 ^ 31 <= v32 < 2 ^ 31 ->
  - 2 ^ 63 <= v64 < 2 ^ 63 ->
  3 <= min_bytes <= 8 ->
  (exists w,
      write_varint30 v32 protocol_version = Ok w
      /\ read_varint30 protocol_version (w ++ rest) = Ok (v32, rest)
      /\ (protocol_version < 30 -> w = le_bytes 4 v32))
  /\ (exists w,
         write_varlong30 v64 min_bytes protocol_version = Ok w
         /\ read_varlong30 min_bytes protocol_version (w ++ rest) = Ok (v64, rest)
         /\ (protocol_version < 30 -> w = le_bytes 8 v64)).
Proof.
  intros H32 H64 Hmb.
  unfold write_varint30, read_varint30, write_varlong30, read_varlong30.
  destruct (Z.ltb_spec protocol_version 30) as [Hold|Hnew]; split.
  - destruct (read_int_write_int v32 rest H32) as (w & Hw & _ & Hr).
    exists w. split; [exact Hw|]. split; [exact Hr|]. intros _.
    unfold ProtocolIO.write_int, pack_i32 in Hw.
    destruct (_ && _); [|discriminate]. inversion Hw. reflexivity.
  - unfold write_long, pack_i64.
    replace ((- 2 ^ 63 <=? v64) && (v64 <? 2 ^ 63)) with true
      by (symmetry; apply andb_true_iff; lia).
    eexists. split; [reflexivity|]. split; [|reflexivity].
    unfold read_long.
    rewrite (read_le_bytes 8) by (unfold ProtocolIO.IOBUFFER_SIZE; lia).
    cbn [mbind result_bind]. rewrite le_signed_le_bytes_8 by exact H64.
    reflexivity.
  - destruct (write_read_varint v32 H32) as (w & Hw & Hr).
    exists w. split; [exact Hw|]. split; [apply Hr|]. intros; lia.
  - destruct (write_read_varlong v64 min_bytes H64 Hmb) as (w & Hw & Hr).
    exists w. split; [exact Hw|]. split; [apply Hr|]. intros; lia.
Qed.

Lemma varint30_roundtrip_witness :
  (exists w, write_varint30 300 29 = Ok w
             /\ read_varint30 29 (w ++ [9]) = Ok (300, [9]))
  /\ (exists w, write_varlong30 (-5) 3 31 = Ok w
                /\ read_varlong30 3 31 (w ++ [9]) = Ok (-5, [9])).
Proof.
  destruct (varint30_roundtrip 29 300 0 3 [9]) as [(w & Hw & Hr & _) _];
    [lia|lia|lia|].
  destruct (varint30_roundtrip 31 0 (-5) 3 [9]) as [_ (w' & Hw' & Hr' & _)];
    [lia|lia|lia|].
  split; [exists w|exists w']; split; assumption.
Defined.

Section SumHeadReader.

Import ProtocolIO.

Lemma le_bytes_le_signed (d : bytes) :
  is_bytes d -> length d = 4%nat ->
  le_bytes 4 (le_signed d) = d /\ - 2 ^ 31 <= le_signed d < 2 ^ 31.
Proof.
  intros Hd Hlen. pose proof (le_value_range d Hd) as Hr.
  assert (Hl : len d = 4) by (unfold len; lia). rewrite Hl in Hr.
  change (8 * 4) with 32 in Hr.
  assert (Hs : - 2 ^ 31 <= le_signed d < 2 ^ 31
               /\ le_signed d mod 2 ^ 32 = le_value d).
  { unfold le_signed. rewrite Hl. change (8 * 4 - 1) with 31. change (8 * 4) with 32.
    cbv zeta. change (2 ^ 32) with 4294967296 in *.
    change (2 ^ 31) with 2147483648 in *.
    destruct (Z.ltb_spec (le_value d) 2147483648).
    - split; [lia|]. apply Z.mod_small. lia.
    - split; [lia|].
      replace (le_value d - 4294967296) with (le_value d + (-1) * 4294967296) by lia.
      rewrite Z.mod_add by lia. apply Z.mod_small. lia. }
  destruct Hs as [Hrange Hmod]. split; [|exact Hrange].
  pose proof (le_bytes_le_value (le_bytes 4 (le_signed d))
                (is_bytes_le_bytes 4 (le_signed d))) as H1.
  rewrite le_value_le_bytes in H1.
  change (8 * Z.of_nat 4) with 32 in H1. rewrite Hmod in H1.
  assert (Hlen4 : length (le_bytes 4 (le_signed d)) = 4%nat).
  { pose proof (len_le_bytes 4 (le_signed d)) as H4. unfold len in H4. lia. }
  rewrite Hlen4 in H1. rewrite <- H1.
  rewrite <- Hlen. apply le_bytes_le_value. exact Hd.
Qed.

(** On a stream of bytes [read_int] either finds fewer than four bytes, or
    takes the four bytes that [write_int] emits for the value it returns. *)
Lemma read_int_cases (inp : bytes) :
  is_bytes inp ->
  (len inp < 4 /\ read_int inp = Err EOFError)
  \/ (exists v rest,
         read_int inp = Ok (v, rest) /\ inp = le_bytes 4 v ++ rest
         /\ - 2 ^ 31 <= v < 2 ^ 31 /\ is_bytes rest).
Proof.
  intros Hb. unfold read_int, read_bytes.
  change (4 <=? 0) with false. change (4 >? IOBUFFER_SIZE) with false. cbv iota.
  destruct (Z.leb_spec 4 (len inp)) as [Hlen|Hlen]; [right|left; split; [lia|reflexivity]].
  cbn [mbind result_bind].
  set (d := take (Z.to_nat 4) inp).
  assert (Hd : is_bytes d) by (apply Forall_take; exact Hb).
  assert (Hl : length d = 4%nat).
  { unfold d. rewrite length_take. unfold len in Hlen. lia. }
  destruct (le_bytes_le_signed d Hd Hl) as [Hle Hrange].
  exists (le_signed d), (drop (Z.to_nat 4) inp).
  split; [reflexivity|]. split.
  - rewrite Hle. unfold d. symmetry. apply take_drop.
  - split; [exact Hrange|]. apply Forall_drop. exact Hb.
Qed.

End SumHeadReader.

(** X15: what [read_sum_head] accepts.  On a stream of bytes it either
    returns a header that is valid for the protocol version (count not
    negative, block length between 0 and the protocol's maximum, strong
    length between 0 and 64, remainder between 0 and the block length), having
    consumed exactly the 16 bytes (12 before protocol 27) that
    [write_sum_head] emits for that header, or it raises ProtocolError, or it
    raises EOFError on a stream shorter than 16 bytes. *)
Theorem read_sum_head_sound (cfg : Config) (protocol_version : Z) (inp : bytes) :
  is_bytes inp ->
  match ProtocolIO.read_sum_head cfg protocol_version inp with
  | Ok (h, rest) =>
      valid_sum_head protocol_version h
      /\ ProtocolIO.SumHead.count h < 2 ^ 31
      /\ (protocol_version < 27 -> ProtocolIO.SumHead.s2length h = CSUM_LENGTH cfg)
      /\ exists w,
           ProtocolIO.write_sum_head (Some h) protocol_version = Ok w
           /\ inp = w ++ rest
           /\ len w = (if protocol_version >=? 27 then 16 else 12)
  | Err e => e = ProtocolError \/ (e = EOFError /\ len inp < 16)
  end.
Proof.
  intros Hb. unfold ProtocolIO.read_sum_head. cbv zeta.
  fold (max_block_length protocol_version).
  destruct (read_int_cases inp Hb) as [[Hl ->]|(c & r1 & -> & -> & Hc & Hb1)];
    cbn [mbind result_bind]; [right; split; [reflexivity|lia]|].
  destruct (Z.ltb_spec c 0); [left; reflexivity|].
  destruct (read_int_cases r1 Hb1) as [[Hl ->]|(b & r2 & -> & -> & Hbl & Hb2)];
    cbn [mbind result_bind];
    [right; split; [reflexivity|rewrite len_app, len_le_bytes; lia]|].
  destruct (Z.ltb_spec b 0); [left; reflexivity|].
  destruct (Z.gtb_spec b (max_block_length protocol_version));
    [left; reflexivity|]. cbn [orb].
  destruct (Z.geb_spec protocol_version 27) as [Hpv|Hpv].
  - destruct (read_int_cases r2 Hb2) as [[Hl ->]|(s & r3 & -> & -> & Hs & Hb3)];
      cbn [mbind result_bind];
      [right; split; [reflexivity|rewrite !len_app, !len_le_bytes; lia]|].
    destruct (Z.ltb_spec s 0); [left; reflexivity|].
    destruct (Z.gtb_spec s MAX_DIGEST_LEN); [left; reflexivity|]. cbn [orb].
    destruct (read_int_cases r3 Hb3) as [[Hl ->]|(r & r4 & -> & -> & Hr & Hb4)];
      cbn [mbind result_bind];
      [right; split; [reflexivity|rewrite !len_app, !len_le_bytes; lia]|].
    destruct (Z.ltb_spec r 0); [left; reflexivity|].
    destruct (Z.gtb_spec r b); [left; reflexivity|]. cbn [orb].
    unfold valid_sum_head, MAX_DIGEST_LEN in *.
    cbn [ProtocolIO.SumHead.count ProtocolIO.SumHead.blength
         ProtocolIO.SumHead.s2length ProtocolIO.SumHead.remainder].
    split; [lia|]. split; [lia|]. split; [intros; lia|].
    unfold ProtocolIO.write_sum_head.
    cbn [default from_option id ProtocolIO.SumHead.count ProtocolIO.SumHead.blength
         ProtocolIO.SumHead.s2length ProtocolIO.SumHead.remainder].
    destruct (Z.geb_spec protocol_version 27); [|lia].
    rewrite !write_int_ok by lia. cbn [mbind result_bind].
    eexists. split; [reflexivity|]. split.
    + rewrite <- !app_assoc. reflexivity.
    + rewrite !len_app, !len_le_bytes. reflexivity.
  - cbn [mbind result_bind].
    destruct (Z.ltb_spec (CSUM_LENGTH cfg) 0); [left; reflexivity|].
    destruct (Z.gtb_spec (CSUM_LENGTH cfg) MAX_DIGEST_LEN); [left; reflexivity|].
    cbn [orb].
    destruct (read_int_cases r2 Hb2) as [[Hl ->]|(r & r4 & -> & -> & Hr & Hb4)];
      cbn [mbind result_bind];
      [right; split; [reflexivity|rewrite !len_app, !len_le_bytes; lia]|].
    destruct (Z.ltb_spec r 0); [left; reflexivity|].
    destruct (Z.gtb_spec r b); [left; reflexivity|]. cbn [orb].
    unfold valid_sum_head, MAX_DIGEST_LEN in *.
    cbn [ProtocolIO.SumHead.count ProtocolIO.SumHead.blength
         ProtocolIO.SumHead.s2length ProtocolIO.SumHead.remainder].
    split; [lia|]. split; [lia|]. split; [intros; reflexivity|].
    unfold ProtocolIO.write_sum_head.
    cbn [default from_option id ProtocolIO.SumHead.count ProtocolIO.SumHead.blength
         ProtocolIO.SumHead.s2length ProtocolIO.SumHead.remainder].
    destruct (Z.geb_spec protocol_version 27); [lia|].
    rewrite !write_int_ok by lia. cbn [mbind result_bind].
    eexists. split; [reflexivity|]. split.
    + rewrite <- !app_assoc. reflexivity.
    + rewrite !len_app, !len_le_bytes. reflexivity.
Qed.

Lemma read_sum_head_sound_witness :
  ProtocolIO.read_sum_head default_config 31
    [3; 0; 0; 0; 16; 0; 0; 0; 2; 0; 0; 0; 8; 0; 0; 0; 77]
  = Ok (ProtocolIO.SumHead.mk 3 16 2 8, [77])
  /\ valid_sum_head 31 (ProtocolIO.SumHead.mk 3 16 2 8).
Proof.
  pose proof (read_sum_head_sound default_config 31
                [3; 0; 0; 0; 16; 0; 0; 0; 2; 0; 0; 0; 8; 0; 0; 0; 77]) as H.
  assert (Hb : is_bytes [3; 0; 0; 0; 16; 0; 0; 0; 2; 0; 0; 0; 8; 0; 0; 0; 77])
    by (repeat constructor; lia).
  specialize (H Hb).
  change (ProtocolIO.read_sum_head default_config 31
            [3; 0; 0; 0; 16; 0; 0; 0; 2; 0; 0; 0; 8; 0; 0; 0; 77])
    with (Ok (ProtocolIO.SumHead.mk 3 16 2 8, [77])) in H.
  destruct H as (Hv & _). split; [reflexivity|exact Hv].
Defined.

Section ReceiveOutcome.

Import ProtocolIO.

Variables (basis : bytes) (sh : SumHead.t).
Hypothesis Hblength : 0 <= SumHead.blength sh.

Lemma read_bytes_suffix (n : Z) (inp d inp' : bytes) :
  read_bytes n inp = Ok (d, inp') -> inp = d ++ inp' /\ (0 < n -> len d = n).
Proof.
  unfold read_bytes. intros H.
  destruct (Z.leb_spec n 0); [inversion H; split; [reflexivity|lia]|].
  destruct (n >? IOBUFFER_SIZE); [discriminate|].
  destruct (Z.leb_spec n (len inp)); [|discriminate].
  inversion H. split; [symmetry; apply take_drop|].
  intros _. unfold len in *. rewrite length_take. lia.
Qed.

Lemma read_int_suffix (inp : bytes) (i : Z) (inp1 : bytes) :
  read_int inp = Ok (i, inp1) -> exists c, inp = c ++ inp1 /\ len c = 4.
Proof.
  unfold read_int. intros H.
  destruct (read_bytes 4 inp) as [[d r]|e] eqn:E; [|discriminate].
  cbn in H. inversion H. subst.
  apply read_bytes_suffix in E. destruct E as [E Hl].
  exists d. split; [exact E|apply Hl; lia].
Qed.

Lemma copy_block_length (token : Z) (block : bytes) (block_len : Z) :
  token < 0 -> copy_block basis sh token = Ok (block, block_len) ->
  len block = block_len /\ 0 <= block_len.
Proof.
  intros Ht H.
  destruct (copy_block_spec basis sh token Ht) as [[Ha Ec]|[_ Ec]];
    rewrite Ec in H; [|discriminate].
  inversion H. subst. clear H Ec.
  unfold token_accepted, block_offset, block_length in *.
  set (bn := block_num_of token) in *.
  set (bl := if bool_decide (bn = SumHead.count sh - 1 /\ SumHead.remainder sh > 0)
             then SumHead.remainder sh else SumHead.blength sh) in *.
  assert (Hbl : 0 <= bl) by (unfold bl; case_bool_decide; lia).
  destruct Ha as (Hbn & Hfit).
  assert (0 <= bn * SumHead.blength sh) by nia.
  split; [|exact Hbl].
  rewrite py_slice_bytes_window by lia. apply len_window; lia.
Qed.

Lemma receive_loop_outcome (fuel : nat) :
  forall inp acc l m,
    (length inp < fuel)%nat -> 0 <= l -> 0 <= m -> l + m = len acc ->
    match receive_loop fuel basis sh acc l m inp with
    | Ok ((out, stats), rest) =>
        SyncStats.literal_data stats + SyncStats.matched_data stats = len out
        /\ 0 <= SyncStats.literal_data stats
        /\ 0 <= SyncStats.matched_data stats
        /\ exists consumed, inp = consumed ++ rest /\ 4 <= len consumed
    | Err e => e = ProtocolError \/ e = EOFError
    end.
Proof.
  induction fuel as [|fuel IH]; intros inp acc l m Hf Hl Hm Hsum; [lia|].
  cbn [receive_loop]. unfold _recv_token_simple.
  destruct (read_int inp) as [[i inp1]|e] eqn:Ei.
  2:{ cbn [mbind result_bind]. apply read_int_error in Ei. right. exact Ei. }
  cbn [mbind result_bind].
  pose proof (read_int_inv _ _ _ Ei) as Hshort.
  destruct (read_int_suffix _ _ _ Ei) as (c & Hc & Hc4).
  destruct (Z.eqb_spec i 0) as [->|Hi0].
  - cbn [mbind result_bind]. change (0 =? 0) with true. cbv iota.
    cbn [SyncStats.literal_data SyncStats.matched_data].
    split; [exact Hsum|]. split; [exact Hl|]. split; [exact Hm|].
    exists c. split; [exact Hc|lia].
  - destruct (Z.gtb_spec i 0) as [Hpos|Hneg].
    + destruct (read_bytes i inp1) as [[d inp2]|e] eqn:Ed.
      2:{ cbn [mbind result_bind]. apply read_bytes_error in Ed. right. exact Ed. }
      cbn [mbind result_bind].
      destruct (Z.eqb_spec i 0); [lia|]. destruct (Z.gtb_spec i 0); [|lia].
      destruct (read_bytes_nonempty _ _ _ _ Ed ltac:(lia)) as [Hd Hshort2].
      destruct (read_bytes_suffix _ _ _ _ Ed) as [Hd2 _].
      destruct d as [|x d]; [congruence|].
      pose proof (len_nonneg (x :: d)).
      specialize (IH inp2 (acc ++ x :: d) (l + len (x :: d)) m
                     ltac:(lia) ltac:(lia) Hm ltac:(rewrite len_app; lia)).
      destruct (receive_loop fuel basis sh (acc ++ x :: d) (l + len (x :: d)) m inp2)
        as [[[out stats] rest]|e]; [|exact IH].
      destruct IH as (H1 & H2 & H3 & c' & Hc' & _).
      split; [exact H1|]. split; [exact H2|]. split; [exact H3|].
      exists (c ++ (x :: d) ++ c'). split.
      * rewrite Hc, Hd2, Hc', <- !app_assoc. reflexivity.
      * rewrite len_app. pose proof (len_nonneg ((x :: d) ++ c')). lia.
    + cbn [mbind result_bind].
      destruct (Z.eqb_spec i 0); [lia|]. destruct (Z.gtb_spec i 0); [lia|].
      destruct (copy_block basis sh i) as [[block block_len]|e] eqn:Ec.
      2:{ cbn [mbind result_bind].
          destruct (copy_block_spec basis sh i ltac:(lia)) as [[_ Ec']|[_ Ec']];
            rewrite Ec' in Ec; [discriminate|]. left. congruence. }
      cbn [mbind result_bind].
      destruct (copy_block_length i block block_len ltac:(lia) Ec) as [Hbl Hbl0].
      specialize (IH inp1 (acc ++ block) l (m + block_len)
                     ltac:(lia) Hl ltac:(lia) ltac:(rewrite len_app; lia)).
      destruct (receive_loop fuel basis sh (acc ++ block) l (m + block_len) inp1)
        as [[[out stats] rest]|e]; [|exact IH].
      destruct IH as (H1 & H2 & H3 & c' & Hc' & _).
      split; [exact H1|]. split; [exact H2|]. split; [exact H3|].
      exists (c ++ c'). split.
      * rewrite Hc, Hc', <- !app_assoc. reflexivity.
      * rewrite len_app. pose proof (len_nonneg c'). lia.
Qed.

End ReceiveOutcome.

(** X16: [receive_data] with a sum header whose block length is not negative
    always ends: it returns, or raises ProtocolError or EOFError (a stream
    that stops in the middle of a token), and nothing else.  When it returns,
    the two byte counters of its statistics add up to the length of the data
    it rebuilt, and what is left of the stream is a proper suffix of it: at
    least the four bytes of the end token were consumed. *)
Theorem receive_data_outcome (basis : bytes) (sh : ProtocolIO.SumHead.t) (inp : bytes) :
  0 <= ProtocolIO.SumHead.blength sh ->
  match receive_data basis sh inp with
  | Ok ((out, stats), rest) =>
      SyncStats.literal_data stats + SyncStats.matched_data stats = len out
      /\ 0 <= SyncStats.literal_data stats
      /\ 0 <= SyncStats.matched_data stats
      /\ exists consumed, inp = consumed ++ rest /\ 4 <= len consumed
  | Err e => e = ProtocolError \/ e = EOFError
  end.
Proof.
  intros Hbl. unfold receive_data.
  apply receive_loop_outcome; [exact Hbl|lia|lia|lia|reflexivity].
Qed.

Lemma receive_data_outcome_witness :
  exists out stats rest,
    receive_data [10; 11; 12; 13] (ProtocolIO.SumHead.mk 2 2 2 0)
      [2; 0; 0; 0; 7; 8; 254; 255; 255; 255; 0; 0; 0; 0; 99]
    = Ok ((out, stats), rest)
    /\ SyncStats.literal_data stats + SyncStats.matched_data stats = len out
    /\ out = [7; 8; 12; 13] /\ rest = [99].
Proof.
  pose proof (receive_data_outcome [10; 11; 12; 13] (ProtocolIO.SumHead.mk 2 2 2 0)
                [2; 0; 0; 0; 7; 8; 254; 255; 255; 255; 0; 0; 0; 0; 99]
                ltac:(cbn; lia)) as H.
  destruct (receive_data [10; 11; 12; 13] (ProtocolIO.SumHead.mk 2 2 2 0)
              [2; 0; 0; 0; 7; 8; 254; 255; 255; 255; 0; 0; 0; 0; 99])
    as [[[out stats] rest]|e] eqn:E.
  - exists out, stats, rest. split; [reflexivity|].
    destruct H as (Hsum & _). split; [exact Hsum|].
    vm_compute in E. inversion E. split; reflexivity.
  - exfalso. vm_compute in E. discriminate E.
Defined.


(** ** Negotiation with arbitrary preference lists *)

Section NegotiationSafety.

(** A name of the list has a rank, the position of its last occurrence. *)
Lemma rank_of_in (l : list string) (x : string) :
  x ∈ l ->
  exists i : nat, rank_of l !! x = Some (Z.of_nat i) /\ l !! i = Some x.
Proof.
  induction l as [|y l IH] using rev_ind; intros Hx; [inversion Hx|].
  rewrite rank_of_snoc. destruct (decide (x = y)) as [->|Hne].
  - exists (length l). rewrite lookup_insert_eq. split; [reflexivity|].
    rewrite lookup_app_r by lia. rewrite Nat.sub_diag. reflexivity.
  - rewrite elem_of_app, list_elem_of_singleton in Hx.
    destruct Hx as [Hx|Hx]; [|contradiction].
    destruct (IH Hx) as (i & Hr & Hi). exists i.
    rewrite lookup_insert_ne by congruence. split; [exact Hr|].
    rewrite lookup_app_l by (eapply lookup_lt_Some; exact Hi). exact Hi.
Qed.

Lemma client_scan_common (local_pref remote : list string) :
  forall best_tok best_rank,
    let res := client_scan (list_to_set local_pref) (rank_of local_pref)
                           remote best_tok best_rank in
    (res = best_tok
     /\ forall t r, t ∈ remote -> t ∈ local_pref ->
                    rank_of local_pref !! t = Some r -> best_rank <= r)
    \/ (exists t, res = Some t /\ t ∈ remote /\ t ∈ local_pref).
Proof.
  induction remote as [|tok rest IH]; intros best_tok best_rank res.
  - left. split; [reflexivity|]. intros t r Ht. inversion Ht.
  - subst res. cbn [client_scan]. case_bool_decide as Hin.
    + rewrite elem_of_list_to_set in Hin.
      destruct (rank_of_in local_pref tok Hin) as (i & Hr & _).
      rewrite Hr. cbn [default from_option id].
      destruct (Z.ltb_spec (Z.of_nat i) best_rank) as [Hlt|Hge].
      * destruct (Z.eqb_spec (Z.of_nat i) 0) as [H0|H0].
        -- right. exists tok. split; [reflexivity|]. split; [left|exact Hin].
        -- destruct (IH (Some tok) (Z.of_nat i)) as [[E _]|(t & E & Ht & Hl)].
           ++ right. exists tok. split; [exact E|]. split; [left|exact Hin].
           ++ right. exists t. split; [exact E|]. split; [right; exact Ht|exact Hl].
      * destruct (IH best_tok best_rank) as [[E Hall]|(t & E & Ht & Hl)].
        -- left. split; [exact E|]. intros t' r' Ht' Hl' Hr'.
           apply elem_of_cons in Ht'. destruct Ht' as [->|Ht'].
           ++ rewrite Hr in Hr'. inversion Hr'. lia.
           ++ eapply Hall; eauto.
        -- right. exists t. split; [exact E|]. split; [right; exact Ht|exact Hl].
    + rewrite elem_of_list_to_set in Hin.
      destruct (IH best_tok best_rank) as [[E Hall]|(t & E & Ht & Hl)].
      * left. split; [exact E|]. intros t' r' Ht' Hl' Hr'.
        apply elem_of_cons in Ht'. destruct Ht' as [->|Ht']; [contradiction|].
        eapply Hall; eauto.
      * right. exists t. split; [exact E|]. split; [right; exact Ht|exact Hl].
Qed.

End NegotiationSafety.

(** X17: whatever the two preference lists are (repeated names included),
    [_choose_from_remote_list] in either role returns a name that occurs in
    both lists whenever the lists share a name, and raises ProtocolError
    exactly when they share none.  The server's choice is the first name of
    the remote list that the local list contains. *)
Theorem negotiation_safe (am_server : bool) (local_pref remote_list : list string) :
  match _choose_from_remote_list am_server local_pref remote_list with
  | Ok tok =>
      tok ∈ local_pref /\ tok ∈ remote_list
      /\ (am_server = true ->
          exists i : nat,
            remote_list !! i = Some tok
            /\ forall (j : nat) y, (j < i)%nat -> remote_list !! j = Some y ->
                                   y ∉ local_pref)
  | Err e => e = ProtocolError /\ forall t, t ∈ remote_list -> t ∉ local_pref
  end.
Proof.
  unfold _choose_from_remote_list. cbv zeta. destruct am_server.
  - destruct (List.find _ remote_list) as [tok|] eqn:Ef; cbn [of_option].
    + destruct (find_first _ _ _ Ef) as (i & Hi & Hf & Hmin).
      apply bool_decide_eq_true in Hf. rewrite elem_of_list_to_set in Hf.
      split; [exact Hf|]. split; [eapply list_elem_of_lookup_2; exact Hi|].
      intros _. exists i. split; [exact Hi|].
      intros j y Hj Hy Hin. specialize (Hmin j y Hj Hy).
      apply bool_decide_eq_false in Hmin. apply Hmin.
      rewrite elem_of_list_to_set. exact Hin.
    + split; [reflexivity|]. intros t Ht Hin.
      pose proof (proj1 (find_none_iff _ _) Ef t Ht) as Hf.
      apply bool_decide_eq_false in Hf. apply Hf.
      rewrite elem_of_list_to_set. exact Hin.
  - pose proof (client_scan_common local_pref remote_list None (len local_pref + 1))
      as Hscan. cbv zeta in Hscan.
    destruct Hscan as [[-> Hall]|(t & -> & Ht & Hl)]; cbn [of_option].
    + split; [reflexivity|]. intros t Ht Hin.
      destruct (rank_of_in local_pref t Hin) as (i & Hr & Hi).
      specialize (Hall t _ Ht Hin Hr).
      apply lookup_lt_Some in Hi. unfold len in Hall. lia.
    + split; [exact Hl|]. split; [exact Ht|]. discriminate.
Qed.


(** ** The sender and the receiver back to back ([apply_delta_over_wire]) *)

Section EndToEnd.

Import ChecksumEngine ProtocolIO.

Lemma get_digest_length_range (ct : ChecksumType) :
  1 <= ChecksumRegistry.get_digest_length ct <= 32.
Proof.
  destruct ct; cbn; unfold MD4_DIGEST_LEN, MD5_DIGEST_LEN, SHA1_DIGEST_LEN; lia.
Qed.

Lemma clip_s2length_range (xfer_sum_len s : Z) :
  0 < xfer_sum_len -> 0 <= clip_s2length xfer_sum_len s <= xfer_sum_len.
Proof.
  intros Hx. unfold clip_s2length. cbv zeta.
  destruct (Z.ltb_spec s 0); destruct (Z.gtb_spec xfer_sum_len 0); cbn [andb];
    try match goal with |- context [?a >? ?b] => destruct (Z.gtb_spec a b) end;
    lia.
Qed.

(** The strong-checksum length of a signature never exceeds the digest
    length of the engine's checksum type. *)
Lemma generate_signature_bounded (self : t) (X : bytes) (csum_length : Z) :
  0 < block_size self -> len X <= MAX_FILE_SIZE_IN_MEMORY ->
  exists s2length,
    0 <= s2length <= 32
    /\ generate_signature self X csum_length = Ok (signature_of self X s2length).
Proof.
  intros Hbs HX. pose proof (len_nonneg X) as HX0.
  unfold generate_signature, validate_data.
  destruct (Z.ltb_spec (len X) 0); [lia|].
  destruct (Z.gtb_spec (len X) MAX_FILE_SIZE_IN_MEMORY); [lia|].
  cbn [mbind result_bind].
  destruct (sum_sizes_sqroot_closed (len X)
              (default PROTOCOL_VERSION (protocol_manager self))
              (block_size self) csum_length
              (ChecksumRegistry.get_digest_length (checksum_type self)) HX0)
    as [_ Hsizes].
  rewrite Hsizes. cbn [mbind result_bind SumSizes.s2length].
  set (s2 := clip_s2length (ChecksumRegistry.get_digest_length (checksum_type self)) _).
  pose proof (get_digest_length_range (checksum_type self)) as Hd.
  assert (Hs2 : 0 <= s2 <= 32).
  { pose proof (clip_s2length_range
                  (ChecksumRegistry.get_digest_length (checksum_type self))) as Hc.
    unfold s2. split; [apply Hc; lia|].
    etransitivity; [apply Hc; lia|lia]. }
  rewrite block_checksums_ok by exact Hbs.
  cbn [mbind result_bind]. exists s2. split; [exact Hs2|].
  unfold signature_of. f_equal.
  assert (Hblocks : forall (n0 : nat) (l : list nat),
    map (fun iws : Z * (Z * bytes) =>
           let '(i, (weak, strong)) := iws in
           BlockChecksum.mk weak (py_slice strong 0 s2)
             (i * block_size self)
             (Z.min (block_size self) (len X - i * block_size self)) (-1))
        (imap (fun i a => (Z.of_nat (n0 + i), a))
           (map (fun i : nat =>
               let w := window X (Z.of_nat i * block_size self)
                          (window_length (len X) (block_size self)
                                         (Z.of_nat i * block_size self)) in
               (weak w, strong_checksum self w)) (seq n0 (length l))))
    = map (fun i : nat => sig_block self X s2 (Z.of_nat i))
          (seq n0 (length l))).
  { intros n0 l. revert n0. induction l as [|x l IH]; intros n0; [reflexivity|].
    cbn [length seq map imap]. f_equal.
    - rewrite Nat.add_0_r. reflexivity.
    - rewrite <- IH. f_equal. apply imap_ext. intros i y _. cbn.
      replace (n0 + S i)%nat with (S n0 + i)%nat by lia. reflexivity. }
  specialize (Hblocks 0%nat
    (replicate (Z.to_nat (block_count (len X) (block_size self))) 0%nat)).
  rewrite length_replicate in Hblocks. unfold enumerate.
  cbn [Nat.add] in Hblocks. rewrite Hblocks. f_equal.
  unfold len. rewrite length_map, length_seq.
  pose proof (block_count_nonneg (len X) (block_size self)). unfold len in *. lia.
Qed.

(** The header the sender builds from the signature of [B]. *)
Lemma sum_head_of_signature (self : t) (B : bytes) (s2l : Z) :
  1 <= block_size self -> 0 <= s2l ->
  let sh := _sum_head_from_signature (signature_of self B s2l) in
  SumHead.count sh = block_count (len B) (block_size self)
  /\ 0 <= SumHead.count sh <= len B
  /\ SumHead.blength sh = block_size self
  /\ 0 <= SumHead.s2length sh <= s2l
  /\ 0 <= SumHead.remainder sh <= block_size self.
Proof.
  intros Hbs Hs2l sh. pose proof (len_nonneg B) as Hn.
  set (N := block_count (len B) (block_size self)).
  assert (HN : 0 <= N) by (apply block_count_nonneg; lia).
  pose proof (block_count_le self B Hbs) as HNle. fold N in HNle.
  split; [reflexivity|]. split; [exact (conj HN HNle)|]. split; [reflexivity|].
  split.
  - unfold sh, _sum_head_from_signature.
    cbn [signature_of ChecksumSignature.blocks SumHead.s2length]. fold N.
    destruct (Z.to_nat N) as [|n]; cbn [seq map]; [lia|].
    cbn [sig_block BlockChecksum.strong_checksum].
    rewrite py_slice_take by exact Hs2l.
    split; [apply len_nonneg|]. unfold len. rewrite length_take. lia.
  - unfold sh, _sum_head_from_signature.
    cbn [signature_of ChecksumSignature.num_blocks ChecksumSignature.blocks
         ChecksumSignature.block_size SumHead.remainder]. fold N.
    destruct (Z.gtb_spec N 0); [|lia].
    assert (Hfacts : (N - 1) * block_size self < len B).
    { unfold N, block_count.
      pose proof (Z.div_mod (len B + block_size self - 1) (block_size self)
                    ltac:(lia)).
      pose proof (Z.mod_pos_bound (len B + block_size self - 1) (block_size self)
                    ltac:(lia)).
      nia. }
    replace (Z.to_nat N) with (Datatypes.S (Z.to_nat (N - 1))) by lia.
    rewrite seq_S, map_app. cbn [map Nat.add]. rewrite last_snoc.
    cbn [sig_block BlockChecksum.length]. rewrite Z2Nat.id by lia.
    unfold window_length. destruct (_ =? _); lia.
Qed.

(** A header written by [write_sum_head] is read back, up to the strong
    length before protocol 27. *)
Lemma read_written_sum_head (cfg : Config) (P : Z) (h : SumHead.t) :
  valid_sum_head P h -> SumHead.count h < 2 ^ 31 ->
  (P < 27 -> 0 <= CSUM_LENGTH cfg <= MAX_DIGEST_LEN) ->
  exists hd,
    write_sum_head (Some h) P = Ok hd
    /\ forall rest,
         read_sum_head cfg P (hd ++ rest)
         = Ok (SumHead.mk (SumHead.count h) (SumHead.blength h)
                 (if P >=? 27 then SumHead.s2length h else CSUM_LENGTH cfg)
                 (SumHead.remainder h), rest).
Proof.
  intros (Hc & Hb & Hs & Hr) Hc32 Hcfg. destruct h as [c b s r].
  cbn [SumHead.count SumHead.blength SumHead.s2length SumHead.remainder] in *.
  assert (Hmax : max_block_length P <= 131072).
  { unfold max_block_length, OLD_MAX_BLOCK_SIZE, MAX_BLOCK_SIZE.
    destruct (P <? 30); lia. }
  unfold write_sum_head, read_sum_head.
  cbn [default from_option id SumHead.count SumHead.blength SumHead.s2length
       SumHead.remainder].
  fold (max_block_length P). unfold MAX_DIGEST_LEN in *.
  rewrite !write_int_ok by lia. cbn [mbind result_bind].
  destruct (Z.geb_spec P 27) as [HP|HP].
  - cbn [mbind result_bind].
    eexists. split; [reflexivity|]. intros rest. rewrite <- !app_assoc.
    rewrite read_int_le_bytes by lia. cbn [mbind result_bind].
    destruct (Z.ltb_spec c 0); [lia|].
    rewrite read_int_le_bytes by lia. cbn [mbind result_bind].
    destruct (Z.ltb_spec b 0); [lia|].
    destruct (Z.gtb_spec b (max_block_length P)); [lia|]. cbn [orb].
    rewrite read_int_le_bytes by lia. cbn [mbind result_bind].
    destruct (Z.ltb_spec s 0); [lia|]. destruct (Z.gtb_spec s 64); [lia|].
    cbn [orb]. rewrite read_int_le_bytes by lia. cbn [mbind result_bind].
    destruct (Z.ltb_spec r 0); [lia|]. destruct (Z.gtb_spec r b); [lia|].
    reflexivity.
  - specialize (Hcfg HP). cbn [mbind result_bind].
    eexists. split; [reflexivity|]. intros rest. rewrite app_nil_l, <- !app_assoc.
    rewrite read_int_le_bytes by lia. cbn [mbind result_bind].
    destruct (Z.ltb_spec c 0); [lia|].
    rewrite read_int_le_bytes by lia. cbn [mbind result_bind].
    destruct (Z.ltb_spec b 0); [lia|].
    destruct (Z.gtb_spec b (max_block_length P)); [lia|]. cbn [orb].
    destruct (Z.ltb_spec (CSUM_LENGTH cfg) 0); [lia|].
    destruct (Z.gtb_spec (CSUM_LENGTH cfg) 64); [lia|].
    cbn [orb]. rewrite read_int_le_bytes by lia. cbn [mbind result_bind].
    destruct (Z.ltb_spec r 0); [lia|]. destruct (Z.gtb_spec r b); [lia|].
    reflexivity.
Qed.

(** The whole-file digest is one function of the data. *)
Lemma whole_file_sum_fun (lib : HashLib) (cfg : Config) (ct : ChecksumType)
      (seed : Z) (X sum : bytes) :
  whole_file_sum lib cfg ct seed X = Ok sum ->
  exists f, sum = f X /\ forall d, whole_file_sum lib cfg ct seed d = Ok (f d).
Proof.
  unfold whole_file_sum. intros H.
  destruct (if seed =? 0 then Ok [] else pack_u32 seed); [|discriminate].
  cbn [mbind result_bind] in *.
  destruct (ChecksumRegistry.get_checksum_function lib cfg ct seed) as [f|];
    [|discriminate].
  cbn [mbind result_bind] in *. exists f. split; [congruence|reflexivity].
Qed.

Lemma ChecksumType_of_value_value (ct : ChecksumType) :
  ChecksumType_of_value (ChecksumType_value ct) = Some ct
  /\ ChecksumType_value ct <> ""%string.
Proof. destruct ct; split; (reflexivity || discriminate). Qed.

(** The digest fields of a delta that [generate_delta] returns. *)
Lemma generate_delta_sum (lib : HashLib) (cfg : Config) (self : t)
      (S : ChecksumSignature) (X : bytes) (D : DeltaInstructions) :
  generate_delta lib cfg self S X = Ok D ->
  (COMPUTE_SENDER_FILE_SUM cfg = false
   /\ DeltaInstructions.sender_file_sum D = None)
  \/ (exists ct sum,
         COMPUTE_SENDER_FILE_SUM cfg = true
         /\ DeltaInstructions.sender_file_sum D = Some sum
         /\ DeltaInstructions.xfer_checksum_type D = Some (ChecksumType_value ct)
         /\ DeltaInstructions.xfer_checksum_seed D
            = Some (ChecksumSignature.checksum_seed S)
         /\ whole_file_sum lib cfg ct (ChecksumSignature.checksum_seed S) X = Ok sum).
Proof.
  intros HD. unfold generate_delta in HD.
  destruct (validate_data X (Some MAX_FILE_SIZE_IN_MEMORY)); [|discriminate].
  cbn [mbind result_bind] in HD.
  destruct (match_instructions cfg self S X) as [st|]; [|discriminate].
  cbn [mbind result_bind] in HD. cbv zeta in HD.
  destruct (COMPUTE_SENDER_FILE_SUM cfg).
  - match type of HD with
    | context [whole_file_sum lib cfg ?c ?s X] =>
        destruct (whole_file_sum lib cfg c s X) as [sum|] eqn:Esum; [|discriminate];
        right; exists c, sum
    end.
    cbn [mbind result_bind] in HD. inversion HD. cbn.
    repeat split; try reflexivity. exact Esum.
  - cbn [mbind result_bind] in HD. inversion HD. left. split; reflexivity.
Qed.

End EndToEnd.

(** X18: [apply_delta_over_wire] end to end.  Take the signature of a basis
    [B], a delta the matcher produced against it in which every MATCH has the
    length of its block, and a protocol version whose maximum block size
    admits the block size.  Then the sender's stream is always decoded: the
    call returns the bytes [apply_delta(B, D)] returns, or it raises
    DataIntegrityError, and it raises nothing else.  DataIntegrityError is
    raised only with verification switched on and only when those bytes
    differ from the new file; data returned with verification on has the
    whole-file digest the sender computed.  When the reconstruction equals
    the new file (as it does when no checksum collides) it is returned. *)
Theorem apply_delta_over_wire_correct (lib : HashLib) (cfg : Config) (bs : Z)
        (ct : ChecksumType) (pm : option Z) (seed : Z)
        (self : ChecksumEngine.t) (csum_length : Z) (B X : bytes)
        (S : ChecksumSignature) (D : DeltaInstructions) (protocol_version : Z) :
  ChecksumEngine.init lib cfg bs ct pm seed = Ok self ->
  len B <= MAX_FILE_SIZE_IN_MEMORY ->
  ChecksumEngine.generate_signature self B csum_length = Ok S ->
  ChecksumEngine.generate_delta lib cfg self S X = Ok D ->
  lengths_agree S (DeltaInstructions.instructions D) = true ->
  bs <= max_block_length protocol_version ->
  (protocol_version < 27 -> 0 <= CSUM_LENGTH cfg <= MAX_DIGEST_LEN) ->
  (forall sum, DeltaInstructions.sender_file_sum D = Some sum ->
               len sum <= ProtocolIO.IOBUFFER_SIZE) ->
  exists out,
    ChecksumEngine.apply_delta B D = Ok out
    /\ match apply_delta_over_wire lib cfg B S D protocol_version with
       | WireOk (out', stats) =>
           out' = out
           /\ (VERIFY_SENDER_FILE_SUM_ON_WIRE cfg = true ->
               forall sum, DeltaInstructions.sender_file_sum D = Some sum ->
                 ChecksumEngine.whole_file_sum lib cfg (wire_checksum_type S D)
                   (default (ChecksumSignature.checksum_seed S)
                            (DeltaInstructions.xfer_checksum_seed D)) out'
                 = Ok sum)
       | DataIntegrityError =>
           VERIFY_SENDER_FILE_SUM_ON_WIRE cfg = true /\ out <> X
       | WireErr e => False
       end
    /\ (out = X ->
        exists stats,
          apply_delta_over_wire lib cfg B S D protocol_version = WireOk (X, stats))
    /\ (collision_free cfg self S B X = true -> out = X).
Proof.
  intros Hinit HB Hsig Hdelta Hagree Hmax Hcfg Hsumlen.
  destruct (init_inv _ _ _ _ _ _ _ Hinit) as (Hbs & Hbseq & _).
  destruct (generate_signature_bounded self B csum_length) as (s2l & Hs2l & Hsig');
    [lia|exact HB|].
  rewrite Hsig in Hsig'. inversion Hsig'. subst S. clear Hsig'.
  set (S := signature_of self B s2l) in *.
  destruct (generate_delta_cases lib cfg self S X)
    as (st & _ & Hcov & Hsound & Hres).
  rewrite Hdelta in Hres. destruct Hres as (_ & Hins & Hbsz & _).
  rewrite Hins in Hagree.
  pose proof (sig_wire_ready cfg self B s2l ltac:(lia) X _ Hsound Hagree) as Hready.
  fold S in Hready.
  destruct (sum_head_of_signature self B s2l ltac:(lia) ltac:(lia))
    as (Hcount & Hcrange & Hblen & Hs2 & Hrem).
  fold S in Hcount, Hcrange, Hblen, Hs2, Hrem.
  set (h := _sum_head_from_signature S) in *.
  assert (Hvalid : valid_sum_head protocol_version h).
  { unfold valid_sum_head. rewrite Hblen. repeat split; lia. }
  assert (Hc31 : ProtocolIO.SumHead.count h < 2 ^ 31)
    by (unfold MAX_FILE_SIZE_IN_MEMORY in HB; lia).
  destruct (read_written_sum_head cfg protocol_version h Hvalid Hc31 Hcfg)
    as (hd & Hhd & Hread).
  set (h' := ProtocolIO.SumHead.mk (ProtocolIO.SumHead.count h)
               (ProtocolIO.SumHead.blength h)
               (if protocol_version >=? 27 then ProtocolIO.SumHead.s2length h
                else CSUM_LENGTH cfg)
               (ProtocolIO.SumHead.remainder h)) in *.
  assert (Hready' : Forall (wire_ready B h' (ChecksumEngine.block_size self))
                           (ChecksumEngine.instructions st)).
  { eapply Forall_impl; [exact Hready|].
    intros [cmd [m|l]] Hci; exact Hci. }
  destruct (send_tokens_reads B h' (ChecksumEngine.block_size self)
              (ChecksumEngine.instructions st) Hc31 Hready' [])
    as (toks & Htoks & Hreads).
  set (out := concat (map (ChecksumEngine.apply_instruction B
                             (ChecksumEngine.block_size self))
                          (ChecksumEngine.instructions st))) in *.
  assert (Happly : ChecksumEngine.apply_delta B D = Ok out).
  { rewrite apply_delta_ok by exact HB. rewrite Hins, Hbsz. reflexivity. }
  assert (Hrecv : forall tail,
            exists stats,
              receive_data B h' ((toks ++ le_bytes 4 0) ++ tail)
              = Ok ((out, stats), tail)).
  { intros tail. rewrite <- app_assoc.
    eapply reads_receive_data; [apply (Hreads [] (le_bytes 4 0 ++ tail))|].
    apply read_int_le_bytes. lia. }
  assert (Hcf : collision_free cfg self S B X = true -> out = X).
  { intros Hc.
    exact (apply_covers cfg self S B X (ChecksumEngine.instructions st) 0 Hc
             Hcov Hsound ltac:(lia)). }
  exists out. split; [exact Happly|].
  unfold apply_delta_over_wire, send_delta_over_wire. fold h.
  rewrite Hhd. cbn [mbind result_bind]. rewrite Hins, Htoks.
  cbn [mbind result_bind]. rewrite Hread.
  destruct (generate_delta_sum lib cfg self S X D Hdelta)
    as [[_ Hnone]|(ct' & sum & _ & Hsome & Hty & Hseed & Hsum)].
  - rewrite Hnone. cbn [default from_option id].
    destruct (Hrecv []) as (stats & ->).
    split; [|split; [|exact Hcf]].
    + split; [reflexivity|]. intros _ sum0 H0. discriminate H0.
    + intros ->. eauto.
  - rewrite Hsome. cbn [default from_option id].
    destruct (Hrecv sum) as (stats & ->).
    destruct (VERIFY_SENDER_FILE_SUM_ON_WIRE cfg) eqn:Ever.
    2:{ split; [|split; [|exact Hcf]].
        - split; [reflexivity|]. intros H0. discriminate H0.
        - intros ->. eauto. }
    assert (Hrb : ProtocolIO.read_bytes (len sum) sum = Ok (sum, [])).
    { pose proof (read_bytes_app sum [] (Hsumlen sum Hsome)) as Hrb.
      rewrite app_nil_r in Hrb. exact Hrb. }
    rewrite !Hrb.
    assert (Hwct : wire_checksum_type S D = ct').
    { unfold wire_checksum_type. rewrite Hty.
      destruct (ChecksumType_of_value_value ct') as [-> Hne].
      rewrite bool_decide_eq_false_2 by exact Hne. reflexivity. }
    rewrite Hwct, Hseed. cbn [default from_option id].
    destruct (whole_file_sum_fun lib cfg ct' _ X sum Hsum) as (f & Hf & Hall).
    rewrite Hall. subst sum.
    split; [|split; [|exact Hcf]].
    + case_bool_decide as Heq.
      * split; [reflexivity|]. intros _ sum0 H0. inversion H0. subst sum0.
        rewrite Hall. f_equal. symmetry. exact Heq.
      * split; [reflexivity|]. intros ->. apply Heq. reflexivity.
    + intros Hx. rewrite Hx. rewrite bool_decide_eq_true_2 by reflexivity. eauto.
Qed.

Lemma apply_delta_over_wire_correct_witness :
  exists S D stats,
    ChecksumEngine.generate_signature example_engine (map Z.of_nat (seq 0 40))
      (CSUM_LENGTH default_config) = Ok S
    /\ ChecksumEngine.generate_delta example_lib default_config example_engine S
         (map Z.of_nat (seq 3 30)) = Ok D
    /\ apply_delta_over_wire example_lib default_config (map Z.of_nat (seq 0 40))
         S D 31
       = WireOk (map Z.of_nat (seq 3 30), stats).
Proof.
  destruct (ChecksumEngine.generate_signature example_engine
              (map Z.of_nat (seq 0 40)) (CSUM_LENGTH default_config))
    as [S|e] eqn:ES; [|vm_compute in ES; discriminate].
  pose proof ES as ES'. vm_compute in ES'. inversion ES' as [HS]. clear ES'.
  destruct (ChecksumEngine.generate_delta example_lib default_config
              example_engine S (map Z.of_nat (seq 3 30)))
    as [D|e] eqn:ED; [|subst S; vm_compute in ED; discriminate].
  pose proof ED as ED'. rewrite <- HS in ED'. vm_compute in ED'.
  inversion ED' as [HD]. clear ED'.
  destruct (apply_delta_over_wire_correct example_lib default_config 16 NONE None 0
              example_engine (CSUM_LENGTH default_config)
              (map Z.of_nat (seq 0 40)) (map Z.of_nat (seq 3 30)) S D 31)
    as (out & Happly & _ & Hwire & _).
  - reflexivity.
  - vm_compute. congruence.
  - exact ES.
  - exact ED.
  - rewrite <- HS, <- HD. vm_compute. reflexivity.
  - vm_compute. congruence.
  - intros H. exfalso. revert H. vm_compute. congruence.
  - intros sum Hsum. rewrite <- HD in Hsum. vm_compute in Hsum.
    inversion Hsum. vm_compute. congruence.
  - assert (Hout : out = map Z.of_nat (seq 3 30)).
    { rewrite <- HD in Happly. vm_compute in Happly. vm_compute. congruence. }
    destruct (Hwire Hout) as (stats & Hw).
    exists S, D, stats. split; [exact ES|]. split; [exact ED|exact Hw].
Defined.


(** ** Protocol versions and the filter list *)

(** X19: protocol negotiation.  Two fresh managers, one for each end, that
    are told the other's version agree: both return the smaller of the two
    versions, or both raise ProtocolError, which happens exactly when that
    version lies outside 20..40.  The manager records the version also when
    it raises, and the maximum block size it then reports is the one
    [sum_sizes_sqroot] uses for that version.  A manager that is used again
    with a remote version equal to its own keeps the version it negotiated
    before. *)
Theorem negotiate_protocol_agrees (a b sub_a sub_b : Z) :
  let A := ProtocolVersionManager.negotiate_protocol
             (ProtocolVersionManager.init a) b sub_b in
  let B := ProtocolVersionManager.negotiate_protocol
             (ProtocolVersionManager.init b) a sub_a in
  A.2 = B.2
  /\ A.2 = (if (MIN_PROTOCOL_VERSION <=? Z.min a b)
               && (Z.min a b <=? MAX_PROTOCOL_VERSION)
            then Ok (Z.min a b) else Err ProtocolError)
  /\ ProtocolVersionManager._negotiated_protocol A.1 = Z.min a b
  /\ ProtocolVersionManager._negotiated_protocol B.1 = Z.min a b
  /\ ProtocolVersionManager.remote_protocol A.1 = b
  /\ ProtocolVersionManager.get_max_block_size A.1 = max_block_length (Z.min a b)
  /\ (forall sub, (ProtocolVersionManager.negotiate_protocol A.1 a sub).2
                  = (if (MIN_PROTOCOL_VERSION <=? Z.min a b)
                        && (Z.min a b <=? MAX_PROTOCOL_VERSION)
                     then Ok (Z.min a b) else Err ProtocolError)).
Proof.
  cbv zeta.
  assert (Hneg : forall self r sub,
            let n := if r >? ProtocolVersionManager.desired_protocol self
                     then ProtocolVersionManager.desired_protocol self
                     else if r <? ProtocolVersionManager.desired_protocol self then r
                          else ProtocolVersionManager._negotiated_protocol self in
            ProtocolVersionManager.negotiate_protocol self r sub
            = (ProtocolVersionManager.mk
                 (ProtocolVersionManager.desired_protocol self) n r
                 (ProtocolVersionManager.compat_flags self),
               if (MIN_PROTOCOL_VERSION <=? n) && (n <=? MAX_PROTOCOL_VERSION)
               then Ok n else Err ProtocolError)).
  { intros self r sub. cbv zeta. unfold ProtocolVersionManager.negotiate_protocol.
    change (negb (SUBPROTOCOL_VERSION =? 0)) with false. cbn [andb]. cbv zeta.
    match goal with
    | |- context [?n <? MIN_PROTOCOL_VERSION] =>
        destruct (Z.ltb_spec n MIN_PROTOCOL_VERSION);
        destruct (Z.gtb_spec n MAX_PROTOCOL_VERSION);
        destruct (Z.leb_spec MIN_PROTOCOL_VERSION n);
        destruct (Z.leb_spec n MAX_PROTOCOL_VERSION);
        try reflexivity; unfold MIN_PROTOCOL_VERSION, MAX_PROTOCOL_VERSION in *; lia
    end. }
  rewrite !Hneg. cbn [fst snd ProtocolVersionManager.init
                      ProtocolVersionManager.desired_protocol
                      ProtocolVersionManager._negotiated_protocol
                      ProtocolVersionManager.remote_protocol].
  assert (Ha : (if b >? a then a else if b <? a then b else a) = Z.min a b).
  { destruct (Z.gtb_spec b a); [lia|]. destruct (Z.ltb_spec b a); lia. }
  assert (Hb : (if a >? b then b else if a <? b then a else b) = Z.min a b).
  { destruct (Z.gtb_spec a b); [lia|]. destruct (Z.ltb_spec a b); lia. }
  rewrite Ha, Hb. split; [reflexivity|]. split; [reflexivity|].
  split; [reflexivity|]. split; [reflexivity|]. split; [reflexivity|].
  split.
  - unfold ProtocolVersionManager.get_max_block_size, max_block_length.
    cbn [ProtocolVersionManager._negotiated_protocol].
    destruct (Z.geb_spec (Z.min a b) 30); destruct (Z.ltb_spec (Z.min a b) 30);
      try reflexivity; lia.
  - intros sub. rewrite Hneg.
    cbn [snd ProtocolVersionManager.desired_protocol
         ProtocolVersionManager._negotiated_protocol].
    replace (if a >? a then a else if a <? a then a else Z.min a b)
      with (Z.min a b); [reflexivity|].
    destruct (Z.gtb_spec a a); [lia|]. destruct (Z.ltb_spec a a); [lia|reflexivity].
Qed.

Section FilterList.

Import ProtocolIO.

Context {str : Type} (encode : str -> option bytes) (decode : bytes -> str).

Lemma send_filter_rules_app (rules more : list str) (bs : list bytes) :
  Forall2 (fun rule b => encode rule = Some b) rules bs ->
  Forall sendable bs ->
  send_filter_rules encode (rules ++ more)
  = (tl ← send_filter_rules encode more; Ok (encode_rules bs ++ tl)).
Proof.
  induction 1 as [|rule b rules bs Hrule _ IH]; intros Hbs;
    cbn [app send_filter_rules].
  - destruct (send_filter_rules encode more); reflexivity.
  - inversion Hbs as [|? ? Hb Hbs']. subst.
    unfold sendable, IOBUFFER_SIZE in Hb.
    rewrite Hrule. cbn [of_option mbind result_bind].
    rewrite write_int_ok by lia. cbn [mbind result_bind]. rewrite (IH Hbs').
    destruct (send_filter_rules encode more) as [tl|]; [|reflexivity].
    cbn [mbind result_bind]. destruct (Z.eqb_spec (len b) 0); [lia|].
    cbn [negb]. unfold encode_rules. cbn [map concat].
    rewrite <- !app_assoc. reflexivity.
Qed.

Lemma recv_filter_loop_rules (bs : list bytes) :
  Forall sendable bs ->
  forall fuel acc tail,
    (length bs < fuel)%nat ->
    recv_filter_loop decode fuel acc (encode_rules bs ++ le_bytes 4 0 ++ tail)
    = Ok (acc ++ map decode bs, tail).
Proof.
  induction 1 as [|b bs Hb _ IH]; intros fuel acc tail Hf;
    (destruct fuel as [|fuel]; [cbn [length] in Hf; lia|]); cbn [recv_filter_loop].
  - cbn [encode_rules map concat app]. rewrite read_int_le_bytes by lia.
    cbn [mbind result_bind]. rewrite app_nil_r. reflexivity.
  - unfold sendable, IOBUFFER_SIZE in Hb.
    unfold encode_rules. cbn [map concat]. rewrite <- !app_assoc.
    rewrite read_int_le_bytes by lia. cbn [mbind result_bind].
    destruct (Z.eqb_spec (len b) 0); [lia|].
    destruct (Z.ltb_spec (len b) 0); [lia|]. cbn [negb].
    rewrite read_bytes_app by (unfold IOBUFFER_SIZE; lia).
    cbn [mbind result_bind]. fold (encode_rules bs).
    rewrite IH by (cbn [length] in Hf; lia).
    rewrite <- app_assoc. reflexivity.
Qed.

Lemma encode_rules_length (bs : list bytes) :
  (length bs <= length (encode_rules bs))%nat.
Proof.
  induction bs as [|b bs IH]; [cbn; lia|].
  unfold encode_rules in *. cbn [map concat length].
  rewrite !length_app. pose proof (len_le_bytes 4 (len b)) as H4.
  unfold len in *. lia.
Qed.

Lemma decoded_rules (rules : list str) (bs : list bytes) :
  Forall2 (fun rule b => encode rule = Some b) rules bs ->
  Forall (fun rule => decode <$> encode rule = Some rule) rules ->
  map decode bs = rules.
Proof.
  induction 1 as [|rule b rules bs Hrule _ IH]; intros Hinv; [reflexivity|].
  inversion Hinv as [|? ? Hr Hrest]. subst. rewrite Hrule in Hr.
  cbn in Hr. cbn [map]. rewrite (IH Hrest). congruence.
Qed.

End FilterList.

(** X20: the filter list on the wire.  For rules whose encodings [bs] are
    non-empty and of at most 64 KiB each, [send_filter_list_wire] returns and
    [recv_filter_list_wire] reads back, for every rule, the decoding of its
    encoding, stopping right behind the terminator; the list received is the
    list sent when decoding undoes the encoding on each rule.  A rule with an
    empty encoding is sent as a length of zero, which is the terminator: the
    receiver returns what precedes it and leaves the remainder of the list
    unread.  A rule that cannot be encoded makes the sender raise. *)
Theorem filter_list_roundtrip {str : Type} (encode : str -> option bytes)
        (decode : bytes -> str) (rules : list str) (bs : list bytes)
        (rest : bytes) :
  Forall2 (fun rule b => encode rule = Some b) rules bs ->
  Forall (fun b => 0 < len b <= ProtocolIO.IOBUFFER_SIZE) bs ->
  (exists w, send_filter_list_wire encode rules = Ok w
             /\ recv_filter_list_wire decode (w ++ rest)
                = Ok (map decode bs, rest)
             /\ (Forall (fun rule => decode <$> encode rule = Some rule) rules ->
                 recv_filter_list_wire decode (w ++ rest) = Ok (rules, rest)))
  /\ (forall rule more w,
        encode rule = Some [] ->
        send_filter_list_wire encode (rules ++ rule :: more) = Ok w ->
        exists tail,
          recv_filter_list_wire decode (w ++ rest) = Ok (map decode bs, tail)
          /\ len rest + 4 <= len tail)
  /\ (forall rule more,
        encode rule = None ->
        send_filter_list_wire encode (rules ++ rule :: more) = Err ValueError).
Proof.
  intros Hrules Hbs. split; [|split].
  - unfold send_filter_list_wire.
    pose proof (send_filter_rules_app encode rules [] bs Hrules Hbs) as Hsend.
    rewrite app_nil_r in Hsend. rewrite Hsend.
    cbn [send_filter_rules mbind result_bind]. rewrite app_nil_r.
    rewrite write_int_ok by lia. cbn [mbind result_bind].
    eexists. split; [reflexivity|].
    assert (Hrecv : recv_filter_list_wire decode
                      ((encode_rules bs ++ le_bytes 4 0) ++ rest)
                    = Ok (map decode bs, rest)).
    { unfold recv_filter_list_wire. rewrite <- app_assoc.
      rewrite (recv_filter_loop_rules decode bs Hbs); [reflexivity|].
      pose proof (encode_rules_length bs). rewrite !length_app. lia. }
    split; [exact Hrecv|]. intros Hinv. rewrite Hrecv.
    rewrite (decoded_rules encode decode rules bs Hrules Hinv). reflexivity.
  - intros rule more w Hrule Hw. unfold send_filter_list_wire in Hw.
    rewrite (send_filter_rules_app encode rules (rule :: more) bs Hrules Hbs)
      in Hw.
    cbn [send_filter_rules] in Hw. rewrite Hrule in Hw.
    cbn [of_option mbind result_bind] in Hw.
    change (len (@nil Z)) with 0 in Hw.
    rewrite !write_int_ok in Hw by lia. cbn [mbind result_bind] in Hw.
    destruct (send_filter_rules encode more) as [tl|]; [|discriminate].
    cbn [mbind result_bind] in Hw. change (negb (0 =? 0)) with false in Hw.
    cbv iota in Hw. rewrite app_nil_l in Hw.
    assert (w = (encode_rules bs ++ le_bytes 4 0 ++ tl) ++ le_bytes 4 0) as ->
      by congruence.
    clear Hw.
    exists (tl ++ le_bytes 4 0 ++ rest). split.
    + unfold recv_filter_list_wire. rewrite <- !app_assoc.
      rewrite (recv_filter_loop_rules decode bs Hbs); [reflexivity|].
      pose proof (encode_rules_length bs). rewrite !length_app. lia.
    + rewrite !len_app, len_le_bytes. pose proof (len_nonneg tl). lia.
  - intros rule more Hrule. unfold send_filter_list_wire.
    rewrite (send_filter_rules_app encode rules (rule :: more) bs Hrules Hbs).
    cbn [send_filter_rules]. rewrite Hrule. reflexivity.
Qed.

Lemma filter_list_roundtrip_witness :
  exists w,
    send_filter_list_wire ascii_encode [[45; 32; 42; 46; 111]; [43; 32; 47]]
    = Ok w
    /\ recv_filter_list_wire ascii_decode (w ++ [9])
       = Ok ([[45; 32; 42; 46; 111]; [43; 32; 47]], [9]).
Proof.
  destruct (filter_list_roundtrip ascii_encode ascii_decode
              [[45; 32; 42; 46; 111]; [43; 32; 47]]
              [[45; 32; 42; 46; 111]; [43; 32; 47]] [9])
    as [(w & Hsend & Hrecv & _) _].
  - repeat constructor.
  - repeat constructor; vm_compute; congruence.
  - exists w. split; [exact Hsend|exact Hrecv].
Defined.

Section CommonPrefix.

Lemma common_prefix_loop_spec (a b : bytes) (n : Z) :
  n <= len a -> n <= len b ->
  forall fuel i,
    0 <= i <= n -> n - i <= Z.of_nat fuel ->
    take (Z.to_nat i) a = take (Z.to_nat i) b ->
    exists r,
      common_prefix_loop fuel a b n i = Ok r
      /\ i <= r <= n
      /\ take (Z.to_nat r) a = take (Z.to_nat r) b
      /\ (r < n -> a !! Z.to_nat r <> b !! Z.to_nat r).
Proof.
  intros Ha Hb. induction fuel as [|fuel IH]; intros i Hi Hf Hpre.
  - assert (i = n) by lia. subst i. cbn [common_prefix_loop].
    rewrite Z.ltb_irrefl. exists n. split; [reflexivity|].
    split; [lia|]. split; [exact Hpre|lia].
  - cbn [common_prefix_loop]. destruct (Z.ltb_spec i n) as [Hlt|Hge].
    + destruct (lookup_lt_is_Some_2 a (Z.to_nat i)) as [x Hx];
        [unfold len in *; lia|].
      destruct (lookup_lt_is_Some_2 b (Z.to_nat i)) as [y Hy];
        [unfold len in *; lia|].
      assert (Hgx : getitem a i = Ok x).
      { unfold getitem.
        replace ((0 <=? i) && (i <? len a)) with true
          by (symmetry; apply andb_true_iff; lia).
        rewrite Hx. reflexivity. }
      assert (Hgy : getitem b i = Ok y).
      { unfold getitem.
        replace ((0 <=? i) && (i <? len b)) with true
          by (symmetry; apply andb_true_iff; lia).
        rewrite Hy. reflexivity. }
      rewrite Hgx, Hgy. cbn [mbind result_bind].
      destruct (Z.eqb_spec x y) as [->|Hne].
      * destruct (IH (i + 1)) as (r & Hr & Hrange & Htake & Hstop); [lia|lia| |].
        { replace (Z.to_nat (i + 1)) with (S (Z.to_nat i)) by lia.
          rewrite (take_S_r _ _ _ Hx), (take_S_r _ _ _ Hy), Hpre. reflexivity. }
        exists r. split; [exact Hr|]. split; [lia|]. split; [exact Htake|exact Hstop].
      * exists i. split; [reflexivity|]. split; [lia|]. split; [exact Hpre|].
        intros _. rewrite Hx, Hy. congruence.
    + exists i. split; [reflexivity|]. split; [lia|]. split; [exact Hpre|lia].
Qed.

End CommonPrefix.

(** X21: [_common_prefix_len_upto_255] returns the length of the longest
    common prefix of its two arguments, capped at 255: the two strings agree
    on that many leading bytes, and when the result is below 255 and below
    both lengths the next bytes differ. *)
Theorem common_prefix_len_correct (a b : bytes) :
  exists r,
    _common_prefix_len_upto_255 a b = Ok r
    /\ 0 <= r <= 255 /\ r <= len a /\ r <= len b
    /\ take (Z.to_nat r) a = take (Z.to_nat r) b
    /\ (r < 255 -> r < len a -> r < len b ->
        a !! Z.to_nat r <> b !! Z.to_nat r).
Proof.
  unfold _common_prefix_len_upto_255. cbv zeta.
  pose proof (len_nonneg a). pose proof (len_nonneg b).
  set (n := Z.min (Z.min (len a) (len b)) 255).
  destruct (common_prefix_loop_spec a b n ltac:(lia) ltac:(lia) 255 0)
    as (r & Hr & Hrange & Htake & Hstop); [lia|lia|reflexivity|].
  exists r. split; [exact Hr|]. split; [lia|]. split; [lia|]. split; [lia|].
  split; [exact Htake|]. intros H1 H2 H3. apply Hstop. lia.
Qed.

(** X22: which engines can be built.  [ChecksumEngine(block_size, ...)]
    raises ValidationError exactly when the block size lies outside
    [16, max] for the maximum block size of the protocol version (8192
    before protocol 30, 131072 from it on; version 32 without a manager); for
    an accepted block size it raises struct.error exactly when the checksum
    type is MD4, MD5, SHA1 or SHA256 and the seed is neither zero nor an
    unsigned 32-bit integer; otherwise it returns an engine with the given
    attributes. *)
Theorem engine_init_cases (lib : HashLib) (cfg : Config) (bs : Z)
        (ct : ChecksumType) (pm : option Z) (seed : Z) :
  let P := default PROTOCOL_VERSION pm in
  let packs := match ct with
               | MD4 | MD5 | SHA1 | SHA256 => true
               | _ => false
               end in
  match ChecksumEngine.init lib cfg bs ct pm seed with
  | Ok self =>
      16 <= bs <= max_block_length P
      /\ (packs = true -> seed = 0 \/ 0 <= seed < 2 ^ 32)
      /\ ChecksumEngine.block_size self = bs
      /\ ChecksumEngine.checksum_type self = ct
      /\ ChecksumEngine.protocol_manager self = pm
      /\ ChecksumEngine.checksum_seed self = seed
  | Err e =>
      (e = ValidationError /\ ~ 16 <= bs <= max_block_length P)
      \/ (e = StructError /\ 16 <= bs <= max_block_length P
          /\ packs = true /\ seed <> 0 /\ ~ 0 <= seed < 2 ^ 32)
  end.
Proof.
  cbv zeta. unfold ChecksumEngine.init, validate_block_size. cbv zeta.
  fold (max_block_length (default PROTOCOL_VERSION pm)).
  assert (Hmax : max_block_length (default PROTOCOL_VERSION pm) <= 131072).
  { unfold max_block_length, OLD_MAX_BLOCK_SIZE, MAX_BLOCK_SIZE.
    destruct (_ <? 30); lia. }
  unfold MIN_BLOCK_SIZE_LIMIT, MAX_BLOCK_SIZE_LIMIT, MAX_BLOCK_SIZE in *.
  destruct (Z.leb_spec bs 0); [left; split; [reflexivity|lia]|].
  destruct (Z.ltb_spec bs 16); [left; split; [reflexivity|lia]|].
  destruct (Z.gtb_spec bs (max_block_length (default PROTOCOL_VERSION pm)));
    [left; split; [reflexivity|lia]|].
  destruct (Z.gtb_spec bs (131072 * 10)); [lia|].
  cbn [mbind result_bind].
  unfold ChecksumRegistry.get_checksum_function, pack_u32.
  destruct (Z.eqb_spec seed 0) as [Hz|Hnz];
    [|destruct (Z.leb_spec 0 seed); destruct (Z.ltb_spec seed (2 ^ 32))];
    cbn [andb]; destruct ct; cbn [mbind result_bind];
    try destruct (PROPER_SEED_ORDER cfg);
    cbn [ChecksumEngine.block_size ChecksumEngine.checksum_type
         ChecksumEngine.protocol_manager ChecksumEngine.checksum_seed];
    first [ right; repeat split; (reflexivity || lia)
          | repeat split; (reflexivity || lia || (intros; lia)
                           || (intros; discriminate)) ].
Qed.


(** ** The circular buffer is a queue *)

Section ListIndex.

Context {A : Type}.

Lemma nth_app_if (l1 l2 : list A) (i : nat) (d : A) :
  nth i (l1 ++ l2) d
  = if (i <? length l1)%nat then nth i l1 d else nth (i - length l1) l2 d.
Proof.
  destruct (Nat.ltb_spec i (length l1)).
  - apply app_nth1. assumption.
  - apply app_nth2. lia.
Qed.

Lemma nth_take_if (l : list A) (n i : nat) (d : A) :
  nth i (take n l) d = if (i <? n)%nat then nth i l d else d.
Proof.
  revert n i. induction l as [|x l IH]; intros n i.
  - rewrite take_nil. destruct i; destruct (_ <? _)%nat; reflexivity.
  - destruct n as [|n]; [destruct i; reflexivity|].
    destruct i as [|i]; [reflexivity|]. cbn [take nth]. rewrite IH.
    reflexivity.
Qed.

Lemma nth_drop (l : list A) (n i : nat) (d : A) :
  nth i (drop n l) d = nth (n + i) l d.
Proof.
  revert l. induction n as [|n IH]; intros l; [reflexivity|].
  destruct l as [|x l]; [destruct i; reflexivity|]. cbn [drop Nat.add nth].
  apply IH.
Qed.

End ListIndex.

(** Decides an equation between lists built from [take], [drop] and [++]
    by comparing them index by index. *)
Ltac list_lengths :=
  repeat first [ rewrite length_app | rewrite length_take | rewrite length_drop ].

Ltac list_lengths_in H :=
  repeat first [ rewrite length_app in H | rewrite length_take in H
               | rewrite length_drop in H ].

Ltac index_cases :=
  lazymatch goal with
  | |- context [(?a <? ?b)%nat] =>
      destruct (Nat.ltb_spec a b); try (exfalso; lia); index_cases
  | _ => idtac
  end.

Ltac list_index_eq :=
  apply (nth_ext _ _ 0 0);
  [ list_lengths; lia
  | let i := fresh "i" in
    let Hi := fresh "Hi" in
    intros i Hi; list_lengths_in Hi;
    repeat first [ rewrite nth_app_if | rewrite nth_take_if | rewrite nth_drop
                 | rewrite length_app | rewrite length_take | rewrite length_drop ];
    index_cases;
    first [ lia | reflexivity | f_equal; lia ] ].

(** The ring read from position [p]: consuming and appending, with and
    without wrap-around. *)
Section Ring.

Variable buf : bytes.
Variables p l : nat.
Hypothesis Hp : (p < length buf)%nat.
Hypothesis Hl : (l <= length buf)%nat.

Lemma ring_peek_wrap (m : nat) :
  (m <= length buf)%nat -> (length buf < p + m)%nat ->
  take (length buf - p) (drop p buf) ++ take (p + m - length buf) (drop 0 buf)
  = take m (drop p buf ++ take p buf).
Proof. clear Hl. intros. list_index_eq. Qed.

Lemma ring_consume_nowrap (k : nat) :
  (k <= l)%nat -> (p + k < length buf)%nat ->
  take (l - k) (drop (p + k) buf ++ take (p + k) buf)
  = drop k (take l (drop p buf ++ take p buf)).
Proof. intros. list_index_eq. Qed.

Lemma ring_consume_wrap (k : nat) :
  (k <= l)%nat -> (length buf <= p + k)%nat ->
  take (l - k) (drop (p + k - length buf) buf ++ take (p + k - length buf) buf)
  = drop k (take l (drop p buf ++ take p buf)).
Proof. intros. list_index_eq. Qed.

Lemma ring_append_flat (d : bytes) :
  (p + l + length d <= length buf)%nat ->
  take (l + length d)
       (drop p (take (p + l) buf ++ d ++ drop (p + l + length d) buf)
        ++ take p (take (p + l) buf ++ d ++ drop (p + l + length d) buf))
  = take l (drop p buf ++ take p buf) ++ d.
Proof. intros. list_index_eq. Qed.

Lemma ring_append_split (d : bytes) :
  (p + l <= length buf)%nat -> (length buf < p + l + length d)%nat ->
  (l + length d <= length buf)%nat ->
  let f := (length buf - (p + l))%nat in
  let buf1 := take (p + l) buf ++ take f d in
  let buf2 := drop f d ++ drop (length d - f) buf1 in
  take (l + length d) (drop p buf2 ++ take p buf2)
  = take l (drop p buf ++ take p buf) ++ d.
Proof. intros H1 H2 H3 f buf1 buf2. subst buf2 buf1 f. list_index_eq. Qed.

Lemma ring_append_behind (d : bytes) :
  (length buf <= p + l)%nat -> (l + length d <= length buf)%nat ->
  let e := (p + l - length buf)%nat in
  take (l + length d)
       (drop p (take e buf ++ d ++ drop (e + length d) buf)
        ++ take p (take e buf ++ d ++ drop (e + length d) buf))
  = take l (drop p buf ++ take p buf) ++ d.
Proof. intros H1 H2 e. subst e. list_index_eq. Qed.

End Ring.

Section Queue.

Lemma py_slice_assign_inrange (b : bytes) (lo hi : Z) (data : bytes) :
  0 <= lo <= hi -> hi <= len b ->
  py_slice_assign b lo hi data
  = take (Z.to_nat lo) b ++ data ++ drop (Z.to_nat hi) b.
Proof.
  intros H1 H2. unfold py_slice_assign. cbv zeta.
  rewrite !slice_bound_inrange by lia. rewrite Z.max_r by lia. reflexivity.
Qed.

(** The attributes of a buffer as natural numbers. *)
Lemma wf_nat (self : IOBuffer.t) :
  IOBuffer.wf self ->
  (Z.to_nat (IOBuffer.pos self) < length (IOBuffer.buf self))%nat
  /\ (Z.to_nat (IOBuffer.len self) <= length (IOBuffer.buf self))%nat
  /\ IOBuffer.size self = Z.of_nat (length (IOBuffer.buf self))
  /\ IOBuffer.pos self = Z.of_nat (Z.to_nat (IOBuffer.pos self))
  /\ IOBuffer.len self = Z.of_nat (Z.to_nat (IOBuffer.len self)).
Proof. intros (Hsize & Hbuf & Hpos & Hlen). lia. Qed.

(** [IOBuffer.peek] reads the ring from the read position. *)
Lemma peek_ring (self : IOBuffer.t) (n : Z) :
  IOBuffer.wf self -> 0 <= n ->
  IOBuffer.peek self n
  = take (Z.to_nat (Z.min n (IOBuffer.len self)))
         (drop (Z.to_nat (IOBuffer.pos self)) (IOBuffer.buf self)
          ++ take (Z.to_nat (IOBuffer.pos self)) (IOBuffer.buf self)).
Proof.
  intros Hwf Hn. pose proof Hwf as (Hsize & Hbuf & Hpos & Hlen).
  destruct (wf_nat self Hwf) as (Hp & Hl & HN & Hpz & Hlz).
  unfold IOBuffer.peek. cbv zeta.
  assert (Hm : (if n >? IOBuffer.len self then IOBuffer.len self else n) = Z.min n (IOBuffer.len self))
    by (destruct (Z.gtb_spec n (IOBuffer.len self)); lia).
  rewrite Hm. set (m := Z.min n (IOBuffer.len self)).
  assert (Hmr : 0 <= m <= IOBuffer.size self) by (unfold m; lia).
  destruct (Z.gtb_spec (IOBuffer.pos self + m) (IOBuffer.size self)).
  - rewrite !py_slice_window by (unfold len; lia).
    replace (Z.to_nat (IOBuffer.size self - IOBuffer.pos self))
      with (length (IOBuffer.buf self) - Z.to_nat (IOBuffer.pos self))%nat by lia.
    replace (Z.to_nat (IOBuffer.pos self + m - IOBuffer.size self - 0))
      with (Z.to_nat (IOBuffer.pos self) + Z.to_nat m - length (IOBuffer.buf self))%nat by lia.
    change (Z.to_nat 0) with 0%nat.
    apply ring_peek_wrap; lia.
  - rewrite py_slice_window by (unfold len; lia).
    replace (Z.to_nat (IOBuffer.pos self + m - IOBuffer.pos self)) with (Z.to_nat m) by lia.
    symmetry. apply take_app_le. rewrite length_drop. lia.
Qed.

Lemma contents_ring (self : IOBuffer.t) :
  IOBuffer.wf self ->
  IOBuffer.contents self
  = take (Z.to_nat (IOBuffer.len self))
         (drop (Z.to_nat (IOBuffer.pos self)) (IOBuffer.buf self)
          ++ take (Z.to_nat (IOBuffer.pos self)) (IOBuffer.buf self)).
Proof.
  intros Hwf. unfold IOBuffer.contents. pose proof Hwf as (_ & _ & _ & Hlen).
  rewrite peek_ring by (exact Hwf || lia).
  rewrite Z.min_id. reflexivity.
Qed.

Lemma contents_length (self : IOBuffer.t) :
  IOBuffer.wf self -> len (IOBuffer.contents self) = IOBuffer.len self.
Proof.
  intros Hwf. rewrite contents_ring by exact Hwf.
  destruct Hwf as (Hsize & Hbuf & Hpos & Hlen).
  unfold len. list_lengths. lia.
Qed.

Lemma consume_queue (self : IOBuffer.t) (n : Z) :
  IOBuffer.wf self -> 0 <= n <= IOBuffer.len self ->
  exists self',
    IOBuffer.consume self n = Done self' /\ IOBuffer.wf self'
    /\ IOBuffer.contents self' = drop (Z.to_nat n) (IOBuffer.contents self).
Proof.
  intros Hwf Hn. pose proof Hwf as (Hsize & Hbuf & Hpos & Hlen).
  destruct (wf_nat self Hwf) as (Hp & Hl & HN & Hpz & Hlz).
  unfold IOBuffer.consume. destruct (Z.eqb_spec (IOBuffer.size self) 0); [lia|].
  eexists. split; [reflexivity|].
  pose proof (Z.mod_pos_bound (IOBuffer.pos self + n) (IOBuffer.size self) Hsize) as Hmod.
  assert (Hwf' : IOBuffer.wf (IOBuffer.mk (IOBuffer.size self) (IOBuffer.buf self) ((IOBuffer.pos self + n) mod IOBuffer.size self)
                        (IOBuffer.len self - n))).
  { unfold IOBuffer.wf. cbn [IOBuffer.size IOBuffer.buf IOBuffer.pos IOBuffer.len]. repeat split; lia. }
  split; [exact Hwf'|].
  rewrite (contents_ring _ Hwf'), (contents_ring _ Hwf). cbn [IOBuffer.size IOBuffer.buf IOBuffer.pos IOBuffer.len].
  replace (Z.to_nat (IOBuffer.len self - n))
    with (Z.to_nat (IOBuffer.len self) - Z.to_nat n)%nat by lia.
  destruct (Z.lt_ge_cases (IOBuffer.pos self + n) (IOBuffer.size self)) as [Hlt|Hge].
  - rewrite Z.mod_small by lia.
    replace (Z.to_nat (IOBuffer.pos self + n))
      with (Z.to_nat (IOBuffer.pos self) + Z.to_nat n)%nat by lia.
    apply ring_consume_nowrap; lia.
  - assert (Hm : (IOBuffer.pos self + n) mod IOBuffer.size self = IOBuffer.pos self + n - IOBuffer.size self).
    { symmetry. apply (Z.mod_unique _ _ 1); lia. }
    rewrite Hm.
    replace (Z.to_nat (IOBuffer.pos self + n - IOBuffer.size self))
      with (Z.to_nat (IOBuffer.pos self) + Z.to_nat n - length (IOBuffer.buf self))%nat by lia.
    apply ring_consume_wrap; lia.
Qed.

Lemma append_queue (self : IOBuffer.t) (data : bytes) :
  IOBuffer.wf self -> len data <= IOBuffer.size self - IOBuffer.len self ->
  exists self',
    IOBuffer.append self data = Done self' /\ IOBuffer.wf self'
    /\ IOBuffer.contents self' = IOBuffer.contents self ++ data.
Proof.
  intros Hwf Hfit. pose proof Hwf as (Hsize & Hbuf & Hpos & Hlen).
  destruct (wf_nat self Hwf) as (Hp & Hl & HN & Hpz & Hlz).
  unfold IOBuffer.append. cbv zeta. fold (len data).
  pose proof (len_nonneg data) as Hd.
  assert (Hdn : len data = Z.of_nat (length data)) by reflexivity.
  destruct (Z.eqb_spec (len data) 0) as [Hz|Hnz].
  { exists self. split; [reflexivity|]. split; [exact Hwf|].
    destruct data; [rewrite app_nil_r; reflexivity|].
    cbn [length] in Hdn. lia. }
  destruct (Z.gtb_spec (len data) (IOBuffer.size self - IOBuffer.len self)); [lia|].
  destruct (Z.eqb_spec (IOBuffer.size self) 0); [lia|].
  eexists. split; [reflexivity|].
  set (e := (IOBuffer.pos self + IOBuffer.len self) mod IOBuffer.size self).
  destruct (Z.lt_ge_cases (IOBuffer.pos self + IOBuffer.len self) (IOBuffer.size self)) as [Hlt|Hge].
  - assert (He : e = IOBuffer.pos self + IOBuffer.len self) by (apply Z.mod_small; lia).
    destruct (Z.le_gt_cases (len data) (IOBuffer.size self - e)) as [Hone|Htwo].
    + rewrite Z.min_l by lia. rewrite Z.sub_diag. cbn [Z.eqb negb].
      rewrite py_slice_assign_inrange by (unfold len; lia).
      rewrite py_slice_full.
      replace (Z.to_nat e)
        with (Z.to_nat (IOBuffer.pos self) + Z.to_nat (IOBuffer.len self))%nat by lia.
      replace (Z.to_nat (e + len data))
        with (Z.to_nat (IOBuffer.pos self) + Z.to_nat (IOBuffer.len self) + length data)%nat by lia.
      match goal with |- IOBuffer.wf ?s /\ _ => assert (Hwf' : IOBuffer.wf s) end.
      { unfold IOBuffer.wf. cbn [IOBuffer.size IOBuffer.buf IOBuffer.pos IOBuffer.len].
        split; [lia|]. split; [list_lengths; lia|]. lia. }
      split; [exact Hwf'|].
      rewrite (contents_ring _ Hwf'), (contents_ring _ Hwf).
      cbn [IOBuffer.size IOBuffer.buf IOBuffer.pos IOBuffer.len].
      replace (Z.to_nat (IOBuffer.len self + len data))
        with (Z.to_nat (IOBuffer.len self) + length data)%nat by lia.
      apply ring_append_flat; lia.
    + rewrite Z.min_r by lia.
      destruct (Z.eqb_spec (len data - (IOBuffer.size self - e)) 0); [lia|].
      cbn [negb].
      rewrite (py_slice_assign_inrange (IOBuffer.buf self)) by (unfold len; lia).
      rewrite py_slice_take by lia.
      rewrite (py_slice_window data) by lia.
      replace (Z.to_nat (e + (IOBuffer.size self - e))) with (length (IOBuffer.buf self)) by lia.
      rewrite (drop_ge (IOBuffer.buf self) (length (IOBuffer.buf self))) by lia.
      rewrite app_nil_r.
      replace (Z.to_nat (IOBuffer.size self - e + (len data - (IOBuffer.size self - e))
                         - (IOBuffer.size self - e)))
        with (length data - Z.to_nat (IOBuffer.size self - e))%nat by lia.
      rewrite (take_ge (drop _ data)) by (rewrite length_drop; lia).
      replace (Z.to_nat e)
        with (Z.to_nat (IOBuffer.pos self) + Z.to_nat (IOBuffer.len self))%nat by lia.
      replace (Z.to_nat (IOBuffer.size self - e))
        with (length (IOBuffer.buf self)
              - (Z.to_nat (IOBuffer.pos self) + Z.to_nat (IOBuffer.len self)))%nat by lia.
      set (f := (length (IOBuffer.buf self)
                 - (Z.to_nat (IOBuffer.pos self) + Z.to_nat (IOBuffer.len self)))%nat).
      set (buf1 := take (Z.to_nat (IOBuffer.pos self) + Z.to_nat (IOBuffer.len self)) (IOBuffer.buf self)
                   ++ take f data).
      assert (Hb1 : length buf1 = length (IOBuffer.buf self)).
      { unfold buf1, f. list_lengths. lia. }
      rewrite py_slice_assign_inrange by (unfold len; lia).
      change (Z.to_nat 0) with 0%nat. rewrite take_0, app_nil_l.
      replace (Z.to_nat (len data - (IOBuffer.size self - e)))
        with (length data - f)%nat by (unfold f; lia).
      match goal with |- IOBuffer.wf ?s /\ _ => assert (Hwf' : IOBuffer.wf s) end.
      { unfold IOBuffer.wf. cbn [IOBuffer.size IOBuffer.buf IOBuffer.pos IOBuffer.len].
        split; [lia|]. split; [list_lengths; unfold f in *; lia|]. lia. }
      split; [exact Hwf'|].
      rewrite (contents_ring _ Hwf'), (contents_ring _ Hwf).
      cbn [IOBuffer.size IOBuffer.buf IOBuffer.pos IOBuffer.len].
      replace (Z.to_nat (IOBuffer.len self + len data))
        with (Z.to_nat (IOBuffer.len self) + length data)%nat by lia.
      apply ring_append_split; lia.
  - assert (He : e = IOBuffer.pos self + IOBuffer.len self - IOBuffer.size self).
    { symmetry. apply (Z.mod_unique _ _ 1); lia. }
    rewrite Z.min_l by lia. rewrite Z.sub_diag. cbn [Z.eqb negb].
    rewrite py_slice_assign_inrange by (unfold len; lia).
    rewrite py_slice_full.
    replace (Z.to_nat (e + len data))
      with (Z.to_nat e + length data)%nat by lia.
    replace (Z.to_nat e)
      with (Z.to_nat (IOBuffer.pos self) + Z.to_nat (IOBuffer.len self) - length (IOBuffer.buf self))%nat
      by lia.
    match goal with |- IOBuffer.wf ?s /\ _ => assert (Hwf' : IOBuffer.wf s) end.
    { unfold IOBuffer.wf. cbn [IOBuffer.size IOBuffer.buf IOBuffer.pos IOBuffer.len].
      split; [lia|]. split; [list_lengths; lia|]. lia. }
    split; [exact Hwf'|].
    rewrite (contents_ring _ Hwf'), (contents_ring _ Hwf).
    cbn [IOBuffer.size IOBuffer.buf IOBuffer.pos IOBuffer.len].
    replace (Z.to_nat (IOBuffer.len self + len data))
      with (Z.to_nat (IOBuffer.len self) + length data)%nat by lia.
    apply ring_append_behind; lia.
Qed.

End Queue.

(** X23: the circular buffer is a queue.  A buffer of positive size whose
    read position and fill level are within bounds holds [len] bytes;
    [peek(n)] returns the first [n] of them, [append(data)] adds the data
    behind them when it fits into the free space and raises BufferError
    (changing nothing) when it does not, and [consume(n)] drops the first [n]
    of them, wherever the data wraps around the end of the buffer; the
    operations keep the position and the fill level within bounds.  A new
    buffer is empty. *)
Theorem io_buffer_queue (self : IOBuffer.t) :
  IOBuffer.wf self ->
  len (IOBuffer.contents self) = IOBuffer.len self
  /\ (forall n, 0 <= n ->
        IOBuffer.peek self n = take (Z.to_nat n) (IOBuffer.contents self))
  /\ (forall data,
        len data <= IOBuffer.size self - IOBuffer.len self ->
        exists self',
          IOBuffer.append self data = Done self' /\ IOBuffer.wf self'
          /\ IOBuffer.contents self' = IOBuffer.contents self ++ data)
  /\ (forall data,
        IOBuffer.size self - IOBuffer.len self < len data ->
        IOBuffer.append self data = Fails BufferError)
  /\ (forall n,
        0 <= n <= IOBuffer.len self ->
        exists self',
          IOBuffer.consume self n = Done self' /\ IOBuffer.wf self'
          /\ IOBuffer.contents self' = drop (Z.to_nat n) (IOBuffer.contents self))
  /\ (forall bufsize,
        0 < bufsize ->
        IOBuffer.wf (IOBuffer.init bufsize)
        /\ IOBuffer.contents (IOBuffer.init bufsize) = []).
Proof.
  intros Hwf. pose proof Hwf as (Hsize & Hbuf & Hpos & Hlen).
  split; [apply contents_length; exact Hwf|].
  split.
  { intros n Hn. rewrite peek_ring by assumption.
    rewrite contents_ring by exact Hwf. rewrite take_take. f_equal. lia. }
  split; [intros data Hd; apply append_queue; assumption|].
  split.
  { intros data Hd. unfold IOBuffer.append. cbv zeta. fold (len data).
    destruct (Z.eqb_spec (len data) 0); [lia|].
    destruct (Z.gtb_spec (len data) (IOBuffer.size self - IOBuffer.len self));
      [reflexivity|lia]. }
  split; [intros n Hn; apply consume_queue; assumption|].
  intros bufsize Hb.
  assert (Hw : IOBuffer.wf (IOBuffer.init bufsize)).
  { unfold IOBuffer.wf, IOBuffer.init.
    cbn [IOBuffer.size IOBuffer.buf IOBuffer.pos IOBuffer.len].
    rewrite length_replicate. lia. }
  split; [exact Hw|]. rewrite contents_ring by exact Hw. reflexivity.
Qed.

Lemma io_buffer_queue_witness :
  exists b1 b2 b3,
    IOBuffer.append (IOBuffer.init 4) [1; 2; 3] = Done b1
    /\ IOBuffer.consume b1 2 = Done b2
    /\ IOBuffer.append b2 [4; 5; 6] = Done b3
    /\ IOBuffer.contents b3 = [3; 4; 5; 6]
    /\ IOBuffer.buf b3 = [5; 6; 3; 4].
Proof.
  assert (Hw0 : IOBuffer.wf (IOBuffer.init 4))
    by (repeat split; vm_compute; congruence).
  destruct (io_buffer_queue (IOBuffer.init 4) Hw0) as (_ & _ & Happ & _).
  destruct (Happ [1; 2; 3]) as (b1 & H1 & Hw1 & Hc1); [vm_compute; try split; congruence|].
  pose proof H1 as H1'. vm_compute in H1'. injection H1' as <-.
  destruct (io_buffer_queue _ Hw1) as (_ & _ & _ & _ & Hcons & _).
  destruct (Hcons 2) as (b2 & H2 & Hw2 & Hc2); [vm_compute; try split; congruence|].
  pose proof H2 as H2'. vm_compute in H2'. injection H2' as <-.
  destruct (io_buffer_queue _ Hw2) as (_ & _ & Happ2 & _).
  destruct (Happ2 [4; 5; 6]) as (b3 & H3 & Hw3 & Hc3); [vm_compute; try split; congruence|].
  pose proof H3 as H3'. vm_compute in H3'. injection H3' as <-.
  eexists _, _, _. split; [exact H1|]. split; [exact H2|]. split; [exact H3|].
  split; reflexivity.
Defined.

